(** * NeMo spiking-network simulator: shallow embedding and verified properties

    The development follows the C++ sources of the simulator:
    - [libnemo/nemo/cpu/Simulation.cpp] (CPU backend: spike delivery, neuron
      update, firing history),
    - [libnemo/nemo/ConnectivityMatrix.cpp] (run-time forward matrix of the
      CPU backend),
    - [libnemo/src/ConnectivityMatrix.cpp] (construction-time matrix of the
      CUDA backend, fixed-point format selection),
    - [libnemo/src/CudaSimulation.cpp], [libnemo/src/RuntimeData.cpp]
      (host side of the CUDA backend: cycle counter, STDP application).

    Machine integers are integers of [Z] with the wrap-around written out,
    C++ vectors are lists with stdpp's lookup and insert, [std::map] is
    [gmap], and a function that can throw returns the state it had reached
    together with a [status]. *)

From Stdlib Require Import ZArith QArith Qround Lia Bool List.
From stdpp Require Import base option list gmap sorting.

Local Open Scope Z_scope.

(* ===================================================================== *)
(** * Errors and exception-passing state transformers *)
(* ===================================================================== *)

(** The error codes of [nemo/types.h], together with the standard C++
    exceptions that the modelled functions raise directly. *)
Inductive nemo_error :=
| NEMO_API_UNSUPPORTED
| NEMO_INVALID_INPUT
| NEMO_LOGIC_ERROR
| STD_OUT_OF_RANGE        (* std::vector::at *)
| STD_OVERFLOW_ERROR      (* std::overflow_error *)
| STD_RUNTIME_ERROR       (* std::runtime_error *)
| STD_LOGIC_ERROR         (* std::logic_error *)
| KERNEL_INVOCATION_ERROR (* KernelInvocationError *)
| DEVICE_ASSERTION_ERROR. (* raised by DeviceAssertions::check *)

(** How a call ended.  [OutOfFuel] is the only artefact of the embedding: it
    marks a loop that was not finished within its iteration budget, or that
    cannot finish at all; the theorems below show that it is never produced
    on well-formed states. *)
Inductive status :=
| Returned
| Thrown (e : nemo_error)
| OutOfFuel.

(** A method of a C++ object with state [St]: it ends with a status and
    leaves the object in some state, also when it throws. *)
Definition method (St : Type) : Type := St -> status * St.

Definition andThen {St} (f g : method St) : method St :=
  fun s => match f s with
           | (Returned, s') => g s'
           | r => r
           end.

Definition pureStep {St} (f : St -> St) : method St :=
  fun s => (Returned, f s).

Definition throw {St} (e : nemo_error) : method St :=
  fun s => (Thrown e, s).

(** A [for] loop over the elements of a list; it ends at the first body
    that does not return. *)
Fixpoint forEach {A St} (l : list A) (body : A -> method St) : method St :=
  match l with
  | [] => pureStep (fun s => s)
  | x :: rest => andThen (body x) (forEach rest body)
  end.

Declare Scope method_scope.
Delimit Scope method_scope with method.
Notation "f '>>>' g" := (andThen f g)
  (at level 100, right associativity) : method_scope.

Lemma andThen_returned {St} (f g : method St) s s' :
  f s = (Returned, s') -> andThen f g s = g s'.
Proof. unfold andThen. intros ->. reflexivity. Qed.

Lemma andThen_inv {St} (f g : method St) s s2 :
  andThen f g s = (Returned, s2) ->
  exists s1, f s = (Returned, s1) /\ g s1 = (Returned, s2).
Proof.
  unfold andThen. destruct (f s) as [[| e |] s1] eqn:E; intros H;
    try discriminate. eauto.
Qed.

Lemma andThen_ext {St} (f g1 g2 : method St) s :
  (forall s', g1 s' = g2 s') -> andThen f g1 s = andThen f g2 s.
Proof.
  intros Hg. unfold andThen. destruct (f s) as [[| e |] s']; auto.
Qed.

Lemma andThen_ext_l {St} (f1 f2 g : method St) s :
  f1 s = f2 s -> andThen f1 g s = andThen f2 g s.
Proof. unfold andThen. now intros ->. Qed.

Lemma andThen_assoc {St} (f g h : method St) s :
  andThen (andThen f g) h s = andThen f (andThen g h) s.
Proof. unfold andThen. now destruct (f s) as [[| e |] s']. Qed.

Lemma andThen_pure_r {St} (f : method St) s :
  andThen f (pureStep (fun x => x)) s = f s.
Proof. unfold andThen, pureStep. now destruct (f s) as [[| e |] s']. Qed.

(* ===================================================================== *)
(** * Machine words *)
(* ===================================================================== *)

Definition two64 : Z := 2 ^ 64.
Definition ones64 : Z := two64 - 1.                   (* (uint64_t) ~0 *)

(** [x << k] and [~x] on [uint64_t], for a shift count below 64.  C++
    leaves a shift by 64 or more undefined; every use of [shl64] says which
    count the machine takes then. *)
Definition shl64 (x k : Z) : Z := Z.shiftl x k mod two64.
Definition not64 (x : Z) : Z := ones64 - x.

Definition is_u64 (x : Z) : Prop := 0 <= x < two64.

(** Signed 32-bit fixed-point words ([fix_t]); [wrap32] is the
    two's-complement value of an integer reduced to 32 bits. *)
Definition INT32_MIN : Z := - 2 ^ 31.
Definition INT32_MAX : Z := 2 ^ 31 - 1.
Definition wrap32 (x : Z) : Z := (x + 2 ^ 31) mod 2 ^ 32 - 2 ^ 31.
Definition is_int32 (x : Z) : Prop := INT32_MIN <= x <= INT32_MAX.

(** Unsigned 32-bit words ([unsigned], [uint32_t]). *)
Definition two32 : Z := 2 ^ 32.
Definition UINT32_MAX : Z := two32 - 1.               (* ~0U *)
Definition wrapu32 (x : Z) : Z := x mod two32.
Definition is_u32 (x : Z) : Prop := 0 <= x < two32.

(** Modelled from the spec: [ctz64] of [nemo/bitops.h], which is not among
    the sources; it counts the trailing zero bits of a non-zero 64-bit
    word. *)
Fixpoint pos_trailing_zeros (p : positive) : nat :=
  match p with
  | xO q => S (pos_trailing_zeros q)
  | _ => O
  end.

Definition ctz64 (x : Z) : nat :=
  match x with
  | Zpos p => pos_trailing_zeros p
  | _ => 64%nat
  end.

(* ===================================================================== *)
(** * Floating-point arithmetic as an interface *)
(* ===================================================================== *)

(** The simulator computes on [float] and [double].  The operations it uses
    are kept abstract, so that every theorem holds for any arithmetic, IEEE
    rounding included.  [F] is [float], the type of the neuron state and
    parameters; [fconst q] is the [float] literal denoting [q].  [Double] is
    [double], the type of the literals written without suffix ([0.04],
    [30.0], [SUBSTEP_MULT]) and of every expression with such an operand:
    a [float] operand is widened by [to_double], and the result is rounded
    by [to_float] when it is stored in a [float] variable. *)
Class FloatOps (F : Type) := {
  fconst : Q -> F;
  fadd : F -> F -> F;
  fsub : F -> F -> F;
  fmul : F -> F -> F;
  fgeb : F -> F -> bool;          (* x >= y *)
  fltb : F -> F -> bool;          (* x < y  *)
  feqb : F -> F -> bool;          (* x == y *)
  (* fixedpoint.hpp, not among the sources: fx / 2^fbits, round(x * 2^fbits) *)
  fx_toFloat : Z -> Z -> F;
  fx_toFix : F -> Z -> Z;
  (* (uint) ceilf(log2(x)) *)
  fceil_log2 : F -> Z;
  Double : Type;
  to_double : F -> Double;        (* the implicit conversion float -> double *)
  to_float : Double -> F;         (* the conversion at a store to a float *)
  dconst : Q -> Double;
  dadd : Double -> Double -> Double;
  dsub : Double -> Double -> Double;
  dmul : Double -> Double -> Double;
  dgeb : Double -> Double -> bool (* x >= y *)
}.

Declare Scope float_scope.
Delimit Scope float_scope with fl.
Infix "+!" := fadd (at level 50, left associativity) : float_scope.
Infix "-!" := fsub (at level 50, left associativity) : float_scope.
Infix "*!" := fmul (at level 40, left associativity) : float_scope.
Infix ">=!" := fgeb (at level 70, no associativity) : float_scope.
Infix "+#" := dadd (at level 50, left associativity) : float_scope.
Infix "-#" := dsub (at level 50, left associativity) : float_scope.
Infix "*#" := dmul (at level 40, left associativity) : float_scope.
Infix ">=#" := dgeb (at level 70, no associativity) : float_scope.

#[export] Instance FloatOps_inhabited `{FloatOps F} : Inhabited F :=
  populate (fconst 0%Q).

(** std::max(a, b) = (a < b) ? b : a *)
Definition fmax `{FloatOps F} (a b : F) : F := if fltb a b then b else a.

(** ** Exact rational arithmetic, used to run the model on concrete inputs *)

(** Least [k] with [x <= 2^k], for [x > 0]: search upwards from [lo]. *)
Fixpoint ceil_log2_from (fuel : nat) (lo : Z) (x : Q) : Z :=
  match fuel with
  | O => lo
  | S fuel' =>
      if Qle_bool x (if 0 <=? lo then inject_Z (2 ^ lo)
                     else Qinv (inject_Z (2 ^ (- lo))))
      then lo else ceil_log2_from fuel' (lo + 1) x
  end.

Definition Q_ceil_log2 (x : Q) : Z :=
  let n := Z.log2_up (Z.abs (Qnum x)) in
  let d := Z.log2_up (Zpos (Qden x)) in
  ceil_log2_from (Z.to_nat (n + d + 2)) (- d - 1) x.

#[export] Instance FloatOps_Q : FloatOps Q := {|
  fconst := fun q => q;
  fadd := fun x y => Qred (Qplus x y);
  fsub := fun x y => Qred (Qminus x y);
  fmul := fun x y => Qred (Qmult x y);
  fgeb := fun x y => Qle_bool y x;
  fltb := fun x y => negb (Qle_bool y x);
  feqb := Qeq_bool;
  fx_toFloat := fun fx fbits => Qred (inject_Z fx / inject_Z (2 ^ fbits));
  fx_toFix := fun x fbits => Qfloor (x * inject_Z (2 ^ fbits) + (1 # 2));
  fceil_log2 := Q_ceil_log2;
  Double := Q;
  to_double := fun x => x;
  to_float := fun x => x;
  dconst := fun q => q;
  dadd := fun x y => Qred (Qplus x y);
  dsub := fun x y => Qred (Qminus x y);
  dmul := fun x y => Qred (Qmult x y);
  dgeb := fun x y => Qle_bool y x
|}.

(* ===================================================================== *)
(** * Izhikevich integration ([updateRange], inner loop) *)
(* ===================================================================== *)

Section Integration.
Context {F : Type} `{FloatOps F}.
Local Open Scope float_scope.

Definition SUBSTEPS : nat := 4.
Definition SUBSTEP_MULT : Double := dconst (1 # 4).   (* #define SUBSTEP_MULT 0.25 *)

(** One pass through the two assignments of the sub-step loop:
<<
  m_v[n] += SUBSTEP_MULT * ((0.04* m_v[n] + 5.0) * m_v[n] + 140.0 - m_u[n] + current);
  m_u[n] += SUBSTEP_MULT * (m_a[n] * (m_b[n] * m_v[n] - m_u[n]));
>>
    [m_v], [m_u], [m_a], [m_b] and [current] are [float]; the literals are
    [double].  The right-hand side of the first assignment is computed in
    [double] throughout; in the second, [a * (b * v - u)] has [float]
    operands only and is a [float], widened for the product with
    [SUBSTEP_MULT].  Each [+=] adds in [double] and rounds the sum to
    [float] when it stores it. *)
Definition substep (a b current : F) (vu : F * F) : F * F :=
  let '(v, u) := vu in
  let v' := to_float
              (to_double v +# SUBSTEP_MULT *#
                 ((dconst (4 # 100) *# to_double v +# dconst 5) *# to_double v
                  +# dconst 140 -# to_double u +# to_double current)) in
  let u' := to_float
              (to_double u +# SUBSTEP_MULT *# to_double (a *! (b *! v' -! u))) in
  (v', u').

(** m_v[n] >= 30.0, a comparison in [double] *)
Definition above_threshold (vu : F * F) : bool :=
  to_double (fst vu) >=# dconst 30.

(** Body of [for(t = 0; t < SUBSTEPS; ++t)]: guarded by [!m_fired[n]]. *)
Definition substepGuarded (a b current : F) (st : F * F * bool)
  : F * F * bool :=
  let '(vu, fired) := st in
  if fired then st
  else let vu' := substep a b current vu in (vu', above_threshold vu').

(** The whole loop, entered with [m_fired[n] = 0]. *)
Definition integrate (a b current v u : F) : F * F * bool :=
  Nat.iter SUBSTEPS (substepGuarded a b current) ((v, u), false).

(** The unguarded trajectory: [k] sub-steps in a row. *)
Definition trajectory (a b current v u : F) (k : nat) : F * F :=
  Nat.iter k (substep a b current) (v, u).

Lemma substepGuarded_fired a b I vu k :
  Nat.iter k (substepGuarded a b I) (vu, true) = (vu, true).
Proof. induction k as [| k IH]; simpl; [reflexivity | now rewrite IH]. Qed.

(** Running the guarded loop [m] times executes some [k <= m] sub-steps:
    all of them if the threshold is never reached, otherwise it stops at
    the first sub-step that reaches it. *)
Lemma integrate_prefix a b I v u (m : nat) :
  (0 < m)%nat ->
  exists k : nat,
    (1 <= k <= m)%nat /\
    Nat.iter m (substepGuarded a b I) ((v, u), false)
      = (trajectory a b I v u k, above_threshold (trajectory a b I v u k)) /\
    (forall j : nat, (1 <= j < k)%nat ->
        above_threshold (trajectory a b I v u j) = false) /\
    ((k < m)%nat -> above_threshold (trajectory a b I v u k) = true).
Proof.
  induction m as [| m IH]; [lia |]. intros _.
  destruct m as [| m].
  - exists 1%nat. simpl. repeat split; try lia.
  - destruct IH as (k & Hk & Hrun & Hbelow & Hstop); [lia |].
    change (Nat.iter (S (S m)) (substepGuarded a b I) (v, u, false))
      with (substepGuarded a b I
              (Nat.iter (S m) (substepGuarded a b I) (v, u, false))).
    rewrite Hrun.
    destruct (above_threshold (trajectory a b I v u k)) eqn:Hk_fired.
    + exists k. simpl. rewrite Hk_fired. repeat split; try lia; auto.
    + assert (k = S m) as -> by
          (destruct (Nat.eq_dec k (S m)); [assumption |];
           assert (Hlt : (k < S m)%nat) by lia;
           specialize (Hstop Hlt); congruence).
      exists (S (S m)). simpl. repeat split; try lia.
      intros j Hj. destruct (Nat.eq_dec j (S m)) as [-> | Hne].
      * exact Hk_fired.
      * apply Hbelow. lia.
Qed.

End Integration.

(* ===================================================================== *)
(** * External collaborators of the CPU backend *)
(* ===================================================================== *)

(** The random-number generator ([m_rng[n].gaussian()]) and the index mapper
    ([m_mapper.localIdx], [m_mapper.globalIdx]) are declared outside the
    modelled sources; they are taken as parameters. *)
Class Collaborators (F : Type) := {
  RNG : Type;
  RNG_inhabited :: Inhabited RNG;
  gaussian : RNG -> F * RNG;
  localIdx : nat -> nat;
  globalIdx : nat -> nat
}.

(** The STDP configuration object, as far as the simulation consults it. *)
Record STDP (F : Type) := mkSTDP {
  enabled : bool;
  minWeight : F;
  maxWeight : F
}.
Arguments mkSTDP {F}.
Arguments enabled {F}.
Arguments minWeight {F}.
Arguments maxWeight {F}.

(* ===================================================================== *)
(** * CPU backend *)
(* ===================================================================== *)

Module Cpu.

(** ** Run-time connectivity matrix ([nemo/ConnectivityMatrix.hpp]) *)

Record FAxonTerminal := mkTerminal {
  weight : Z;      (* fix_t *)
  target : nat     (* nidx_t *)
}.

(** A row holds the synapses of one source at one delay, in insertion
    order. *)
Notation Row := (list FAxonTerminal) (only parsing).

(** [AxonTerminal] of [types.hpp]: a synapse as the network under
    construction holds it. *)
Record AxonTerminal (F : Type) := mkAxonTerminal {
  at_target : nat;
  at_weight : F;
  at_plastic : bool
}.
Arguments mkAxonTerminal {F}.
Arguments at_target {F}.
Arguments at_weight {F}.
Arguments at_plastic {F}.

Module CM.
Record ConnectivityMatrix := mkCM {
  m_fractionalBits : Z;
  (* rows accumulated during construction, keyed by (source, delay) *)
  m_acc : gmap (nat * nat) Row;
  (* the rows at run time, with linear addressing *)
  m_cm : list Row;
  m_delays : gmap nat (gset nat);
  m_maxDelay : nat
}.

Definition set_rows (rows : list Row) (cm : ConnectivityMatrix)
  : ConnectivityMatrix :=
  mkCM (m_fractionalBits cm) (m_acc cm) rows (m_delays cm) (m_maxDelay cm).

(** source * m_maxDelay + delay - 1.  The operands are [nidx_t] and
    [delay_t], both 32-bit unsigned, so the expression is evaluated modulo
    2^32 and only its result is widened to [size_t]. *)
Definition addressOf (cm : ConnectivityMatrix) (source delay : nat) : Z :=
  wrapu32 (Z.of_nat source * Z.of_nat (m_maxDelay cm) + Z.of_nat delay - 1).

(** m_cm.at(addressOf(source, delay)); [None] when [at] throws. *)
Definition getRow (cm : ConnectivityMatrix) (source delay : nat)
  : option Row :=
  let a := addressOf cm source delay in
  if a <? Z.of_nat (length (m_cm cm)) then m_cm cm !! Z.to_nat a
  else None.

Section Construction.
Context {F : Type} `{FloatOps F} `{Collaborators F}.

(** Row::Row(ss, fbits): the weights converted to fixed point, in the order
    of the input vector. *)
Definition newRow (ss : list (AxonTerminal F)) (fbits : Z) : Row :=
  map (fun si => mkTerminal (fx_toFix (at_weight si) fbits) (at_target si)) ss.

(** row.data[s].target = mapper.localIdx(row.data[s].target) *)
Definition localTargets (row : Row) : Row :=
  map (fun t => mkTerminal (weight t) (localIdx (target t))) row.

(** [setRow]: adds the synapses of one source and one delay. *)
Definition setRow (source delay : nat) (ss : list (AxonTerminal F))
  : method ConnectivityMatrix :=
  fun cm =>
    if (delay <? 1)%nat then (Thrown NEMO_INVALID_INPUT, cm)
    else
      match m_acc cm !! (source, delay) with
      | Some _ => (Thrown NEMO_INVALID_INPUT, cm)   (* double insertion *)
      | None =>
          (Returned,
           mkCM (m_fractionalBits cm)
                (<[(source, delay) :=
                     localTargets (newRow ss (m_fractionalBits cm))]>
                   (m_acc cm))
                (m_cm cm)
                (<[source := {[delay]} ∪ default ∅ (m_delays cm !! source)]>
                   (m_delays cm))
                (Nat.max (m_maxDelay cm) delay))
      end.

(** m_cm.at(addressOf(n,d)) = the accumulated row, or an empty row *)
Definition assignRow (n d : nat) : method ConnectivityMatrix :=
  fun cm =>
    let a := addressOf cm n d in
    if a <? Z.of_nat (length (m_cm cm))
    then (Returned,
          set_rows (<[Z.to_nat a := default [] (m_acc cm !! (n, d))]>
                      (m_cm cm)) cm)
    else (Thrown STD_OUT_OF_RANGE, cm).

(** The values of [d] visited by [for(delay_t d=1; d <= m_maxDelay; ++d)].
    When [m_maxDelay] is the largest [delay_t] the condition never fails and
    the counter wraps to 0 after the last delay; the access at delay 0 is at
    address 2^32 - 1, which is outside every vector [finalizeForward] can
    have sized, so nothing after it is reached. *)
Definition delaysVisited (maxDelay : nat) : list nat :=
  if Z.of_nat maxDelay =? UINT32_MAX then seq 1 maxDelay ++ [0%nat]
  else seq 1 maxDelay.

(** [finalizeForward], for a mapper with [neuronCount] neurons and largest
    local index [maxIdx].  The size [(maxIdx+1) * m_maxDelay] is a product of
    32-bit unsigned values and wraps.  [for(nidx_t n=0; n <= maxIdx; ++n)]
    cannot end when [maxIdx] is the largest [nidx_t]: then the vector has
    size 0 and the first access throws, unless there is no delay to visit
    and the loop spins for ever.  Memory is taken to suffice: [resize] does
    not fail. *)
Definition finalizeForward (neuronCount maxIdx : nat)
  : method ConnectivityMatrix :=
  fun cm =>
    if (neuronCount =? 0)%nat then (Returned, cm)
    else
      let size := wrapu32 ((Z.of_nat maxIdx + 1) * Z.of_nat (m_maxDelay cm)) in
      let cm0 := set_rows (resize (Z.to_nat size) [] (m_cm cm)) cm in
      if (Z.of_nat maxIdx =? UINT32_MAX) && (m_maxDelay cm =? 0)%nat
      then (OutOfFuel, cm0)
      else
        forEach (seq 0 (maxIdx + 1))
          (fun n => forEach (delaysVisited (m_maxDelay cm))
                      (fun d => assignRow n d))
          cm0.

End Construction.
End CM.

Section Simulation.
Context {F : Type} `{FloatOps F} `{Collaborators F}.
Local Open Scope float_scope.

Record Simulation := mkSimulation {
  m_neuronCount : nat;
  m_a : list F;
  m_b : list F;
  m_c : list F;
  m_d : list F;
  m_u : list F;
  m_v : list F;
  m_sigma : list F;
  m_valid : list bool;
  m_fired : list bool;
  m_recentFiring : list Z;          (* uint64_t per neuron *)
  m_cm : CM.ConnectivityMatrix;
  m_current : list Z;               (* fix_t per neuron *)
  m_fstim : list bool;
  m_rng : list RNG;
  m_lastFlush : Z;
  m_stdp : STDP F;
  m_timer : Z;                      (* m_timer.elapsedSimulation() *)
  m_firedCycle : list Z;
  m_firedNeuron : list nat
}.

Definition set_u (x : list F) (s : Simulation) : Simulation :=
  mkSimulation (m_neuronCount s) (m_a s) (m_b s) (m_c s) (m_d s) x (m_v s)
    (m_sigma s) (m_valid s) (m_fired s) (m_recentFiring s) (m_cm s)
    (m_current s) (m_fstim s) (m_rng s) (m_lastFlush s) (m_stdp s)
    (m_timer s) (m_firedCycle s) (m_firedNeuron s).
Definition set_v (x : list F) (s : Simulation) : Simulation :=
  mkSimulation (m_neuronCount s) (m_a s) (m_b s) (m_c s) (m_d s) (m_u s) x
    (m_sigma s) (m_valid s) (m_fired s) (m_recentFiring s) (m_cm s)
    (m_current s) (m_fstim s) (m_rng s) (m_lastFlush s) (m_stdp s)
    (m_timer s) (m_firedCycle s) (m_firedNeuron s).
Definition set_fired (x : list bool) (s : Simulation) : Simulation :=
  mkSimulation (m_neuronCount s) (m_a s) (m_b s) (m_c s) (m_d s) (m_u s)
    (m_v s) (m_sigma s) (m_valid s) x (m_recentFiring s) (m_cm s)
    (m_current s) (m_fstim s) (m_rng s) (m_lastFlush s) (m_stdp s)
    (m_timer s) (m_firedCycle s) (m_firedNeuron s).
Definition set_recentFiring (x : list Z) (s : Simulation) : Simulation :=
  mkSimulation (m_neuronCount s) (m_a s) (m_b s) (m_c s) (m_d s) (m_u s)
    (m_v s) (m_sigma s) (m_valid s) (m_fired s) x (m_cm s)
    (m_current s) (m_fstim s) (m_rng s) (m_lastFlush s) (m_stdp s)
    (m_timer s) (m_firedCycle s) (m_firedNeuron s).
Definition set_current (x : list Z) (s : Simulation) : Simulation :=
  mkSimulation (m_neuronCount s) (m_a s) (m_b s) (m_c s) (m_d s) (m_u s)
    (m_v s) (m_sigma s) (m_valid s) (m_fired s) (m_recentFiring s) (m_cm s)
    x (m_fstim s) (m_rng s) (m_lastFlush s) (m_stdp s)
    (m_timer s) (m_firedCycle s) (m_firedNeuron s).
Definition set_fstim (x : list bool) (s : Simulation) : Simulation :=
  mkSimulation (m_neuronCount s) (m_a s) (m_b s) (m_c s) (m_d s) (m_u s)
    (m_v s) (m_sigma s) (m_valid s) (m_fired s) (m_recentFiring s) (m_cm s)
    (m_current s) x (m_rng s) (m_lastFlush s) (m_stdp s)
    (m_timer s) (m_firedCycle s) (m_firedNeuron s).
Definition set_rng (x : list RNG) (s : Simulation) : Simulation :=
  mkSimulation (m_neuronCount s) (m_a s) (m_b s) (m_c s) (m_d s) (m_u s)
    (m_v s) (m_sigma s) (m_valid s) (m_fired s) (m_recentFiring s) (m_cm s)
    (m_current s) (m_fstim s) x (m_lastFlush s) (m_stdp s)
    (m_timer s) (m_firedCycle s) (m_firedNeuron s).
Definition set_lastFlush (x : Z) (s : Simulation) : Simulation :=
  mkSimulation (m_neuronCount s) (m_a s) (m_b s) (m_c s) (m_d s) (m_u s)
    (m_v s) (m_sigma s) (m_valid s) (m_fired s) (m_recentFiring s) (m_cm s)
    (m_current s) (m_fstim s) (m_rng s) x (m_stdp s)
    (m_timer s) (m_firedCycle s) (m_firedNeuron s).
Definition set_timer (x : Z) (s : Simulation) : Simulation :=
  mkSimulation (m_neuronCount s) (m_a s) (m_b s) (m_c s) (m_d s) (m_u s)
    (m_v s) (m_sigma s) (m_valid s) (m_fired s) (m_recentFiring s) (m_cm s)
    (m_current s) (m_fstim s) (m_rng s) (m_lastFlush s) (m_stdp s)
    x (m_firedCycle s) (m_firedNeuron s).
Definition set_firedBuffers (cycles : list Z) (neurons : list nat)
    (s : Simulation) : Simulation :=
  mkSimulation (m_neuronCount s) (m_a s) (m_b s) (m_c s) (m_d s) (m_u s)
    (m_v s) (m_sigma s) (m_valid s) (m_fired s) (m_recentFiring s) (m_cm s)
    (m_current s) (m_fstim s) (m_rng s) (m_lastFlush s) (m_stdp s)
    (m_timer s) cycles neurons.

Definition getFractionalBits (s : Simulation) : Z :=
  CM.m_fractionalBits (m_cm s).

Definition elapsedSimulation (s : Simulation) : Z := m_timer s.

(** ** Firing stimulus *)

(** m_fstim.at(m_mapper.localIdx( *i )) = true, for every entry. *)
Fixpoint setFiringStimulus (fstim : list nat) : method Simulation :=
  fun s =>
    match fstim with
    | [] => (Returned, s)
    | i :: rest =>
        let l := localIdx i in
        if (l <? length (m_fstim s))%nat
        then setFiringStimulus rest (set_fstim (<[l := true]> (m_fstim s)) s)
        else (Thrown STD_OUT_OF_RANGE, s)
    end.

(** ** Neuron update *)

(** (m_recentFiring[n] << 1) | (uint64_t) m_fired[n] *)
Definition shiftHistory (recent : Z) (fired : bool) : Z :=
  Z.lor (shl64 recent 1) (Z.b2z fired).

(** The input current of neuron [n]: the accumulated synaptic current
    converted to floating point, plus thalamic noise when [sigma] is not
    zero.  Drawing the noise advances the generator of the neuron. *)
Definition inputCurrent (s : Simulation) (n : nat) : F * RNG :=
  let current := fx_toFloat (m_current s !!! n) (getFractionalBits s) in
  if negb (feqb (m_sigma s !!! n) (fconst 0))
  then let '(g, r) := gaussian (m_rng s !!! n) in
       (current +! (m_sigma s !!! n) *! g, r)
  else (current, m_rng s !!! n).

(** Body of the loop of [updateRange] for neuron [n]. *)
Definition updateNeuron (n : nat) (s : Simulation) : Simulation :=
  if negb (m_valid s !!! n) then s
  else
    let '(current, rng) := inputCurrent s n in
    let '((v, u), fired) :=
      integrate (m_a s !!! n) (m_b s !!! n) current
                (m_v s !!! n) (m_u s !!! n) in
    let fired := fired || (m_fstim s !!! n) in
    let recent := shiftHistory (m_recentFiring s !!! n) fired in
    let v := if fired then m_c s !!! n else v in
    let u := if fired then u +! (m_d s !!! n) else u in
    set_u (<[n := u]> (m_u s))
      (set_v (<[n := v]> (m_v s))
        (set_recentFiring (<[n := recent]> (m_recentFiring s))
          (set_fired (<[n := fired]> (m_fired s))
            (set_rng (<[n := rng]> (m_rng s))
              (set_current (<[n := 0]> (m_current s)) s))))).

(** for(int n=start; n < end; n++) *)
Definition updateRange (start end_ : nat) (s : Simulation) : Simulation :=
  foldl (fun st n => updateNeuron n st) s (seq start (end_ - start)).

(** The CPU backend has no STDP accumulation: the method throws. *)
Definition accumulateStdp : method Simulation :=
  throw NEMO_API_UNSUPPORTED.

(** [update], single-threaded build. *)
Definition update : method Simulation :=
  andThen (pureStep (fun s => updateRange 0 (m_neuronCount s) s))
          (fun s => if enabled (m_stdp s) then accumulateStdp s
                    else (Returned, s)).

(** ** Spike delivery *)

(** m_current.at(terminal.target) += terminal.weight, for the whole row.
    The sum is a plain [fix_t] addition. *)
Definition addTerminal (current : list Z) (t : FAxonTerminal) : list Z :=
  <[target t := wrap32 (current !!! target t + weight t)]> current.

Fixpoint deliverRow (row : Row) : method (list Z) :=
  fun current =>
    match row with
    | [] => (Returned, current)
    | t :: rest =>
        if (target t <? length current)%nat
        then deliverRow rest (addTerminal current t)
        else (Thrown STD_OUT_OF_RANGE, current)
    end.

Definition deliverSpikesOne (cm : CM.ConnectivityMatrix)
    (source delay : nat) : method (list Z) :=
  fun current =>
    match CM.getRow cm source delay with
    | Some row => deliverRow row current
    | None => (Thrown STD_OUT_OF_RANGE, current)
    end.

(** The [while(f)] loop of [deliverSpikes] for one source. *)
Fixpoint spikeLoop (fuel : nat) (cm : CM.ConnectivityMatrix)
    (source : nat) (f : Z) (delay : nat) : method (list Z) :=
  fun current =>
    if f =? 0 then (Returned, current)
    else match fuel with
         | O => (OutOfFuel, current)
         | S fuel' =>
             let shift := (1 + ctz64 f)%nat in
             let delay' := (delay + shift)%nat in
             let f' := Z.shiftr f (Z.of_nat shift) in
             andThen (deliverSpikesOne cm source delay')
                     (spikeLoop fuel' cm source f' delay') current
         end.

(** ~(((uint64_t) (~0)) << m_cm.maxDelay()).  C++ leaves the shift undefined
    when the count is 64 or more; the shift instruction of x86-64, which is
    what the expression compiles to, takes the count modulo 64.  With
    [m_maxDelay = 64] the word is therefore shifted by 0 and the mask is 0. *)
Definition validSpikes (cm : CM.ConnectivityMatrix) : Z :=
  not64 (shl64 ones64 (Z.of_nat (CM.m_maxDelay cm) mod 64)).

Fixpoint forEachSource (cm : CM.ConnectivityMatrix) (recentFiring : list Z)
    (sources : list nat) : method (list Z) :=
  match sources with
  | [] => pureStep (fun current => current)
  | source :: rest =>
      andThen
        (spikeLoop 64 cm source
           (Z.land (recentFiring !!! source) (validSpikes cm)) 0)
        (forEachSource cm recentFiring rest)
  end.

Definition deliverSpikes : method Simulation :=
  fun s =>
    let '(st, current) :=
      forEachSource (m_cm s) (m_recentFiring s)
                    (seq 0 (m_neuronCount s)) (m_current s) in
    (st, set_current current s).

(** ** Firing output *)

Definition firedNow (s : Simulation) : list nat :=
  List.filter (fun n => m_fired s !!! n) (seq 0 (m_neuronCount s)).

Definition setFiring (s : Simulation) : Simulation :=
  let t := wrapu32 (elapsedSimulation s - m_lastFlush s) in
  set_firedBuffers
    (m_firedCycle s ++ map (fun _ => t) (firedNow s))
    (m_firedNeuron s ++ map globalIdx (firedNow s)) s.

(** [readFiring]: hands out the buffered firings and empties the
    buffers. *)
Definition readFiring (s : Simulation)
  : (Z * list Z * list nat) * Simulation :=
  ((wrapu32 (m_timer s - m_lastFlush s), m_firedCycle s, m_firedNeuron s),
   set_firedBuffers [] [] (set_lastFlush (m_timer s) s)).

(** ** One simulation cycle *)

Definition timerStep (s : Simulation) : Simulation :=
  set_timer ((m_timer s + 1) mod two64) s.

(** std::fill(m_fstim.begin(), m_fstim.end(), 0) *)
Definition clearFstim (s : Simulation) : Simulation :=
  set_fstim (map (fun _ => false) (m_fstim s)) s.

Definition step : method Simulation :=
  andThen deliverSpikes
    (andThen update
       (pureStep (fun s => clearFstim (timerStep (setFiring s))))).

(** The CPU backend does not implement STDP application. *)
Definition applyStdp (reward : F) : method Simulation :=
  throw NEMO_API_UNSUPPORTED.

(** Modelled from the spec: the backend-independent [step(fstim)], whose
    definition is not among the sources; it hands the firing stimulus to
    the backend and runs one cycle. *)
Definition stepWith (fstim : list nat) : method Simulation :=
  andThen (setFiringStimulus fstim) step.

(** A sequence of cycles, one firing stimulus per cycle; it stops at the
    first cycle that throws. *)
Fixpoint run (stims : list (list nat)) : method Simulation :=
  match stims with
  | [] => pureStep (fun s => s)
  | fstim :: rest => andThen (stepWith fstim) (run rest)
  end.

End Simulation.

End Cpu.

(* ===================================================================== *)
(** * CUDA backend (host side) *)
(* ===================================================================== *)

(** The device kernels are outside the modelled sources.  They are taken as
    parameters acting on the connectivity data held on the device and on the
    remaining device memory [D]; they cannot touch host variables such as
    the cycle counter. *)
Class DeviceKernels (F CM D : Type) := {
  (* ::stepSimulation, with the copy of the firing stimulus to the device;
     the flag is [cudaGetLastError() == cudaSuccess] *)
  stepSimulationKernel : bool -> Z -> list nat -> CM * D -> (CM * D) * bool;
  (* ::applyStdp(..., fractionalBits, d_fcm, maxWeight, minWeight, reward) *)
  applyStdpKernel : Z -> F -> F -> F -> CM * D -> CM * D;
  (* m_deviceAssertions->check(cycle) throws when this holds *)
  deviceAssertionsFailed : Z -> D -> bool
}.

Module Cuda.

(** Modelled from the spec: [MAX_DELAY] of [kernel.cu_h], which is not among
    the sources; the spec fixes it to 64. *)
Definition MAX_DELAY : nat := 64.

(** Modelled from the spec: the [ERROR] macro of [except.hpp], which is not
    among the sources, aborts the call; the spec reports an out-of-range
    delay as [InvalidInput]. *)
Definition ERROR {St} : method St := throw NEMO_INVALID_INPUT.

(** 5, "assumes max 2^5 incoming spikes with max weight" *)
Definition HEADROOM_BITS : Z := 5.

Section ConnectivityMatrix.
Context {F : Type} `{FloatOps F}.

(** synapse_ht: target neuron, weight, plastic flag *)
Record synapse_ht := mkSynapse {
  syn_target : nat;
  syn_weight : F;
  syn_plastic : bool
}.

(** Reverse matrix of one target partition.  Modelled from the spec: the
    implementation of [RSMatrix] is not among the sources; it lists the
    incoming plastic synapses (source partition, source neuron, index in the
    forward bundle, target neuron, delay) and holds one STDP accumulator
    word per reverse entry, in the order of the entries (the plane
    [RCM_STDP] of the device data; the padding of its rows is left out). *)
Record RSMatrix := mkRSMatrix {
  rs_partitionSize : nat;
  rs_incoming : list (nat * nat * nat * nat * nat);
  rs_stdp : list Z
}.

Definition RSMatrix_new (partitionSize : nat) : RSMatrix :=
  mkRSMatrix partitionSize [] [].

(** Modelled from the spec: a new reverse entry, with its accumulator word
    at 0. *)
Definition RSMatrix_addSynapse (sp sn sidx tn delay : nat) (r : RSMatrix)
  : RSMatrix :=
  mkRSMatrix (rs_partitionSize r)
             (rs_incoming r ++ [(sp, sn, sidx, tn, delay)])
             (rs_stdp r ++ [0]).

(** Modelled from the spec: [RSMatrix::clearStdpAccumulator] is declared but
    not defined in the sources; it resets every accumulator word to 0. *)
Definition RSMatrix_clearStdpAccumulator (r : RSMatrix) : RSMatrix :=
  mkRSMatrix (rs_partitionSize r) (rs_incoming r)
             (map (fun _ => 0) (rs_stdp r)).

Record ConnectivityMatrix := mkCM {
  m_maxPartitionSize : nat;
  m_maxDelay : nat;
  m_setReverse : bool;
  (* (source partition, source neuron) -> (target partition, delay) -> bundle *)
  mh_fcm : gmap (nat * nat) (gmap (nat * nat) (list synapse_ht));
  m_rsynapses : gmap nat RSMatrix;
  m_maxPartitionIdx : nat;
  m_maxAbsWeight : F;
  m_fractionalBits : Z;
  (* weights of the forward matrix on the device, in fixed point *)
  md_fcm : list Z
}.

(** The matrix as its constructor leaves it. *)
Definition emptyCM (maxPartitionSize : nat) (setReverse : bool)
  : ConnectivityMatrix :=
  mkCM maxPartitionSize 0 setReverse ∅ ∅ 0 (fconst 0) UINT32_MAX [].

(** mh_fcm[neuron_idx_t(sp, sn)][bundle_idx_t(tp, delay)] *)
Definition bundleOf (cm : ConnectivityMatrix) (sp sn tp delay : nat)
  : list synapse_ht :=
  default [] (default ∅ (mh_fcm cm !! (sp, sn)) !! (tp, delay)).

Definition addSynapse (sp sn delay tp tn : nat) (w : F) (plastic : bool)
  : method ConnectivityMatrix :=
  fun cm =>
    if (MAX_DELAY <? delay)%nat || (delay =? 0)%nat then ERROR cm
    else
      let axon := default ∅ (mh_fcm cm !! (sp, sn)) in
      let bundle := default [] (axon !! (tp, delay)) in
      let sidx := length bundle in
      let fcm :=
        <[(sp, sn) := <[(tp, delay) := bundle ++ [mkSynapse tn w plastic]]>
                        axon]> (mh_fcm cm) in
      let rcm :=
        if m_setReverse cm && plastic
        then
          let rs := default (RSMatrix_new (m_maxPartitionSize cm))
                            (m_rsynapses cm !! tp) in
          <[tp := RSMatrix_addSynapse sp sn sidx tn delay rs]> (m_rsynapses cm)
        else m_rsynapses cm in
      (Returned,
       mkCM (m_maxPartitionSize cm)
            (Nat.max (m_maxDelay cm) delay)
            (m_setReverse cm)
            fcm
            rcm
            (Nat.max (m_maxPartitionIdx cm) (Nat.max sp tp))
            (fmax (m_maxAbsWeight cm) w)
            (m_fractionalBits cm)
            (md_fcm cm)).

(** nidx % m_maxPartitionSize and pidx / m_maxPartitionSize *)
Definition neuronIdx (cm : ConnectivityMatrix) (nidx : nat) : nat :=
  nidx mod m_maxPartitionSize cm.

Definition partitionIdx (cm : ConnectivityMatrix) (pidx : nat) : nat :=
  pidx / m_maxPartitionSize cm.

(** The loop of [addSynapses] over the synapses of one source, given as
    (target, delay, weight, plastic); the four vectors of the source have
    equal lengths by its assertions.  The bookkeeping of outgoing warps
    ([m_outgoing]) is left out. *)
Fixpoint addSynapsesFrom (sourcePartition sourceNeuron : nat)
    (synapses : list (nat * nat * F * bool)) : method ConnectivityMatrix :=
  match synapses with
  | [] => pureStep (fun cm => cm)
  | (tgt, delay, w, plastic) :: rest =>
      andThen
        (fun cm =>
           addSynapse sourcePartition sourceNeuron delay
                      (partitionIdx cm tgt) (neuronIdx cm tgt) w plastic cm)
        (addSynapsesFrom sourcePartition sourceNeuron rest)
  end.

Definition addSynapses (src : nat) (synapses : list (nat * nat * F * bool))
  : method ConnectivityMatrix :=
  fun cm =>
    match synapses with
    | [] => (Returned, cm)
    | _ =>
        if (m_maxPartitionSize cm <=? neuronIdx cm src)%nat then ERROR cm
        else addSynapsesFrom (partitionIdx cm src) (neuronIdx cm src)
                             synapses cm
    end.

(** uint log2Ceil = ceilf(log2(m_maxAbsWeight));
    uint fbits = 31 - log2Ceil - 5;
    The conversion to [uint] is undefined in C++ for a negative value; the
    theorems use the function on maximal weights of at least 1. *)
Definition setFractionalBits (cm : ConnectivityMatrix)
  : Z * ConnectivityMatrix :=
  let log2Ceil := fceil_log2 (m_maxAbsWeight cm) in
  let fbits := wrapu32 (31 - log2Ceil - HEADROOM_BITS) in
  (fbits,
   mkCM (m_maxPartitionSize cm) (m_maxDelay cm) (m_setReverse cm)
        (mh_fcm cm) (m_rsynapses cm) (m_maxPartitionIdx cm)
        (m_maxAbsWeight cm) fbits (md_fcm cm)).

(** for every reverse matrix: clearStdpAccumulator() *)
Definition clearStdpAccumulator (cm : ConnectivityMatrix)
  : ConnectivityMatrix :=
  mkCM (m_maxPartitionSize cm) (m_maxDelay cm) (m_setReverse cm)
       (mh_fcm cm) (RSMatrix_clearStdpAccumulator <$> m_rsynapses cm)
       (m_maxPartitionIdx cm) (m_maxAbsWeight cm) (m_fractionalBits cm)
       (md_fcm cm).

(** The entries of a [std::map] whose keys are pairs ([boost::tuple]), in
    the order of its iterators: by increasing key, compared
    lexicographically. *)
Definition pair_leb (a b : nat * nat) : bool :=
  (fst a <? fst b)%nat || ((fst a =? fst b)%nat && (snd a <=? snd b)%nat).

Definition entryLe {V : Type} (a b : nat * nat * V) : Prop :=
  Is_true (pair_leb (fst a) (fst b)).

#[export] Instance entryLe_dec {V : Type} : RelDecision (@entryLe V) :=
  fun a b => decide (Is_true (pair_leb (fst a) (fst b))).

Definition inOrder {V : Type} (m : gmap (nat * nat) V)
  : list (nat * nat * V) :=
  merge_sort entryLe (map_to_list m).

(** The weight words that [moveFcmToDevice] writes through
    [moveBundleToDevice]: for every source neuron and every bundle, in the
    order of the two maps, the weights of the bundle in insertion order,
    each converted by [fx_toFix(w, fbits)].  The warp layout of the plane
    (a leading null warp, each bundle padded to whole warps) and the address
    plane are left out. *)
Definition deviceWeights (cm : ConnectivityMatrix) (fbits : Z) : list Z :=
  flat_map
    (fun ai =>
       flat_map (fun bundle =>
                   map (fun syn => fx_toFix (syn_weight syn) fbits)
                       (snd bundle))
                (inOrder (snd ai)))
    (inOrder (mh_fcm cm)).

(** [moveToDevice]: refused for an empty forward matrix; otherwise the
    fixed-point format is chosen ([setFractionalBits], called by
    [moveFcmToDevice]) and the weights are written to the device.  Failing
    device allocations, and the tables of outgoing and incoming warps, are
    left out. *)
Definition moveToDevice : method ConnectivityMatrix :=
  fun cm =>
    if (size (mh_fcm cm) =? 0)%nat then (Thrown STD_LOGIC_ERROR, cm)
    else
      let '(fbits, cm1) := setFractionalBits cm in
      (Returned,
       mkCM (m_maxPartitionSize cm1) (m_maxDelay cm1) (m_setReverse cm1)
            (mh_fcm cm1) (m_rsynapses cm1) (m_maxPartitionIdx cm1)
            (m_maxAbsWeight cm1) (m_fractionalBits cm1)
            (deviceWeights cm1 fbits)).

(** The weights as [getSynapses] hands them out: the device words converted
    with the fractional bits of the matrix. *)
Definition readWeights (cm : ConnectivityMatrix) : list F :=
  map (fun w => fx_toFloat w (m_fractionalBits cm)) (md_fcm cm).

(** Every STDP accumulator of the reverse matrices. *)
Definition accumulators (cm : ConnectivityMatrix) : list Z :=
  flat_map (fun pr => rs_stdp (snd pr)) (map_to_list (m_rsynapses cm)).

End ConnectivityMatrix.

Arguments synapse_ht F : clear implicits.
Arguments ConnectivityMatrix F : clear implicits.

Section Simulation.
Context {F D : Type} `{FloatOps F} `{DeviceKernels F (ConnectivityMatrix F) D}.

Record Simulation := mkSimulation {
  m_cm : ConnectivityMatrix F;
  m_stdpFn : STDP F;
  m_cycle : Z;                        (* uint32_t *)
  m_partitionCount : nat;
  m_device : D
}.

Definition usingStdp (s : Simulation) : bool := enabled (m_stdpFn s).

(** m_deviceAssertions->check(m_cycle) *)
Definition checkAssertions : method Simulation :=
  fun s =>
    if deviceAssertionsFailed (m_cycle s) (m_device s)
    then (Thrown DEVICE_ASSERTION_ERROR, s)
    else (Returned, s).

(** [Simulation::step] of [CudaSimulation.cpp]. *)
Definition step (fstim : list nat) : method Simulation :=
  fun s =>
    if m_cycle s =? UINT32_MAX then (Thrown STD_OVERFLOW_ERROR, s)
    else
      let cycle := wrapu32 (m_cycle s + 1) in
      let '((cm, dev), ok) :=
        stepSimulationKernel (usingStdp s) cycle fstim
                             (m_cm s, m_device s) in
      let s' := mkSimulation cm (m_stdpFn s) cycle (m_partitionCount s) dev in
      if ok then checkAssertions s'
      else (Thrown KERNEL_INVOCATION_ERROR, s').

(** [Simulation::applyStdp] of [CudaSimulation.cpp] (and, with the timer in
    place of the cycle counter, [SimulationImpl::applyStdp]).  The kernel is
    called with [m_cm.fractionalBits()], which throws [std::runtime_error]
    as long as the format has not been set ([m_fractionalBits == ~0U]); the
    kernel is not reached then. *)
Definition applyStdp (reward : F) : method Simulation :=
  fun s =>
    if negb (usingStdp s) then (Returned, s)
    else if feqb reward (fconst 0)
    then checkAssertions
           (mkSimulation (clearStdpAccumulator (m_cm s)) (m_stdpFn s)
                         (m_cycle s) (m_partitionCount s) (m_device s))
    else if m_fractionalBits (m_cm s) =? UINT32_MAX
    then (Thrown STD_RUNTIME_ERROR, s)
    else
      let '(cm, dev) :=
        applyStdpKernel (m_fractionalBits (m_cm s))
                        (maxWeight (m_stdpFn s)) (minWeight (m_stdpFn s))
                        reward (m_cm s, m_device s) in
      checkAssertions
        (mkSimulation cm (m_stdpFn s) (m_cycle s) (m_partitionCount s) dev).

(** [RuntimeData] of the older host code: the same state with a flag that
    tells whether the network has been moved to the device yet. *)
Record RuntimeData := mkRuntimeData {
  deviceDirty : bool;
  rt_state : Simulation
}.

(** [RuntimeData::applyStdp] of [RuntimeData.cpp]. *)
Definition RuntimeData_applyStdp (reward : F) : method RuntimeData :=
  fun rt =>
    if deviceDirty rt then (Returned, rt)
    else if negb (usingStdp (rt_state rt)) then (Returned, rt)
    else
      let s := rt_state rt in
      if feqb reward (fconst 0)
      then (Returned,
            mkRuntimeData (deviceDirty rt)
              (mkSimulation (clearStdpAccumulator (m_cm s)) (m_stdpFn s)
                            (m_cycle s) (m_partitionCount s) (m_device s)))
      else if m_fractionalBits (m_cm s) =? UINT32_MAX
      then (Thrown STD_RUNTIME_ERROR, rt)      (* m_cm->fractionalBits() *)
      else
        let '(cm, dev) :=
          applyStdpKernel (m_fractionalBits (m_cm s))
                          (maxWeight (m_stdpFn s)) (minWeight (m_stdpFn s))
                          reward (m_cm s, m_device s) in
        (Returned,
         mkRuntimeData (deviceDirty rt)
           (mkSimulation cm (m_stdpFn s) (m_cycle s) (m_partitionCount s) dev)).

(** A sequence of calls of [step]; it stops at the first one that throws. *)
Fixpoint run (stims : list (list nat)) : method Simulation :=
  match stims with
  | [] => pureStep (fun s => s)
  | fstim :: rest => andThen (step fstim) (run rest)
  end.

End Simulation.

End Cuda.

(** ** The connectivity matrix of the older CUDA host code
    ([ConnectivityMatrixImpl]) *)

Module CudaImpl.

Section Impl.
Context {F : Type}.

(** Modelled from the spec: [SynapseGroup] is declared in
    [SynapseGroup.hpp] but not defined in the sources.  It keeps one row of
    synapses (target partition, target neuron, weight, plastic flag) per
    presynaptic neuron; [addSynapse] appends to the row of the source neuron
    and returns the index of the new synapse within the row. *)
Record SynapseGroup := mkSynapseGroup {
  mh_synapses : gmap nat (list (nat * nat * F * bool))
}.

Definition SynapseGroup_new : SynapseGroup := mkSynapseGroup ∅.

Definition SynapseGroup_addSynapse (sn tp tn : nat) (w : F) (plastic : bool)
    (g : SynapseGroup) : nat * SynapseGroup :=
  let row := default [] (mh_synapses g !! sn) in
  (length row,
   mkSynapseGroup (<[sn := row ++ [(tp, tn, w, plastic)]]> (mh_synapses g))).

Record ConnectivityMatrixImpl := mkImpl {
  m_partitionCount : nat;
  m_maxPartitionSize : nat;
  m_maxDelay : nat;
  m_setReverse : bool;
  (* (source partition, target partition, delay) -> group *)
  m_fsynapses : gmap (nat * nat * nat) SynapseGroup;
  m0_rsynapses : list Cuda.RSMatrix;
  m1_rsynapses : list Cuda.RSMatrix
}.


(** [ConnectivityMatrixImpl::addSynapse].  The synapse enters its forward
    group before [rsynapses(lvl)] is consulted, and [rsynapses] ends with
    [ERROR] for a level other than 0 and 1.  [rsynapses(lvl)[tp]] is an
    unchecked access: C++ leaves it undefined for [tp] outside the vector,
    where the model leaves the reverse matrices alone. *)
Definition addSynapse (lvl sp sn delay tp tn : nat) (w : F) (plastic : bool)
  : method ConnectivityMatrixImpl :=
  fun cm =>
    if (Cuda.MAX_DELAY <? delay)%nat || (delay =? 0)%nat then Cuda.ERROR cm
    else
      let fgroup :=
        default SynapseGroup_new (m_fsynapses cm !! (sp, tp, delay)) in
      let '(sidx, fgroup') :=
        SynapseGroup_addSynapse sn tp tn w plastic fgroup in
      let fsynapses := <[(sp, tp, delay) := fgroup']> (m_fsynapses cm) in
      let rgroup := alter (Cuda.RSMatrix_addSynapse sp sn sidx tn delay) tp in
      let maxDelay := Nat.max (m_maxDelay cm) delay in
      if m_setReverse cm && plastic
      then
        match lvl with
        | 0%nat =>
            (Returned,
             mkImpl (m_partitionCount cm) (m_maxPartitionSize cm) maxDelay
                    (m_setReverse cm) fsynapses
                    (rgroup (m0_rsynapses cm)) (m1_rsynapses cm))
        | 1%nat =>
            (Returned,
             mkImpl (m_partitionCount cm) (m_maxPartitionSize cm) maxDelay
                    (m_setReverse cm) fsynapses
                    (m0_rsynapses cm) (rgroup (m1_rsynapses cm)))
        | _ =>
            Cuda.ERROR
              (mkImpl (m_partitionCount cm) (m_maxPartitionSize cm)
                      (m_maxDelay cm) (m_setReverse cm) fsynapses
                      (m0_rsynapses cm) (m1_rsynapses cm))
        end
      else
        (Returned,
         mkImpl (m_partitionCount cm) (m_maxPartitionSize cm) maxDelay
                (m_setReverse cm) fsynapses
                (m0_rsynapses cm) (m1_rsynapses cm)).


End Impl.

Arguments SynapseGroup F : clear implicits.
Arguments ConnectivityMatrixImpl F : clear implicits.

End CudaImpl.

(* ===================================================================== *)
(** * Facts about machine words *)
(* ===================================================================== *)

Section WordFacts.

Lemma pow2_nat_pos (n : nat) : 0 < 2 ^ Z.of_nat n.
  Proof. apply Z.pow_pos_nonneg; lia. Qed.

Lemma pow2_nat_succ (n : nat) : 2 ^ Z.of_nat (S n) = 2 * 2 ^ Z.of_nat n.
  Proof. rewrite Nat2Z.inj_succ, Z.pow_succ_r by lia. reflexivity. Qed.

  (** The delivery mask keeps exactly the low [k] bits. *)
Lemma mask_low_bits (k : nat) :
    (k <= 64)%nat ->
    not64 (shl64 ones64 (Z.of_nat k)) = 2 ^ Z.of_nat k - 1.
  Proof.
    intros Hk. unfold not64, shl64, ones64, two64.
    rewrite Z.shiftl_mul_pow2 by lia.
    assert (Hsplit : 2 ^ 64 = 2 ^ Z.of_nat k * 2 ^ (64 - Z.of_nat k)).
    { rewrite <- Z.pow_add_r by lia. f_equal. lia. }
    pose proof (pow2_nat_pos k) as Hpos.
    assert (Hq : 0 < 2 ^ (64 - Z.of_nat k)) by (apply Z.pow_pos_nonneg; lia).
    assert (Hmod : ((2 ^ 64 - 1) * 2 ^ Z.of_nat k) mod 2 ^ 64
                   = 2 ^ 64 - 2 ^ Z.of_nat k).
    { symmetry. apply (Z.mod_unique_pos _ _ (2 ^ Z.of_nat k - 1)).
      - split; [| lia]. rewrite Hsplit. nia.
      - ring. }
    rewrite Hmod. ring.
  Qed.

Lemma land_mask_testbit (h : Z) (k : nat) (i : Z) :
    0 <= i ->
    Z.testbit (Z.land h (2 ^ Z.of_nat k - 1)) i
      = Z.testbit h i && (i <? Z.of_nat k).
  Proof.
    intros Hi. rewrite Z.land_spec.
    replace (2 ^ Z.of_nat k - 1) with (Z.ones (Z.of_nat k))
      by (rewrite Z.ones_equiv; lia).
    destruct (Z.ltb_spec i (Z.of_nat k)).
    - rewrite Z.ones_spec_low by lia. reflexivity.
    - rewrite Z.ones_spec_high by lia. reflexivity.
  Qed.

Lemma land_mask_range (h : Z) (k : nat) :
    0 <= Z.land h (2 ^ Z.of_nat k - 1) < 2 ^ Z.of_nat k.
  Proof.
    replace (2 ^ Z.of_nat k - 1) with (Z.ones (Z.of_nat k))
      by (rewrite Z.ones_equiv; lia).
    rewrite Z.land_ones by lia. apply Z.mod_pos_bound, pow2_nat_pos.
  Qed.

Lemma pos_trailing_zeros_le (p : positive) :
    2 ^ Z.of_nat (pos_trailing_zeros p) <= Zpos p.
  Proof.
    induction p as [p IH | p IH |]; cbn [pos_trailing_zeros];
      try (change (2 ^ Z.of_nat 0) with 1; lia).
    rewrite pow2_nat_succ. lia.
  Qed.

Lemma pos_trailing_zeros_lt (p : positive) (n : nat) :
    Zpos p < 2 ^ Z.of_nat n -> (pos_trailing_zeros p < n)%nat.
  Proof.
    intros Hp. pose proof (pos_trailing_zeros_le p) as Hle.
    assert (Hlt : 2 ^ Z.of_nat (pos_trailing_zeros p) < 2 ^ Z.of_nat n) by lia.
    apply Z.pow_lt_mono_r_iff in Hlt; lia.
  Qed.

Lemma shiftr_bound (f : Z) (n k : nat) :
    0 <= f < 2 ^ Z.of_nat n -> (k <= n)%nat ->
    0 <= Z.shiftr f (Z.of_nat k) < 2 ^ Z.of_nat (n - k).
  Proof.
    intros Hf Hk. rewrite Z.shiftr_div_pow2 by lia.
    pose proof (pow2_nat_pos k) as Hpos. split.
    - apply Z.div_pos; lia.
    - apply Z.div_lt_upper_bound; [lia |].
      rewrite <- Z.pow_add_r by lia.
      replace (Z.of_nat k + Z.of_nat (n - k)) with (Z.of_nat n) by lia. lia.
  Qed.

  (** Shifting in one firing bit. *)
Lemma shl64_1_range (x : Z) : 0 <= shl64 x 1 < two64.
  Proof. unfold shl64, two64. apply Z.mod_pos_bound. lia. Qed.

Lemma shl64_1_testbit (x : Z) (k : Z) :
    0 <= x -> 0 <= k < 64 ->
    Z.testbit (shl64 x 1) k = if k =? 0 then false else Z.testbit x (k - 1).
  Proof.
    intros Hx Hk. unfold shl64, two64.
    rewrite Z.mod_pow2_bits_low by lia.
    destruct (Z.eqb_spec k 0) as [-> | Hne].
    - apply Z.shiftl_spec_low. lia.
    - rewrite Z.shiftl_spec by lia. reflexivity.
  Qed.

Lemma b2z_testbit (b : bool) (k : Z) :
    0 <= k -> Z.testbit (Z.b2z b) k = (k =? 0) && b.
  Proof.
    intros Hk. destruct (Z.eqb_spec k 0) as [-> | Hne].
    - apply Z.b2z_bit0.
    - destruct b; simpl.
      + destruct k; try lia; reflexivity.
      + apply Z.bits_0.
  Qed.

End WordFacts.

(* ===================================================================== *)
(** * CPU backend: spike delivery *)
(* ===================================================================== *)

Module CpuDelivery.
Import Cpu.

(** The delays that are due for a source whose firing history is [recent]:
    delay [d] is due when bit [d - 1] of the history is set, for
    [1 <= d <= maxDelay], in increasing order. *)
Definition dueDelays (maxDelay : nat) (recent : Z) : list nat :=
  List.filter (fun d => Z.testbit recent (Z.of_nat (pred d))) (seq 1 maxDelay).

(** Bit-by-bit scan of the low [n] bits of [f]; bit [i] stands for delay
    [delay + i + 1]. *)
Fixpoint bitScan (n : nat) (f : Z) (delay : nat) : list nat :=
  match n with
  | O => []
  | S n' => (if Z.odd f then [S delay] else [])
              ++ bitScan n' (Z.div2 f) (S delay)
  end.

Lemma bitScan_zero (n delay : nat) : bitScan n 0 delay = [].
Proof.
  revert delay. induction n as [| n IH]; intros delay; simpl; [reflexivity |].
  apply IH.
Qed.

Lemma shiftr_xO_succ (q : positive) (k : nat) :
  Z.shiftr (Zpos (xO q)) (Z.of_nat (S k)) = Z.shiftr (Zpos q) (Z.of_nat k).
Proof.
  replace (Z.of_nat (S k)) with (1 + Z.of_nat k) by lia.
  rewrite <- Z.shiftr_shiftr by lia. reflexivity.
Qed.

(** Jumping over the trailing zeros of a non-zero word lands on the first
    delay of the bit-by-bit scan. *)
Lemma bitScan_skip (p : positive) :
  forall (n delay : nat),
    Zpos p < 2 ^ Z.of_nat n ->
    bitScan n (Zpos p) delay
      = (delay + (1 + pos_trailing_zeros p))%nat
          :: bitScan (n - (1 + pos_trailing_zeros p))
               (Z.shiftr (Zpos p) (Z.of_nat (1 + pos_trailing_zeros p)))
               (delay + (1 + pos_trailing_zeros p)).
Proof.
  induction p as [q IH | q IH |]; intros n delay Hlt;
    (destruct n as [| n]; [change (2 ^ Z.of_nat 0) with 1 in Hlt; lia |]).
  - cbn [bitScan pos_trailing_zeros].
    replace (delay + (1 + 0))%nat with (S delay) by lia.
    replace (S n - (1 + 0))%nat with n by lia. reflexivity.
  - rewrite pow2_nat_succ in Hlt.
    cbn [bitScan pos_trailing_zeros]. change (Z.odd (Zpos (xO q))) with false.
    change (Z.div2 (Zpos (xO q))) with (Zpos q). cbn [app].
    rewrite IH by lia.
    replace (1 + S (pos_trailing_zeros q))%nat
      with (S (1 + pos_trailing_zeros q)) by lia.
    rewrite shiftr_xO_succ.
    replace (delay + S (1 + pos_trailing_zeros q))%nat
      with (S delay + (1 + pos_trailing_zeros q))%nat by lia.
    reflexivity.
  - cbn [bitScan pos_trailing_zeros].
    replace (delay + (1 + 0))%nat with (S delay) by lia.
    replace (S n - (1 + 0))%nat with n by lia. reflexivity.
Qed.

Lemma filter_map_comm {A B} (p : B -> bool) (g : A -> B) (l : list A) :
  List.filter p (map g l) = map g (List.filter (fun a => p (g a)) l).
Proof.
  induction l as [| a l IH]; simpl; [reflexivity |].
  destruct (p (g a)); simpl; now rewrite IH.
Qed.

Lemma bitScan_filter (n : nat) :
  forall (f : Z) (delay : nat),
    bitScan n f delay
      = map (fun i => (delay + S i)%nat)
            (List.filter (fun i => Z.testbit f (Z.of_nat i)) (seq 0 n)).
Proof.
  induction n as [| n IH]; intros f delay; [reflexivity |].
  cbn [bitScan]. rewrite IH. cbn [seq].
  rewrite <- seq_shift. cbn [List.filter].
  change (Z.of_nat 0) with 0. rewrite Z.bit0_odd.
  rewrite filter_map_comm.
  assert (Htail :
    map (fun i => (S delay + S i)%nat)
        (List.filter (fun i => Z.testbit (Z.div2 f) (Z.of_nat i)) (seq 0 n))
    = map (fun i => (delay + S i)%nat)
        (map S (List.filter (fun i => Z.testbit f (Z.of_nat (S i)))
                  (seq 0 n)))).
  { rewrite map_map.
    rewrite (List.filter_ext (fun i => Z.testbit (Z.div2 f) (Z.of_nat i))
                             (fun i => Z.testbit f (Z.of_nat (S i)))).
    - apply map_ext. intros i. lia.
    - intros i. rewrite Z.div2_spec, Z.shiftr_spec by lia.
      f_equal. lia. }
  rewrite Htail.
  destruct (Z.odd f); cbn [app map]; [| reflexivity].
  f_equal. lia.
Qed.

(** Restricted to the delivery mask, the scan visits the due delays. *)
Lemma bitScan_dueDelays (recent : Z) (k : nat) :
  bitScan k (Z.land recent (2 ^ Z.of_nat k - 1)) 0 = dueDelays k recent.
Proof.
  rewrite bitScan_filter. unfold dueDelays.
  rewrite <- seq_shift, filter_map_comm. cbn [pred Nat.add].
  f_equal. apply List.filter_ext_in. intros i Hi.
  apply in_seq in Hi. rewrite land_mask_testbit by lia.
  replace (Z.of_nat i <? Z.of_nat k) with true
    by (symmetry; apply Z.ltb_lt; lia).
  apply andb_true_r.
Qed.

(** Delivering a list of delays of one source, one after the other. *)
Fixpoint deliverDelays (cm : CM.ConnectivityMatrix) (source : nat)
    (ds : list nat) : method (list Z) :=
  match ds with
  | [] => pureStep (fun current => current)
  | d :: rest =>
      andThen (deliverSpikesOne cm source d) (deliverDelays cm source rest)
  end.

(** The row of [source] at [delay] in the finalized matrix: the entry of
    [m_cm] at [addressOf(source, delay)]. *)
Definition rowAt (cm : CM.ConnectivityMatrix) (source delay : nat) : Row :=
  CM.m_cm cm !!! Z.to_nat (CM.addressOf cm source delay).

(** The number of history bits the delivery mask keeps. *)
Definition window (cm : CM.ConnectivityMatrix) : nat :=
  (CM.m_maxDelay cm mod 64)%nat.

(** One row per source and delay, and every target a valid local index. *)
Record wf_rows (N : nat) (cm : CM.ConnectivityMatrix) : Prop := {
  rows_size : length (CM.m_cm cm) = (N * CM.m_maxDelay cm)%nat;
  rows_targets :
    Forall (Forall (fun t => (target t < N)%nat)) (CM.m_cm cm)
}.

(** What [finalizeForward] establishes for a network of [N] neurons whose
    synapse targets were checked against the mapper: one row per source and
    delay, and every target a valid local index.  The largest delay stays
    below 64, the range in which the shifts of [deliverSpikes] are defined. *)
Record wf_cm (N : nat) (cm : CM.ConnectivityMatrix) : Prop := {
  cm_maxDelay_lt : (CM.m_maxDelay cm < 64)%nat;
  cm_size : length (CM.m_cm cm) = (N * CM.m_maxDelay cm)%nat;
  cm_addressable : Z.of_nat (N * CM.m_maxDelay cm) < two64;
  cm_targets :
    Forall (Forall (fun t => (target t < N)%nat)) (CM.m_cm cm)
}.

Lemma spikeLoop_bitScan cm source (fuel : nat) :
  forall (n : nat) (f : Z) (delay : nat) (current : list Z),
    0 <= f < 2 ^ Z.of_nat n -> (n <= fuel)%nat ->
    spikeLoop fuel cm source f delay current
      = deliverDelays cm source (bitScan n f delay) current.
Proof.
  induction fuel as [| fuel IH]; intros n f delay current Hf Hn.
  - assert (n = 0%nat) as -> by lia.
    change (2 ^ Z.of_nat 0) with 1 in Hf. assert (f = 0) as -> by lia.
    reflexivity.
  - destruct f as [| p | p]; [| | lia].
    + rewrite bitScan_zero. reflexivity.
    + cbn [spikeLoop]. change (Zpos p =? 0) with false. cbv iota.
      rewrite (bitScan_skip p n delay) by lia.
      cbn [deliverDelays ctz64].
      apply andThen_ext. intros current'.
      pose proof (pos_trailing_zeros_lt p n ltac:(lia)) as Htz.
      apply IH; [| lia].
      apply shiftr_bound; [lia | lia].
Qed.

Lemma wf_cm_rows N cm : wf_cm N cm -> wf_rows N cm.
Proof. intros [_ Hsize _ Htargets]. now split. Qed.

Lemma window_lt cm : (window cm < 64)%nat.
Proof. unfold window. apply Nat.mod_upper_bound. lia. Qed.

Lemma window_le cm : (window cm <= CM.m_maxDelay cm)%nat.
Proof. unfold window. apply Nat.Div0.mod_le. Qed.

Lemma window_small cm : (CM.m_maxDelay cm < 64)%nat -> window cm = CM.m_maxDelay cm.
Proof. intros Hmax. unfold window. now apply Nat.mod_small. Qed.

(** The mask keeps the [window cm] most recent bits of a history word. *)
Lemma validSpikes_window cm : validSpikes cm = 2 ^ Z.of_nat (window cm) - 1.
Proof.
  unfold validSpikes.
  replace (Z.of_nat (CM.m_maxDelay cm) mod 64) with (Z.of_nat (window cm))
    by (unfold window; now rewrite Nat2Z.inj_mod).
  apply mask_low_bits. pose proof (window_lt cm). lia.
Qed.

Lemma spikeLoop_window cm source recent current :
  spikeLoop 64 cm source (Z.land recent (validSpikes cm)) 0 current
    = deliverDelays cm source (dueDelays (window cm) recent) current.
Proof.
  rewrite validSpikes_window.
  rewrite (spikeLoop_bitScan cm source 64 (window cm)).
  - now rewrite bitScan_dueDelays.
  - apply land_mask_range.
  - pose proof (window_lt cm). lia.
Qed.

Lemma spikeLoop_dueDelays cm source recent current :
  (CM.m_maxDelay cm < 64)%nat ->
  spikeLoop 64 cm source (Z.land recent (validSpikes cm)) 0 current
    = deliverDelays cm source (dueDelays (CM.m_maxDelay cm) recent) current.
Proof.
  intros Hmax. rewrite spikeLoop_window. now rewrite window_small.
Qed.

Lemma dueDelays_range (maxDelay : nat) (recent : Z) :
  Forall (fun d => (1 <= d <= maxDelay)%nat) (dueDelays maxDelay recent).
Proof.
  apply Forall_forall. intros d Hd. apply list_elem_of_In in Hd.
  unfold dueDelays in Hd. apply filter_In in Hd as [Hd _].
  apply in_seq in Hd. lia.
Qed.

Lemma addTerminal_length current t :
  length (addTerminal current t) = length current.
Proof. unfold addTerminal. apply length_insert. Qed.

Lemma foldl_addTerminal_length row :
  forall current, length (foldl addTerminal current row) = length current.
Proof.
  induction row as [| t row IH]; intros current; simpl; [reflexivity |].
  rewrite IH. apply addTerminal_length.
Qed.

Lemma deliverRow_ok row :
  forall current,
    Forall (fun t => (target t < length current)%nat) row ->
    deliverRow row current = (Returned, foldl addTerminal current row).
Proof.
  induction row as [| t row IH]; intros current Hrow; [reflexivity |].
  apply Forall_cons in Hrow as [Ht Hrow]. cbn [deliverRow foldl].
  destruct (Nat.ltb_spec (target t) (length current)); [| lia].
  apply IH. now rewrite addTerminal_length.
Qed.

(** The address of a source and a delay of the matrix never exceeds the
    slot [source * m_maxDelay + delay - 1]. *)
Lemma addressOf_le cm source d :
  (1 <= d)%nat ->
  0 <= CM.addressOf cm source d
    <= Z.of_nat (source * CM.m_maxDelay cm + d - 1).
Proof.
  intros Hd. unfold CM.addressOf, wrapu32.
  replace (Z.of_nat source * Z.of_nat (CM.m_maxDelay cm) + Z.of_nat d - 1)
    with (Z.of_nat (source * CM.m_maxDelay cm + d - 1)) by lia.
  pose proof (Z.mod_pos_bound (Z.of_nat (source * CM.m_maxDelay cm + d - 1))
                two32 ltac:(unfold two32; lia)).
  pose proof (Z.mod_le (Z.of_nat (source * CM.m_maxDelay cm + d - 1)) two32
                ltac:(lia) ltac:(unfold two32; lia)).
  lia.
Qed.

Lemma getRow_rows N cm source d :
  wf_rows N cm -> (source < N)%nat -> (1 <= d <= CM.m_maxDelay cm)%nat ->
  CM.getRow cm source d = Some (rowAt cm source d) /\
  Forall (fun t => (target t < N)%nat) (rowAt cm source d).
Proof.
  intros [Hsize Htargets] Hsource Hd.
  assert (Hlt : (source * CM.m_maxDelay cm + d - 1 < N * CM.m_maxDelay cm)%nat)
    by nia.
  pose proof (addressOf_le cm source d ltac:(lia)) as Haddress.
  unfold CM.getRow, rowAt.
  destruct (Z.ltb_spec (CM.addressOf cm source d)
                       (Z.of_nat (length (CM.m_cm cm)))); [| lia].
  assert (Hlook : is_Some (CM.m_cm cm
                             !! Z.to_nat (CM.addressOf cm source d)))
    by (apply lookup_lt_is_Some; lia).
  destruct Hlook as [row Hrow].
  rewrite (list_lookup_total_correct _ _ _ Hrow). split; [assumption |].
  eapply Forall_lookup_1; eassumption.
Qed.

Lemma getRow_wf N cm source d :
  wf_cm N cm -> (source < N)%nat -> (1 <= d <= CM.m_maxDelay cm)%nat ->
  CM.getRow cm source d = Some (rowAt cm source d) /\
  Forall (fun t => (target t < N)%nat) (rowAt cm source d).
Proof. intros Hcm. apply getRow_rows. now apply wf_cm_rows. Qed.

Lemma deliverDelays_ok N cm source ds :
  wf_rows N cm -> (source < N)%nat ->
  Forall (fun d => (1 <= d <= CM.m_maxDelay cm)%nat) ds ->
  forall current,
    length current = N ->
    deliverDelays cm source ds current
      = (Returned,
         foldl addTerminal current (flat_map (rowAt cm source) ds)).
Proof.
  intros Hcm Hsource. induction ds as [| d ds IH]; intros Hds current Hlen;
    [reflexivity |].
  apply Forall_cons in Hds as [Hd Hds].
  destruct (getRow_rows N cm source d Hcm Hsource Hd) as [Hrow Htargets].
  cbn [deliverDelays flat_map]. rewrite foldl_app.
  unfold andThen, deliverSpikesOne. rewrite Hrow.
  rewrite deliverRow_ok by (now rewrite Hlen).
  apply IH; [assumption |]. now rewrite foldl_addTerminal_length.
Qed.

(** The terminals reached in one cycle, in delivery order: sources in index
    order, for each source its due delays in increasing order, for each
    delay the row in insertion order. *)
Definition dueTerminalsOf (cm : CM.ConnectivityMatrix) (recentFiring : list Z)
    (sources : list nat) : list FAxonTerminal :=
  flat_map
    (fun source =>
       flat_map (rowAt cm source)
                (dueDelays (CM.m_maxDelay cm) (recentFiring !!! source)))
    sources.

(** The terminals the code reaches in one cycle on any matrix: as above,
    with the delays limited to the window of the delivery mask. *)
Definition reachedTerminalsOf (cm : CM.ConnectivityMatrix)
    (recentFiring : list Z) (sources : list nat) : list FAxonTerminal :=
  flat_map
    (fun source =>
       flat_map (rowAt cm source)
                (dueDelays (window cm) (recentFiring !!! source)))
    sources.

Lemma forEachSource_window N cm recentFiring sources :
  wf_rows N cm -> Forall (fun source => (source < N)%nat) sources ->
  forall current,
    length current = N ->
    forEachSource cm recentFiring sources current
      = (Returned,
         foldl addTerminal current
               (reachedTerminalsOf cm recentFiring sources)).
Proof.
  intros Hcm. induction sources as [| source sources IH];
    intros Hsources current Hlen; [reflexivity |].
  apply Forall_cons in Hsources as [Hsource Hsources].
  cbn [forEachSource]. unfold reachedTerminalsOf. cbn [flat_map].
  rewrite foldl_app. unfold andThen.
  rewrite spikeLoop_window.
  rewrite (deliverDelays_ok N);
    [| assumption | assumption | | assumption].
  - apply IH; [assumption |]. now rewrite foldl_addTerminal_length.
  - eapply Forall_impl; [apply dueDelays_range |].
    intros d Hd. cbn beta in Hd. pose proof (window_le cm). lia.
Qed.

Lemma forEachSource_ok N cm recentFiring sources :
  wf_cm N cm -> Forall (fun source => (source < N)%nat) sources ->
  forall current,
    length current = N ->
    forEachSource cm recentFiring sources current
      = (Returned,
         foldl addTerminal current (dueTerminalsOf cm recentFiring sources)).
Proof.
  intros Hcm Hsources current Hlen.
  rewrite (forEachSource_window N) by (auto using wf_cm_rows).
  unfold reachedTerminalsOf, dueTerminalsOf.
  now rewrite window_small by apply Hcm.
Qed.

End CpuDelivery.

(* ===================================================================== *)
(** * CPU backend: building the run-time matrix *)
(* ===================================================================== *)

Module CpuMatrix.
Import Cpu CpuDelivery.

Section MatrixFacts.
Context {F : Type} `{FloatOps F} `{Collaborators F}.

(** [setRow] rejects a delay below 1 with [InvalidInput]. *)
Lemma setRow_invalid_delay source delay (ss : list (AxonTerminal F)) cm :
  (delay < 1)%nat ->
  CM.setRow source delay ss cm = (Thrown NEMO_INVALID_INPUT, cm).
Proof.
  intros Hdelay. unfold CM.setRow.
  destruct (Nat.ltb_spec delay 1); [reflexivity | lia].
Qed.

(** Whenever [setRow] throws, the matrix is left as it was. *)
Lemma setRow_failure_unchanged source delay (ss : list (AxonTerminal F)) cm :
  fst (CM.setRow source delay ss cm) <> Returned ->
  snd (CM.setRow source delay ss cm) = cm.
Proof.
  unfold CM.setRow. destruct (delay <? 1)%nat; [reflexivity |].
  destruct (CM.m_acc cm !! (source, delay)); [reflexivity |].
  cbn. congruence.
Qed.

(** [setRow] puts no upper bound on the delay: a new row with any delay of
    at least 1 is accepted, and raises the largest delay of the matrix. *)
Lemma setRow_accepts source delay (ss : list (AxonTerminal F)) cm :
  (1 <= delay)%nat -> CM.m_acc cm !! (source, delay) = None ->
  fst (CM.setRow source delay ss cm) = Returned /\
  CM.m_maxDelay (snd (CM.setRow source delay ss cm))
    = Nat.max (CM.m_maxDelay cm) delay /\
  CM.m_acc (snd (CM.setRow source delay ss cm)) !! (source, delay)
    = Some (CM.localTargets (CM.newRow ss (CM.m_fractionalBits cm))).
Proof.
  intros Hdelay Hnew. unfold CM.setRow.
  destruct (Nat.ltb_spec delay 1); [lia |]. rewrite Hnew. cbn.
  split; [reflexivity |]. split; [reflexivity |]. apply lookup_insert_eq.
Qed.

End MatrixFacts.

(** The slot of (source, delay) in the run-time vector, for a matrix whose
    largest delay is [md]. *)
Definition slot (md n d : nat) : nat := (n * md + d - 1)%nat.

Lemma slot_lt (md maxIdx n d : nat) :
  (n <= maxIdx)%nat -> (1 <= d <= md)%nat ->
  (slot md n d < (maxIdx + 1) * md)%nat.
Proof. unfold slot. nia. Qed.

Lemma slot_inj (md n d n' d' : nat) :
  (1 <= d <= md)%nat -> (1 <= d' <= md)%nat ->
  slot md n d = slot md n' d' -> n = n' /\ d = d'.
Proof.
  intros Hd Hd' Heq. unfold slot in Heq.
  assert (Hdiv : forall m e : nat, (1 <= e <= md)%nat ->
                   ((m * md + e - 1) / md = m)%nat).
  { intros m e He. replace (m * md + e - 1)%nat with (m * md + (e - 1))%nat
      by lia.
    rewrite Nat.div_add_l by lia. rewrite Nat.div_small by lia. lia. }
  assert (Hn : n = n')
    by (rewrite <- (Hdiv n d Hd), <- (Hdiv n' d' Hd'); now rewrite Heq).
  subst n'. split; [reflexivity | lia].
Qed.

Lemma addressOf_slot cm (n d : nat) :
  (1 <= d)%nat -> Z.of_nat (slot (CM.m_maxDelay cm) n d) < two32 ->
  CM.addressOf cm n d = Z.of_nat (slot (CM.m_maxDelay cm) n d).
Proof.
  intros Hd Hsmall. unfold CM.addressOf, wrapu32, slot in *.
  rewrite Z.mod_small; lia.
Qed.

(** The pairs (source, delay) in the order of the two nested loops of
    [finalizeForward]. *)
Definition slotsInOrder (maxIdx md : nat) : list (nat * nat) :=
  flat_map (fun n => map (fun d => (n, d)) (seq 1 md)) (seq 0 (maxIdx + 1)).

Lemma slotsInOrder_elem (maxIdx md n d : nat) :
  In (n, d) (slotsInOrder maxIdx md) <->
  (n <= maxIdx)%nat /\ (1 <= d <= md)%nat.
Proof.
  unfold slotsInOrder. rewrite in_flat_map. split.
  - intros (n' & Hn' & Hd). apply in_map_iff in Hd as (d' & [= <- <-] & Hd').
    apply in_seq in Hn', Hd'. lia.
  - intros [Hn Hd]. exists n. split; [apply in_seq; lia |].
    apply in_map_iff. exists d. split; [reflexivity | apply in_seq; lia].
Qed.

(** The rows after assigning the accumulated rows of the given pairs. *)
Definition assignAll (acc : gmap (nat * nat) Row) (md : nat)
    (rows : list Row) (pairs : list (nat * nat)) : list Row :=
  foldl (fun rows p =>
           <[slot md (fst p) (snd p) := default [] (acc !! p)]> rows)
        rows pairs.

Lemma assignAll_length acc md pairs :
  forall rows, length (assignAll acc md rows pairs) = length rows.
Proof.
  induction pairs as [| p pairs IH]; intros rows; [reflexivity |].
  cbn. unfold assignAll in IH. rewrite IH. apply length_insert.
Qed.

Lemma assignAll_snoc acc md rows pairs p :
  assignAll acc md rows (pairs ++ [p])
    = <[slot md (fst p) (snd p) := default [] (acc !! p)]>
        (assignAll acc md rows pairs).
Proof. unfold assignAll. now rewrite foldl_app. Qed.

(** Every assigned slot holds the accumulated row of its pair, as long as
    different pairs have different slots. *)
Lemma assignAll_lookup acc md rows pairs :
  (forall p q, In p pairs -> In q pairs ->
     slot md (fst p) (snd p) = slot md (fst q) (snd q) -> p = q) ->
  (forall p, In p pairs -> (slot md (fst p) (snd p) < length rows)%nat) ->
  forall p, In p pairs ->
    assignAll acc md rows pairs !! slot md (fst p) (snd p)
      = Some (default [] (acc !! p)).
Proof.
  induction pairs as [| q pairs IH] using rev_ind; intros Hinj Hlt p Hp;
    [destruct Hp |].
  rewrite assignAll_snoc.
  destruct (decide (slot md (fst p) (snd p) = slot md (fst q) (snd q)))
    as [Heq | Hne].
  - assert (p = q) as ->
      by (apply Hinj; [assumption | apply in_or_app; right; now left
                      | assumption]).
    apply list_lookup_insert_eq. rewrite assignAll_length.
    apply Hlt. apply in_or_app. right. now left.
  - rewrite list_lookup_insert_ne by congruence.
    apply in_app_or in Hp as [Hp | [<- | []]]; [| congruence].
    apply IH; [| | assumption].
    + intros p' q' Hp' Hq'. apply Hinj; apply in_or_app; now left.
    + intros p' Hp'. apply Hlt. apply in_or_app. now left.
Qed.

Lemma forEach_app {A St} (l k : list A) (body : A -> method St) s :
  forEach (l ++ k) body s = andThen (forEach l body) (forEach k body) s.
Proof.
  revert s. induction l as [| x l IH]; intros s; [reflexivity |].
  cbn [app forEach]. rewrite andThen_assoc. apply andThen_ext. exact IH.
Qed.

Lemma forEach_map {A B St} (g : A -> B) (l : list A) (body : B -> method St) s :
  forEach (map g l) body s = forEach l (fun x => body (g x)) s.
Proof.
  revert s. induction l as [| x l IH]; intros s; [reflexivity |].
  cbn [map forEach]. apply andThen_ext. exact IH.
Qed.

(** Two nested loops are one loop over the pairs. *)
Lemma forEach_nested {A B St} (l : list A) (inner : list B)
    (body : A -> B -> method St) s :
  forEach l (fun x => forEach inner (body x)) s
    = forEach (flat_map (fun x => map (fun y => (x, y)) inner) l)
              (fun p => body (fst p) (snd p)) s.
Proof.
  revert s. induction l as [| x l IH]; intros s; [reflexivity |].
  cbn [flat_map forEach]. rewrite forEach_app.
  rewrite (andThen_ext _ _ _ _ IH). apply andThen_ext_l.
  now rewrite forEach_map.
Qed.

(** [assignRow] changes neither the largest delay nor the number of rows. *)
Lemma assignRow_keeps (n d : nat) cm :
  CM.m_maxDelay (snd (CM.assignRow n d cm)) = CM.m_maxDelay cm /\
  length (CM.m_cm (snd (CM.assignRow n d cm))) = length (CM.m_cm cm).
Proof.
  unfold CM.assignRow. destruct (_ <? _); cbn; [| now split].
  split; [reflexivity | apply length_insert].
Qed.

(** A run of assignments that returns has found every address inside the
    vector. *)
Lemma forEach_assignRow_returned (pairs : list (nat * nat)) :
  forall cm cm',
    forEach pairs (fun p => CM.assignRow (fst p) (snd p)) cm = (Returned, cm') ->
    forall p, In p pairs ->
      CM.addressOf cm (fst p) (snd p) < Z.of_nat (length (CM.m_cm cm)).
Proof.
  induction pairs as [| q pairs IH]; intros cm cm' Hrun p Hp; [destruct Hp |].
  cbn [forEach] in Hrun. apply andThen_inv in Hrun as (cm1 & Hq & Hrest).
  pose proof (assignRow_keeps (fst q) (snd q) cm) as [Hmd Hlen].
  rewrite Hq in Hmd, Hlen. cbn [snd] in Hmd, Hlen.
  destruct Hp as [<- | Hp].
  - unfold CM.assignRow in Hq.
    destruct (Z.ltb_spec (CM.addressOf cm (fst q) (snd q))
                         (Z.of_nat (length (CM.m_cm cm))));
      [assumption | discriminate].
  - specialize (IH cm1 cm' Hrest p Hp).
    unfold CM.addressOf in *. now rewrite Hmd, Hlen in IH.
Qed.

(** A run of assignments ends by returning or by the [std::out_of_range] of
    [at]. *)
Lemma forEach_assignRow_status (pairs : list (nat * nat)) :
  forall cm,
    fst (forEach pairs (fun p => CM.assignRow (fst p) (snd p)) cm) = Returned \/
    fst (forEach pairs (fun p => CM.assignRow (fst p) (snd p)) cm)
      = Thrown STD_OUT_OF_RANGE.
Proof.
  induction pairs as [| q pairs IH]; intros cm; [now left |].
  cbn [forEach]. unfold andThen, CM.assignRow at 1 3.
  destruct (_ <? _); [apply IH | now right].
Qed.

Lemma forEach_assignRow (pairs : list (nat * nat)) :
  forall cm,
    Z.of_nat (length (CM.m_cm cm)) < two32 ->
    (forall p, In p pairs ->
       (1 <= snd p)%nat /\
       (slot (CM.m_maxDelay cm) (fst p) (snd p) < length (CM.m_cm cm))%nat) ->
    forEach pairs (fun p => CM.assignRow (fst p) (snd p)) cm
      = (Returned,
         CM.set_rows (assignAll (CM.m_acc cm) (CM.m_maxDelay cm)
                                (CM.m_cm cm) pairs) cm).
Proof.
  induction pairs as [| p pairs IH]; intros cm Hsmall Hpairs.
  - cbn. now destruct cm.
  - cbn [forEach]. unfold andThen, CM.assignRow.
    destruct (Hpairs p ltac:(now left)) as [Hd Hslot].
    rewrite addressOf_slot by lia.
    destruct (Z.ltb_spec (Z.of_nat (slot (CM.m_maxDelay cm) (fst p) (snd p)))
                         (Z.of_nat (length (CM.m_cm cm)))); [| lia].
    rewrite Nat2Z.id. rewrite IH.
    + reflexivity.
    + cbn. now rewrite length_insert.
    + intros q Hq. cbn. rewrite length_insert. apply Hpairs. now right.
Qed.

(** The networks [finalizeForward] can lay out: the number of slots can be
    written in 32 bits, and neither loop counter has to pass the largest
    value of its type. *)
Definition fits (maxIdx md : nat) : Prop :=
  Z.of_nat ((maxIdx + 1) * md) < two32 /\
  Z.of_nat md < UINT32_MAX /\
  Z.of_nat maxIdx <> UINT32_MAX.

Lemma delaysVisited_small (md : nat) :
  Z.of_nat md <> UINT32_MAX -> CM.delaysVisited md = seq 1 md.
Proof.
  intros Hmd. unfold CM.delaysVisited.
  destruct (Z.eqb_spec (Z.of_nat md) UINT32_MAX); [contradiction | reflexivity].
Qed.

(** What [finalizeForward] leaves behind: one slot per source and delay,
    holding the accumulated row of the pair or an empty row. *)
Lemma finalizeForward_spec (neuronCount maxIdx : nat) cm :
  (0 < neuronCount)%nat ->
  fits maxIdx (CM.m_maxDelay cm) ->
  exists cm',
    CM.finalizeForward neuronCount maxIdx cm = (Returned, cm') /\
    CM.m_maxDelay cm' = CM.m_maxDelay cm /\
    CM.m_acc cm' = CM.m_acc cm /\
    CM.m_fractionalBits cm' = CM.m_fractionalBits cm /\
    length (CM.m_cm cm') = ((maxIdx + 1) * CM.m_maxDelay cm)%nat /\
    forall n d : nat,
      (n <= maxIdx)%nat -> (1 <= d <= CM.m_maxDelay cm)%nat ->
      CM.getRow cm' n d = Some (default [] (CM.m_acc cm !! (n, d))).
Proof.
  intros Hcount (Hsmall & Hmd32 & Hidx32). unfold CM.finalizeForward.
  destruct (Nat.eqb_spec neuronCount 0) as [Hzero | _]; [lia |].
  destruct (Z.eqb_spec (Z.of_nat maxIdx) UINT32_MAX) as [Hbad | _];
    [contradiction |].
  cbn [andb]. cbv zeta.
  rewrite delaysVisited_small by lia.
  set (md := CM.m_maxDelay cm) in *.
  set (size := ((maxIdx + 1) * md)%nat) in *.
  assert (Hsize : Z.to_nat (wrapu32 ((Z.of_nat maxIdx + 1) * Z.of_nat md))
                  = size).
  { unfold wrapu32. rewrite Z.mod_small by (unfold size in *; lia).
    unfold size. lia. }
  rewrite Hsize.
  set (cm1 := CM.set_rows (resize size [] (CM.m_cm cm)) cm).
  rewrite (forEach_nested (seq 0 (maxIdx + 1)) (seq 1 md)
             (fun n d => CM.assignRow n d) cm1).
  fold (slotsInOrder maxIdx md).
  assert (Hlen1 : length (CM.m_cm cm1) = size)
    by (unfold cm1; cbn; apply length_resize).
  assert (Hpairs : forall p, In p (slotsInOrder maxIdx md) ->
            (1 <= snd p)%nat /\
            (slot (CM.m_maxDelay cm1) (fst p) (snd p)
               < length (CM.m_cm cm1))%nat).
  { intros [n d] Hp. apply slotsInOrder_elem in Hp as [Hn Hd].
    rewrite Hlen1. cbn [fst snd]. split; [lia |].
    now apply slot_lt. }
  assert (Hsmall1 : Z.of_nat (length (CM.m_cm cm1)) < two32)
    by (rewrite Hlen1; exact Hsmall).
  rewrite (forEach_assignRow _ cm1 Hsmall1 Hpairs).
  eexists. split; [reflexivity |].
  cbn [CM.set_rows CM.m_maxDelay CM.m_acc CM.m_fractionalBits CM.m_cm cm1].
  fold md. split; [reflexivity |]. split; [reflexivity |].
  split; [reflexivity |].
  split; [now rewrite assignAll_length, length_resize |].
  intros n d Hn Hd. unfold CM.getRow.
  cbn [CM.set_rows CM.m_cm]. rewrite assignAll_length, length_resize.
  pose proof (slot_lt md maxIdx n d Hn Hd) as Hslot. fold size in Hslot.
  set (rows := assignAll (CM.m_acc cm) md (resize size [] (CM.m_cm cm))
                         (slotsInOrder maxIdx md)).
  assert (Haddr : CM.addressOf (CM.set_rows rows cm1) n d
                  = Z.of_nat (slot md n d)).
  { apply addressOf_slot; [lia |].
    change (CM.m_maxDelay (CM.set_rows rows cm1)) with md. lia. }
  rewrite Haddr.
  destruct (Z.ltb_spec (Z.of_nat (slot md n d)) (Z.of_nat size)); [| lia].
  rewrite Nat2Z.id.
  unfold rows.
  change (slot md n d) with (slot md (fst (n, d)) (snd (n, d))).
  apply assignAll_lookup.
  - intros [n1 d1] [n2 d2] H1 H2 Heq.
    apply slotsInOrder_elem in H1, H2. cbn [fst snd] in Heq.
    destruct (slot_inj md n1 d1 n2 d2) as [-> ->]; [lia | lia | assumption |].
    reflexivity.
  - intros [n1 d1] H1. apply slotsInOrder_elem in H1 as [Hn1 Hd1].
    rewrite length_resize. now apply slot_lt.
  - apply slotsInOrder_elem. lia.
Qed.

(** [finalizeForward] returns only on a network that fits. *)
Lemma finalizeForward_returned_inv (neuronCount maxIdx : nat) cm cm' :
  (0 < neuronCount)%nat ->
  CM.finalizeForward neuronCount maxIdx cm = (Returned, cm') ->
  fits maxIdx (CM.m_maxDelay cm).
Proof.
  intros Hcount Hrun. unfold CM.finalizeForward in Hrun.
  destruct (Nat.eqb_spec neuronCount 0) as [Hzero | _]; [lia |].
  cbv zeta in Hrun.
  set (md := CM.m_maxDelay cm) in *.
  set (size := wrapu32 ((Z.of_nat maxIdx + 1) * Z.of_nat md)) in *.
  set (cm0 := CM.set_rows (resize (Z.to_nat size) [] (CM.m_cm cm)) cm) in *.
  assert (Hguard : ~ (Z.of_nat maxIdx = UINT32_MAX /\ md = 0%nat)).
  { intros [Hidx Hmd]. rewrite Hmd in Hrun.
    destruct (Z.eqb_spec (Z.of_nat maxIdx) UINT32_MAX); [| contradiction].
    cbn in Hrun. discriminate. }
  destruct ((Z.of_nat maxIdx =? UINT32_MAX) && (md =? 0)%nat);
    [discriminate |].
  rewrite (forEach_nested (seq 0 (maxIdx + 1)) (CM.delaysVisited md)
             (fun n d => CM.assignRow n d) cm0) in Hrun.
  pose proof (forEach_assignRow_returned _ _ _ Hrun) as Hin.
  assert (Hsize : 0 <= size < two32)
    by (apply Z.mod_pos_bound; unfold two32; lia).
  assert (Hlen0 : Z.of_nat (length (CM.m_cm cm0)) = size)
    by (unfold cm0; cbn; rewrite length_resize; lia).
  assert (Hvisit : forall n d, (n <= maxIdx)%nat -> In d (CM.delaysVisited md) ->
            CM.addressOf cm0 n d < size).
  { intros n d Hn Hd. rewrite <- Hlen0.
    apply (Hin (n, d)). apply in_flat_map. exists n.
    split; [apply in_seq; lia |]. apply in_map. exact Hd. }
  (* the counter of the delays does not wrap *)
  assert (Hmd_ne : Z.of_nat md <> UINT32_MAX).
  { intros Hmd.
    assert (Hzero : In 0%nat (CM.delaysVisited md)).
    { unfold CM.delaysVisited.
      destruct (Z.eqb_spec (Z.of_nat md) UINT32_MAX); [| contradiction].
      apply in_or_app. right. now left. }
    specialize (Hvisit 0%nat 0%nat ltac:(lia) Hzero).
    unfold CM.addressOf in Hvisit.
    change (wrapu32 (Z.of_nat 0 * Z.of_nat (CM.m_maxDelay cm0) + Z.of_nat 0 - 1))
      with (two32 - 1) in Hvisit.
    lia. }
  rewrite delaysVisited_small in Hvisit by assumption.
  (* the product does not wrap *)
  assert (Hsmall : Z.of_nat ((maxIdx + 1) * md) < two32).
  { destruct (Z.lt_ge_cases (Z.of_nat ((maxIdx + 1) * md)) two32) as [| Hbig];
      [assumption | exfalso].
    assert (Hmd_pos : (0 < md)%nat) by (destruct md; [cbn in Hbig; unfold two32 in Hbig; lia | lia]).
    set (k := Z.to_nat size).
    assert (Hk : (k < (maxIdx + 1) * md)%nat) by lia.
    assert (Hn : (k / md <= maxIdx)%nat).
    { assert (k / md < maxIdx + 1)%nat; [| lia].
      apply Nat.Div0.div_lt_upper_bound. lia. }
    pose proof (Nat.mod_upper_bound k md ltac:(lia)) as Hd.
    specialize (Hvisit (k / md)%nat (k mod md + 1)%nat Hn
                  ltac:(apply in_seq; lia)).
    unfold CM.addressOf in Hvisit.
    change (CM.m_maxDelay cm0) with md in Hvisit.
    replace (Z.of_nat (k / md) * Z.of_nat md + Z.of_nat (k mod md + 1) - 1)
      with (Z.of_nat k) in Hvisit
      by (pose proof (Nat.div_mod_eq k md); nia).
    unfold wrapu32 in Hvisit. rewrite Z.mod_small in Hvisit by lia. lia. }
  split; [exact Hsmall |]. split.
  - assert (Z.of_nat md <= Z.of_nat ((maxIdx + 1) * md)) by nia.
    unfold UINT32_MAX in *. lia.
  - intros Hidx. apply Hguard. split; [exact Hidx |].
    destruct md as [| md']; [reflexivity | exfalso].
    unfold UINT32_MAX in Hidx. nia.
Qed.

(** On a network that does not fit, [finalizeForward] ends with the
    [std::out_of_range] of [at], or never ends. *)
Lemma finalizeForward_failure (neuronCount maxIdx : nat) cm :
  (0 < neuronCount)%nat -> ~ fits maxIdx (CM.m_maxDelay cm) ->
  fst (CM.finalizeForward neuronCount maxIdx cm)
  = if (Z.of_nat maxIdx =? UINT32_MAX) && (CM.m_maxDelay cm =? 0)%nat
    then OutOfFuel else Thrown STD_OUT_OF_RANGE.
Proof.
  intros Hcount Hfits.
  destruct (CM.finalizeForward neuronCount maxIdx cm) as [st cm'] eqn:Hrun.
  cbn [fst].
  assert (Hnot : st <> Returned).
  { intros ->. apply Hfits.
    eapply finalizeForward_returned_inv; eassumption. }
  unfold CM.finalizeForward in Hrun.
  destruct (Nat.eqb_spec neuronCount 0) as [Hzero | _]; [lia |].
  cbv zeta in Hrun.
  destruct ((Z.of_nat maxIdx =? UINT32_MAX) && (CM.m_maxDelay cm =? 0)%nat);
    [now injection Hrun as <- _ |].
  rewrite (forEach_nested (seq 0 (maxIdx + 1))
             (CM.delaysVisited (CM.m_maxDelay cm))
             (fun n d => CM.assignRow n d)) in Hrun.
  match type of Hrun with
  | forEach ?pairs _ ?cm0 = _ =>
      destruct (forEach_assignRow_status pairs cm0) as [Hst | Hst];
        rewrite Hrun in Hst; cbn [fst] in Hst
  end; [contradiction | exact Hst].
Qed.

(** A matrix finalized for [N] neurons with local indices [0 .. N - 1] is
    well-formed, provided its largest delay is below 64 and the accumulated
    rows refer to valid local indices. *)
Lemma finalizeForward_wf (N : nat) cm :
  (0 < N)%nat -> (CM.m_maxDelay cm < 64)%nat ->
  fits (N - 1) (CM.m_maxDelay cm) ->
  (forall key row, CM.m_acc cm !! key = Some row ->
     Forall (fun t => (target t < N)%nat) row) ->
  exists cm',
    CM.finalizeForward N (N - 1) cm = (Returned, cm') /\
    wf_cm N cm'.
Proof.
  intros HN Hmax Hfits Htargets.
  assert (Hsmall : Z.of_nat (N * CM.m_maxDelay cm) < two32).
  { destruct Hfits as [Hsmall _].
    now replace (N - 1 + 1)%nat with N in Hsmall by lia. }
  destruct (finalizeForward_spec N (N - 1) cm HN Hfits)
    as (cm' & Hrun & Hmd & _ & _ & Hlen & Hrows).
  replace (N - 1 + 1)%nat with N in * by lia.
  exists cm'. split; [exact Hrun |].
  split; rewrite ?Hmd; try assumption;
    [unfold two32, two64 in *; lia |].
  apply Forall_lookup. intros i row Hrow.
  assert (Hi : (i < N * CM.m_maxDelay cm)%nat)
    by (rewrite <- Hlen; eapply lookup_lt_Some; eassumption).
  assert (Hmd_pos : (0 < CM.m_maxDelay cm)%nat) by nia.
  set (md := CM.m_maxDelay cm) in *.
  assert (Hn : (i / md <= N - 1)%nat).
  { assert (i / md < N)%nat; [| lia].
    apply Nat.Div0.div_lt_upper_bound. lia. }
  assert (Hd : (1 <= i mod md + 1 <= md)%nat).
  { pose proof (Nat.mod_upper_bound i md). lia. }
  specialize (Hrows (i / md)%nat (i mod md + 1)%nat Hn Hd).
  unfold CM.getRow in Hrows.
  assert (Hslot : slot md (i / md) (i mod md + 1) = i).
  { unfold slot. pose proof (Nat.div_mod_eq i md). lia. }
  rewrite addressOf_slot in Hrows; rewrite ?Hmd; fold md;
    rewrite ?Hslot; try lia.
  rewrite Hlen, Hmd, Hslot in Hrows.
  assert (Hlt : (Z.of_nat i <? Z.of_nat (N * md)) = true)
    by (apply Z.ltb_lt; lia).
  rewrite Hlt, Nat2Z.id, Hrow in Hrows. injection Hrows as ->.
  destruct (CM.m_acc cm !! ((i / md)%nat, (i mod md + 1)%nat)) as [r |] eqn:E;
    cbn; [eapply Htargets; eassumption | constructor].
Qed.

End CpuMatrix.

(* ===================================================================== *)
(** * CPU backend: the neuron update, neuron by neuron *)
(* ===================================================================== *)

Module CpuUpdate.
Import Cpu.

Section Update.
Context {F : Type} `{FloatOps F} `{Collaborators F}.
Local Open Scope float_scope.

(** What one pass of the loop body computes for neuron [n]. *)
Record NeuronUpdate := mkNeuronUpdate {
  nu_u : F;
  nu_v : F;
  nu_fired : bool;
  nu_recent : Z;
  nu_rng : RNG
}.

(** The state of neuron [n] when integration ends, before forced firing
    and reset: membrane potential, recovery variable, threshold flag. *)
Definition integrated (s : Simulation) (n : nat) : F * F * bool :=
  integrate (m_a s !!! n) (m_b s !!! n) (fst (inputCurrent s n))
            (m_v s !!! n) (m_u s !!! n).

Definition neuronUpdate (s : Simulation) (n : nat) : NeuronUpdate :=
  let '((v, u), fired) := integrated s n in
  let fired := fired || (m_fstim s !!! n) in
  {| nu_u := if fired then u +! (m_d s !!! n) else u;
     nu_v := if fired then m_c s !!! n else v;
     nu_fired := fired;
     nu_recent := shiftHistory (m_recentFiring s !!! n) fired;
     nu_rng := snd (inputCurrent s n) |}.

(** The per-neuron entries that the update writes. *)
Definition dyn (s : Simulation) (n : nat) : F * F * bool * Z * Z * RNG :=
  (m_u s !!! n, m_v s !!! n, m_fired s !!! n,
   m_recentFiring s !!! n, m_current s !!! n, m_rng s !!! n).

Definition dynOf (r : NeuronUpdate) : F * F * bool * Z * Z * RNG :=
  (nu_u r, nu_v r, nu_fired r, nu_recent r, 0, nu_rng r).

(** Everything the update leaves alone, and the sizes of what it
    writes. *)
Record frame (s s' : Simulation) : Prop := {
  fr_count : m_neuronCount s' = m_neuronCount s;
  fr_a : m_a s' = m_a s;
  fr_b : m_b s' = m_b s;
  fr_c : m_c s' = m_c s;
  fr_d : m_d s' = m_d s;
  fr_sigma : m_sigma s' = m_sigma s;
  fr_valid : m_valid s' = m_valid s;
  fr_cm : m_cm s' = m_cm s;
  fr_fstim : m_fstim s' = m_fstim s;
  fr_lastFlush : m_lastFlush s' = m_lastFlush s;
  fr_stdp : m_stdp s' = m_stdp s;
  fr_timer : m_timer s' = m_timer s;
  fr_firedCycle : m_firedCycle s' = m_firedCycle s;
  fr_firedNeuron : m_firedNeuron s' = m_firedNeuron s;
  fr_len_u : length (m_u s') = length (m_u s);
  fr_len_v : length (m_v s') = length (m_v s);
  fr_len_fired : length (m_fired s') = length (m_fired s);
  fr_len_recent : length (m_recentFiring s') = length (m_recentFiring s);
  fr_len_current : length (m_current s') = length (m_current s);
  fr_len_rng : length (m_rng s') = length (m_rng s)
}.

Lemma frame_refl s : frame s s.
Proof. split; reflexivity. Qed.

Lemma frame_trans s1 s2 s3 : frame s1 s2 -> frame s2 s3 -> frame s1 s3.
Proof. intros [] []. split; congruence. Qed.

(** The vectors written by the update hold an entry for neuron [n]. *)
Definition in_range (s : Simulation) (n : nat) : Prop :=
  (n < length (m_u s))%nat /\ (n < length (m_v s))%nat /\
  (n < length (m_fired s))%nat /\ (n < length (m_recentFiring s))%nat /\
  (n < length (m_current s))%nat /\ (n < length (m_rng s))%nat.

Lemma in_range_frame s s' n : frame s s' -> in_range s n -> in_range s' n.
Proof.
  intros [] (? & ? & ? & ? & ? & ?). unfold in_range.
  repeat split; congruence.
Qed.

Lemma updateNeuron_invalid n s :
  m_valid s !!! n = false -> updateNeuron n s = s.
Proof. unfold updateNeuron. intros ->. reflexivity. Qed.

Lemma updateNeuron_valid n s :
  m_valid s !!! n = true ->
  updateNeuron n s =
    let r := neuronUpdate s n in
    set_u (<[n := nu_u r]> (m_u s))
      (set_v (<[n := nu_v r]> (m_v s))
        (set_recentFiring (<[n := nu_recent r]> (m_recentFiring s))
          (set_fired (<[n := nu_fired r]> (m_fired s))
            (set_rng (<[n := nu_rng r]> (m_rng s))
              (set_current (<[n := 0]> (m_current s)) s))))).
Proof.
  unfold updateNeuron, neuronUpdate, integrated. intros ->. cbn [negb].
  destruct (inputCurrent s n) as [current rng]. cbn [fst snd].
  destruct (integrate _ _ _ _ _) as [[v u] fired]. reflexivity.
Qed.

Lemma updateNeuron_frame n s : frame s (updateNeuron n s).
Proof.
  destruct (m_valid s !!! n) eqn:Hvalid.
  - rewrite updateNeuron_valid by assumption.
    split; cbn; rewrite ?length_insert; reflexivity.
  - rewrite updateNeuron_invalid by assumption. apply frame_refl.
Qed.

Lemma updateNeuron_other n m s :
  n <> m -> dyn (updateNeuron n s) m = dyn s m.
Proof.
  intros Hne. destruct (m_valid s !!! n) eqn:Hvalid.
  - rewrite updateNeuron_valid by assumption. unfold dyn. cbn.
    rewrite !list_lookup_total_insert_ne by assumption. reflexivity.
  - now rewrite updateNeuron_invalid.
Qed.

Lemma updateNeuron_at n s :
  in_range s n -> m_valid s !!! n = true ->
  dyn (updateNeuron n s) n = dynOf (neuronUpdate s n).
Proof.
  intros (? & ? & ? & ? & ? & ?) Hvalid.
  rewrite updateNeuron_valid by assumption. unfold dyn, dynOf. cbn.
  rewrite !list_lookup_total_insert_eq by assumption. reflexivity.
Qed.

(** The update of neuron [n] reads only the entries of neuron [n]. *)
Lemma neuronUpdate_ext s s' n :
  frame s s' -> dyn s' n = dyn s n -> neuronUpdate s' n = neuronUpdate s n.
Proof.
  intros Hfr Hdyn. unfold dyn in Hdyn. inversion Hdyn as [[Hu Hv Hf Hr Hc Hg]].
  destruct Hfr as [_ Ea Eb Ec Ed Esigma _ Ecm Efstim _ _ _ _ _ _ _ _ _ _ _].
  unfold neuronUpdate, integrated, inputCurrent, getFractionalBits.
  rewrite Ea, Eb, Ec, Ed, Esigma, Ecm, Efstim, Hu, Hv, Hr, Hc, Hg.
  reflexivity.
Qed.

(** The entries of neuron [n] after the update has run over the range
    [start, start + len). *)
Lemma updateRange_dyn (len : nat) :
  forall (start : nat) (s : Simulation),
    (forall n : nat, (start <= n < start + len)%nat -> in_range s n) ->
    let s' := foldl (fun st n => updateNeuron n st) s (seq start len) in
    frame s s' /\
    forall n : nat,
      dyn s' n =
        if decide (start <= n < start + len)%nat
        then (if (m_valid s !!! n : bool)
              then dynOf (neuronUpdate s n) else dyn s n)
        else dyn s n.
Proof.
  induction len as [| len IH]; intros start s Hrange.
  - cbn. split; [apply frame_refl |]. intros n.
    destruct (decide _); [lia | reflexivity].
  - cbn [seq foldl].
    pose proof (updateNeuron_frame start s) as Hfr1.
    assert (Hrange' : forall n : nat, (S start <= n < S start + len)%nat ->
                        in_range (updateNeuron start s) n).
    { intros n Hn. apply (in_range_frame s); [assumption |].
      apply Hrange. lia. }
    specialize (IH (S start) (updateNeuron start s) Hrange').
    cbv zeta in IH. destruct IH as [Hfr2 Hdyn].
    cbv zeta. split; [eapply frame_trans; eassumption |].
    intros n. rewrite Hdyn.
    destruct (decide (S start <= n < S start + len)%nat) as [Hin | Hout].
    + rewrite (decide_True (P := (start <= n < start + S len)%nat)) by lia.
      rewrite (fr_valid _ _ Hfr1).
      rewrite updateNeuron_other by lia.
      rewrite (neuronUpdate_ext s) by
        (auto using updateNeuron_other with lia).
      reflexivity.
    + destruct (decide (n = start)) as [-> | Hne].
      * rewrite (decide_True (P := (start <= start < start + S len)%nat))
          by lia.
        destruct (m_valid s !!! start) eqn:Hvalid.
        -- apply updateNeuron_at; [apply Hrange; lia | assumption].
        -- now rewrite updateNeuron_invalid.
      * rewrite (decide_False (P := (start <= n < start + S len)%nat))
          by lia.
        apply updateNeuron_other. lia.
Qed.

End Update.

End CpuUpdate.

(* ===================================================================== *)
(** * CPU backend: one cycle and sequences of cycles *)
(* ===================================================================== *)

Module CpuStep.
Import Cpu CpuDelivery CpuUpdate.

Section Step.
Context {F : Type} `{FloatOps F} `{Collaborators F}.
Local Open Scope float_scope.

(** A finalized simulation: every per-neuron vector has one entry per
    neuron and the connectivity matrix is well-formed. *)
Record wf (s : Simulation) : Prop := {
  wf_u : length (m_u s) = m_neuronCount s;
  wf_v : length (m_v s) = m_neuronCount s;
  wf_fired : length (m_fired s) = m_neuronCount s;
  wf_recent : length (m_recentFiring s) = m_neuronCount s;
  wf_current : length (m_current s) = m_neuronCount s;
  wf_rng : length (m_rng s) = m_neuronCount s;
  wf_fstim : length (m_fstim s) = m_neuronCount s;
  wf_matrix : wf_cm (m_neuronCount s) (m_cm s)
}.

(** ** Firing stimulus *)

Definition stimulate (fstim : list nat) (l : list bool) : list bool :=
  foldl (fun l i => <[localIdx i := true]> l) l fstim.

Lemma stimulate_length fstim :
  forall l, length (stimulate fstim l) = length l.
Proof.
  induction fstim as [| i fstim IH]; intros l; [reflexivity |].
  cbn. unfold stimulate in IH. rewrite IH. apply length_insert.
Qed.

Lemma stimulate_keeps fstim :
  forall (l : list bool) (j : nat),
    l !!! j = true -> stimulate fstim l !!! j = true.
Proof.
  induction fstim as [| i fstim IH]; intros l j Hj; [assumption |].
  cbn. apply IH. rewrite list_lookup_total_insert.
  destruct (decide _); [reflexivity | assumption].
Qed.

Lemma stimulate_elem fstim :
  forall (l : list bool) (i : nat),
    In i fstim -> (localIdx i < length l)%nat ->
    stimulate fstim l !!! localIdx i = true.
Proof.
  induction fstim as [| i' fstim IH]; intros l i Hin Hlt; [destruct Hin |].
  cbn. destruct Hin as [-> | Hin].
  - apply stimulate_keeps. now apply list_lookup_total_insert_eq.
  - apply IH; [assumption |]. now rewrite length_insert.
Qed.

Lemma setFiringStimulus_inv fstim :
  forall s s1,
    setFiringStimulus fstim s = (Returned, s1) ->
    s1 = set_fstim (stimulate fstim (m_fstim s)) s.
Proof.
  induction fstim as [| i fstim IH]; intros s s1 Hrun.
  - cbn in Hrun. injection Hrun as <-. now destruct s.
  - cbn [setFiringStimulus] in Hrun.
    destruct (localIdx i <? length (m_fstim s))%nat; [| discriminate].
    apply IH in Hrun. subst s1. reflexivity.
Qed.

Lemma setFiringStimulus_ok fstim :
  forall s,
    Forall (fun i => (localIdx i < length (m_fstim s))%nat) fstim ->
    setFiringStimulus fstim s
      = (Returned, set_fstim (stimulate fstim (m_fstim s)) s).
Proof.
  induction fstim as [| i fstim IH]; intros s Hall.
  - cbn. now destruct s.
  - apply Forall_cons in Hall as [Hi Hall]. cbn [setFiringStimulus].
    destruct (Nat.ltb_spec (localIdx i) (length (m_fstim s))); [| lia].
    rewrite IH; [reflexivity |]. cbn. now rewrite length_insert.
Qed.

(** ** Spike delivery on a finalized simulation *)

Definition dueTerminals (s : Simulation) : list FAxonTerminal :=
  dueTerminalsOf (m_cm s) (m_recentFiring s) (seq 0 (m_neuronCount s)).

Definition afterDelivery (s : Simulation) : Simulation :=
  set_current (foldl addTerminal (m_current s) (dueTerminals s)) s.

Lemma deliverSpikes_ok s :
  wf s -> deliverSpikes s = (Returned, afterDelivery s).
Proof.
  intros Hwf. unfold deliverSpikes, afterDelivery, dueTerminals.
  rewrite (forEachSource_ok (m_neuronCount s)).
  - reflexivity.
  - apply Hwf.
  - apply Forall_forall. intros n Hn. apply list_elem_of_In, in_seq in Hn.
    lia.
  - apply Hwf.
Qed.

Lemma afterDelivery_wf s : wf s -> wf (afterDelivery s).
Proof.
  intros []. split; cbn; try assumption.
  now rewrite foldl_addTerminal_length.
Qed.

(** ** The whole cycle *)

Definition afterUpdate (s : Simulation) : Simulation :=
  updateRange 0 (m_neuronCount s) s.

Definition afterStep (s : Simulation) : Simulation :=
  clearFstim (timerStep (setFiring (afterUpdate (afterDelivery s)))).

Lemma wf_in_range s (n : nat) :
  wf s -> (n < m_neuronCount s)%nat -> in_range s n.
Proof. intros [] Hn. unfold in_range. lia. Qed.

Lemma afterUpdate_spec s :
  wf s ->
  frame s (afterUpdate s) /\
  forall n : nat,
    (n < m_neuronCount s)%nat ->
    dyn (afterUpdate s) n =
      if (m_valid s !!! n : bool) then dynOf (neuronUpdate s n)
      else dyn s n.
Proof.
  intros Hwf. unfold afterUpdate, updateRange.
  rewrite Nat.sub_0_r.
  pose proof (updateRange_dyn (m_neuronCount s) 0 s) as Hspec.
  cbv zeta in Hspec. destruct Hspec as [Hfr Hdyn].
  { intros n Hn. apply wf_in_range; [assumption | lia]. }
  split; [assumption |]. intros n Hn. rewrite Hdyn.
  rewrite (decide_True (P := (0 <= n < 0 + m_neuronCount s)%nat)) by lia.
  reflexivity.
Qed.

(** The entries of neuron [n] after the update, one by one. *)
Lemma afterUpdate_neuron s (n : nat) :
  wf s -> (n < m_neuronCount s)%nat -> m_valid s !!! n = true ->
  m_u (afterUpdate s) !!! n = nu_u (neuronUpdate s n) /\
  m_v (afterUpdate s) !!! n = nu_v (neuronUpdate s n) /\
  m_fired (afterUpdate s) !!! n = nu_fired (neuronUpdate s n) /\
  m_recentFiring (afterUpdate s) !!! n = nu_recent (neuronUpdate s n).
Proof.
  intros Hwf Hn Hvalid. destruct (afterUpdate_spec s Hwf) as [_ Hdyn].
  specialize (Hdyn n Hn). rewrite Hvalid in Hdyn. unfold dyn, dynOf in Hdyn.
  pose proof (f_equal (fun d => fst (fst (fst (fst (fst d))))) Hdyn) as Hu.
  pose proof (f_equal (fun d => snd (fst (fst (fst (fst d))))) Hdyn) as Hv.
  pose proof (f_equal (fun d => snd (fst (fst (fst d)))) Hdyn) as Hf.
  pose proof (f_equal (fun d => snd (fst (fst d))) Hdyn) as Hr.
  cbn [fst snd] in Hu, Hv, Hf, Hr. auto.
Qed.

Lemma afterUpdate_wf s : wf s -> wf (afterUpdate s).
Proof.
  intros Hwf. destruct (afterUpdate_spec s Hwf) as [[] _].
  destruct Hwf. split; congruence.
Qed.

Lemma update_ok s :
  wf s -> enabled (m_stdp s) = false ->
  update s = (Returned, afterUpdate s).
Proof.
  intros Hwf Hstdp. unfold update, andThen, pureStep.
  fold (afterUpdate s).
  destruct (afterUpdate_spec s Hwf) as [Hfr _].
  rewrite (fr_stdp _ _ Hfr), Hstdp. reflexivity.
Qed.

Lemma update_inv s s' :
  wf s -> update s = (Returned, s') ->
  enabled (m_stdp s) = false /\ s' = afterUpdate s.
Proof.
  intros Hwf. unfold update, andThen, pureStep. fold (afterUpdate s).
  destruct (afterUpdate_spec s Hwf) as [Hfr _].
  rewrite (fr_stdp _ _ Hfr).
  destruct (enabled (m_stdp s)); cbn; [discriminate |].
  intros [= <-]. auto.
Qed.

Lemma step_ok s :
  wf s -> enabled (m_stdp s) = false -> step s = (Returned, afterStep s).
Proof.
  intros Hwf Hstdp. unfold step, andThen.
  rewrite deliverSpikes_ok by assumption.
  rewrite update_ok; [reflexivity | now apply afterDelivery_wf | assumption].
Qed.

Lemma step_inv s s' :
  wf s -> step s = (Returned, s') ->
  enabled (m_stdp s) = false /\ s' = afterStep s.
Proof.
  intros Hwf. unfold step, andThen.
  rewrite deliverSpikes_ok by assumption.
  destruct (update (afterDelivery s)) as [[| e |] s3] eqn:Hupd;
    try discriminate.
  apply update_inv in Hupd as [Hstdp ->]; [| now apply afterDelivery_wf].
  cbn. intros [= <-]. split; [exact Hstdp | reflexivity].
Qed.

Lemma afterStep_wf s : wf s -> wf (afterStep s).
Proof.
  intros Hwf. apply afterDelivery_wf in Hwf. apply afterUpdate_wf in Hwf.
  destruct Hwf. unfold afterStep.
  split; cbn; rewrite ?length_map; assumption.
Qed.

(** The entries of neuron [n] after a cycle, in terms of the state in
    which integration starts. *)
Lemma afterStep_dyn s (n : nat) :
  wf s -> (n < m_neuronCount s)%nat ->
  dyn (afterStep s) n =
    if (m_valid s !!! n : bool)
    then dynOf (neuronUpdate (afterDelivery s) n)
    else dyn (afterDelivery s) n.
Proof.
  intros Hwf Hn.
  destruct (afterUpdate_spec (afterDelivery s)) as [_ Hdyn];
    [now apply afterDelivery_wf |].
  specialize (Hdyn n Hn). exact Hdyn.
Qed.

Lemma afterStep_recentFiring s :
  m_recentFiring (afterStep s) = m_recentFiring (afterUpdate (afterDelivery s)).
Proof. reflexivity. Qed.

Lemma afterStep_fired s :
  m_fired (afterStep s) = m_fired (afterUpdate (afterDelivery s)).
Proof. reflexivity. Qed.

Lemma afterStep_u s : m_u (afterStep s) = m_u (afterUpdate (afterDelivery s)).
Proof. reflexivity. Qed.

Lemma afterStep_v s : m_v (afterStep s) = m_v (afterUpdate (afterDelivery s)).
Proof. reflexivity. Qed.

(** The same, entry by entry. *)
Lemma afterStep_neuron s (n : nat) :
  wf s -> (n < m_neuronCount s)%nat ->
  let r := neuronUpdate (afterDelivery s) n in
  m_u (afterStep s) !!! n
    = (if (m_valid s !!! n : bool) then nu_u r else m_u s !!! n) /\
  m_v (afterStep s) !!! n
    = (if (m_valid s !!! n : bool) then nu_v r else m_v s !!! n) /\
  m_fired (afterStep s) !!! n
    = (if (m_valid s !!! n : bool) then nu_fired r else m_fired s !!! n) /\
  m_recentFiring (afterStep s) !!! n
    = (if (m_valid s !!! n : bool) then nu_recent r
       else m_recentFiring s !!! n).
Proof.
  intros Hwf Hn r. pose proof (afterStep_dyn s n Hwf Hn) as Hdyn.
  fold r in Hdyn. unfold dyn, dynOf in Hdyn.
  destruct (m_valid s !!! n).
  - pose proof (f_equal (fun d => fst (fst (fst (fst (fst d))))) Hdyn) as Hu.
    pose proof (f_equal (fun d => snd (fst (fst (fst (fst d))))) Hdyn) as Hv.
    pose proof (f_equal (fun d => snd (fst (fst (fst d)))) Hdyn) as Hf.
    pose proof (f_equal (fun d => snd (fst (fst d))) Hdyn) as Hr.
    cbn [fst snd] in Hu, Hv, Hf, Hr. auto.
  - pose proof (f_equal (fun d => fst (fst (fst (fst (fst d))))) Hdyn) as Hu.
    pose proof (f_equal (fun d => snd (fst (fst (fst (fst d))))) Hdyn) as Hv.
    pose proof (f_equal (fun d => snd (fst (fst (fst d)))) Hdyn) as Hf.
    pose proof (f_equal (fun d => snd (fst (fst d))) Hdyn) as Hr.
    cbn [fst snd] in Hu, Hv, Hf, Hr. auto.
Qed.

Lemma afterStep_static s :
  wf s ->
  m_neuronCount (afterStep s) = m_neuronCount s /\
  m_valid (afterStep s) = m_valid s /\
  m_cm (afterStep s) = m_cm s /\
  m_stdp (afterStep s) = m_stdp s /\
  m_c (afterStep s) = m_c s /\ m_d (afterStep s) = m_d s.
Proof.
  intros Hwf.
  destruct (afterUpdate_spec (afterDelivery s)) as [Hfr _];
    [now apply afterDelivery_wf |].
  destruct Hfr. cbn in *. repeat split; assumption.
Qed.

End Step.

End CpuStep.

(* ===================================================================== *)
(** * CPU backend: firing history over a run *)
(* ===================================================================== *)

Module CpuHistory.
Import Cpu CpuDelivery CpuUpdate CpuStep.

Lemma shiftHistory_testbit (x : Z) (b : bool) (k : nat) :
  0 <= x -> (k < 64)%nat ->
  Z.testbit (shiftHistory x b) (Z.of_nat k)
    = match k with
      | O => b
      | S k' => Z.testbit x (Z.of_nat k')
      end.
Proof.
  intros Hx Hk. unfold shiftHistory.
  rewrite Z.lor_spec, shl64_1_testbit, b2z_testbit by lia.
  destruct k as [| k'].
  - cbn. reflexivity.
  - destruct (Z.eqb_spec (Z.of_nat (S k')) 0); [lia |].
    rewrite orb_false_r. f_equal. lia.
Qed.

Lemma shiftHistory_nonneg (x : Z) (b : bool) :
  0 <= x -> 0 <= shiftHistory x b.
Proof.
  intros Hx. unfold shiftHistory. apply Z.lor_nonneg. split.
  - apply shl64_1_range.
  - destruct b; cbn; lia.
Qed.

Section History.
Context {F : Type} `{FloatOps F} `{Collaborators F}.

(** The state in which cycle [t] starts, the cycles being numbered from 0:
    the state reached after the first [t] stimuli of the run. *)
Definition stateAt (stims : list (list nat)) (s0 : Simulation) (t : nat)
  : Simulation :=
  snd (run (take t stims) s0).

(** The first [t] cycles of the run all returned. *)
Definition completed (stims : list (list nat)) (s0 : Simulation) (t : nat)
  : Prop :=
  fst (run (take t stims) s0) = Returned.

(** Neuron [n] fired at cycle [c]: its entry of [m_fired] when cycle [c]
    has ended. *)
Definition firedAt (stims : list (list nat)) (s0 : Simulation) (c n : nat)
  : bool :=
  m_fired (stateAt stims s0 (S c)) !!! n.

(** A simulation as its constructor leaves it: no firing recorded. *)
Definition fresh (s : Simulation) : Prop :=
  forall n : nat, (n < m_neuronCount s)%nat ->
    m_recentFiring s !!! n = 0 /\ m_fired s !!! n = false.

Definition stimulated (fstim : list nat) (s : Simulation) : Simulation :=
  set_fstim (stimulate fstim (m_fstim s)) s.

(** The state after a cycle that returned. *)
Definition cycle (fstim : list nat) (s : Simulation) : Simulation :=
  afterStep (stimulated fstim s).

Lemma stimulated_wf fstim s : wf s -> wf (stimulated fstim s).
Proof.
  intros []. split; cbn; try assumption. now rewrite stimulate_length.
Qed.

Lemma stepWith_inv fstim s s' :
  wf s -> stepWith fstim s = (Returned, s') ->
  enabled (m_stdp s) = false /\ s' = cycle fstim s.
Proof.
  intros Hwf Hrun. apply andThen_inv in Hrun as (s1 & Hstim & Hstep).
  apply setFiringStimulus_inv in Hstim. subst s1.
  apply step_inv in Hstep; [| now apply stimulated_wf]. exact Hstep.
Qed.

Lemma stepWith_ok fstim s :
  wf s -> enabled (m_stdp s) = false ->
  Forall (fun i => (localIdx i < m_neuronCount s)%nat) fstim ->
  stepWith fstim s = (Returned, cycle fstim s).
Proof.
  intros Hwf Hstdp Hfstim. unfold stepWith, andThen.
  rewrite setFiringStimulus_ok by (now rewrite (wf_fstim _ Hwf)).
  apply step_ok; [now apply stimulated_wf | assumption].
Qed.

Lemma nu_recent_fired s (n : nat) :
  nu_recent (neuronUpdate s n)
    = shiftHistory (m_recentFiring s !!! n) (nu_fired (neuronUpdate s n)).
Proof.
  unfold neuronUpdate. destruct (integrated s n) as [[v u] fired].
  reflexivity.
Qed.

(** One cycle shifts the firing bit of the cycle into the history. *)
Lemma cycle_history fstim s (n : nat) :
  wf s -> (n < m_neuronCount s)%nat ->
  (m_valid s !!! n = false ->
     m_recentFiring s !!! n = 0 /\ m_fired s !!! n = false) ->
  m_recentFiring (cycle fstim s) !!! n
    = shiftHistory (m_recentFiring s !!! n) (m_fired (cycle fstim s) !!! n)
  /\ (m_valid s !!! n = false ->
        m_recentFiring (cycle fstim s) !!! n = 0 /\
        m_fired (cycle fstim s) !!! n = false).
Proof.
  intros Hwf Hn Hquiet. unfold cycle.
  pose proof (afterStep_neuron (stimulated fstim s) n
                (stimulated_wf fstim s Hwf) Hn) as Hdyn.
  cbv zeta in Hdyn. destruct Hdyn as (_ & _ & Hfired & Hrecent).
  change (m_valid (stimulated fstim s)) with (m_valid s) in Hfired, Hrecent.
  change (m_fired (stimulated fstim s)) with (m_fired s) in Hfired.
  change (m_recentFiring (stimulated fstim s))
    with (m_recentFiring s) in Hrecent.
  rewrite Hrecent, Hfired.
  destruct (m_valid s !!! n) eqn:Hvalid.
  - rewrite nu_recent_fired. split; [reflexivity | discriminate].
  - destruct (Hquiet eq_refl) as [Hr Hf].
    rewrite Hr, Hf. split; [reflexivity | auto].
Qed.

Lemma run_snoc (stims : list (list nat)) (fstim : list nat) :
  forall s, run (stims ++ [fstim]) s = andThen (run stims) (stepWith fstim) s.
Proof.
  induction stims as [| x stims IH]; intros s.
  - cbn [app run]. now rewrite andThen_pure_r.
  - cbn [app run]. rewrite andThen_assoc.
    apply andThen_ext. exact IH.
Qed.

Lemma completed_S stims s0 (t : nat) fstim :
  stims !! t = Some fstim -> completed stims s0 (S t) ->
  completed stims s0 t /\
  stepWith fstim (stateAt stims s0 t) = (Returned, stateAt stims s0 (S t)).
Proof.
  intros Hlook. unfold completed, stateAt.
  rewrite (take_S_r _ _ _ Hlook), run_snoc. unfold andThen.
  destruct (run (take t stims) s0) as [[| e |] s1]; cbn; try discriminate.
  intros Hstep. split; [reflexivity |].
  destruct (stepWith fstim s1) as [st s2]. cbn in *. now subst st.
Qed.

(** The invariant of the firing history: when cycle [t] starts, bit [k] of
    the history of neuron [n] records whether [n] fired at cycle
    [t - 1 - k]. *)
Lemma history_invariant stims s0 :
  wf s0 -> fresh s0 ->
  forall t : nat,
    (t <= length stims)%nat -> completed stims s0 t ->
    wf (stateAt stims s0 t) /\
    m_neuronCount (stateAt stims s0 t) = m_neuronCount s0 /\
    m_valid (stateAt stims s0 t) = m_valid s0 /\
    m_cm (stateAt stims s0 t) = m_cm s0 /\
    forall n : nat, (n < m_neuronCount s0)%nat ->
      0 <= m_recentFiring (stateAt stims s0 t) !!! n /\
      (m_valid s0 !!! n = false ->
         m_recentFiring (stateAt stims s0 t) !!! n = 0 /\
         m_fired (stateAt stims s0 t) !!! n = false) /\
      forall k : nat, (k < 64)%nat ->
        Z.testbit (m_recentFiring (stateAt stims s0 t) !!! n) (Z.of_nat k)
          = (k <? t)%nat && firedAt stims s0 (t - 1 - k) n.
Proof.
  intros Hwf Hfresh. induction t as [| t IH]; intros Hlen Hdone.
  - assert (Hs0 : stateAt stims s0 0 = s0) by reflexivity. rewrite Hs0.
    split; [assumption |]. split; [reflexivity |]. split; [reflexivity |].
    split; [reflexivity |]. intros n Hn.
    destruct (Hfresh n Hn) as [Hrecent Hfired]. rewrite Hrecent.
    split; [lia |]. split; [auto |].
    intros k _. apply Z.bits_0.
  - destruct (lookup_lt_is_Some_2 stims t) as [fstim Hlook]; [lia |].
    destruct (completed_S stims s0 t fstim Hlook Hdone) as [Hdone_t Hstep].
    destruct (IH ltac:(lia) Hdone_t) as (Hwf_t & HN & Hvalid & Hcm & Hbits).
    apply stepWith_inv in Hstep as [_ Hnext]; [| assumption].
    pose proof (afterStep_static (stimulated fstim (stateAt stims s0 t))
                  (stimulated_wf _ _ Hwf_t)) as (HN' & Hvalid' & Hcm' & _).
    fold (cycle fstim (stateAt stims s0 t)) in HN', Hvalid', Hcm'.
    rewrite <- Hnext in HN', Hvalid', Hcm'. cbn in HN', Hvalid', Hcm'.
    split; [rewrite Hnext; apply afterStep_wf, stimulated_wf, Hwf_t |].
    split; [congruence |]. split; [congruence |]. split; [congruence |].
    intros n Hn. destruct (Hbits n Hn) as (Hpos & Hquiet & Htest).
    destruct (cycle_history fstim (stateAt stims s0 t) n Hwf_t)
      as [Hshift Hquiet'].
    { now rewrite HN. }
    { now rewrite Hvalid. }
    rewrite <- Hnext in Hshift, Hquiet'. rewrite Hvalid in Hquiet'.
    split; [rewrite Hshift; now apply shiftHistory_nonneg |].
    split; [assumption |].
    intros k Hk. rewrite Hshift, shiftHistory_testbit by assumption.
    destruct k as [| k'].
    + replace (S t - 1 - 0)%nat with t by lia. reflexivity.
    + rewrite Htest by lia.
      destruct (Nat.ltb_spec k' t), (Nat.ltb_spec (S k') (S t)); try lia;
        cbn [andb]; try reflexivity.
      f_equal. lia.
Qed.

End History.

End CpuHistory.

(* ===================================================================== *)
(** * A concrete network, run with exact rational arithmetic *)
(* ===================================================================== *)

Module Demo.
Import Cpu CpuDelivery CpuUpdate CpuStep CpuHistory.

(** No thalamic noise and the identity index mapping. *)
#[export] Instance Collaborators_Q : Collaborators Q := {|
  RNG := unit;
  gaussian := fun r => (0%Q, r);
  localIdx := fun g => g;
  globalIdx := fun l => l
|}.

(** Fixed-point words with 20 fractional bits. *)
Definition fbits : Z := 20.

(** Two regular-spiking neurons; one synapse from neuron 0 to neuron 1 with
    delay 2 and weight 20.0. *)
Definition matrix : CM.ConnectivityMatrix :=
  CM.mkCM fbits ∅ [[]; [mkTerminal (20 * 2 ^ 20) 1]; []; []] ∅ 2.

Definition network : Simulation (F := Q) :=
  mkSimulation 2
    [2 # 100; 2 # 100] [2 # 10; 2 # 10] [-65 # 1; -65 # 1] [8 # 1; 8 # 1]
    [-13 # 1; -13 # 1] [-65 # 1; -65 # 1] [0; 0]%Q
    [true; true] [false; false] [0; 0] matrix [0; 0] [false; false]
    [tt; tt] 0 (mkSTDP false 0%Q 0%Q) 0 [] [].

(** Neuron 0 is forced to fire in the first cycle; a quiet cycle
    follows. *)
Definition stimuli : list (list nat) := [[0%nat]; []].

(** The run-time rows of [matrix] are those that the constructor builds:
    one call of [setRow], then [finalizeForward]. *)
Definition built : status * CM.ConnectivityMatrix :=
  andThen (CM.setRow 0 2 [mkAxonTerminal 1%nat (20 # 1) false])
          (CM.finalizeForward 2 1) (CM.mkCM fbits ∅ [] ∅ 0).

Lemma matrix_built :
  fst built = Returned /\
  CM.m_cm (snd built) = CM.m_cm matrix /\
  CM.m_maxDelay (snd built) = CM.m_maxDelay matrix /\
  CM.m_fractionalBits (snd built) = CM.m_fractionalBits matrix.
Proof. vm_compute. repeat split. Qed.

Lemma network_wf : wf network.
Proof.
  split; try reflexivity. split; cbn; try lia; try reflexivity.
  repeat constructor.
Qed.

Lemma network_fresh : fresh network.
Proof.
  intros n Hn. cbn in Hn.
  destruct n as [| [| n]]; [split; reflexivity | split; reflexivity | lia].
Qed.

End Demo.

(* ===================================================================== *)
(** * Verified properties of the CPU backend *)
(* ===================================================================== *)

Import Cpu CpuDelivery CpuUpdate CpuStep CpuHistory.

Section CpuClaims.
Context {F : Type} `{FloatOps F} `{Collaborators F}.
Local Open Scope float_scope.

(** C1.  For a valid neuron [n], one run of the per-cycle update
    ([updateRange] over all neurons, entered with [m_fired[n]] reset to 0)
    executes [k] sub-steps in order, [1 <= k <= 4], each computing
    [v := v + 0.25*((0.04*v + 5)*v + 140 - u + I)] and then, with the new
    [v], [u := u + 0.25*(a*(b*v - u))], with the same input current [I]
    throughout.  The threshold [v >= 30] was not reached after any earlier
    sub-step, and when fewer than four sub-steps ran the last one reached
    it, which sets the fired flag and ends the sub-steps of the neuron for
    the cycle.  The entries written for the neuron are those of the last
    sub-step, followed by the forced firing and the reset.  The arithmetic
    is that of the code: the literals and the sums are [double], and each
    assignment rounds to [float]. *)
Theorem C1_substeps_in_order (s : Simulation) (n : nat) :
  wf s -> (n < m_neuronCount s)%nat -> m_valid s !!! n = true ->
  let a := m_a s !!! n in
  let b := m_b s !!! n in
  let I := fst (inputCurrent s n) in
  let sub := fun vu : F * F =>
    let '(v, u) := vu in
    let v' := to_float
                (to_double v +# dconst (1 # 4) *#
                   ((dconst (4 # 100) *# to_double v +# dconst 5)
                      *# to_double v
                    +# dconst 140 -# to_double u +# to_double I)) in
    let u' := to_float
                (to_double u +# dconst (1 # 4) *#
                   to_double (a *! (b *! v' -! u))) in
    (v', u') in
  let after := fun j : nat => Nat.iter j sub (m_v s !!! n, m_u s !!! n) in
  let reached := fun vu : F * F => to_double (fst vu) >=# dconst 30 in
  exists k : nat,
    (1 <= k <= 4)%nat /\
    (forall j : nat, (1 <= j < k)%nat -> reached (after j) = false) /\
    ((k < 4)%nat -> reached (after k) = true) /\
    integrated s n = (after k, reached (after k)) /\
    let fired := reached (after k) || (m_fstim s !!! n) in
    m_fired (afterUpdate s) !!! n = fired /\
    m_v (afterUpdate s) !!! n
      = (if fired then m_c s !!! n else fst (after k)) /\
    m_u (afterUpdate s) !!! n
      = (if fired then snd (after k) +! (m_d s !!! n) else snd (after k)).
Proof.
  intros Hwf Hn Hvalid a b I sub after reached.
  destruct (integrate_prefix a b I (m_v s !!! n) (m_u s !!! n) SUBSTEPS)
    as (k & Hk & Hrun & Hbelow & Hstop); [unfold SUBSTEPS; lia |].
  change (trajectory a b I (m_v s !!! n) (m_u s !!! n)) with after
    in Hrun, Hbelow, Hstop.
  change (@above_threshold F _) with reached in Hrun, Hbelow, Hstop.
  exists k.
  assert (Hint : integrated s n = (after k, reached (after k)))
    by exact Hrun.
  split; [exact Hk |]. split; [exact Hbelow |]. split; [exact Hstop |].
  split; [exact Hint |].
  destruct (afterUpdate_neuron s n Hwf Hn Hvalid) as (Hu & Hv & Hf & _).
  rewrite Hu, Hv, Hf. unfold neuronUpdate. rewrite Hint.
  destruct (after k) as [vk uk]. cbn. auto.
Qed.

(** C8.  A valid neuron named in the firing stimulus of a cycle that runs
    on the CPU backend (STDP not enabled, every stimulus index in range)
    has its firing flag and the newest bit of its firing history set
    whatever its membrane state, is appended to the firing list that
    [readFiring] hands out, and is reset: [v := c], [u := u + d], where [u]
    is the recovery variable at the end of integration. *)
Theorem C8_forced_firing (fstim : list nat) (s : Simulation) (g : nat) :
  wf s -> enabled (m_stdp s) = false ->
  Forall (fun i => (localIdx i < m_neuronCount s)%nat) fstim ->
  In g fstim -> m_valid s !!! localIdx g = true ->
  globalIdx (localIdx g) = g ->
  let n := localIdx g in
  let integrating := afterDelivery (stimulated fstim s) in
  exists s' : Simulation,
    stepWith fstim s = (Returned, s') /\
    m_fired s' !!! n = true /\
    Z.testbit (m_recentFiring s' !!! n) 0 = true /\
    In g (snd (fst (readFiring s'))) /\
    m_v s' !!! n = m_c s !!! n /\
    m_u s' !!! n = snd (fst (integrated integrating n)) +! (m_d s !!! n).
Proof.
  intros Hwf Hstdp Hrange Hin Hvalid Hmap n integrating.
  exists (cycle fstim s). split; [now apply stepWith_ok |].
  assert (Hn : (n < m_neuronCount s)%nat)
    by (eapply Forall_forall in Hrange; [exact Hrange | now apply list_elem_of_In]).
  pose proof (stimulated_wf fstim s Hwf) as Hwf1.
  pose proof (afterDelivery_wf _ Hwf1) as Hwf2. fold integrating in Hwf2.
  destruct (afterUpdate_neuron integrating n Hwf2 Hn Hvalid)
    as (Hu & Hv & Hf & Hr).
  assert (Hforced : m_fstim integrating !!! n = true).
  { cbn. apply stimulate_elem; [assumption |].
    now rewrite (wf_fstim _ Hwf). }
  assert (Hfired : nu_fired (neuronUpdate integrating n) = true).
  { unfold neuronUpdate. destruct (integrated integrating n) as [[v u] f].
    cbn [nu_fired]. rewrite Hforced. apply orb_true_r. }
  unfold cycle.
  rewrite afterStep_fired, afterStep_recentFiring, afterStep_u, afterStep_v.
  fold integrating. rewrite Hu, Hv, Hf, Hr.
  split; [exact Hfired |]. split.
  { rewrite nu_recent_fired, Hfired. unfold shiftHistory.
    rewrite Z.lor_spec. change (Z.testbit (Z.b2z true) 0) with true.
    apply orb_true_r. }
  split.
  { assert (Hlist :
      snd (fst (readFiring (afterStep (stimulated fstim s))))
      = m_firedNeuron (afterUpdate integrating)
          ++ map globalIdx (firedNow (afterUpdate integrating)))
      by reflexivity.
    rewrite Hlist. apply in_or_app. right. rewrite <- Hmap. fold n.
    apply in_map. unfold firedNow. apply filter_In. split.
    - apply in_seq. destruct (afterUpdate_spec integrating Hwf2) as [Hfr _].
      rewrite (fr_count _ _ Hfr). cbn. lia.
    - rewrite Hf. exact Hfired. }
  unfold neuronUpdate in *.
  destruct (integrated integrating n) as [[v u] f]. cbn in Hfired |- *.
  rewrite Hfired. auto.
Qed.

(** C3, amended.  Every cycle that returns updates the 64-bit history of
    every neuron as [history := (history << 1) | fired]; hence, in a run
    from a fresh simulation with cycles numbered from 0, bit [k] of the
    history of neuron [n] when cycle [t] starts is 1 iff [k < t] and [n]
    fired at cycle [t - 1 - k], for all [k < 64]. *)
Theorem C3_firing_history (stims : list (list nat)) (s0 : Simulation)
    (t n k : nat) :
  wf s0 -> fresh s0 ->
  (t <= length stims)%nat -> completed stims s0 t ->
  (n < m_neuronCount s0)%nat -> (k < 64)%nat ->
  Z.testbit (m_recentFiring (stateAt stims s0 t) !!! n) (Z.of_nat k)
    = (k <? t)%nat && firedAt stims s0 (t - 1 - k) n
  /\ ((t < length stims)%nat -> completed stims s0 (S t) ->
      m_recentFiring (stateAt stims s0 (S t)) !!! n
        = shiftHistory (m_recentFiring (stateAt stims s0 t) !!! n)
                       (firedAt stims s0 t n)).
Proof.
  intros Hwf Hfresh Hlen Hdone Hn Hk.
  destruct (history_invariant stims s0 Hwf Hfresh t Hlen Hdone)
    as (Hwf_t & HN & Hvalid & _ & Hbits).
  destruct (Hbits n Hn) as (_ & Hquiet & Htest).
  split; [now apply Htest |].
  intros Hlt Hdone'.
  destruct (lookup_lt_is_Some_2 stims t Hlt) as [fstim Hlook].
  destruct (completed_S stims s0 t fstim Hlook Hdone') as [_ Hstep].
  apply stepWith_inv in Hstep as [_ Hnext]; [| assumption].
  unfold firedAt. rewrite Hnext.
  apply cycle_history; [assumption | now rewrite HN | now rewrite Hvalid].
Qed.

(** Delivery in a run whose largest delay is below 64 (part of
    well-formedness).  When cycle [t] starts, spike delivery masks the
    history of every source with [(1 << maxDelay) - 1], visits the set bits
    from the lowest upwards, bit [d - 1] standing for delay [d], and adds the
    weight of every terminal of row (source, d) to the accumulator of its
    target.  The delays visited for a source are exactly the [d] in
    [1, maxDelay] such that the source fired at cycle [t - d]: a spike fired
    at cycle [t0] reaches the targets of its delay-[d] synapses at cycle
    [t0 + d] and at no other cycle. *)
Lemma spike_delivery_in_run (stims : list (list nat)) (s0 : Simulation)
    (t : nat) :
  wf s0 -> fresh s0 -> (t <= length stims)%nat -> completed stims s0 t ->
  let s := stateAt stims s0 t in
  let cm := m_cm s in
  validSpikes cm = 2 ^ Z.of_nat (CM.m_maxDelay cm) - 1 /\
  (forall source : nat, (source < m_neuronCount s)%nat ->
     dueDelays (CM.m_maxDelay cm) (m_recentFiring s !!! source)
       = List.filter
           (fun d => (d <=? t)%nat && firedAt stims s0 (t - d) source)
           (seq 1 (CM.m_maxDelay cm))) /\
  deliverSpikes s =
    (Returned,
     set_current
       (foldl addTerminal (m_current s)
          (flat_map
             (fun source =>
                flat_map (rowAt cm source)
                  (dueDelays (CM.m_maxDelay cm)
                             (m_recentFiring s !!! source)))
             (seq 0 (m_neuronCount s))))
       s).
Proof.
  intros Hwf Hfresh Hlen Hdone s cm.
  destruct (history_invariant stims s0 Hwf Hfresh t Hlen Hdone)
    as (Hwf_t & HN & _ & _ & Hbits).
  fold s in Hwf_t, HN, Hbits.
  pose proof (cm_maxDelay_lt _ _ (wf_matrix _ Hwf_t)) as Hmax. fold cm in Hmax.
  split; [rewrite validSpikes_window; now rewrite window_small |].
  split; [| exact (deliverSpikes_ok s Hwf_t)].
  intros source Hsource. unfold dueDelays.
  apply List.filter_ext_in. intros d Hd. apply in_seq in Hd.
  destruct (Hbits source ltac:(lia)) as (_ & _ & Htest).
  rewrite Htest by lia.
  replace (t - 1 - pred d)%nat with (t - d)%nat by lia.
  f_equal.
  destruct (Nat.ltb_spec (pred d) t), (Nat.leb_spec d t); lia || reflexivity.
Qed.

Lemma flat_map_no_delays {A B} (f : A -> nat -> list B) (l : list A) :
  flat_map (fun x => flat_map (f x) []) l = [].
Proof. induction l as [| x l IH]; [reflexivity | exact IH]. Qed.

(** C2.  What spike delivery does on any finalized matrix, whatever its
    largest delay [maxDelay].  The mask keeps the [maxDelay mod 64] most
    recent bits of each history word, because the machine takes the count
    of the 64-bit shift modulo 64.  For every source, in index order, the
    set bits of the masked word are visited from the lowest upwards, bit
    [d - 1] standing for delay [d], and the weight of every terminal of row
    (source, d) is added to the accumulator of its target.  Delivery leaves
    the history words as they are.  For a largest delay below 64 the mask is
    [(1 << maxDelay) - 1], as the specification has it.  With the largest
    delay the specification allows, 64, the mask is 0 and nothing is
    delivered: no accumulator changes, whichever neurons fired and whatever
    the delays of their synapses.  The timing of the delivered spikes in a
    run is [spike_delivery_in_run]. *)
Theorem C2_spike_delivery (s : Simulation) :
  let cm := m_cm s in
  let N := m_neuronCount s in
  let maxDelay := CM.m_maxDelay cm in
  wf_rows N cm -> length (m_current s) = N ->
  validSpikes cm = 2 ^ (Z.of_nat maxDelay mod 64) - 1 /\
  deliverSpikes s =
    (Returned,
     set_current
       (foldl
          (fun current t =>
             <[target t := wrap32 (current !!! target t + weight t)]> current)
          (m_current s)
          (flat_map
             (fun source =>
                flat_map (rowAt cm source)
                  (List.filter
                     (fun d => Z.testbit (m_recentFiring s !!! source)
                                         (Z.of_nat d - 1))
                     (seq 1 (maxDelay mod 64))))
             (seq 0 N)))
       s) /\
  m_recentFiring (snd (deliverSpikes s)) = m_recentFiring s /\
  ((maxDelay < 64)%nat -> validSpikes cm = 2 ^ Z.of_nat maxDelay - 1) /\
  (maxDelay = 64%nat ->
   validSpikes cm = 0 /\ deliverSpikes s = (Returned, s)).
Proof.
  intros cm N maxDelay Hrows Hcurrent.
  assert (Hmask : validSpikes cm = 2 ^ (Z.of_nat maxDelay mod 64) - 1).
  { rewrite validSpikes_window. unfold window. fold maxDelay.
    now rewrite Nat2Z.inj_mod. }
  assert (Hrun : deliverSpikes s =
    (Returned,
     set_current
       (foldl addTerminal (m_current s)
          (flat_map
             (fun source =>
                flat_map (rowAt cm source)
                  (List.filter
                     (fun d => Z.testbit (m_recentFiring s !!! source)
                                         (Z.of_nat d - 1))
                     (seq 1 (maxDelay mod 64))))
             (seq 0 N)))
       s)).
  { unfold deliverSpikes. fold cm N.
    rewrite (forEachSource_window N);
      [| exact Hrows
       | apply Forall_forall; intros n Hn;
         apply list_elem_of_In, in_seq in Hn; lia
       | exact Hcurrent].
    unfold reachedTerminalsOf, dueDelays, window. fold maxDelay.
    do 3 f_equal. apply flat_map_ext. intros source. f_equal.
    apply List.filter_ext_in. intros d Hd. apply in_seq in Hd.
    f_equal. lia. }
  split; [exact Hmask |]. split; [exact Hrun |].
  split; [now rewrite Hrun |].
  split.
  - intros Hlt. rewrite validSpikes_window. now rewrite window_small.
  - intros H64. split.
    + rewrite Hmask, H64. reflexivity.
    + rewrite Hrun, H64. change (64 mod 64)%nat with 0%nat. cbn [seq List.filter].
      rewrite flat_map_no_delays. cbn [foldl]. now destruct s.
Qed.

End CpuClaims.

(* ===================================================================== *)
(** * Verified properties of the CUDA host code *)
(* ===================================================================== *)

Section CudaFacts.
Context {F D : Type} `{FloatOps F}
        `{DeviceKernels F (Cuda.ConnectivityMatrix F) D}.

Lemma checkAssertions_state (s : Cuda.Simulation) :
  snd (Cuda.checkAssertions s) = s.
Proof.
  unfold Cuda.checkAssertions.
  now destruct (deviceAssertionsFailed (Cuda.m_cycle s) (Cuda.m_device s)).
Qed.

(** A call of [step] that returns has advanced the counter by one, without
    wrapping. *)
Lemma step_returned_cycle (fstim : list nat) (s s' : Cuda.Simulation) :
  is_u32 (Cuda.m_cycle s) ->
  Cuda.step fstim s = (Returned, s') ->
  Cuda.m_cycle s' = Cuda.m_cycle s + 1 /\ is_u32 (Cuda.m_cycle s').
Proof.
  intros Hrange. unfold Cuda.step.
  destruct (Z.eqb_spec (Cuda.m_cycle s) UINT32_MAX) as [Hmax | Hne];
    [discriminate |].
  destruct (stepSimulationKernel _ _ _ _) as [[cm dev] ok].
  assert (Hwrap : wrapu32 (Cuda.m_cycle s + 1) = Cuda.m_cycle s + 1).
  { unfold wrapu32, is_u32, UINT32_MAX in *. apply Z.mod_small. lia. }
  destruct ok; [| discriminate].
  unfold Cuda.checkAssertions. cbn [Cuda.m_cycle Cuda.m_device].
  destruct (deviceAssertionsFailed _ _); [discriminate |].
  intros [= <-]. cbn [Cuda.m_cycle]. rewrite Hwrap.
  unfold is_u32, UINT32_MAX in *. lia.
Qed.

(** Below the largest counter value, every call of [step] leaves the
    counter incremented by one, and it returns exactly when the kernel
    invocation succeeded and no device assertion failed. *)
Lemma step_outcome (fstim : list nat) (s : Cuda.Simulation) :
  is_u32 (Cuda.m_cycle s) -> Cuda.m_cycle s <> UINT32_MAX ->
  let after := stepSimulationKernel (Cuda.usingStdp s) (Cuda.m_cycle s + 1)
                 fstim (Cuda.m_cm s, Cuda.m_device s) in
  Cuda.m_cycle (snd (Cuda.step fstim s)) = Cuda.m_cycle s + 1 /\
  (fst (Cuda.step fstim s) = Returned <->
   snd after = true /\
   deviceAssertionsFailed (Cuda.m_cycle s + 1) (snd (fst after)) = false).
Proof.
  intros Hrange Hne after. unfold Cuda.step.
  destruct (Z.eqb_spec (Cuda.m_cycle s) UINT32_MAX) as [Hmax | _];
    [contradiction |].
  assert (Hwrap : wrapu32 (Cuda.m_cycle s + 1) = Cuda.m_cycle s + 1).
  { unfold wrapu32, is_u32, UINT32_MAX in *. apply Z.mod_small. lia. }
  rewrite Hwrap. fold after.
  destruct after as [[cm dev] ok]. cbn [fst snd].
  destruct ok.
  - unfold Cuda.checkAssertions. cbn [Cuda.m_cycle Cuda.m_device].
    destruct (deviceAssertionsFailed (Cuda.m_cycle s + 1) dev);
      cbn [fst snd Cuda.m_cycle]; (split; [reflexivity |]).
    + split; [discriminate | intros [_ Hbad]; discriminate].
    + split; [intros _; now split | reflexivity].
  - cbn [fst snd Cuda.m_cycle]. split; [reflexivity |].
    split; [discriminate | intros [Hbad _]; discriminate].
Qed.

Lemma run_returned_cycle (stims : list (list nat)) :
  forall s s' : Cuda.Simulation,
    is_u32 (Cuda.m_cycle s) ->
    Cuda.run stims s = (Returned, s') ->
    Cuda.m_cycle s' = Cuda.m_cycle s + Z.of_nat (length stims) /\
    is_u32 (Cuda.m_cycle s').
Proof.
  induction stims as [| fstim stims IH]; intros s s' Hrange Hrun.
  - injection Hrun as <-. cbn [length]. split; [lia | assumption].
  - cbn [Cuda.run] in Hrun.
    apply andThen_inv in Hrun as (s1 & Hstep & Hrest).
    apply step_returned_cycle in Hstep as [Hcycle Hrange1]; [| assumption].
    apply IH in Hrest as [Hcycle' Hrange']; [| assumption].
    split; [| assumption]. rewrite Hcycle', Hcycle. cbn [length]. lia.
Qed.

End CudaFacts.

Section CudaClaims.
Context {F D : Type} `{FloatOps F} `{Collaborators F}
        `{DeviceKernels F (Cuda.ConnectivityMatrix F) D}.

(** C10.  As long as the 32-bit cycle counter is below [2^32 - 1], a call
    of [step] increments it by exactly one, and the call returns exactly
    when the kernel invocation succeeded and no device assertion failed; so
    a call that returns has incremented the counter by exactly one.  A call
    made when the counter is [2^32 - 1] throws the overflow error and leaves
    the whole simulation state as it was.  Hence a run of [step] calls that
    all return, started with the counter at 0, has at most [2^32 - 1] calls,
    and the counter is their number. *)
Theorem C10_cycle_counter (fstim : list nat) (s : Cuda.Simulation)
    (stims : list (list nat)) (s0 : Cuda.Simulation) :
  is_u32 (Cuda.m_cycle s) ->
  let after := stepSimulationKernel (Cuda.usingStdp s) (Cuda.m_cycle s + 1)
                 fstim (Cuda.m_cm s, Cuda.m_device s) in
  (Cuda.m_cycle s <> UINT32_MAX ->
     Cuda.m_cycle (snd (Cuda.step fstim s)) = Cuda.m_cycle s + 1 /\
     (fst (Cuda.step fstim s) = Returned <->
      snd after = true /\
      deviceAssertionsFailed (Cuda.m_cycle s + 1) (snd (fst after)) = false)) /\
  (forall s' : Cuda.Simulation,
      Cuda.step fstim s = (Returned, s') ->
      Cuda.m_cycle s' = Cuda.m_cycle s + 1) /\
  (Cuda.m_cycle s = UINT32_MAX ->
      Cuda.step fstim s = (Thrown STD_OVERFLOW_ERROR, s)) /\
  (forall s' : Cuda.Simulation,
      Cuda.m_cycle s0 = 0 ->
      Cuda.run stims s0 = (Returned, s') ->
      Cuda.m_cycle s' = Z.of_nat (length stims) /\
      Z.of_nat (length stims) <= 2 ^ 32 - 1).
Proof.
  intros Hrange after. split; [| split; [| split]].
  - intros Hne. exact (step_outcome fstim s Hrange Hne).
  - intros s' Hstep. now apply (step_returned_cycle fstim s s').
  - intros Hmax. unfold Cuda.step. rewrite Hmax, Z.eqb_refl. reflexivity.
  - intros s' Hzero Hrun.
    apply run_returned_cycle in Hrun as [Hcycle Hrange'].
    + rewrite Hzero in Hcycle. unfold is_u32, two32 in Hrange'. lia.
    + rewrite Hzero. unfold is_u32, two32. lia.
Qed.

(** C5.  On a simulation with STDP configured, [applyStdp] with a reward
    that compares equal to 0.0 does not call the kernel: it leaves the
    forward matrix and the device memory as they are, so every weight reads
    back the same value, and it clears the accumulators of every reverse
    matrix, so that every STDP accumulator is zero afterwards, one per
    reverse synapse as before.  The call ends by returning or by the error
    of a failed device assertion. *)
Theorem C5_apply_stdp_zero_reward (reward : F) (s : Cuda.Simulation) :
  Cuda.usingStdp s = true -> feqb reward (fconst 0) = true ->
  let s' := snd (Cuda.applyStdp reward s) in
  Cuda.md_fcm (Cuda.m_cm s') = Cuda.md_fcm (Cuda.m_cm s) /\
  Cuda.mh_fcm (Cuda.m_cm s') = Cuda.mh_fcm (Cuda.m_cm s) /\
  Cuda.readWeights (Cuda.m_cm s') = Cuda.readWeights (Cuda.m_cm s) /\
  Cuda.m_rsynapses (Cuda.m_cm s')
    = Cuda.RSMatrix_clearStdpAccumulator <$> Cuda.m_rsynapses (Cuda.m_cm s) /\
  Forall (fun acc => acc = 0) (Cuda.accumulators (Cuda.m_cm s')) /\
  length (Cuda.accumulators (Cuda.m_cm s'))
    = length (Cuda.accumulators (Cuda.m_cm s)) /\
  Cuda.m_device s' = Cuda.m_device s /\
  (fst (Cuda.applyStdp reward s) = Returned \/
   fst (Cuda.applyStdp reward s) = Thrown DEVICE_ASSERTION_ERROR).
Proof.
  intros Hstdp Hzero s'.
  assert (Hrun : Cuda.applyStdp reward s
                 = Cuda.checkAssertions
                     (Cuda.mkSimulation
                        (Cuda.clearStdpAccumulator (Cuda.m_cm s))
                        (Cuda.m_stdpFn s) (Cuda.m_cycle s)
                        (Cuda.m_partitionCount s) (Cuda.m_device s))).
  { unfold Cuda.applyStdp. now rewrite Hstdp, Hzero. }
  assert (Hs' : s' = Cuda.mkSimulation
                       (Cuda.clearStdpAccumulator (Cuda.m_cm s))
                       (Cuda.m_stdpFn s) (Cuda.m_cycle s)
                       (Cuda.m_partitionCount s) (Cuda.m_device s)).
  { unfold s'. rewrite Hrun. apply checkAssertions_state. }
  rewrite Hs'. cbn [Cuda.m_cm Cuda.m_device].
  split; [reflexivity |]. split; [reflexivity |]. split; [reflexivity |].
  split; [reflexivity |]. split; [| split; [| split; [reflexivity |]]].
  - apply Forall_forall. intros acc Hacc. apply list_elem_of_In in Hacc.
    unfold Cuda.accumulators in Hacc. apply in_flat_map in Hacc.
    destruct Hacc as ([p r] & Hpr & Hin).
    apply list_elem_of_In, elem_of_map_to_list in Hpr.
    cbn [Cuda.clearStdpAccumulator Cuda.m_rsynapses] in Hpr.
    rewrite lookup_fmap in Hpr.
    destruct (Cuda.m_rsynapses (Cuda.m_cm s) !! p) as [r0 |]; [| discriminate].
    injection Hpr as <-. cbn in Hin. apply in_map_iff in Hin.
    destruct Hin as (x & Hx & _). now symmetry.
  - unfold Cuda.accumulators.
    cbn [Cuda.clearStdpAccumulator Cuda.m_rsynapses].
    rewrite map_to_list_fmap.
    generalize (map_to_list (Cuda.m_rsynapses (Cuda.m_cm s))).
    intros l. induction l as [| [p r] l IH]; [reflexivity |].
    cbn [fmap list_fmap flat_map prod_map fst snd].
    rewrite !length_app. f_equal; [| exact IH].
    cbn. apply length_map.
  - rewrite Hrun. unfold Cuda.checkAssertions.
    destruct (deviceAssertionsFailed _ _); [now right | now left].
Qed.

(** C6, amended.  When no STDP function is enabled, [applyStdp] of the CUDA
    backend (and of the older [RuntimeData]) returns, for every reward,
    without error and with the simulation state unchanged.  The CPU backend
    does not implement [applyStdp]: for every reward it throws the
    unsupported-API error, and leaves the state unchanged. *)
Theorem C6_apply_stdp_unconfigured (reward : F) (s : Cuda.Simulation)
    (rt : Cuda.RuntimeData) (c : Cpu.Simulation) :
  Cuda.usingStdp s = false -> Cuda.usingStdp (Cuda.rt_state rt) = false ->
  Cuda.applyStdp reward s = (Returned, s) /\
  Cuda.RuntimeData_applyStdp reward rt = (Returned, rt) /\
  Cpu.applyStdp reward c = (Thrown NEMO_API_UNSUPPORTED, c).
Proof.
  intros Hs Hrt. repeat split.
  - unfold Cuda.applyStdp. now rewrite Hs.
  - unfold Cuda.RuntimeData_applyStdp. rewrite Hrt.
    now destruct (Cuda.deviceDirty rt).
Qed.


End CudaClaims.

(* ===================================================================== *)
(** * The properties on concrete inputs *)
(* ===================================================================== *)

Import Demo.

(** A device whose kernels always succeed and change nothing. *)
#[export] Instance DeviceKernels_idle
  : DeviceKernels Q (Cuda.ConnectivityMatrix Q) unit := {|
  stepSimulationKernel := fun _ _ _ mem => (mem, true);
  applyStdpKernel := fun _ _ _ _ mem => mem;
  deviceAssertionsFailed := fun _ _ => false
|}.

(** A CUDA simulation of an empty network; STDP is on or off. *)
Definition cudaSimulation (stdp : bool) (cycle : Z) : Cuda.Simulation :=
  Cuda.mkSimulation (Cuda.emptyCM 1024 true) (mkSTDP stdp (-10 # 1) (10 # 1))
                    cycle 1 tt.

(** [network] with an input current of 200.0 waiting for neuron 0. *)
Definition driven : Simulation (F := Q) :=
  mkSimulation 2
    [2 # 100; 2 # 100] [2 # 10; 2 # 10] [-65 # 1; -65 # 1] [8 # 1; 8 # 1]
    [-13 # 1; -13 # 1] [-65 # 1; -65 # 1] [0; 0]%Q
    [true; true] [false; false] [0; 0] matrix [200 * 2 ^ 20; 0]
    [false; false] [tt; tt] 0 (mkSTDP false 0%Q 0%Q) 0 [] [].

Lemma driven_wf : wf driven.
Proof.
  split; try reflexivity. split; cbn; try lia; try reflexivity.
  repeat constructor.
Qed.

(** C1 on [driven].  From [v = -65], [u = -13] and [I = 200] the first
    sub-step gives [v = -15.75], [u = -12.95075]; the second gives
    [v = 55.2808125], which is above 30, and [u = -12.8307154375].  So two
    sub-steps run, the neuron fires, and the update leaves [v = c = -65] and
    [u = -12.8307154375 + 8]. *)
Lemma C1_witness :
  wf driven /\ (0 < m_neuronCount driven)%nat /\
  m_valid driven !!! 0%nat = true /\
  fst (inputCurrent driven 0) = (200 # 1)%Q /\
  integrated driven 0
    = ((884493 # 16000)%Q, (-205291447 # 16000000)%Q, true) /\
  m_fired (afterUpdate driven) !!! 0%nat = true /\
  m_v (afterUpdate driven) !!! 0%nat = (-65 # 1)%Q /\
  m_u (afterUpdate driven) !!! 0%nat = (-77291447 # 16000000)%Q.
Proof.
  assert (Hn : (0 < m_neuronCount driven)%nat) by (cbn; lia).
  assert (Hvalid : m_valid driven !!! 0%nat = true) by reflexivity.
  split; [exact driven_wf |]. split; [exact Hn |]. split; [exact Hvalid |].
  split; [vm_compute; reflexivity |].
  pose proof (C1_substeps_in_order driven 0 driven_wf Hn Hvalid) as Hc.
  cbv zeta in Hc.
  destruct Hc as (k & Hk & Hbelow & Hstop & Hint & Hfired & Hv & Hu).
  assert (Hk2 : k = 2%nat).
  { clear Hint Hfired Hv Hu.
    destruct k as [| [| [| [| [| k]]]]];
      [exfalso; clear -Hk; lia | | reflexivity | | | exfalso; clear -Hk; lia].
    - assert (H1 : (1 < 4)%nat) by (clear; lia).
      specialize (Hstop H1). vm_compute in Hstop. discriminate Hstop.
    - assert (H2 : (1 <= 2 < 3)%nat) by (clear; lia).
      specialize (Hbelow 2%nat H2). vm_compute in Hbelow.
      discriminate Hbelow.
    - assert (H2 : (1 <= 2 < 4)%nat) by (clear; lia).
      specialize (Hbelow 2%nat H2). vm_compute in Hbelow.
      discriminate Hbelow. }
  subst k.
  split; [rewrite Hint; vm_compute; reflexivity |].
  split; [rewrite Hfired; vm_compute; reflexivity |].
  split; [rewrite Hv; vm_compute; reflexivity |].
  rewrite Hu. vm_compute. reflexivity.
Defined.

Lemma C8_witness :
  wf network /\ enabled (m_stdp network) = false /\
  Forall (fun i => (localIdx i < m_neuronCount network)%nat) [0%nat] /\
  In 0%nat [0%nat] /\ m_valid network !!! localIdx 0 = true /\
  globalIdx (localIdx 0) = 0%nat /\
  exists s' : Simulation,
    stepWith [0%nat] network = (Returned, s') /\
    m_fired s' !!! 0%nat = true /\
    In 0%nat (snd (fst (readFiring s'))) /\
    m_v s' !!! 0%nat = (-65 # 1)%Q.
Proof.
  assert (Hrange : Forall (fun i => (localIdx i < m_neuronCount network)%nat)
                          [0%nat])
    by (repeat constructor; cbn; lia).
  assert (Hin : In 0%nat [0%nat]) by (left; reflexivity).
  split; [exact network_wf |]. split; [reflexivity |].
  split; [exact Hrange |]. split; [exact Hin |].
  split; [reflexivity |]. split; [reflexivity |].
  pose proof (C8_forced_firing [0%nat] network 0 network_wf eq_refl
                Hrange Hin eq_refl eq_refl) as Hc.
  cbv zeta in Hc. destruct Hc as (s' & Hstep & Hfired & _ & Hlist & Hv & _).
  exists s'. repeat split; assumption.
Defined.

Lemma stimuli_completed (t : nat) :
  (t <= 2)%nat -> completed stimuli network t.
Proof.
  intros Ht. destruct t as [| [| [| t]]]; [| | | lia];
    vm_compute; reflexivity.
Qed.

(** C3 in the wording of the specification fails: when cycle 1 starts, bit 0 of the history of
    neuron 0 is set (the neuron fired at cycle 0), although the neuron does
    not fire at cycle [1 - 0]. *)
Lemma C3_counterexample :
  wf network /\ fresh network /\ completed stimuli network 2 /\
  Z.testbit (m_recentFiring (stateAt stimuli network 1) !!! 0%nat) 0 = true /\
  firedAt stimuli network (1 - 0) 0 = false.
Proof.
  split; [exact network_wf |]. split; [exact network_fresh |].
  split; [apply stimuli_completed; lia |].
  split; vm_compute; reflexivity.
Qed.

Lemma C3_witness :
  wf network /\ fresh network /\ (1 <= length stimuli)%nat /\
  completed stimuli network 1 /\ (0 < m_neuronCount network)%nat /\
  (0 < 64)%nat /\
  Z.testbit (m_recentFiring (stateAt stimuli network 1) !!! 0%nat)
            (Z.of_nat 0)
    = (0 <? 1)%nat && firedAt stimuli network (1 - 1 - 0) 0.
Proof.
  assert (Hlen : (1 <= length stimuli)%nat) by (cbn; lia).
  assert (Hdone : completed stimuli network 1)
    by (apply stimuli_completed; lia).
  assert (Hn : (0 < m_neuronCount network)%nat) by (cbn; lia).
  assert (Hk : (0 < 64)%nat) by lia.
  repeat (split; [first [exact network_wf | exact network_fresh
                        | assumption] |]).
  exact (proj1 (C3_firing_history stimuli network 1 0 0 network_wf
                  network_fresh Hlen Hdone Hn Hk)).
Defined.

(** Two neurons and two synapses from neuron 0 to neuron 1: one of delay 1
    and weight 1.0, one of delay [last] and weight 2.0, laid out by [setRow]
    and [finalizeForward]. *)
Definition delayBoundary (last : nat) : status * CM.ConnectivityMatrix :=
  andThen (CM.setRow 0 1 [mkAxonTerminal 1%nat (1 # 1) false])
    (andThen (CM.setRow 0 last [mkAxonTerminal 1%nat (2 # 1) false])
             (CM.finalizeForward 2 1))
    (CM.mkCM fbits ∅ [] ∅ 0).

(** The simulation on that matrix one cycle after neuron 0 fired: bit 0 of
    its history word is set, the accumulators are empty. *)
Definition boundaryNetwork (last : nat) : Simulation (F := Q) :=
  mkSimulation 2
    [2 # 100; 2 # 100] [2 # 10; 2 # 10] [-65 # 1; -65 # 1] [8 # 1; 8 # 1]
    [-13 # 1; -13 # 1] [-65 # 1; -65 # 1] [0; 0]%Q
    [true; true] [true; false] [1; 0]
    (snd (delayBoundary last))
    [0; 0] [false; false] [tt; tt] 0 (mkSTDP false 0%Q 0%Q) 1 [] [].

Lemma boundary_rows (last : nat) :
  last = 63%nat \/ last = 64%nat ->
  fst (delayBoundary last) = Returned /\
  CM.m_maxDelay (snd (delayBoundary last)) = last /\
  wf_rows 2 (snd (delayBoundary last)) /\
  rowAt (snd (delayBoundary last)) 0 1 = [mkTerminal (2 ^ 20) 1].
Proof.
  intros Hlast.
  assert (Htargets :
            forallb (forallb (fun t => (target t <? 2)%nat))
                    (CM.m_cm (snd (delayBoundary last))) = true)
    by (destruct Hlast as [-> | ->]; vm_compute; reflexivity).
  assert (Hmd : CM.m_maxDelay (snd (delayBoundary last)) = last)
    by (destruct Hlast as [-> | ->]; vm_compute; reflexivity).
  split; [destruct Hlast as [-> | ->]; vm_compute; reflexivity |].
  split; [exact Hmd |].
  split; [| destruct Hlast as [-> | ->]; vm_compute; reflexivity].
  split; [destruct Hlast as [-> | ->]; vm_compute; reflexivity |].
  apply Forall_forall. intros row Hin. apply Forall_forall. intros t Ht.
  rewrite forallb_forall in Htargets.
  apply list_elem_of_In in Hin, Ht.
  specialize (Htargets row Hin). rewrite forallb_forall in Htargets.
  apply Nat.ltb_lt. now apply Htargets.
Qed.

(** C2 at the delay boundary.  With the delays 1 and 63 the spike that
    neuron 0 fired one cycle ago is delivered through the synapse of delay
    1: the accumulator of neuron 1 receives the weight 1.0.  With the delays
    1 and 64 the same spike is not delivered: the mask is 0 where
    [(1 << 64) - 1] keeps every bit of the history word, and the accumulator
    of neuron 1 stays empty although the bit of delay 1 is set and the row
    of delay 1 holds a synapse. *)
Lemma C2_witness :
  (wf_rows 2 (m_cm (boundaryNetwork 63)) /\
   length (m_current (boundaryNetwork 63)) = 2%nat /\
   validSpikes (m_cm (boundaryNetwork 63)) = 2 ^ 63 - 1 /\
   m_current (snd (deliverSpikes (boundaryNetwork 63))) = [0; 2 ^ 20]) /\
  (wf_rows 2 (m_cm (boundaryNetwork 64)) /\
   length (m_current (boundaryNetwork 64)) = 2%nat /\
   CM.m_maxDelay (m_cm (boundaryNetwork 64)) = 64%nat /\
   Z.testbit (Z.land (m_recentFiring (boundaryNetwork 64) !!! 0%nat)
                     (2 ^ 64 - 1)) 0 = true /\
   rowAt (m_cm (boundaryNetwork 64)) 0 1 = [mkTerminal (2 ^ 20) 1] /\
   validSpikes (m_cm (boundaryNetwork 64)) = 0 /\
   deliverSpikes (boundaryNetwork 64) = (Returned, boundaryNetwork 64) /\
   m_current (boundaryNetwork 64) = [0; 0]).
Proof.
  destruct (boundary_rows 63 ltac:(now left)) as (_ & Hmd63 & Hrows63 & _).
  destruct (boundary_rows 64 ltac:(now right)) as (_ & Hmd64 & Hrows64 & Hrow64).
  split.
  - destruct (C2_spike_delivery (boundaryNetwork 63) Hrows63 eq_refl)
      as (Hmask & Hrun & _ & _ & _).
    split; [exact Hrows63 |]. split; [reflexivity |].
    split; [rewrite Hmask; vm_compute; reflexivity |].
    rewrite Hrun. vm_compute. reflexivity.
  - destruct (C2_spike_delivery (boundaryNetwork 64) Hrows64 eq_refl)
      as (_ & _ & _ & _ & Hbug).
    destruct (Hbug Hmd64) as [Hmask Hrun].
    split; [exact Hrows64 |]. split; [reflexivity |].
    split; [exact Hmd64 |]. split; [reflexivity |].
    split; [exact Hrow64 |]. split; [exact Hmask |].
    split; [exact Hrun | reflexivity].
Defined.

(** C6 in the wording of the specification fails on the CPU backend: with no STDP function enabled,
    [applyStdp] does not return but throws. *)
Lemma C6_counterexample :
  enabled (m_stdp network) = false /\
  fst (Cpu.applyStdp 1%Q network) = Thrown NEMO_API_UNSUPPORTED.
Proof. split; reflexivity. Qed.

Lemma C6_witness :
  Cuda.usingStdp (cudaSimulation false 0) = false /\
  Cuda.usingStdp
    (Cuda.rt_state (Cuda.mkRuntimeData false (cudaSimulation false 0)))
    = false /\
  Cuda.applyStdp 1%Q (cudaSimulation false 0)
    = (Returned, cudaSimulation false 0) /\
  Cpu.applyStdp 1%Q network = (Thrown NEMO_API_UNSUPPORTED, network).
Proof.
  split; [reflexivity |]. split; [reflexivity |].
  pose proof (C6_apply_stdp_unconfigured 1%Q (cudaSimulation false 0)
                (Cuda.mkRuntimeData false (cudaSimulation false 0)) network
                eq_refl eq_refl) as (Hcuda & _ & Hcpu).
  split; assumption.
Defined.

(** A device for the run below: with STDP on, the step kernel adds 1 to
    every STDP accumulator; no kernel invocation and no assertion fails. *)
Definition accumulateOne (cm : Cuda.ConnectivityMatrix Q)
  : Cuda.ConnectivityMatrix Q :=
  Cuda.mkCM (Cuda.m_maxPartitionSize cm) (Cuda.m_maxDelay cm)
    (Cuda.m_setReverse cm) (Cuda.mh_fcm cm)
    ((fun r => Cuda.mkRSMatrix (Cuda.rs_partitionSize r) (Cuda.rs_incoming r)
                 (map (Z.add 1) (Cuda.rs_stdp r)))
       <$> Cuda.m_rsynapses cm)
    (Cuda.m_maxPartitionIdx cm) (Cuda.m_maxAbsWeight cm)
    (Cuda.m_fractionalBits cm) (Cuda.md_fcm cm).

Definition DeviceKernels_learning
  : DeviceKernels Q (Cuda.ConnectivityMatrix Q) unit := {|
  stepSimulationKernel := fun stdp _ _ mem =>
    ((if stdp then accumulateOne (fst mem) else fst mem, snd mem), true);
  applyStdpKernel := fun _ _ _ _ mem => mem;
  deviceAssertionsFailed := fun _ _ => false
|}.

(** Three synapses of neuron 0, as (target, delay, weight, plastic): two
    plastic ones and a static one. *)
Definition plasticSynapses : list (nat * nat * Q * bool) :=
  [(1%nat, 1%nat, 1%Q, true); (2%nat, 3%nat, (-1 # 2)%Q, true);
   (1%nat, 2%nat, (3 # 1)%Q, false)].

(** The matrix with reverse connectivity built from them and moved to the
    device. *)
Definition plasticMatrix : status * Cuda.ConnectivityMatrix Q :=
  andThen (Cuda.addSynapses 0 plasticSynapses) Cuda.moveToDevice
          (Cuda.emptyCM 1024 true).

(** A simulation on that matrix, with STDP on, after one step of the
    learning device. *)
Definition learning : Cuda.Simulation :=
  snd (Cuda.step (H0 := DeviceKernels_learning) []
         (Cuda.mkSimulation (snd plasticMatrix)
                            (mkSTDP true (-10 # 1) (10 # 1)) 0 1 tt)).

(** C5 on [learning]: the two accumulators, at 1 after the step, are 0 after
    [applyStdp(0.0)], and the three weights read back as before. *)
Lemma C5_witness :
  Cuda.usingStdp learning = true /\
  feqb (0 # 1)%Q (fconst 0) = true /\
  fst plasticMatrix = Returned /\
  Cuda.accumulators (Cuda.m_cm learning) = [1; 1] /\
  Cuda.readWeights (Cuda.m_cm learning) = [1; 3 # 1; -1 # 2]%Q /\
  let s' := snd (Cuda.applyStdp (H0 := DeviceKernels_learning)
                   (0 # 1)%Q learning) in
  Cuda.accumulators (Cuda.m_cm s') = [0; 0] /\
  Cuda.readWeights (Cuda.m_cm s') = [1; 3 # 1; -1 # 2]%Q.
Proof.
  split; [reflexivity |]. split; [reflexivity |].
  split; [vm_compute; reflexivity |].
  split; [vm_compute; reflexivity |].
  split; [vm_compute; reflexivity |].
  pose proof (C5_apply_stdp_zero_reward (H1 := DeviceKernels_learning)
                (0 # 1)%Q learning eq_refl eq_refl) as Hc.
  cbv zeta in Hc.
  destruct Hc as (_ & _ & Hweights & Hreverse & _).
  cbv zeta. split.
  - unfold Cuda.accumulators. rewrite Hreverse. vm_compute. reflexivity.
  - rewrite Hweights. vm_compute. reflexivity.
Defined.

(** C10 on the idle device: from counter 0 a call of [step] returns with the
    counter at 1, and two calls in a row leave it at 2; at [2^32 - 1] the
    call throws and nothing changes. *)
Lemma C10_witness :
  (is_u32 (Cuda.m_cycle (cudaSimulation false 0)) /\
   Cuda.m_cycle (cudaSimulation false 0) <> UINT32_MAX /\
   Cuda.step [] (cudaSimulation false 0) = (Returned, cudaSimulation false 1) /\
   Cuda.run [[]; []] (cudaSimulation false 0)
     = (Returned, cudaSimulation false 2)) /\
  (is_u32 (Cuda.m_cycle (cudaSimulation false UINT32_MAX)) /\
   Cuda.step [] (cudaSimulation false UINT32_MAX)
     = (Thrown STD_OVERFLOW_ERROR, cudaSimulation false UINT32_MAX)).
Proof.
  split.
  - assert (Hrange : is_u32 (Cuda.m_cycle (cudaSimulation false 0)))
      by (vm_compute; split; [discriminate | reflexivity]).
    assert (Hne : Cuda.m_cycle (cudaSimulation false 0) <> UINT32_MAX)
      by (vm_compute; discriminate).
    split; [exact Hrange |]. split; [exact Hne |].
    pose proof (C10_cycle_counter [] (cudaSimulation false 0) [[]; []]
                  (cudaSimulation false 0) Hrange) as Hc.
    cbv zeta in Hc. destruct Hc as (Hstep & _ & _ & Hrun).
    destruct (Hstep Hne) as [Hcycle Hret].
    assert (Hreturned : fst (Cuda.step [] (cudaSimulation false 0)) = Returned)
      by (apply Hret; split; reflexivity).
    split.
    + destruct (Cuda.step [] (cudaSimulation false 0)) as [st s1] eqn:Hs1.
      cbn [fst snd] in Hreturned, Hcycle. subst st. f_equal.
      assert (Hrest : (Cuda.m_cm s1, Cuda.m_stdpFn s1, Cuda.m_partitionCount s1,
                       Cuda.m_device s1)
                      = (Cuda.emptyCM 1024 true, mkSTDP false (-10 # 1) (10 # 1),
                         1%nat, tt)).
      { assert (Heq : s1 = snd (Cuda.step [] (cudaSimulation false 0)))
          by now rewrite Hs1.
        rewrite Heq. vm_compute. reflexivity. }
      destruct s1 as [cm stdp cycle pc dev]. cbn in Hrest, Hcycle.
      injection Hrest as -> -> -> ->. subst cycle. reflexivity.
    + destruct (Cuda.run [[]; []] (cudaSimulation false 0)) as [st s2] eqn:Hs2.
      assert (Hst : st = Returned)
        by (assert (Heq : st = fst (Cuda.run [[]; []] (cudaSimulation false 0)))
              by (now rewrite Hs2); rewrite Heq; vm_compute; reflexivity).
      subst st.
      destruct (Hrun s2 eq_refl eq_refl) as [Hcycle2 _].
      f_equal.
      assert (Hrest : (Cuda.m_cm s2, Cuda.m_stdpFn s2, Cuda.m_partitionCount s2,
                       Cuda.m_device s2)
                      = (Cuda.emptyCM 1024 true, mkSTDP false (-10 # 1) (10 # 1),
                         1%nat, tt)).
      { assert (Heq : s2 = snd (Cuda.run [[]; []] (cudaSimulation false 0)))
          by now rewrite Hs2.
        rewrite Heq. vm_compute. reflexivity. }
      destruct s2 as [cm stdp cycle pc dev]. cbn in Hrest, Hcycle2.
      injection Hrest as -> -> -> ->. subst cycle. reflexivity.
  - assert (Hrange : is_u32 (Cuda.m_cycle (cudaSimulation false UINT32_MAX)))
      by (unfold is_u32, cudaSimulation; cbn [Cuda.m_cycle];
          unfold UINT32_MAX, two32; lia).
    split; [exact Hrange |].
    pose proof (C10_cycle_counter [] (cudaSimulation false UINT32_MAX) []
                  (cudaSimulation false 0) Hrange) as Hc.
    cbv zeta in Hc. destruct Hc as (_ & _ & Hmax & _).
    apply Hmax. reflexivity.
Defined.


(** ** Summing currents: the addition that spike delivery performs *)

(** The saturating fixed-point addition that the specification describes:
    the exact sum when it fits the signed 32-bit format, the nearest
    extreme value otherwise. *)
Definition fx_saturating_add (a b : Z) : Z :=
  Z.max INT32_MIN (Z.min INT32_MAX (a + b)).

(** The addition of [deliverSpikesOne] is exact as long as the sum fits. *)
Lemma addTerminal_exact (current : list Z) (t : FAxonTerminal) :
  (target t < length current)%nat ->
  is_int32 (current !!! target t + weight t) ->
  addTerminal current t !!! target t = current !!! target t + weight t.
Proof.
  intros Hlt Hfit. unfold addTerminal.
  rewrite list_lookup_total_insert_eq by assumption.
  unfold wrap32, is_int32, INT32_MIN, INT32_MAX in *.
  rewrite Z.mod_small; lia.
Qed.

(** Neuron 0 fired in the previous cycle and has two synapses of delay 1
    onto neuron 1, each of weight 1024.0, that is [2^30] with 20 fractional
    bits. *)
Definition loaded : Simulation (F := Q) :=
  mkSimulation 2
    [2 # 100; 2 # 100] [2 # 10; 2 # 10] [-65 # 1; -65 # 1] [8 # 1; 8 # 1]
    [-13 # 1; -13 # 1] [-65 # 1; -65 # 1] [0; 0]%Q
    [true; true] [true; false] [1; 0]
    (CM.mkCM fbits ∅ [[mkTerminal (2 ^ 30) 1; mkTerminal (2 ^ 30) 1]; []] ∅ 1)
    [0; 0] [false; false] [tt; tt] 0 (mkSTDP false 0%Q 0%Q) 1 [] [].

(** C4: the code at a failing input.  Delivering the two weights of
    [loaded] sums [2^30 + 2^30] with the plain [+=] of [fix_t]: the
    accumulator of neuron 1 ends at [-2^31], where the saturating addition
    of the specification gives [2^31 - 1]. *)
Theorem C4_delivery_add_wraps :
  wf loaded /\
  deliverSpikes loaded = (Returned, set_current [0; - 2 ^ 31] loaded) /\
  fx_saturating_add (fx_saturating_add 0 (2 ^ 30)) (2 ^ 30) = 2 ^ 31 - 1.
Proof.
  assert (Hwf : wf loaded).
  { split; try reflexivity. split; cbn; try lia; try reflexivity.
    repeat constructor. }
  split; [exact Hwf |]. split; [| reflexivity].
  rewrite deliverSpikes_ok by exact Hwf. reflexivity.
Qed.

(** ** Choosing the fixed-point format *)

Definition fabs `{FloatOps F} (x : F) : F :=
  if fltb x (fconst 0) then fsub (fconst 0) x else x.

(** The number of fractional bits that the specification asks for:
    [31 - ceil(log2(max|w|)) - 5], over the absolute values of all
    weights. *)
Definition specFractionalBits `{FloatOps F} (weights : list F) : Z :=
  31 - fceil_log2 (foldl (fun m w => fmax m (fabs w)) (fconst 0) weights)
     - Cuda.HEADROOM_BITS.

(** What the code computes the format from: the running maximum of
    [addSynapse], which compares the weights themselves. *)
Lemma setFractionalBits_formula `{FloatOps F} (cm : Cuda.ConnectivityMatrix F) :
  fst (Cuda.setFractionalBits cm)
    = wrapu32 (31 - fceil_log2 (Cuda.m_maxAbsWeight cm) - 5).
Proof. reflexivity. Qed.

Lemma addSynapse_maxAbsWeight `{FloatOps F} (cm : Cuda.ConnectivityMatrix F)
    (sp sn delay tp tn : nat) (w : F) (plastic : bool) :
  (1 <= delay <= Cuda.MAX_DELAY)%nat ->
  Cuda.m_maxAbsWeight (snd (Cuda.addSynapse sp sn delay tp tn w plastic cm))
    = fmax (Cuda.m_maxAbsWeight cm) w.
Proof.
  intros Hdelay. unfold Cuda.addSynapse.
  destruct (Nat.ltb_spec Cuda.MAX_DELAY delay); [lia |].
  destruct (Nat.eqb_spec delay 0); [lia |]. reflexivity.
Qed.

(** An excitatory synapse of weight 1.0 and an inhibitory synapse of weight
    -100.0, both from neuron 0 to neuron 1 with delay 1. *)
Definition mixedSynapses : list (nat * nat * Q * bool) :=
  [(1%nat, 1%nat, 1%Q, false); (1%nat, 1%nat, (-100 # 1)%Q, false)].

(** C7: the code at a failing input.  For the weights 1.0 and -100.0 the
    matrix records 1.0 as its maximal absolute weight, because [addSynapse]
    takes the maximum of the weights and not of their absolute values, and
    [setFractionalBits] chooses 26 fractional bits; the largest magnitude,
    100.0, calls for [31 - 7 - 5 = 19]. *)
Theorem C7_fractional_bits_ignore_inhibitory :
  let built := Cuda.addSynapses 0 mixedSynapses (Cuda.emptyCM 1024 false) in
  fst built = Returned /\
  Cuda.m_maxAbsWeight (snd built) = 1%Q /\
  fst (Cuda.setFractionalBits (snd built)) = 26 /\
  specFractionalBits (map (fun syn => snd (fst syn)) mixedSynapses) = 19.
Proof. vm_compute. repeat split. Qed.

(* ===================================================================== *)
(** * CPU backend: building the connectivity matrix *)
(* ===================================================================== *)

Module CpuBuild.
Import Cpu CpuDelivery CpuMatrix.

Lemma forEach_flat {A B St} (l : list A) (inner : A -> list B)
    (body : A -> B -> method St) s :
  forEach l (fun x => forEach (inner x) (body x)) s
    = forEach (flat_map (fun x => map (fun y => (x, y)) (inner x)) l)
              (fun p => body (fst p) (snd p)) s.
Proof.
  revert s. induction l as [| x l IH]; intros s; [reflexivity |].
  cbn [flat_map forEach]. rewrite forEach_app.
  rewrite (andThen_ext _ _ _ _ IH). apply andThen_ext_l.
  now rewrite forEach_map.
Qed.

(** A loop that returns has run every body to its end. *)
Lemma forEach_returned {A St} (l : list A) (body : A -> method St) :
  forall s s', forEach l body s = (Returned, s') ->
    s' = foldl (fun st x => snd (body x st)) s l.
Proof.
  induction l as [| x l IH]; intros s s' Hrun.
  - now injection Hrun as <-.
  - cbn [forEach] in Hrun. apply andThen_inv in Hrun as (s1 & Hx & Hrest).
    cbn [foldl]. rewrite Hx. cbn [snd]. now apply IH.
Qed.

Section Build.
Context {F : Type} `{FloatOps F} `{Collaborators F}.

(** The matrix as the member initialisers of the constructors leave it:
    the fractional bits of the configuration, no rows, [m_maxDelay(0)]. *)
Definition newMatrix (fractionalBits : Z) : CM.ConnectivityMatrix :=
  CM.mkCM fractionalBits ∅ [] ∅ 0.

(** [ConnectivityMatrix(conf)]: refused when the configuration does not fix
    the fixed-point format. *)
Definition ConnectivityMatrix_conf (conf_fractionalBits : option Z)
  : nemo_error + CM.ConnectivityMatrix :=
  match conf_fractionalBits with
  | None => inl NEMO_LOGIC_ERROR
  | Some fbits => inr (newMatrix fbits)
  end.

(** [NetworkImpl::m_fcm], a [std::map] from source neuron to a [std::map]
    from delay to the synapses of that source and delay: the entries in the
    order in which the loops of the constructor visit them. *)
Definition fcm_t : Type := list (nat * list (nat * list (AxonTerminal F))).

(** The two nested loops of [ConnectivityMatrix(net, conf, mapper)], also
    found in [cpu::Simulation::setConnectivityMatrix]. *)
Definition setRows (net : fcm_t) : method CM.ConnectivityMatrix :=
  forEach net (fun ni =>
    forEach (snd ni) (fun ai =>
      CM.setRow (localIdx (fst ni)) (fst ai) (snd ai))).

(** [ConnectivityMatrix(net, conf, mapper)]: the fractional bits of the
    configuration if set, those of the network otherwise; every row of the
    network; [finalize]. *)
Definition ConnectivityMatrix_net (net : fcm_t)
    (conf_fractionalBits : option Z) (net_fractionalBits : Z)
    (neuronCount maxIdx : nat) : status * CM.ConnectivityMatrix :=
  andThen (setRows net) (CM.finalizeForward neuronCount maxIdx)
          (newMatrix (default net_fractionalBits conf_fractionalBits)).

(** The calls of [setRow] that the constructor makes, in order: local
    source, delay, synapses. *)
Definition rowsOf (net : fcm_t)
  : list (nat * nat * list (AxonTerminal F)) :=
  flat_map (fun ni => map (fun ai => (localIdx (fst ni), fst ai, snd ai))
                          (snd ni)) net.

Definition setRowCall (r : nat * nat * list (AxonTerminal F))
  : method CM.ConnectivityMatrix :=
  CM.setRow (fst (fst r)) (snd (fst r)) (snd r).

(** A row as [setRow] stores it: weights in fixed point, targets as local
    indices. *)
Definition stored (fbits : Z) (ss : list (AxonTerminal F)) : Row :=
  CM.localTargets (CM.newRow ss fbits).

(** Any sequence of calls of [setRow], the caller going on after a call
    that throws. *)
Definition setRowAll (calls : list (nat * nat * list (AxonTerminal F)))
    (cm : CM.ConnectivityMatrix) : CM.ConnectivityMatrix :=
  foldl (fun cm r => snd (setRowCall r cm)) cm calls.

(** What holds of a matrix under construction. *)
Record under_construction (cm : CM.ConnectivityMatrix) : Prop := {
  uc_delay : forall n d, is_Some (CM.m_acc cm !! (n, d)) ->
               (1 <= d <= CM.m_maxDelay cm)%nat;
  uc_delays : forall n d, is_Some (CM.m_acc cm !! (n, d)) <->
               d ∈ default (∅ : gset nat) (CM.m_delays cm !! n);
  uc_nonempty : forall n, CM.m_delays cm !! n <> Some ∅;
  uc_max : CM.m_maxDelay cm = 0%nat \/
           exists n, is_Some (CM.m_acc cm !! (n, CM.m_maxDelay cm));
  uc_rows : CM.m_cm cm = []
}.

Lemma setRows_flat (net : fcm_t) s :
  setRows net s = forEach (rowsOf net) setRowCall s.
Proof.
  unfold setRows, rowsOf.
  rewrite (forEach_flat net snd
             (fun ni ai => CM.setRow (localIdx (fst ni)) (fst ai) (snd ai))).
  revert s. induction net as [| ni net IH]; intros s; [reflexivity |].
  cbn [flat_map]. rewrite !forEach_app.
  rewrite (andThen_ext _ _ _ _ IH). apply andThen_ext_l.
  rewrite !forEach_map. reflexivity.
Qed.

Lemma newMatrix_under_construction fbits : under_construction (newMatrix fbits).
Proof.
  split; cbn.
  - intros n d [row Hrow]. now rewrite lookup_empty in Hrow.
  - intros n d. rewrite !lookup_empty. cbn. split.
    + intros [row Hrow]. discriminate.
    + intros Hin. set_solver.
  - intros n. now rewrite lookup_empty.
  - now left.
  - reflexivity.
Qed.

Lemma setRow_success source delay (ss : list (AxonTerminal F)) cm :
  (1 <= delay)%nat -> CM.m_acc cm !! (source, delay) = None ->
  CM.setRow source delay ss cm =
    (Returned,
     CM.mkCM (CM.m_fractionalBits cm)
       (<[(source, delay) := stored (CM.m_fractionalBits cm) ss]> (CM.m_acc cm))
       (CM.m_cm cm)
       (<[source := {[delay]} ∪ default ∅ (CM.m_delays cm !! source)]>
          (CM.m_delays cm))
       (Nat.max (CM.m_maxDelay cm) delay)).
Proof.
  intros Hdelay Hnew. unfold CM.setRow.
  destruct (Nat.ltb_spec delay 1); [lia |]. now rewrite Hnew.
Qed.

Lemma setRow_under_construction source delay (ss : list (AxonTerminal F)) cm :
  under_construction cm ->
  under_construction (snd (CM.setRow source delay ss cm)).
Proof.
  intros Hinv.
  destruct (decide (1 <= delay)%nat) as [Hdelay | Hdelay];
    [| rewrite setRow_invalid_delay by lia; exact Hinv].
  destruct (CM.m_acc cm !! (source, delay)) as [old |] eqn:Hold.
  { rewrite setRow_failure_unchanged; [exact Hinv |].
    unfold CM.setRow. destruct (delay <? 1)%nat; [cbn; congruence |].
    rewrite Hold. cbn. congruence. }
  rewrite setRow_success by assumption. cbn [snd].
  destruct Hinv as [Hd Hds Hne Hmax Hrows]. split; cbn.
  - intros n d Hsome.
    destruct (decide ((source, delay) = (n, d))) as [[= <- <-] | Hneq].
    + lia.
    + rewrite lookup_insert_ne in Hsome by assumption.
      specialize (Hd n d Hsome). lia.
  - intros n d.
    destruct (decide (source = n)) as [<- | Hn].
    + rewrite (lookup_insert_eq (CM.m_delays cm)). cbn.
      destruct (decide (delay = d)) as [<- | Hdd].
      * rewrite lookup_insert_eq. split; [set_solver | eauto].
      * rewrite lookup_insert_ne by congruence. rewrite Hds. set_solver.
    + rewrite !lookup_insert_ne by congruence. apply Hds.
  - intros n. destruct (decide (source = n)) as [<- | Hn].
    + rewrite lookup_insert_eq. intros [= Hempty]. set_solver.
    + rewrite lookup_insert_ne by congruence. apply Hne.
  - right. destruct (Nat.max_spec (CM.m_maxDelay cm) delay) as [[Hlt ->] | [Hge ->]].
    + exists source. rewrite lookup_insert_eq. eauto.
    + destruct Hmax as [Hzero | [n Hn]]; [lia |].
      exists n. rewrite lookup_insert_ne; [assumption |].
      intros [= -> Heq]. rewrite <- Heq in Hn. rewrite Hold in Hn.
      destruct Hn; discriminate.
  - assumption.
Qed.

Lemma setRowAll_under_construction calls :
  forall cm, under_construction cm -> under_construction (setRowAll calls cm).
Proof.
  induction calls as [| r calls IH]; intros cm Hinv; [exact Hinv |].
  cbn. apply IH. now apply setRow_under_construction.
Qed.

(** The accumulated rows, delays and largest delay after a list of calls
    with new keys. *)
Definition accAfter (fbits : Z) (rows : list (nat * nat * list (AxonTerminal F)))
    (acc : gmap (nat * nat) Row) : gmap (nat * nat) Row :=
  foldl (fun acc r => <[fst r := stored fbits (snd r)]> acc) acc rows.

Definition maxDelayAfter (rows : list (nat * nat * list (AxonTerminal F)))
    (md : nat) : nat :=
  foldl (fun md r => Nat.max md (snd (fst r))) md rows.

Lemma accAfter_lookup_ne fbits rows :
  forall acc key, key ∉ map fst rows -> accAfter fbits rows acc !! key = acc !! key.
Proof.
  unfold accAfter.
  induction rows as [| r rows IH]; intros acc key Hkey; [reflexivity |].
  cbn [foldl map] in *. apply not_elem_of_cons in Hkey as [Hne Hkey].
  rewrite IH by assumption. apply lookup_insert_ne. congruence.
Qed.

Lemma accAfter_lookup fbits rows :
  forall acc key ss,
    NoDup (map fst rows) -> (key, ss) ∈ rows ->
    accAfter fbits rows acc !! key = Some (stored fbits ss).
Proof.
  induction rows as [| r rows IH]; intros acc key ss Hnodup Hin;
    [now apply elem_of_nil in Hin |].
  cbn [map] in Hnodup. apply NoDup_cons in Hnodup as [Hfresh Hnodup].
  change (accAfter fbits (r :: rows) acc)
    with (accAfter fbits rows (<[fst r := stored fbits (snd r)]> acc)).
  apply elem_of_cons in Hin as [<- | Hin].
  - cbn [fst snd]. rewrite accAfter_lookup_ne by assumption.
    apply lookup_insert_eq.
  - now apply IH.
Qed.

Lemma maxDelayAfter_le rows :
  forall md, (md <= maxDelayAfter rows md)%nat /\
             Forall (fun r => (snd (fst r) <= maxDelayAfter rows md)%nat) rows.
Proof.
  induction rows as [| r rows IH]; intros md; [split; [cbn; lia | constructor] |].
  change (maxDelayAfter (r :: rows) md)
    with (maxDelayAfter rows (Nat.max md (snd (fst r)))).
  destruct (IH (Nat.max md (snd (fst r)))) as [Hle Hall].
  split; [lia |]. constructor; [lia | exact Hall].
Qed.

Lemma forEach_setRow_ok rows :
  forall cm,
    NoDup (map fst rows) ->
    Forall (fun r => (1 <= snd (fst r))%nat) rows ->
    (forall key, key ∈ map fst rows -> CM.m_acc cm !! key = None) ->
    exists delays,
      forEach rows setRowCall cm =
        (Returned,
         CM.mkCM (CM.m_fractionalBits cm)
                 (accAfter (CM.m_fractionalBits cm) rows (CM.m_acc cm))
                 (CM.m_cm cm) delays
                 (maxDelayAfter rows (CM.m_maxDelay cm))).
Proof.
  induction rows as [| [[n d] ss] rows IH]; intros cm Hnodup Hdelay Hnew.
  - exists (CM.m_delays cm). cbn. now destruct cm.
  - cbn in Hnodup. apply NoDup_cons in Hnodup as [Hfresh Hnodup].
    apply Forall_cons in Hdelay as [Hd Hdelay]. cbn in Hd.
    cbn [forEach]. unfold andThen, setRowCall at 1. cbn [fst snd].
    rewrite setRow_success; [| assumption | apply Hnew; cbn; set_solver].
    edestruct (IH (CM.mkCM (CM.m_fractionalBits cm)
       (<[(n, d) := stored (CM.m_fractionalBits cm) ss]> (CM.m_acc cm))
       (CM.m_cm cm)
       (<[n := {[d]} ∪ default ∅ (CM.m_delays cm !! n)]> (CM.m_delays cm))
       (Nat.max (CM.m_maxDelay cm) d))) as [delays Hrun];
      [assumption | assumption | |].
    + intros key Hkey. cbn. rewrite lookup_insert_ne; [| set_solver].
      apply Hnew. cbn. set_solver.
    + exists delays. rewrite Hrun. reflexivity.
Qed.

Lemma accAfter_lookup_inv fbits rows :
  forall acc key row,
    accAfter fbits rows acc !! key = Some row ->
    acc !! key = Some row \/
    exists ss, (key, ss) ∈ rows /\ row = stored fbits ss.
Proof.
  induction rows as [| r rows IH]; intros acc key row Hrow; [now left |].
  change (accAfter fbits (r :: rows) acc)
    with (accAfter fbits rows (<[fst r := stored fbits (snd r)]> acc)) in Hrow.
  apply IH in Hrow as [Hrow | (ss & Hin & ->)].
  - destruct (decide (fst r = key)) as [<- | Hne].
    + rewrite lookup_insert_eq in Hrow. injection Hrow as <-.
      right. exists (snd r). split; [| reflexivity].
      destruct r. cbn. apply elem_of_cons. now left.
    + rewrite lookup_insert_ne in Hrow by assumption. now left.
  - right. exists ss. split; [| reflexivity]. apply elem_of_cons. now right.
Qed.

Lemma setRow_returned_inv source delay (ss : list (AxonTerminal F)) cm cm' :
  CM.setRow source delay ss cm = (Returned, cm') ->
  (1 <= delay)%nat /\ CM.m_acc cm !! (source, delay) = None.
Proof.
  unfold CM.setRow. destruct (Nat.ltb_spec delay 1); [discriminate |].
  destruct (CM.m_acc cm !! (source, delay)); [discriminate |].
  intros _. split; [lia | reflexivity].
Qed.

Lemma setRow_thrown source delay (ss : list (AxonTerminal F)) cm :
  fst (CM.setRow source delay ss cm) = Returned \/
  CM.setRow source delay ss cm = (Thrown NEMO_INVALID_INPUT, cm).
Proof.
  unfold CM.setRow. destruct (delay <? 1)%nat; [now right |].
  destruct (CM.m_acc cm !! (source, delay)); [now right | now left].
Qed.

(** The loop over the rows either returns or stops with [InvalidInput]. *)
Lemma forEach_setRow_thrown rows :
  forall cm,
    fst (forEach rows setRowCall cm) = Returned \/
    fst (forEach rows setRowCall cm) = Thrown NEMO_INVALID_INPUT.
Proof.
  induction rows as [| r rows IH]; intros cm; [now left |].
  cbn [forEach]. unfold andThen.
  pose proof (setRow_thrown (fst (fst r)) (snd (fst r)) (snd r) cm) as Hrow.
  change (CM.setRow (fst (fst r)) (snd (fst r)) (snd r) cm)
    with (setRowCall r cm) in Hrow.
  destruct (setRowCall r cm) as [[| e |] cm1]; cbn [fst] in *.
  - apply IH.
  - destruct Hrow as [Hok | [= -> _]]; [discriminate | now right].
  - destruct Hrow as [Hok | Hbad]; discriminate.
Qed.

Lemma forEach_setRow_returned_inv rows :
  forall cm cm',
    forEach rows setRowCall cm = (Returned, cm') ->
    NoDup (map fst rows) /\
    Forall (fun r => (1 <= snd (fst r))%nat) rows /\
    (forall key, key ∈ map fst rows -> CM.m_acc cm !! key = None).
Proof.
  induction rows as [| [[n d] ss] rows IH]; intros cm cm' Hrun.
  - split; [constructor |]. split; [constructor |].
    intros key Hkey. now apply elem_of_nil in Hkey.
  - cbn [forEach] in Hrun. apply andThen_inv in Hrun as (cm1 & Hrow & Hrest).
    unfold setRowCall in Hrow. cbn [fst snd] in Hrow.
    pose proof (setRow_returned_inv _ _ _ _ _ Hrow) as [Hd Hnew].
    rewrite setRow_success in Hrow by assumption. injection Hrow as <-.
    apply IH in Hrest as (Hnodup & Hdelay & Hfresh). cbn [CM.m_acc] in Hfresh.
    split; [| split].
    + cbn [map fst]. apply NoDup_cons. split; [| assumption].
      intros Hin. specialize (Hfresh _ Hin).
      now rewrite lookup_insert_eq in Hfresh.
    + constructor; [exact Hd | assumption].
    + intros key Hkey. cbn [map fst] in Hkey.
      apply elem_of_cons in Hkey as [-> | Hkey]; [assumption |].
      specialize (Hfresh _ Hkey).
      destruct (decide ((n, d) = key)) as [<- | Hne].
      * now rewrite lookup_insert_eq in Hfresh.
      * now rewrite lookup_insert_ne in Hfresh.
Qed.

Lemma stored_spec fbits (ss : list (AxonTerminal F)) :
  stored fbits ss
    = map (fun si => mkTerminal (fx_toFix (at_weight si) fbits)
                                (localIdx (at_target si))) ss.
Proof. unfold stored, CM.localTargets, CM.newRow. now rewrite map_map. Qed.

Lemma setRowAll_key calls :
  forall cm n d,
    is_Some (CM.m_acc (setRowAll calls cm) !! (n, d)) <->
    is_Some (CM.m_acc cm !! (n, d)) \/
    ((1 <= d)%nat /\ exists ss, (n, d, ss) ∈ calls).
Proof.
  induction calls as [| [[n' d'] ss'] calls IH]; intros cm n d.
  - cbn. split; [now left |].
    intros [Hold | [_ [ss Hin]]]; [assumption | now apply elem_of_nil in Hin].
  - change (setRowAll ((n', d', ss') :: calls) cm)
      with (setRowAll calls (snd (CM.setRow n' d' ss' cm))).
    rewrite IH. clear IH.
    assert (Hstep : is_Some (CM.m_acc (snd (CM.setRow n' d' ss' cm)) !! (n, d))
              <-> is_Some (CM.m_acc cm !! (n, d)) \/
                  ((1 <= d)%nat /\ (n', d') = (n, d))).
    { destruct (decide (1 <= d')%nat) as [Hd | Hd].
      - destruct (CM.m_acc cm !! (n', d')) as [old |] eqn:Hold.
        + destruct (setRow_thrown n' d' ss' cm) as [Hok | ->].
          * destruct (CM.setRow n' d' ss' cm) as [st cm1] eqn:Hrun.
            cbn in Hok. subst st.
            apply setRow_returned_inv in Hrun as [_ Hnone]. congruence.
          * cbn [snd]. split; [now left |].
            intros [Hsome | [_ [= <- <-]]]; [assumption |].
            rewrite Hold. eauto.
        + rewrite setRow_success by assumption. cbn [snd CM.m_acc].
          destruct (decide ((n', d') = (n, d))) as [[= <- <-] | Hne].
          * rewrite lookup_insert_eq. split; [intros _; right; auto | eauto].
          * rewrite lookup_insert_ne by assumption.
            split; [now left |]. intros [Hsome | [_ Heq]]; [assumption |].
            contradiction.
      - rewrite setRow_invalid_delay by lia. cbn [snd].
        split; [now left |]. intros [Hsome | [Hd1 [= <- <-]]]; [assumption |].
        lia. }
    rewrite Hstep. split.
    + intros [[Hold | [Hd [= <- <-]]] | [Hd [ss Hin]]].
      * now left.
      * right. split; [assumption |]. exists ss'. apply elem_of_cons. now left.
      * right. split; [assumption |]. exists ss. apply elem_of_cons. now right.
    + intros [Hold | [Hd [ss Hin]]]; [now left; left |].
      apply elem_of_cons in Hin as [[= <- <- <-] | Hin].
      * left. right. auto.
      * right. eauto.
Qed.

(** X1.  A row can be set only once: whatever a first call
    [setRow(source, delay, ss)] did, a second call for the same source and
    delay, with any synapses, throws [InvalidInput] and leaves the matrix as
    the first call left it. *)
Theorem setRow_only_once (source delay : nat)
    (ss ss' : list (AxonTerminal F)) (cm : CM.ConnectivityMatrix) :
  let cm1 := snd (CM.setRow source delay ss cm) in
  CM.setRow source delay ss' cm1 = (Thrown NEMO_INVALID_INPUT, cm1).
Proof.
  intros cm1. unfold cm1.
  destruct (decide (1 <= delay)%nat) as [Hd | Hd];
    [| now rewrite !setRow_invalid_delay by lia].
  destruct (CM.m_acc cm !! (source, delay)) as [old |] eqn:Hold.
  - assert (Hsame : CM.setRow source delay ss cm
                    = (Thrown NEMO_INVALID_INPUT, cm)).
    { unfold CM.setRow. destruct (Nat.ltb_spec delay 1); [lia |].
      now rewrite Hold. }
    rewrite Hsame. cbn [snd]. unfold CM.setRow.
    destruct (Nat.ltb_spec delay 1); [lia |]. now rewrite Hold.
  - rewrite (setRow_success source delay ss cm) by assumption.
    cbn [snd]. unfold CM.setRow.
    destruct (Nat.ltb_spec delay 1); [lia |]. cbn [CM.m_acc].
    now rewrite lookup_insert_eq.
Qed.

(** X2.  Whatever calls of [setRow] are made on a new matrix, and whether
    they return or throw, the matrix holds a row for (n, d) exactly when
    some call named (n, d) with [d >= 1]; every stored delay lies between 1
    and [m_maxDelay]; the delay sets of [m_delays] list exactly the delays
    of the stored rows; [m_maxDelay] is 0 or the delay of a stored row; and
    the run-time vector is still empty. *)
Theorem setRow_bookkeeping (calls : list (nat * nat * list (AxonTerminal F)))
    (fbits : Z) :
  let cm := setRowAll calls (newMatrix fbits) in
  (forall n d : nat,
      is_Some (CM.m_acc cm !! (n, d))
      <-> (1 <= d)%nat /\ exists ss, (n, d, ss) ∈ calls) /\
  (forall n d : nat,
      is_Some (CM.m_acc cm !! (n, d)) -> (1 <= d <= CM.m_maxDelay cm)%nat) /\
  (forall n d : nat,
      is_Some (CM.m_acc cm !! (n, d))
      <-> d ∈ default (∅ : gset nat) (CM.m_delays cm !! n)) /\
  (CM.m_maxDelay cm = 0%nat \/
   exists n : nat, is_Some (CM.m_acc cm !! (n, CM.m_maxDelay cm))) /\
  CM.m_cm cm = [] /\ CM.m_fractionalBits cm = fbits.
Proof.
  intros cm.
  destruct (setRowAll_under_construction calls (newMatrix fbits)
              (newMatrix_under_construction fbits))
    as [Hd Hds _ Hmax Hrows].
  fold cm in Hd, Hds, Hmax, Hrows.
  split; [| split; [exact Hd | split; [exact Hds | split; [exact Hmax |]]]].
  - intros n d. unfold cm. rewrite setRowAll_key. cbn [newMatrix CM.m_acc].
    rewrite lookup_empty. split; [| now right].
    intros [[x Hx] | Hcall]; [discriminate | assumption].
  - split; [exact Hrows |]. unfold cm. clear.
    assert (Hfb : forall calls0 cm0,
              CM.m_fractionalBits (setRowAll calls0 cm0)
              = CM.m_fractionalBits cm0).
    { induction calls0 as [| r calls0 IH]; intros cm0; [reflexivity |].
      change (setRowAll (r :: calls0) cm0)
        with (setRowAll calls0 (snd (setRowCall r cm0))).
      rewrite IH. unfold setRowCall, CM.setRow.
      destruct (_ <? 1)%nat; [reflexivity |].
      now destruct (CM.m_acc cm0 !! _). }
    apply Hfb.
Qed.

(** What the constructor builds from rows with pairwise different keys
    and delays of at least 1. *)
Lemma constructed_spec (net : fcm_t) (conf_fractionalBits : option Z)
    (net_fractionalBits : Z) (neuronCount maxIdx : nat) :
  let rows := rowsOf net in
  let fbits := default net_fractionalBits conf_fractionalBits in
  let md := maxDelayAfter rows 0 in
  (0 < neuronCount)%nat ->
  NoDup (map fst rows) ->
  Forall (fun r => (1 <= snd (fst r))%nat) rows ->
  fits maxIdx md ->
  exists cm,
    ConnectivityMatrix_net net conf_fractionalBits net_fractionalBits
                           neuronCount maxIdx = (Returned, cm) /\
    CM.m_maxDelay cm = md /\
    CM.m_fractionalBits cm = fbits /\
    (forall (n d : nat) ss,
        (n, d, ss) ∈ rows -> (n <= maxIdx)%nat ->
        CM.getRow cm n d = Some (stored fbits ss)) /\
    (forall n d : nat,
        (n <= maxIdx)%nat -> (1 <= d <= md)%nat -> (n, d) ∉ map fst rows ->
        CM.getRow cm n d = Some []).
Proof.
  intros rows fbits md Hcount Hnodup Hdelay Hsmall.
  destruct (forEach_setRow_ok rows (newMatrix fbits) Hnodup Hdelay)
    as [delays Hrun].
  { intros key _. apply lookup_empty. }
  cbn [newMatrix CM.m_fractionalBits CM.m_acc CM.m_cm CM.m_maxDelay] in Hrun.
  fold md in Hrun.
  set (cm1 := CM.mkCM fbits (accAfter fbits rows ∅) [] delays md) in *.
  destruct (finalizeForward_spec neuronCount maxIdx cm1 Hcount Hsmall)
    as (cm & Hfin & Hmd & Hacc & Hfb & _ & Hget).
  exists cm. split.
  { unfold ConnectivityMatrix_net, andThen. fold fbits.
    rewrite setRows_flat. fold rows. rewrite Hrun. exact Hfin. }
  split; [exact Hmd |]. split; [exact Hfb |].
  split.
  - intros n d ss Hin Hn.
    assert (Hd : (1 <= d <= md)%nat).
    { split.
      - eapply Forall_forall in Hdelay; [| exact Hin]. exact Hdelay.
      - pose proof (proj2 (maxDelayAfter_le rows 0)) as Hle.
        eapply Forall_forall in Hle; [| exact Hin]. exact Hle. }
    rewrite (Hget n d Hn Hd). cbn [cm1 CM.m_acc].
    now rewrite (accAfter_lookup fbits rows ∅ (n, d) ss Hnodup Hin).
  - intros n d Hn Hd Hkey.
    rewrite (Hget n d Hn Hd). cbn [cm1 CM.m_acc].
    rewrite accAfter_lookup_ne by assumption. now rewrite lookup_empty.
Qed.

(** X3.  The constructor that copies a network, from rows with pairwise
    different (local source, delay) and delays of at least 1, returns a
    matrix whose largest delay is the largest delay of the network and in
    which [getRow] hands out, for every row of the network, its synapses in
    their order with fixed-point weights and local targets, and the empty
    row for every other source up to [maxIdx] and delay up to the
    largest.  This holds when the number of slots,
    [(maxIdx + 1) * maxDelay], can be written in 32 bits, the width in which
    the code computes it, and neither the largest delay nor [maxIdx] is the
    largest 32-bit value. *)
Theorem constructed_getRow (net : fcm_t) (conf_fractionalBits : option Z)
    (net_fractionalBits : Z) (neuronCount maxIdx : nat) :
  let rows := rowsOf net in
  let fbits := default net_fractionalBits conf_fractionalBits in
  let md := maxDelayAfter rows 0 in
  (0 < neuronCount)%nat ->
  NoDup (map fst rows) ->
  Forall (fun r => (1 <= snd (fst r))%nat) rows ->
  Z.of_nat ((maxIdx + 1) * md) < two32 ->
  Z.of_nat md < UINT32_MAX ->
  Z.of_nat maxIdx <> UINT32_MAX ->
  exists cm,
    ConnectivityMatrix_net net conf_fractionalBits net_fractionalBits
                           neuronCount maxIdx = (Returned, cm) /\
    CM.m_maxDelay cm = md /\
    CM.m_fractionalBits cm = fbits /\
    Forall (fun r => (snd (fst r) <= md)%nat) rows /\
    (forall (n d : nat) ss,
        (n, d, ss) ∈ rows -> (n <= maxIdx)%nat ->
        CM.getRow cm n d
          = Some (map (fun si => mkTerminal (fx_toFix (at_weight si) fbits)
                                            (localIdx (at_target si))) ss)) /\
    (forall n d : nat,
        (n <= maxIdx)%nat -> (1 <= d <= md)%nat -> (n, d) ∉ map fst rows ->
        CM.getRow cm n d = Some []).
Proof.
  intros rows fbits md Hcount Hnodup Hdelay Hsmall Hmd32 Hidx32.
  destruct (constructed_spec net conf_fractionalBits net_fractionalBits
              neuronCount maxIdx Hcount Hnodup Hdelay
              (conj Hsmall (conj Hmd32 Hidx32)))
    as (cm & Hrun & Hmd & Hfb & Hrow & Hempty).
  exists cm. split; [exact Hrun |]. split; [exact Hmd |].
  split; [exact Hfb |]. split; [apply maxDelayAfter_le |].
  split; [| exact Hempty].
  intros n d ss Hin Hn. rewrite <- stored_spec. now apply Hrow.
Qed.

(** X4.  How the constructor that copies a network ends.  It returns
    exactly when no row has a delay below 1, no two rows have the same local
    source and delay, and either the mapper has no neuron or the layout
    fits: the number of slots, [(maxIdx + 1) * maxDelay], can be written in
    32 bits, the width in which the code computes it, and neither the
    largest delay nor [maxIdx] is the largest 32-bit value.  Rows that are
    not acceptable end it with [InvalidInput].  Acceptable rows whose layout
    does not fit end it with the [std::out_of_range] of [vector::at],
    except for a network without synapses whose [maxIdx] is the largest
    32-bit value, on which the loop of [finalizeForward] never ends. *)
Theorem constructor_fails_iff (net : fcm_t) (conf_fractionalBits : option Z)
    (net_fractionalBits : Z) (neuronCount maxIdx : nat) :
  let rows := rowsOf net in
  let md := maxDelayAfter rows 0 in
  let result := ConnectivityMatrix_net net conf_fractionalBits
                  net_fractionalBits neuronCount maxIdx in
  let rows_ok :=
    NoDup (map fst rows) /\ Forall (fun r => (1 <= snd (fst r))%nat) rows in
  let laid_out :=
    neuronCount = 0%nat \/
    (Z.of_nat ((maxIdx + 1) * md) < two32 /\
     Z.of_nat md < UINT32_MAX /\
     Z.of_nat maxIdx <> UINT32_MAX) in
  (fst result = Returned <-> rows_ok /\ laid_out) /\
  (~ rows_ok -> fst result = Thrown NEMO_INVALID_INPUT) /\
  (rows_ok -> ~ laid_out ->
   fst result = if (Z.of_nat maxIdx =? UINT32_MAX) && (md =? 0)%nat
                then OutOfFuel else Thrown STD_OUT_OF_RANGE).
Proof.
  intros rows md result rows_ok laid_out.
  set (fbits := default net_fractionalBits conf_fractionalBits).
  assert (Hresult : result
            = andThen (forEach rows setRowCall)
                      (CM.finalizeForward neuronCount maxIdx)
                      (newMatrix fbits)).
  { unfold result, ConnectivityMatrix_net. fold fbits. unfold andThen.
    now rewrite setRows_flat. }
  unfold andThen in Hresult.
  assert (Hgood : rows_ok ->
            exists cm1, forEach rows setRowCall (newMatrix fbits)
                        = (Returned, cm1) /\ CM.m_maxDelay cm1 = md).
  { intros [Hnodup Hdelay].
    destruct (forEach_setRow_ok rows (newMatrix fbits) Hnodup Hdelay)
      as [delays Hrun]; [intros key _; apply lookup_empty |].
    eexists. split; [exact Hrun | reflexivity]. }
  pose proof (forEach_setRow_thrown rows (newMatrix fbits)) as Hst.
  destruct (forEach rows setRowCall (newMatrix fbits)) as [st cm1] eqn:Hrun.
  cbn [fst] in Hst. destruct Hst as [-> | ->].
  - (* every row was accepted *)
    pose proof (forEach_setRow_returned_inv _ _ _ Hrun) as (Hnodup & Hdelay & _).
    assert (Hok : rows_ok) by (split; assumption).
    destruct (Hgood Hok) as (cm1' & [= <-] & Hmd). clear Hgood.
    destruct (Nat.eq_dec neuronCount 0%nat) as [Hzero | Hpos].
    + assert (Hret : fst result = Returned).
      { rewrite Hresult. unfold CM.finalizeForward. now rewrite Hzero. }
      split; [split; [intros _; split; [exact Hok | now left]
                     | intros _; exact Hret] |].
      split; [intros Hbad; contradiction |].
      intros _ Hnot. exfalso. apply Hnot. now left.
    + assert (Hdec : fits maxIdx md \/ ~ fits maxIdx md)
        by (unfold fits; lia).
      destruct Hdec as [Hfits | Hnofit].
      * assert (Hret : fst result = Returned).
        { rewrite Hresult.
          destruct (finalizeForward_spec neuronCount maxIdx cm1 ltac:(lia))
            as (cm & Hfin & _); [now rewrite Hmd |].
          now rewrite Hfin. }
        split; [split; [intros _; split; [exact Hok | now right]
                       | intros _; exact Hret] |].
        split; [intros Hbad; contradiction |].
        intros _ Hnot. exfalso. apply Hnot. now right.
      * assert (Hfail : fst result
                  = if (Z.of_nat maxIdx =? UINT32_MAX) && (md =? 0)%nat
                    then OutOfFuel else Thrown STD_OUT_OF_RANGE).
        { rewrite Hresult, <- Hmd.
          apply finalizeForward_failure; [lia | now rewrite Hmd]. }
        split; [split |].
        -- intros Hret. rewrite Hfail in Hret.
           destruct (_ && _); discriminate.
        -- intros [_ [Hzero | Hfits]]; [contradiction |].
           exfalso. now apply Hnofit.
        -- split; [intros Hbad; contradiction | intros _ _; exact Hfail].
  - (* a row was refused *)
    assert (Hbad : ~ rows_ok).
    { intros Hok. destruct (Hgood Hok) as (cm1' & Heq & _). discriminate. }
    assert (Hret : fst result = Thrown NEMO_INVALID_INPUT)
      by now rewrite Hresult.
    split; [split |].
    + intros Hr. rewrite Hret in Hr. discriminate.
    + intros [Hok _]. contradiction.
    + split; [intros _; exact Hret | intros Hok; contradiction].
Qed.

(** ** Reading the synapses back *)

(** The four output vectors of [getSynapses]: targets, delays, weights and
    plastic flags. *)
Definition SynapseLists : Type := list nat * list nat * list F * list bool.

(** The inner loop of [ConnectivityMatrix::getSynapses]: four [push_back]s
    for every synapse of the row. *)
Definition pushRow (fbits : Z) (d : nat) (row : Row) (out : SynapseLists)
  : SynapseLists :=
  foldl (fun out s =>
           let '(ts, ds, ws, ps) := out in
           (ts ++ [target s], ds ++ [d],
            ws ++ [fx_toFloat (weight s) fbits], ps ++ [false]))
        out row.

(** [delay_begin(source)] to [delay_end(source)]: the delays of the source
    in increasing order, as the iterators of a [std::set] give them; there
    is none for a source without an entry in [m_delays]. *)
Definition delaysOf (cm : CM.ConnectivityMatrix) (source : nat)
  : option (list nat) :=
  (fun ds : gset nat => merge_sort le (elements ds)) <$> CM.m_delays cm !! source.

(** [ConnectivityMatrix::getSynapses]: the output vectors are cleared, then
    filled row by row. *)
Definition CM_getSynapses (cm : CM.ConnectivityMatrix) (source : nat)
  : method SynapseLists :=
  fun _ =>
    match delaysOf cm source with
    | None => (Thrown NEMO_INVALID_INPUT, ([], [], [], []))
    | Some ds =>
        forEach ds
          (fun d out =>
             match CM.getRow cm source d with
             | Some row =>
                 (Returned, pushRow (CM.m_fractionalBits cm) d row out)
             | None => (Thrown STD_OUT_OF_RANGE, out)
             end)
          ([], [], [], [])
    end.

(** [cpu::Simulation::getSynapses]: the synapses of the matrix, with the
    targets translated to global indices. *)
Definition getSynapses (s : Simulation) (sourceNeuron : nat)
  : method SynapseLists :=
  andThen (CM_getSynapses (m_cm s) sourceNeuron)
          (pureStep (fun out =>
             let '(ts, ds, ws, ps) := out in (map globalIdx ts, ds, ws, ps))).

Lemma pushRow_spec fbits d row :
  forall ts ds ws ps,
    pushRow fbits d row (ts, ds, ws, ps)
    = (ts ++ map target row, ds ++ map (fun _ => d) row,
       ws ++ map (fun t => fx_toFloat (weight t) fbits) row,
       ps ++ map (fun _ => false) row).
Proof.
  unfold pushRow. induction row as [| t row IH]; intros ts ds ws ps.
  - cbn. now rewrite !app_nil_r.
  - cbn [foldl map]. rewrite IH. now rewrite <- !app_assoc.
Qed.

Lemma assignRows_delays (pairs : list (nat * nat)) :
  forall cm,
    CM.m_delays (snd (forEach pairs (fun p => CM.assignRow (fst p) (snd p)) cm))
    = CM.m_delays cm.
Proof.
  induction pairs as [| p pairs IH]; intros cm; [reflexivity |].
  cbn [forEach]. unfold andThen, CM.assignRow at 1.
  destruct (_ <? _); [| reflexivity]. now rewrite IH.
Qed.

Lemma finalizeForward_delays (neuronCount maxIdx : nat) cm :
  CM.m_delays (snd (CM.finalizeForward neuronCount maxIdx cm))
  = CM.m_delays cm.
Proof.
  unfold CM.finalizeForward. destruct (neuronCount =? 0)%nat; [reflexivity |].
  cbv zeta. destruct (_ && _); [reflexivity |].
  rewrite (forEach_nested (seq 0 (maxIdx + 1))
             (CM.delaysVisited (CM.m_maxDelay cm))
             (fun n d => CM.assignRow n d)).
  now rewrite assignRows_delays.
Qed.

Lemma assignRows_maxDelay (pairs : list (nat * nat)) :
  forall cm,
    CM.m_maxDelay
      (snd (forEach pairs (fun p => CM.assignRow (fst p) (snd p)) cm))
    = CM.m_maxDelay cm.
Proof.
  induction pairs as [| p pairs IH]; intros cm; [reflexivity |].
  cbn [forEach]. unfold andThen, CM.assignRow at 1.
  destruct (_ <? _); [| reflexivity]. now rewrite IH.
Qed.

Lemma finalizeForward_maxDelay (neuronCount maxIdx : nat) cm :
  CM.m_maxDelay (snd (CM.finalizeForward neuronCount maxIdx cm))
  = CM.m_maxDelay cm.
Proof.
  unfold CM.finalizeForward. destruct (neuronCount =? 0)%nat; [reflexivity |].
  cbv zeta. destruct (_ && _); [reflexivity |].
  rewrite (forEach_nested (seq 0 (maxIdx + 1))
             (CM.delaysVisited (CM.m_maxDelay cm))
             (fun n d => CM.assignRow n d)).
  now rewrite assignRows_maxDelay.
Qed.

(** In a matrix under construction, the delays listed for a source are the
    delays of its rows, in increasing order. *)
Lemma delaysOf_sorted cm (n : nat) (ds : list nat) :
  under_construction cm ->
  StronglySorted lt ds -> ds <> [] ->
  (forall d, d ∈ ds <-> is_Some (CM.m_acc cm !! (n, d))) ->
  delaysOf cm n = Some ds.
Proof.
  intros Hinv Hsorted Hne Hkeys. unfold delaysOf.
  destruct (CM.m_delays cm !! n) as [D |] eqn:HD.
  - cbn. f_equal.
    assert (Hmem : forall d, d ∈ D <-> d ∈ ds).
    { intros d. rewrite Hkeys, (uc_delays _ Hinv), HD. reflexivity. }
    apply (Sorted_unique le).
    + apply Sorted_merge_sort. intros x y. unfold Decision. lia.
    + apply StronglySorted_Sorted. clear -Hsorted.
      induction Hsorted as [| x l Hl IH Hall]; constructor; [assumption |].
      eapply Forall_impl; [exact Hall |]. cbn. intros y Hy. lia.
    + rewrite merge_sort_Permutation. apply NoDup_Permutation.
      * apply NoDup_elements.
      * clear -Hsorted. induction Hsorted as [| x l Hl IH Hall];
          [constructor |].
        apply NoDup_cons. split; [| exact IH].
        intros Hin. eapply Forall_forall in Hall; [| exact Hin]. lia.
      * intros d. rewrite elem_of_elements. apply Hmem.
  - exfalso. destruct ds as [| d ds]; [congruence |].
    assert (Hd : d ∈ d :: ds) by (apply elem_of_cons; now left).
    apply Hkeys, (uc_delays _ Hinv) in Hd. rewrite HD in Hd. cbn in Hd.
    now apply not_elem_of_empty in Hd.
Qed.

Lemma delaysOf_none cm (n : nat) :
  under_construction cm ->
  (forall d, CM.m_acc cm !! (n, d) = None) ->
  delaysOf cm n = None.
Proof.
  intros Hinv Hkeys. unfold delaysOf.
  destruct (CM.m_delays cm !! n) as [D |] eqn:HD; [| reflexivity].
  exfalso. destruct (set_choose_or_empty D) as [[d Hd] | Hempty].
  - assert (Hsome : is_Some (CM.m_acc cm !! (n, d)))
      by (apply (uc_delays _ Hinv); now rewrite HD).
    rewrite Hkeys in Hsome. destruct Hsome; discriminate.
  - apply leibniz_equiv in Hempty. subst D. now apply (uc_nonempty _ Hinv n).
Qed.

(** What the constructor leaves behind, in terms of the calls it made. *)
Lemma constructed_inv (net : fcm_t) (conf_fractionalBits : option Z)
    (net_fractionalBits : Z) (neuronCount maxIdx : nat) cm :
  ConnectivityMatrix_net net conf_fractionalBits net_fractionalBits
                         neuronCount maxIdx = (Returned, cm) ->
  let rows := rowsOf net in
  let fbits := default net_fractionalBits conf_fractionalBits in
  let cm1 := setRowAll rows (newMatrix fbits) in
  NoDup (map fst rows) /\
  Forall (fun r => (1 <= snd (fst r))%nat) rows /\
  under_construction cm1 /\
  CM.finalizeForward neuronCount maxIdx cm1 = (Returned, cm) /\
  CM.m_delays cm = CM.m_delays cm1.
Proof.
  intros Hrun rows fbits cm1. unfold ConnectivityMatrix_net in Hrun.
  apply andThen_inv in Hrun as (cm0 & Hrows & Hfin).
  rewrite setRows_flat in Hrows. fold rows fbits in Hrows.
  pose proof (forEach_setRow_returned_inv _ _ _ Hrows) as (Hnodup & Hdelay & _).
  apply forEach_returned in Hrows. fold (setRowAll rows (newMatrix fbits)) in Hrows.
  fold cm1 in Hrows. subst cm0.
  split; [exact Hnodup |]. split; [exact Hdelay |].
  split; [apply setRowAll_under_construction, newMatrix_under_construction |].
  split; [exact Hfin |].
  pose proof (finalizeForward_delays neuronCount maxIdx cm1) as Hd.
  now rewrite Hfin in Hd.
Qed.

Lemma rowsOf_elem (net : fcm_t) (n d : nat) ss :
  (n, d, ss) ∈ rowsOf net <->
  exists src axon, (src, axon) ∈ net /\ localIdx src = n /\ (d, ss) ∈ axon.
Proof.
  unfold rowsOf. rewrite !list_elem_of_In, in_flat_map. split.
  - intros ([src axon] & Hin & Hrow). cbn [fst snd] in Hrow.
    apply in_map_iff in Hrow as ([d' ss'] & [= <- <- <-] & Hai).
    exists src, axon. rewrite !list_elem_of_In. auto.
  - intros (src & axon & Hin & <- & Hai). exists (src, axon).
    rewrite list_elem_of_In in Hin. split; [exact Hin |].
    apply in_map_iff. exists (d, ss). rewrite list_elem_of_In in Hai. auto.
Qed.

(** When different sources have different local indices, the rows of a
    local source are those of one axon. *)
Lemma rowsOf_source (net : fcm_t) (src : nat) axon (d : nat) ss :
  NoDup (map (fun ni => localIdx (fst ni)) net) ->
  (src, axon) ∈ net ->
  (localIdx src, d, ss) ∈ rowsOf net <-> (d, ss) ∈ axon.
Proof.
  intros Hsrc Hin. rewrite rowsOf_elem. split.
  - intros (src' & axon' & Hin' & Hloc & Hai).
    assert (Heq : (src', axon') = (src, axon)); [| now injection Heq as -> ->].
    clear Hai. induction net as [| ni net IH]; [now apply elem_of_nil in Hin |].
    cbn [map] in Hsrc. apply NoDup_cons in Hsrc as [Hfresh Hsrc].
    apply elem_of_cons in Hin as [<- | Hin];
      apply elem_of_cons in Hin' as [<- | Hin'].
    + reflexivity.
    + exfalso. apply Hfresh. cbn [fst]. rewrite <- Hloc.
      apply (list_elem_of_fmap_2 (fun ni => localIdx (fst ni)) _ _ Hin').
    + exfalso. apply Hfresh. cbn [fst]. rewrite Hloc.
      apply (list_elem_of_fmap_2 (fun ni => localIdx (fst ni)) _ _ Hin).
    + now apply IH.
  - intros Hai. eauto.
Qed.

(** X5.  [getSynapses] on a matrix copied from a network hands back the
    synapses of a source in the order of its delays and, within a delay, in
    the order in which they were given: the global targets (when the mapper
    translates them back), the delay of each synapse, and the weights after
    their passage through the fixed-point format.  The plastic flags are
    lost: every flag reads 0. *)
Theorem getSynapses_round_trip (net : fcm_t) (conf_fractionalBits : option Z)
    (net_fractionalBits : Z) (maxIdx : nat) (s : Simulation)
    (src : nat) (axon : list (nat * list (AxonTerminal F)))
    (out : SynapseLists) :
  let fbits := default net_fractionalBits conf_fractionalBits in
  (0 < m_neuronCount s)%nat ->
  ConnectivityMatrix_net net conf_fractionalBits net_fractionalBits
                         (m_neuronCount s) maxIdx = (Returned, m_cm s) ->
  Z.of_nat ((maxIdx + 1) * CM.m_maxDelay (m_cm s)) < two64 ->
  NoDup (map (fun ni => localIdx (fst ni)) net) ->
  (src, axon) ∈ net -> axon <> [] -> (localIdx src <= maxIdx)%nat ->
  StronglySorted lt (map fst axon) ->
  Forall (fun ai =>
     Forall (fun si => globalIdx (localIdx (at_target si)) = at_target si)
            (snd ai)) axon ->
  getSynapses s (localIdx src) out =
    (Returned,
     (flat_map (fun ai => map at_target (snd ai)) axon,
      flat_map (fun ai => map (fun _ => fst ai) (snd ai)) axon,
      flat_map (fun ai =>
                  map (fun si =>
                         fx_toFloat (fx_toFix (at_weight si) fbits) fbits)
                      (snd ai)) axon,
      flat_map (fun ai => map (fun _ => false) (snd ai)) axon)).
Proof.
  intros fbits Hcount Hbuilt Hsmall Hsrc Hin Hne Hloc Hsorted Hmap.
  pose proof (constructed_inv _ _ _ _ _ _ Hbuilt)
    as (Hnodup & Hdelay & Hinv & Hfin & Hdelays).
  cbv zeta in Hinv, Hfin, Hdelays. fold fbits in Hinv, Hfin, Hdelays.
  set (rows := rowsOf net) in *.
  set (cm1 := setRowAll rows (newMatrix fbits)) in *.
  (* the matrix, again, with its rows *)
  assert (Hmd : CM.m_maxDelay (m_cm s) = maxDelayAfter rows 0%nat).
  { destruct (forEach_setRow_ok rows (newMatrix fbits) Hnodup Hdelay)
      as [delays Hrun]; [intros key _; apply lookup_empty |].
    apply forEach_returned in Hrun.
    fold (setRowAll rows (newMatrix fbits)) in Hrun. fold cm1 in Hrun.
    pose proof (finalizeForward_maxDelay (m_neuronCount s) maxIdx cm1) as Hk.
    rewrite Hfin in Hk. cbn [snd] in Hk. rewrite Hk, <- Hrun. reflexivity. }
  destruct (constructed_spec net conf_fractionalBits net_fractionalBits
              (m_neuronCount s) maxIdx Hcount Hnodup Hdelay)
    as (cm & Hbuilt' & _ & Hfb & Hrow & _).
  { fold rows. rewrite <- Hmd.
    pose proof (finalizeForward_returned_inv _ _ _ _ Hcount Hfin) as Hfits.
    pose proof (finalizeForward_maxDelay (m_neuronCount s) maxIdx cm1) as Hk.
    rewrite Hfin in Hk. cbn [snd] in Hk. now rewrite Hk. }
  rewrite Hbuilt in Hbuilt'. injection Hbuilt' as <-.
  fold rows fbits in Hrow, Hfb.
  (* the delays of the source *)
  assert (Hds : delaysOf (m_cm s) (localIdx src) = Some (map fst axon)).
  { unfold delaysOf. rewrite Hdelays.
    apply (delaysOf_sorted cm1); [assumption | assumption | |].
    - destruct axon; [congruence | discriminate].
    - intros d. unfold cm1. rewrite setRowAll_key. cbn [newMatrix CM.m_acc].
      rewrite lookup_empty. split.
      + intros Hd. apply list_elem_of_fmap in Hd as ([d' ss] & -> & Hai).
        right. cbn [fst].
        assert (Hr : (localIdx src, d', ss) ∈ rows)
          by (apply (rowsOf_source net src axon); assumption).
        split; [| eauto].
        eapply Forall_forall in Hdelay; [| exact Hr]. exact Hdelay.
      + intros [[x Hx] | [_ [ss Hr]]]; [discriminate |].
        apply (rowsOf_source net src axon) in Hr; [| assumption | assumption].
        apply (list_elem_of_fmap_2 fst _ _ Hr). }
  unfold getSynapses, andThen, CM_getSynapses. rewrite Hds, Hfb.
  (* the loop over the delays *)
  assert (Hloop : forall axon' ts ds ws ps,
    (forall ai, ai ∈ axon' -> ai ∈ axon) ->
    forEach (map fst axon')
      (fun d out0 =>
         match CM.getRow (m_cm s) (localIdx src) d with
         | Some row =>
             (Returned, pushRow fbits d row out0)
         | None => (Thrown STD_OUT_OF_RANGE, out0)
         end) (ts, ds, ws, ps)
    = (Returned,
       (ts ++ flat_map (fun ai => map (fun si => localIdx (at_target si))
                                      (snd ai)) axon',
        ds ++ flat_map (fun ai => map (fun _ => fst ai) (snd ai)) axon',
        ws ++ flat_map (fun ai =>
                  map (fun si =>
                         fx_toFloat (fx_toFix (at_weight si) fbits) fbits)
                      (snd ai)) axon',
        ps ++ flat_map (fun ai => map (fun _ => false) (snd ai)) axon'))).
  { induction axon' as [| [d ss] axon' IH]; intros ts ds ws ps Hsub.
    - cbn. now rewrite !app_nil_r.
    - cbn [map fst forEach]. unfold andThen.
      assert (Hai : (d, ss) ∈ axon) by (apply Hsub, elem_of_cons; now left).
      rewrite (Hrow (localIdx src) d ss);
        [| apply (rowsOf_source net src axon); assumption | assumption].
      rewrite stored_spec, pushRow_spec. rewrite !map_map.
      cbn [target weight].
      rewrite IH by (intros ai Hai'; apply Hsub, elem_of_cons; now right).
      cbn [flat_map fst snd]. now rewrite <- !app_assoc. }
  rewrite (Hloop axon [] [] [] []) by auto. cbn [app]. unfold pureStep.
  f_equal. f_equal. f_equal. f_equal.
  clear -Hmap. induction axon as [| ai axon IH]; [reflexivity |].
  apply Forall_cons in Hmap as [Hai Hmap]. cbn [flat_map].
  rewrite map_app, IH by assumption. f_equal.
  rewrite map_map. apply map_ext_Forall. exact Hai.
Qed.

(** X6.  For a source that has no synapses in the network, [getSynapses]
    does not return empty lists: it throws [InvalidInput], whether or not
    the source is a neuron of the network. *)
Theorem getSynapses_without_synapses (net : fcm_t)
    (conf_fractionalBits : option Z) (net_fractionalBits : Z)
    (maxIdx : nat) (s : Simulation) (n : nat) (out : SynapseLists) :
  ConnectivityMatrix_net net conf_fractionalBits net_fractionalBits
                         (m_neuronCount s) maxIdx = (Returned, m_cm s) ->
  (forall r, r ∈ rowsOf net -> fst (fst r) <> n) ->
  getSynapses s n out = (Thrown NEMO_INVALID_INPUT, ([], [], [], [])).
Proof.
  intros Hbuilt Hnone.
  pose proof (constructed_inv _ _ _ _ _ _ Hbuilt)
    as (_ & _ & Hinv & _ & Hdelays).
  cbv zeta in Hinv, Hdelays.
  unfold getSynapses, andThen, CM_getSynapses.
  assert (Hds : delaysOf (m_cm s) n = None).
  { unfold delaysOf. rewrite Hdelays.
    apply delaysOf_none; [assumption |].
    intros d. apply eq_None_not_Some. rewrite setRowAll_key.
    cbn [newMatrix CM.m_acc]. rewrite lookup_empty.
    intros [[x Hx] | [_ [ss Hr]]]; [discriminate |].
    now apply (Hnone _ Hr). }
  now rewrite Hds.
Qed.

Lemma maxDelayAfter_lt rows (bound : nat) :
  forall md,
    (md < bound)%nat -> Forall (fun r => (snd (fst r) < bound)%nat) rows ->
    (maxDelayAfter rows md < bound)%nat.
Proof.
  induction rows as [| r rows IH]; intros md Hmd Hall; [exact Hmd |].
  apply Forall_cons in Hall as [Hr Hall].
  change (maxDelayAfter (r :: rows) md)
    with (maxDelayAfter rows (Nat.max md (snd (fst r)))).
  apply IH; [lia | assumption].
Qed.

(** X7.  A matrix copied from a network whose delays lie in [1, 63] and
    whose synapse targets are local indices of the simulation is
    well-formed, and spike delivery on a simulation that uses it always
    returns: no row lookup and no accumulator access is out of range,
    whatever the firing history. *)
Theorem constructed_matrix_delivers (net : fcm_t)
    (conf_fractionalBits : option Z) (net_fractionalBits : Z)
    (s : Simulation) :
  let rows := rowsOf net in
  let N := m_neuronCount s in
  (0 < N)%nat ->
  ConnectivityMatrix_net net conf_fractionalBits net_fractionalBits
                         N (N - 1) = (Returned, m_cm s) ->
  Forall (fun r => (snd (fst r) < 64)%nat) rows ->
  Forall (fun r => Forall (fun si => (localIdx (at_target si) < N)%nat)
                          (snd r)) rows ->
  Z.of_nat (N * 64) < two64 ->
  length (m_recentFiring s) = N -> length (m_current s) = N ->
  wf_cm N (m_cm s) /\
  deliverSpikes s = (Returned, afterDelivery s).
Proof.
  intros rows N HN Hbuilt Hdelay64 Htargets Hsmall Hrecent Hcurrent.
  pose proof (constructed_inv _ _ _ _ _ _ Hbuilt)
    as (Hnodup & Hdelay & _ & Hfin & _).
  cbv zeta in Hfin. fold rows in Hnodup, Hdelay, Hfin.
  set (fbits := default net_fractionalBits conf_fractionalBits) in *.
  destruct (forEach_setRow_ok rows (newMatrix fbits) Hnodup Hdelay)
    as [delays Hrun]; [intros key _; apply lookup_empty |].
  apply forEach_returned in Hrun.
  fold (setRowAll rows (newMatrix fbits)) in Hrun.
  cbn [newMatrix CM.m_fractionalBits CM.m_acc CM.m_cm CM.m_maxDelay] in Hrun.
  rewrite <- Hrun in Hfin.
  assert (Hmd : (maxDelayAfter rows 0 < 64)%nat)
    by (apply maxDelayAfter_lt; [lia | assumption]).
  destruct (finalizeForward_wf N
              (CM.mkCM fbits (accAfter fbits rows ∅) [] delays
                       (maxDelayAfter rows 0)) HN)
    as (cm & Hfin' & Hwf).
  - exact Hmd.
  - exact (finalizeForward_returned_inv _ _ _ _ HN Hfin).
  - cbn [CM.m_acc]. intros key row Hrow.
    apply accAfter_lookup_inv in Hrow as [Hrow | (ss & Hin & ->)];
      [now rewrite lookup_empty in Hrow |].
    eapply Forall_forall in Htargets; [| exact Hin]. cbn [snd] in Htargets.
    rewrite stored_spec. apply Forall_forall. intros t Ht.
    apply list_elem_of_fmap in Ht as (si & -> & Hsi). cbn [target].
    eapply Forall_forall in Htargets; [| exact Hsi]. exact Htargets.
  - fold N in Hfin. rewrite Hfin in Hfin'. injection Hfin' as <-.
    split; [exact Hwf |].
    unfold deliverSpikes, afterDelivery, dueTerminals.
    fold N. rewrite (forEachSource_ok N); [reflexivity | exact Hwf | | exact Hcurrent].
    apply Forall_forall. intros n Hn. apply list_elem_of_In, in_seq in Hn. lia.
Qed.

End Build.

End CpuBuild.

(** ** The constructor on a concrete network *)

Module BuildDemo.
Import Cpu CpuDelivery CpuMatrix CpuBuild Demo.

(** The network of [Demo.network]: one synapse from neuron 0 to neuron 1
    with delay 2 and weight 20.0. *)
Definition demoNet : fcm_t (F := Q) :=
  [(0%nat, [(2%nat, [mkAxonTerminal 1%nat (20 # 1) false])])].

Definition builtMatrix : CM.ConnectivityMatrix :=
  snd (ConnectivityMatrix_net demoNet (Some fbits) 0 2 1).

(** [Demo.network] with the matrix that the constructor builds. *)
Definition builtNetwork : Simulation (F := Q) :=
  mkSimulation 2
    [2 # 100; 2 # 100] [2 # 10; 2 # 10] [-65 # 1; -65 # 1] [8 # 1; 8 # 1]
    [-13 # 1; -13 # 1] [-65 # 1; -65 # 1] [0; 0]%Q
    [true; true] [false; false] [0; 0] builtMatrix [0; 0] [false; false]
    [tt; tt] 0 (mkSTDP false 0%Q 0%Q) 0 [] [].

Lemma demoNet_built :
  ConnectivityMatrix_net demoNet (Some fbits) 0 2 1
  = (Returned, m_cm builtNetwork).
Proof. vm_compute. reflexivity. Qed.

Lemma demoNet_keys : NoDup (map fst (rowsOf demoNet)).
Proof. cbn. apply NoDup_singleton. Qed.

Lemma demoNet_delays :
  Forall (fun r => (1 <= snd (fst r))%nat) (rowsOf demoNet).
Proof. repeat constructor. Qed.

Lemma constructed_getRow_witness :
  (0 < 2)%nat /\ NoDup (map fst (rowsOf demoNet)) /\
  Forall (fun r => (1 <= snd (fst r))%nat) (rowsOf demoNet) /\
  Z.of_nat ((1 + 1) * maxDelayAfter (rowsOf demoNet) 0) < two32 /\
  Z.of_nat (maxDelayAfter (rowsOf demoNet) 0) < UINT32_MAX /\
  Z.of_nat 1 <> UINT32_MAX /\
  exists cm,
    ConnectivityMatrix_net demoNet (Some fbits) 0 2 1 = (Returned, cm) /\
    CM.m_maxDelay cm = 2%nat /\
    CM.getRow cm 0 2 = Some [mkTerminal (20 * 2 ^ 20) 1] /\
    CM.getRow cm 1 1 = Some [].
Proof.
  assert (Hcount : (0 < 2)%nat) by lia.
  assert (Hsmall : Z.of_nat ((1 + 1) * maxDelayAfter (rowsOf demoNet) 0)
                   < two32) by (vm_compute; reflexivity).
  assert (Hmd32 : Z.of_nat (maxDelayAfter (rowsOf demoNet) 0) < UINT32_MAX)
    by (vm_compute; reflexivity).
  assert (Hidx32 : Z.of_nat 1 <> UINT32_MAX) by (vm_compute; discriminate).
  split; [exact Hcount |]. split; [exact demoNet_keys |].
  split; [exact demoNet_delays |]. split; [exact Hsmall |].
  split; [exact Hmd32 |]. split; [exact Hidx32 |].
  destruct (constructed_getRow demoNet (Some fbits) 0 2 1 Hcount
              demoNet_keys demoNet_delays Hsmall Hmd32 Hidx32)
    as (cm & Hrun & Hmd & _ & _ & Hrow & Hempty).
  exists cm. split; [exact Hrun |]. split; [exact Hmd |]. split.
  - rewrite (Hrow 0%nat 2%nat [mkAxonTerminal 1%nat (20 # 1) false]);
      [reflexivity | | lia].
    apply list_elem_of_singleton. reflexivity.
  - apply Hempty; [lia | cbn; lia |].
    cbn. intros Hin. apply list_elem_of_singleton in Hin. discriminate.
Defined.

(** One synapse of delay 64; one row with the delay 0. *)
Definition wideNet : fcm_t (F := Q) :=
  [(0%nat, [(64%nat, [mkAxonTerminal 1%nat (1 # 1) false])])].

Definition badNet : fcm_t (F := Q) :=
  [(0%nat, [(0%nat, [mkAxonTerminal 1%nat (1 # 1) false])])].

(** The largest local index of a mapper with [2^26] neurons. *)
Definition wideIdx : nat := Z.to_nat 67108863.

(** The constructor returns on [demoNet]; it ends with [std::out_of_range]
    on [wideNet] laid out for [2^26] neurons, whose [2^26 * 64] slots are
    counted as 0 in 32 bits; it ends with [InvalidInput] on [badNet]. *)
Lemma constructor_fails_iff_witness :
  fst (ConnectivityMatrix_net demoNet (Some fbits) 0 2 1) = Returned /\
  fst (ConnectivityMatrix_net wideNet (Some fbits) 0 2 wideIdx)
    = Thrown STD_OUT_OF_RANGE /\
  fst (ConnectivityMatrix_net badNet (Some fbits) 0 2 1)
    = Thrown NEMO_INVALID_INPUT.
Proof.
  split; [| split].
  - apply (proj1 (constructor_fails_iff demoNet (Some fbits) 0 2 1)).
    split; [split; [exact demoNet_keys | exact demoNet_delays] |].
    right. vm_compute. repeat split. discriminate.
  - pose proof (constructor_fails_iff wideNet (Some fbits) 0 2 wideIdx)
      as Hends.
    cbv zeta in Hends. destruct Hends as (_ & _ & Hwide).
    change (maxDelayAfter (rowsOf wideNet) 0) with 64%nat in Hwide.
    rewrite Hwide.
    + change (64 =? 0)%nat with false. now rewrite andb_false_r.
    + split; [cbn; apply NoDup_singleton | repeat constructor].
    + assert (Hidx : Z.of_nat wideIdx = 67108863)
        by (unfold wideIdx; apply Z2Nat.id; lia).
      intros [Hzero | (Hsmall & _)]; [discriminate |].
      rewrite Nat2Z.inj_mul, Nat2Z.inj_add, Hidx in Hsmall.
      unfold two32 in Hsmall. lia.
  - apply (proj1 (proj2 (constructor_fails_iff badNet (Some fbits) 0 2 1))).
    intros [_ Hdelay]. apply Forall_cons in Hdelay as [Hd _].
    cbn in Hd. lia.
Defined.

Lemma getSynapses_round_trip_witness :
  (0 < m_neuronCount builtNetwork)%nat /\
  ConnectivityMatrix_net demoNet (Some fbits) 0
      (m_neuronCount builtNetwork) 1 = (Returned, m_cm builtNetwork) /\
  getSynapses builtNetwork (localIdx 0) ([], [], [], [])
    = (Returned, ([1%nat], [2%nat], [(20 # 1)%Q], [false])).
Proof.
  assert (Hcount : (0 < m_neuronCount builtNetwork)%nat) by (cbn; lia).
  split; [exact Hcount |]. split; [exact demoNet_built |].
  rewrite (getSynapses_round_trip demoNet (Some fbits) 0 1 builtNetwork 0
             [(2%nat, [mkAxonTerminal 1%nat (20 # 1) false])]
             ([], [], [], []) Hcount demoNet_built).
  - reflexivity.
  - vm_compute. reflexivity.
  - cbn. apply NoDup_singleton.
  - apply list_elem_of_singleton. reflexivity.
  - discriminate.
  - cbn. lia.
  - cbn. repeat constructor.
  - repeat constructor.
Defined.

Lemma getSynapses_without_synapses_witness :
  ConnectivityMatrix_net demoNet (Some fbits) 0
      (m_neuronCount builtNetwork) 1 = (Returned, m_cm builtNetwork) /\
  getSynapses builtNetwork 1 ([], [], [], [])
    = (Thrown NEMO_INVALID_INPUT, ([], [], [], [])).
Proof.
  split; [exact demoNet_built |].
  apply (getSynapses_without_synapses demoNet (Some fbits) 0 1 builtNetwork
           1 ([], [], [], []) demoNet_built).
  intros r Hr. cbn in Hr. apply list_elem_of_singleton in Hr. subst r.
  cbn. discriminate.
Defined.

Lemma constructed_matrix_delivers_witness :
  (0 < m_neuronCount builtNetwork)%nat /\
  ConnectivityMatrix_net demoNet (Some fbits) 0 (m_neuronCount builtNetwork)
      (m_neuronCount builtNetwork - 1) = (Returned, m_cm builtNetwork) /\
  wf_cm 2 (m_cm builtNetwork) /\
  fst (deliverSpikes builtNetwork) = Returned.
Proof.
  assert (Hcount : (0 < m_neuronCount builtNetwork)%nat) by (cbn; lia).
  split; [exact Hcount |]. split; [exact demoNet_built |].
  destruct (constructed_matrix_delivers demoNet (Some fbits) 0 builtNetwork
              Hcount demoNet_built) as [Hwf Hrun].
  - repeat constructor.
  - repeat constructor.
  - vm_compute. reflexivity.
  - reflexivity.
  - reflexivity.
  - split; [exact Hwf |]. now rewrite Hrun.
Defined.

End BuildDemo.

(* ===================================================================== *)
(** * CPU backend: what a cycle consumes, keeps and reports *)
(* ===================================================================== *)

Module CpuCycle.
Import Cpu CpuDelivery CpuUpdate CpuStep CpuHistory.

Section Cycle.
Context {F : Type} `{FloatOps F} `{Collaborators F}.
Local Open Scope float_scope.

(** ** The firing stimulus *)

Lemma stimulate_lookup fstim :
  forall (l : list bool) (j : nat),
    (j < length l)%nat ->
    stimulate fstim l !!! j
      = (l !!! j) || bool_decide (j ∈ map localIdx fstim).
Proof.
  induction fstim as [| i fstim IH]; intros l j Hj.
  - cbn. rewrite bool_decide_eq_false_2; [now rewrite orb_false_r |].
    apply not_elem_of_nil.
  - change (stimulate (i :: fstim) l)
      with (stimulate fstim (<[localIdx i := true]> l)).
    rewrite IH by (now rewrite length_insert).
    cbn [map]. destruct (decide (localIdx i = j)) as [<- | Hne].
    + rewrite list_lookup_total_insert_eq by assumption.
      rewrite (bool_decide_eq_true_2 (localIdx i ∈ localIdx i :: _));
        [| apply elem_of_cons; now left].
      now rewrite orb_true_r.
    + rewrite list_lookup_total_insert_ne by assumption. f_equal.
      apply bool_decide_ext. rewrite elem_of_cons. intuition congruence.
Qed.

Lemma setFiringStimulus_thrown fstim :
  forall s,
    ~ Forall (fun i => (localIdx i < length (m_fstim s))%nat) fstim ->
    fst (setFiringStimulus fstim s) = Thrown STD_OUT_OF_RANGE.
Proof.
  induction fstim as [| i fstim IH]; intros s Hbad.
  - exfalso. apply Hbad. constructor.
  - cbn [setFiringStimulus].
    destruct (Nat.ltb_spec (localIdx i) (length (m_fstim s))) as [Hlt | Hge];
      [| reflexivity].
    apply IH. cbn. rewrite length_insert. intros Hall. apply Hbad.
    now constructor.
Qed.

(** X8.  [setFiringStimulus] sets the flag of exactly the neurons named in
    the stimulus, whatever their order and however often they are named,
    and leaves the flags that were set before; nothing else changes.  It
    returns if and only if every index of the stimulus maps into the flag
    vector, and throws [std::out_of_range] otherwise. *)
Theorem setFiringStimulus_sets_exactly (fstim : list nat) (s : Simulation) :
  let in_range := Forall (fun i => (localIdx i < length (m_fstim s))%nat) fstim in
  (in_range ->
     exists flags,
       setFiringStimulus fstim s = (Returned, set_fstim flags s) /\
       length flags = length (m_fstim s) /\
       forall l : nat, (l < length (m_fstim s))%nat ->
         flags !!! l = (m_fstim s !!! l) || bool_decide (l ∈ map localIdx fstim))
  /\ (~ in_range -> fst (setFiringStimulus fstim s) = Thrown STD_OUT_OF_RANGE).
Proof.
  intros in_range. split.
  - intros Hin. exists (stimulate fstim (m_fstim s)).
    split; [now apply setFiringStimulus_ok |].
    split; [apply stimulate_length |].
    intros l Hl. now apply stimulate_lookup.
  - apply setFiringStimulus_thrown.
Qed.

(** ** One cycle *)

Lemma afterStep_current s (n : nat) :
  wf s -> (n < m_neuronCount s)%nat -> m_valid s !!! n = true ->
  m_current (afterStep s) !!! n = 0.
Proof.
  intros Hwf Hn Hvalid. pose proof (afterStep_dyn s n Hwf Hn) as Hdyn.
  rewrite Hvalid in Hdyn. unfold dyn, dynOf in Hdyn.
  exact (f_equal (fun d => snd (fst d)) Hdyn).
Qed.

Lemma afterStep_current_invalid s (n : nat) :
  wf s -> (n < m_neuronCount s)%nat -> m_valid s !!! n = false ->
  m_current (afterStep s) !!! n = m_current (afterDelivery s) !!! n.
Proof.
  intros Hwf Hn Hvalid. pose proof (afterStep_dyn s n Hwf Hn) as Hdyn.
  rewrite Hvalid in Hdyn. unfold dyn in Hdyn.
  exact (f_equal (fun d => snd (fst d)) Hdyn).
Qed.

(** X9.  A cycle that returns has used up its inputs: every flag of the
    firing stimulus is cleared, so that a stimulus forces firing in one
    cycle only, and the current accumulator of every valid neuron is back
    at 0, so that the next cycle integrates only what is delivered to it.
    The neuron parameters, the valid flags and the connectivity matrix are
    left as they were. *)
Theorem step_consumes_inputs (s s' : Simulation) :
  wf s -> step s = (Returned, s') ->
  Forall (fun flag => flag = false) (m_fstim s') /\
  length (m_fstim s') = length (m_fstim s) /\
  (forall n : nat, (n < m_neuronCount s)%nat -> m_valid s !!! n = true ->
     m_current s' !!! n = 0) /\
  m_a s' = m_a s /\ m_b s' = m_b s /\ m_c s' = m_c s /\ m_d s' = m_d s /\
  m_sigma s' = m_sigma s /\ m_valid s' = m_valid s /\ m_cm s' = m_cm s /\
  m_neuronCount s' = m_neuronCount s.
Proof.
  intros Hwf Hstep. apply step_inv in Hstep as [_ ->]; [| assumption].
  destruct (afterUpdate_spec (afterDelivery s) (afterDelivery_wf s Hwf))
    as [Hfr _].
  assert (Hfstim : m_fstim (afterStep s) = map (fun _ => false) (m_fstim s)).
  { change (m_fstim (afterStep s))
      with (map (fun _ => false) (m_fstim (afterUpdate (afterDelivery s)))).
    now rewrite (fr_fstim _ _ Hfr). }
  rewrite Hfstim.
  split.
  { apply Forall_forall. intros flag Hflag.
    apply list_elem_of_fmap in Hflag as (x & -> & _). reflexivity. }
  split; [apply length_map |].
  split; [intros n Hn Hvalid; now apply afterStep_current |].
  destruct Hfr. cbn in *. repeat split; assumption.
Qed.

(** X10.  A neuron index that is not marked valid is skipped by the
    update: a cycle leaves its state variables, its firing flag and its
    firing history as they were, even when the firing stimulus names it.
    Only its current accumulator changes: it keeps what was delivered to
    it, and is not reset. *)
Theorem invalid_neuron_skipped (fstim : list nat) (s s' : Simulation)
    (n : nat) :
  wf s -> (n < m_neuronCount s)%nat -> m_valid s !!! n = false ->
  stepWith fstim s = (Returned, s') ->
  m_u s' !!! n = m_u s !!! n /\ m_v s' !!! n = m_v s !!! n /\
  m_fired s' !!! n = m_fired s !!! n /\
  m_recentFiring s' !!! n = m_recentFiring s !!! n /\
  m_current s' !!! n
    = foldl addTerminal (m_current s) (dueTerminals s) !!! n.
Proof.
  intros Hwf Hn Hvalid Hstep.
  apply stepWith_inv in Hstep as [_ ->]; [| assumption].
  unfold cycle.
  pose proof (stimulated_wf fstim s Hwf) as Hwf1.
  destruct (afterStep_neuron (stimulated fstim s) n Hwf1 Hn)
    as (Hu & Hv & Hf & Hr).
  change (m_valid (stimulated fstim s)) with (m_valid s) in Hu, Hv, Hf, Hr.
  rewrite Hvalid in Hu, Hv, Hf, Hr.
  repeat (split; [assumption |]).
  now rewrite (afterStep_current_invalid (stimulated fstim s) n Hwf1 Hn Hvalid).
Qed.

(** X11.  After a cycle that returns, a valid neuron that fired has its
    membrane potential at the reset value [c]; one that did not fire was
    not named in the stimulus and has a membrane potential below the
    threshold of 30. *)
Theorem fired_or_below_threshold (s s' : Simulation) (n : nat) :
  wf s -> (n < m_neuronCount s)%nat -> m_valid s !!! n = true ->
  step s = (Returned, s') ->
  (m_fired s' !!! n = true -> m_v s' !!! n = m_c s !!! n) /\
  (m_fired s' !!! n = false ->
     m_fstim s !!! n = false /\
     above_threshold (m_v s' !!! n, m_u s' !!! n) = false).
Proof.
  intros Hwf Hn Hvalid Hstep.
  apply step_inv in Hstep as [_ ->]; [| assumption].
  destruct (afterStep_neuron s n Hwf Hn) as (Hu & Hv & Hf & _).
  rewrite Hvalid in Hu, Hv, Hf. rewrite Hu, Hv, Hf.
  unfold neuronUpdate, integrated.
  set (I := fst (inputCurrent (afterDelivery s) n)).
  destruct (integrate_prefix (m_a (afterDelivery s) !!! n)
              (m_b (afterDelivery s) !!! n) I
              (m_v (afterDelivery s) !!! n) (m_u (afterDelivery s) !!! n)
              SUBSTEPS) as (k & _ & Hrun & _); [unfold SUBSTEPS; lia |].
  unfold integrate. rewrite Hrun.
  destruct (trajectory _ _ _ _ _ k) as [vk uk] eqn:Htraj.
  cbn [nu_fired nu_v nu_u].
  change (m_fstim (afterDelivery s)) with (m_fstim s).
  change (m_c (afterDelivery s)) with (m_c s).
  split.
  - intros Hfired. now rewrite Hfired.
  - intros Hfired. rewrite Hfired.
    apply orb_false_iff in Hfired as [Habove Hstim]. auto.
Qed.

(** ** The firing buffer *)

(** The neurons that fired at cycle [t] of a run, in index order. *)
Definition firedIn (stims : list (list nat)) (s0 : Simulation) (t : nat)
  : list nat :=
  List.filter (fun n => firedAt stims s0 t n) (seq 0 (m_neuronCount s0)).

Lemma afterStep_buffers s :
  wf s ->
  m_timer (afterStep s) = (m_timer s + 1) mod two64 /\
  m_lastFlush (afterStep s) = m_lastFlush s /\
  m_firedCycle (afterStep s)
    = m_firedCycle s
      ++ map (fun _ => wrapu32 (m_timer s - m_lastFlush s))
             (List.filter (fun n => m_fired (afterStep s) !!! n)
                          (seq 0 (m_neuronCount s))) /\
  m_firedNeuron (afterStep s)
    = m_firedNeuron s
      ++ map globalIdx
             (List.filter (fun n => m_fired (afterStep s) !!! n)
                          (seq 0 (m_neuronCount s))).
Proof.
  intros Hwf.
  destruct (afterUpdate_spec (afterDelivery s) (afterDelivery_wf s Hwf))
    as [Hfr _].
  unfold afterStep, clearFstim, timerStep, setFiring, firedNow,
    elapsedSimulation.
  cbn [set_fstim set_timer set_firedBuffers
       m_timer m_lastFlush m_firedCycle m_firedNeuron m_fired m_neuronCount].
  rewrite (fr_timer _ _ Hfr), (fr_lastFlush _ _ Hfr), (fr_firedCycle _ _ Hfr),
    (fr_firedNeuron _ _ Hfr), (fr_count _ _ Hfr).
  cbn [afterDelivery set_current m_timer m_lastFlush m_firedCycle
       m_firedNeuron m_neuronCount].
  auto.
Qed.

(** X12.  [readFiring] after a run of cycles that began with empty firing
    buffers, just flushed, returns the number of cycles of the run and
    lists, cycle by cycle and within a cycle in index order, every neuron
    that fired: its cycle numbered from 0 at the flush, and its global
    index.  It empties the buffers and moves the flush mark to the current
    cycle. *)
Theorem readFiring_reports_run (stims : list (list nat)) (s0 : Simulation) :
  let L := length stims in
  let s := stateAt stims s0 L in
  wf s0 -> completed stims s0 L ->
  m_firedCycle s0 = [] -> m_firedNeuron s0 = [] ->
  m_lastFlush s0 = m_timer s0 -> 0 <= m_timer s0 ->
  m_timer s0 + Z.of_nat L < two64 -> Z.of_nat L < two32 ->
  fst (readFiring s)
    = (Z.of_nat L,
       flat_map (fun t => map (fun _ => Z.of_nat t) (firedIn stims s0 t))
                (seq 0 L),
       flat_map (fun t => map globalIdx (firedIn stims s0 t)) (seq 0 L)) /\
  m_firedCycle (snd (readFiring s)) = [] /\
  m_firedNeuron (snd (readFiring s)) = [] /\
  m_lastFlush (snd (readFiring s)) = m_timer s0 + Z.of_nat L.
Proof.
  intros L s Hwf Hdone Hcycles Hneurons Hflush Hpos Htimer Hlen.
  assert (Hinv : forall t : nat,
    (t <= L)%nat ->
    completed stims s0 t /\
    wf (stateAt stims s0 t) /\
    m_neuronCount (stateAt stims s0 t) = m_neuronCount s0 /\
    m_timer (stateAt stims s0 t) = m_timer s0 + Z.of_nat t /\
    m_lastFlush (stateAt stims s0 t) = m_timer s0 /\
    m_firedCycle (stateAt stims s0 t)
      = flat_map (fun c => map (fun _ => Z.of_nat c) (firedIn stims s0 c))
                 (seq 0 t) /\
    m_firedNeuron (stateAt stims s0 t)
      = flat_map (fun c => map globalIdx (firedIn stims s0 c)) (seq 0 t)).
  { induction t as [| t IH]; intros Ht.
    - assert (Hs0 : stateAt stims s0 0 = s0) by reflexivity.
      rewrite Hs0. cbn [seq flat_map].
      split; [reflexivity |]. split; [exact Hwf |]. split; [reflexivity |].
      split; [lia |]. auto.
    - destruct (lookup_lt_is_Some_2 stims t) as [fstim Hlook]; [lia |].
      assert (Hdone_S : completed stims s0 (S t)).
      { unfold completed in *. fold L in Hdone.
        rewrite <- (take_drop (S t) (take L stims)) in Hdone.
        rewrite take_take in Hdone.
        replace (S t `min` L)%nat with (S t) in Hdone by lia.
        clear -Hdone.
        revert Hdone. generalize (take (S t) stims) as l1.
        generalize (drop (S t) (take L stims)) as l2.
        intros l2 l1. revert s0.
        induction l1 as [| x l1 IH]; intros s0 Hrun; [reflexivity |].
        cbn [app run] in *. unfold andThen in *.
        destruct (stepWith x s0) as [[| e |] s1]; cbn in *;
          try discriminate; try assumption.
        now apply IH. }
      destruct (completed_S stims s0 t fstim Hlook Hdone_S) as [Hdone_t Hstep].
      destruct (IH ltac:(lia))
        as (_ & Hwf_t & HN & Ht_timer & Ht_flush & Ht_cycles & Ht_neurons).
      apply stepWith_inv in Hstep as [_ Hnext]; [| assumption].
      pose proof (stimulated_wf fstim _ Hwf_t) as Hwf1.
      pose proof (afterStep_buffers _ Hwf1)
        as (Htimer' & Hflush' & Hcycles' & Hneurons').
      fold (cycle fstim (stateAt stims s0 t))
        in Htimer', Hflush', Hcycles', Hneurons'.
      rewrite <- Hnext in Htimer', Hflush', Hcycles', Hneurons'.
      cbn [stimulated set_fstim m_timer m_lastFlush m_firedCycle
           m_firedNeuron m_neuronCount] in Htimer', Hflush', Hcycles', Hneurons'.
      pose proof (afterStep_static _ Hwf1) as (HN' & _).
      fold (cycle fstim (stateAt stims s0 t)) in HN'.
      rewrite <- Hnext in HN'. cbn in HN'.
      split; [exact Hdone_S |].
      split; [rewrite Hnext; apply afterStep_wf, Hwf1 |].
      split; [congruence |].
      split.
      { rewrite Htimer', Ht_timer. rewrite Z.mod_small; lia. }
      split; [congruence |].
      assert (Hfired : List.filter
                 (fun n => m_fired (stateAt stims s0 (S t)) !!! n)
                 (seq 0 (m_neuronCount (stateAt stims s0 t)))
               = firedIn stims s0 t)
        by (unfold firedIn, firedAt; now rewrite HN).
      assert (Hnow : wrapu32 (m_timer (stateAt stims s0 t)
                              - m_lastFlush (stateAt stims s0 t))
                     = Z.of_nat t).
      { rewrite Ht_timer, Ht_flush. unfold wrapu32.
        replace (m_timer s0 + Z.of_nat t - m_timer s0) with (Z.of_nat t) by lia.
        apply Z.mod_small. lia. }
      rewrite Hcycles', Hneurons', Hfired, Hnow, Ht_cycles, Ht_neurons.
      replace (seq 0 (S t)) with (seq 0 t ++ [t]) by (now rewrite seq_S).
      rewrite !flat_map_app. cbn [flat_map]. rewrite !app_nil_r.
      split; reflexivity. }
  destruct (Hinv L ltac:(lia))
    as (_ & _ & _ & HL_timer & HL_flush & HL_cycles & HL_neurons).
  fold s in HL_timer, HL_flush, HL_cycles, HL_neurons.
  unfold readFiring. cbn [fst snd set_firedBuffers set_lastFlush
    m_firedCycle m_firedNeuron m_lastFlush].
  rewrite HL_timer, HL_flush, HL_cycles, HL_neurons.
  split; [| auto].
  f_equal. f_equal. unfold wrapu32.
  replace (m_timer s0 + Z.of_nat L - m_timer s0) with (Z.of_nat L) by lia.
  apply Z.mod_small. lia.
Qed.

End Cycle.

End CpuCycle.

(** ** The cycle on concrete networks *)

Module CycleDemo.
Import Cpu CpuDelivery CpuUpdate CpuStep CpuHistory CpuCycle Demo.

(** [Demo.network] with neuron 1 not marked valid. *)
Definition sparseNetwork : Simulation (F := Q) :=
  mkSimulation 2
    [2 # 100; 2 # 100] [2 # 10; 2 # 10] [-65 # 1; -65 # 1] [8 # 1; 8 # 1]
    [-13 # 1; -13 # 1] [-65 # 1; -65 # 1] [0; 0]%Q
    [true; false] [false; false] [0; 0] matrix [0; 0] [false; false]
    [tt; tt] 0 (mkSTDP false 0%Q 0%Q) 0 [] [].

Lemma sparseNetwork_wf : wf sparseNetwork.
Proof.
  split; try reflexivity. split; cbn; try lia; try reflexivity.
  repeat constructor.
Qed.

Lemma network_step : step network = (Returned, afterStep network).
Proof. apply step_ok; [exact network_wf | reflexivity]. Qed.

Lemma setFiringStimulus_sets_exactly_witness :
  Forall (fun i => (localIdx i < length (m_fstim network))%nat)
         [1%nat; 0%nat; 1%nat] /\
  exists flags,
    setFiringStimulus [1%nat; 0%nat; 1%nat] network
      = (Returned, set_fstim flags network) /\
    flags !!! 0%nat = true /\ flags !!! 1%nat = true.
Proof.
  assert (Hin : Forall (fun i => (localIdx i < length (m_fstim network))%nat)
                       [1%nat; 0%nat; 1%nat])
    by (repeat constructor).
  split; [exact Hin |].
  destruct (proj1 (setFiringStimulus_sets_exactly [1%nat; 0%nat; 1%nat]
                     network) Hin) as (flags & Hrun & _ & Hflags).
  exists flags. split; [exact Hrun |].
  split; rewrite Hflags by (cbn; lia); reflexivity.
Defined.

Lemma step_consumes_inputs_witness :
  wf network /\ step network = (Returned, afterStep network) /\
  Forall (fun flag => flag = false) (m_fstim (afterStep network)) /\
  m_current (afterStep network) !!! 0%nat = 0.
Proof.
  split; [exact network_wf |]. split; [exact network_step |].
  destruct (step_consumes_inputs network (afterStep network) network_wf
              network_step) as (Hflags & _ & Hcurrent & _).
  split; [exact Hflags |]. apply Hcurrent; [cbn; lia | reflexivity].
Defined.

Lemma invalid_neuron_skipped_witness :
  wf sparseNetwork /\ (1 < m_neuronCount sparseNetwork)%nat /\
  m_valid sparseNetwork !!! 1%nat = false /\
  stepWith [1%nat] sparseNetwork = (Returned, cycle [1%nat] sparseNetwork) /\
  m_fired (cycle [1%nat] sparseNetwork) !!! 1%nat = false /\
  m_v (cycle [1%nat] sparseNetwork) !!! 1%nat = (-65 # 1)%Q.
Proof.
  assert (Hn : (1 < m_neuronCount sparseNetwork)%nat) by (cbn; lia).
  assert (Hrun : stepWith [1%nat] sparseNetwork
                 = (Returned, cycle [1%nat] sparseNetwork)).
  { apply stepWith_ok; [exact sparseNetwork_wf | reflexivity |].
    repeat constructor. }
  split; [exact sparseNetwork_wf |]. split; [exact Hn |].
  split; [reflexivity |]. split; [exact Hrun |].
  destruct (invalid_neuron_skipped [1%nat] sparseNetwork
              (cycle [1%nat] sparseNetwork) 1 sparseNetwork_wf Hn eq_refl Hrun)
    as (_ & Hv & Hf & _).
  split; [rewrite Hf | rewrite Hv]; reflexivity.
Defined.

Lemma fired_or_below_threshold_witness :
  wf network /\ (0 < m_neuronCount network)%nat /\
  m_valid network !!! 0%nat = true /\
  step network = (Returned, afterStep network) /\
  (m_fired (afterStep network) !!! 0%nat = false ->
   above_threshold (m_v (afterStep network) !!! 0%nat,
                    m_u (afterStep network) !!! 0%nat) = false).
Proof.
  assert (Hn : (0 < m_neuronCount network)%nat) by (cbn; lia).
  split; [exact network_wf |]. split; [exact Hn |]. split; [reflexivity |].
  split; [exact network_step |].
  destruct (fired_or_below_threshold network (afterStep network) 0
              network_wf Hn eq_refl network_step) as [_ Hquiet].
  intros Hfired. now apply Hquiet.
Defined.

Lemma readFiring_reports_run_witness :
  wf network /\ completed stimuli network (length stimuli) /\
  m_firedCycle network = [] /\ m_firedNeuron network = [] /\
  m_lastFlush network = m_timer network /\ 0 <= m_timer network /\
  m_timer network + Z.of_nat (length stimuli) < two64 /\
  Z.of_nat (length stimuli) < two32 /\
  fst (readFiring (stateAt stimuli network (length stimuli)))
    = (2, [0], [0%nat]).
Proof.
  assert (Hdone : completed stimuli network (length stimuli))
    by (apply stimuli_completed; cbn; lia).
  assert (Hpos : 0 <= m_timer network) by (cbn; lia).
  assert (Htimer : m_timer network + Z.of_nat (length stimuli) < two64)
    by (vm_compute; reflexivity).
  assert (Hlen : Z.of_nat (length stimuli) < two32)
    by (vm_compute; reflexivity).
  split; [exact network_wf |]. split; [exact Hdone |].
  split; [reflexivity |]. split; [reflexivity |]. split; [reflexivity |].
  split; [exact Hpos |]. split; [exact Htimer |]. split; [exact Hlen |].
  destruct (readFiring_reports_run stimuli network network_wf Hdone
              eq_refl eq_refl eq_refl Hpos Htimer Hlen) as [Hread _].
  rewrite Hread. vm_compute. reflexivity.
Defined.

End CycleDemo.

(* ===================================================================== *)
(** * CUDA backend: the connectivity matrix under construction *)
(* ===================================================================== *)

(** Standard C++ exceptions thrown by the functions below that carry no
    error code of [nemo_error]. *)
Inductive std_error :=
| RUNTIME_ERROR      (* std::runtime_error *)
| LOGIC_ERROR        (* std::logic_error *)
| RANGE_ERROR        (* std::range_error *)
| INVALID_ARGUMENT   (* std::invalid_argument *)
| OUT_OF_RANGE.      (* std::out_of_range *)

Module CudaMatrix.
Import Cuda.

Section Matrix.
Context {F : Type} `{FloatOps F}.

Notation CMatrix := (ConnectivityMatrix F) (only parsing).

(** [globalIndex(p, n)]: [p * m_maxPartitionSize + n], in [unsigned]. *)
Definition globalIndex (cm : CMatrix) (p n : nat) : nat :=
  Z.to_nat (wrapu32 (Z.of_nat p * Z.of_nat (m_maxPartitionSize cm)
                     + Z.of_nat n)).

(** [fractionalBits()]: the format, once it has been set. *)
Definition fractionalBits (cm : CMatrix) : std_error + Z :=
  if m_fractionalBits cm =? UINT32_MAX then inl RUNTIME_ERROR
  else inr (m_fractionalBits cm).

(** The fields of a synapse handed to [addSynapses]:
    (target, delay, weight, plastic). *)
Definition synTarget (syn : nat * nat * F * bool) : nat := fst (fst (fst syn)).
Definition synDelay (syn : nat * nat * F * bool) : nat := snd (fst (fst syn)).
Definition synWeight (syn : nat * nat * F * bool) : F := snd (fst syn).
Definition synPlastic (syn : nat * nat * F * bool) : bool := snd syn.

Definition delayInRange (syn : nat * nat * F * bool) : Prop :=
  (1 <= synDelay syn <= MAX_DELAY)%nat.

(** ** Indices *)

(** X13.  A global neuron index splits into partition and neuron index and
    is put together again by [globalIndex]; the neuron index is always below
    the partition size.  Conversely a partition and a neuron index below the
    partition size are recovered from their global index, as long as that
    index fits 32 bits. *)
Theorem index_round_trip (cm : CMatrix) (g p n : nat) :
  (0 < m_maxPartitionSize cm)%nat ->
  (neuronIdx cm g < m_maxPartitionSize cm)%nat /\
  (Z.of_nat g < two32 ->
     globalIndex cm (partitionIdx cm g) (neuronIdx cm g) = g) /\
  ((n < m_maxPartitionSize cm)%nat ->
   Z.of_nat p * Z.of_nat (m_maxPartitionSize cm) + Z.of_nat n < two32 ->
     partitionIdx cm (globalIndex cm p n) = p /\
     neuronIdx cm (globalIndex cm p n) = n).
Proof.
  intros Hsize. unfold neuronIdx, partitionIdx, globalIndex, wrapu32.
  set (size := m_maxPartitionSize cm) in *.
  split; [apply Nat.mod_upper_bound; lia |]. split.
  - intros Hg.
    rewrite <- Nat2Z.inj_mul, <- Nat2Z.inj_add.
    replace (g / size * size + g mod size)%nat with g
      by (rewrite (Nat.div_mod_eq g size) at 1; lia).
    rewrite Z.mod_small by lia. apply Nat2Z.id.
  - intros Hn Hfit.
    rewrite Z.mod_small by lia.
    rewrite <- Nat2Z.inj_mul, <- Nat2Z.inj_add, Nat2Z.id.
    split.
    + rewrite Nat.div_add_l by lia. rewrite Nat.div_small by lia. lia.
    + rewrite Nat.add_comm, Nat.Div0.mod_add. apply Nat.mod_small. lia.
Qed.

(** ** Adding synapses *)

Lemma addSynapse_partitionSize sp sn delay tp tn (w : F) plastic (cm : CMatrix) :
  m_maxPartitionSize (snd (addSynapse sp sn delay tp tn w plastic cm))
  = m_maxPartitionSize cm.
Proof.
  unfold addSynapse. now destruct (_ || _).
Qed.

Lemma addSynapse_returns sp sn delay tp tn (w : F) plastic (cm : CMatrix) :
  (1 <= delay <= MAX_DELAY)%nat ->
  fst (addSynapse sp sn delay tp tn w plastic cm) = Returned.
Proof.
  intros Hd. unfold addSynapse.
  destruct (Nat.ltb_spec MAX_DELAY delay); [lia |].
  destruct (Nat.eqb_spec delay 0); [lia |]. reflexivity.
Qed.

Lemma addSynapse_throws sp sn delay tp tn (w : F) plastic (cm : CMatrix) :
  ~ (1 <= delay <= MAX_DELAY)%nat ->
  addSynapse sp sn delay tp tn w plastic cm = (Thrown NEMO_INVALID_INPUT, cm).
Proof.
  intros Hd. unfold addSynapse.
  destruct (Nat.ltb_spec MAX_DELAY delay); [reflexivity |].
  destruct (Nat.eqb_spec delay 0); [reflexivity | lia].
Qed.

Lemma addSynapsesFrom_partitionSize sp sn syns :
  forall cm : CMatrix,
    m_maxPartitionSize (snd (addSynapsesFrom sp sn syns cm))
    = m_maxPartitionSize cm.
Proof.
  induction syns as [| [[[tgt delay] w] plastic] syns IH]; intros cm;
    [reflexivity |].
  cbn [addSynapsesFrom]. unfold andThen.
  pose proof (addSynapse_partitionSize sp sn delay (partitionIdx cm tgt)
                (neuronIdx cm tgt) w plastic cm) as Hstep.
  destruct (addSynapse _ _ _ _ _ _ _ cm) as [[| e |] cm1]; cbn [snd] in *;
    try assumption.
  now rewrite IH.
Qed.

Lemma addSynapsesFrom_ok sp sn syns :
  forall cm : CMatrix,
    Forall delayInRange syns ->
    fst (addSynapsesFrom sp sn syns cm) = Returned.
Proof.
  induction syns as [| [[[tgt delay] w] plastic] syns IH]; intros cm Hall;
    [reflexivity |].
  apply Forall_cons in Hall as [Hd Hall]. cbn [addSynapsesFrom].
  unfold andThen.
  pose proof (addSynapse_returns sp sn delay (partitionIdx cm tgt)
                (neuronIdx cm tgt) w plastic cm Hd) as Hstep.
  destruct (addSynapse _ _ _ _ _ _ _ cm) as [st cm1]. cbn in Hstep. subst st.
  now apply IH.
Qed.

(** The loop stops at the first synapse whose delay is out of range, with
    the synapses before it added. *)
Lemma addSynapsesFrom_stops sp sn good bad rest :
  forall cm : CMatrix,
    Forall delayInRange good -> ~ delayInRange bad ->
    addSynapsesFrom sp sn (good ++ bad :: rest) cm
    = (Thrown NEMO_INVALID_INPUT, snd (addSynapsesFrom sp sn good cm)).
Proof.
  induction good as [| [[[tgt delay] w] plastic] good IH]; intros cm Hall Hbad.
  - destruct bad as [[[tgt delay] w] plastic].
    cbn [app addSynapsesFrom]. unfold andThen.
    rewrite addSynapse_throws by exact Hbad. reflexivity.
  - apply Forall_cons in Hall as [Hd Hall]. cbn [app addSynapsesFrom].
    unfold andThen.
    pose proof (addSynapse_returns sp sn delay (partitionIdx cm tgt)
                  (neuronIdx cm tgt) w plastic cm Hd) as Hstep.
    destruct (addSynapse _ _ _ _ _ _ _ cm) as [st cm1]. cbn in Hstep.
    subst st. now apply IH.
Qed.

Lemma Forall_split_first {A} (P : A -> Prop) (l : list A) :
  (forall x, Decision (P x)) ->
  Forall P l \/
  exists good bad rest, l = good ++ bad :: rest /\ Forall P good /\ ~ P bad.
Proof.
  intros Hdec. induction l as [| x l IH]; [left; constructor |].
  destruct (Hdec x) as [Hx | Hx].
  - destruct IH as [Hall | (good & bad & rest & -> & Hgood & Hbad)].
    + left. now constructor.
    + right. exists (x :: good), bad, rest. repeat split; auto.
  - right. exists [], x, l. repeat split; auto.
Qed.

Lemma addSynapses_from src syns (cm : CMatrix) :
  (0 < m_maxPartitionSize cm)%nat ->
  addSynapses src syns cm
  = addSynapsesFrom (partitionIdx cm src) (neuronIdx cm src) syns cm.
Proof.
  intros Hsize. unfold addSynapses. destruct syns as [| syn syns];
    [reflexivity |].
  assert (Hlt : (neuronIdx cm src < m_maxPartitionSize cm)%nat)
    by (apply Nat.mod_upper_bound; lia).
  destruct (Nat.leb_spec (m_maxPartitionSize cm) (neuronIdx cm src));
    [lia | reflexivity].
Qed.

(** X14.  With a partition size above 0 the source neuron index is always
    in range, so that the check of the source never fires: [addSynapses]
    returns if and only if every delay lies in [1, MAX_DELAY], and otherwise
    throws [InvalidInput]. *)
Theorem addSynapses_fails_iff (src : nat) (syns : list (nat * nat * F * bool))
    (cm : CMatrix) :
  (0 < m_maxPartitionSize cm)%nat ->
  (fst (addSynapses src syns cm) = Returned <-> Forall delayInRange syns) /\
  (fst (addSynapses src syns cm) <> Returned ->
   fst (addSynapses src syns cm) = Thrown NEMO_INVALID_INPUT).
Proof.
  intros Hsize. rewrite addSynapses_from by assumption.
  destruct (Forall_split_first delayInRange syns)
    as [Hall | (good & bad & rest & -> & Hgood & Hbad)].
  { intros syn. unfold delayInRange. apply _. }
  - pose proof (addSynapsesFrom_ok (partitionIdx cm src) (neuronIdx cm src)
                  syns cm Hall) as Hok.
    split; [split; auto | intros Hfail; contradiction].
  - rewrite addSynapsesFrom_stops by assumption. cbn [fst].
    split; [split; [discriminate |] | reflexivity].
    intros Hall. exfalso. apply Hbad.
    apply Forall_app in Hall as [_ Hall].
    now apply Forall_cons in Hall as [Hb _].
Qed.

(** X15.  [addSynapses] is not all-or-nothing: when a synapse with a delay
    out of range follows synapses with delays in range, the call throws
    [InvalidInput] and leaves the matrix with the earlier synapses
    added. *)
Theorem addSynapses_keeps_prefix (src : nat)
    (good : list (nat * nat * F * bool)) (bad : nat * nat * F * bool)
    (rest : list (nat * nat * F * bool)) (cm : CMatrix) :
  (0 < m_maxPartitionSize cm)%nat ->
  Forall delayInRange good -> ~ delayInRange bad ->
  fst (addSynapses src good cm) = Returned /\
  addSynapses src (good ++ bad :: rest) cm
    = (Thrown NEMO_INVALID_INPUT, snd (addSynapses src good cm)).
Proof.
  intros Hsize Hgood Hbad. rewrite !addSynapses_from by assumption.
  split; [now apply addSynapsesFrom_ok | now apply addSynapsesFrom_stops].
Qed.

(** ** The bundles of the forward matrix *)

(** The synapses that [addSynapses] appends to the bundle of target
    partition [tp] and delay [d], for a partition size [size]: those of the
    call with that target partition and delay, in the order of the call. *)
Definition addedTo (size tp d : nat) (syns : list (nat * nat * F * bool))
  : list (synapse_ht F) :=
  map (fun syn => mkSynapse (synTarget syn mod size) (synWeight syn)
                            (synPlastic syn))
      (List.filter (fun syn => (synTarget syn / size =? tp)%nat
                               && (synDelay syn =? d)%nat) syns).

Lemma addSynapse_bundleOf sp sn delay tp tn (w : F) plastic (cm : CMatrix)
    (sp' sn' tp' d' : nat) :
  (1 <= delay <= MAX_DELAY)%nat ->
  bundleOf (snd (addSynapse sp sn delay tp tn w plastic cm)) sp' sn' tp' d'
  = bundleOf cm sp' sn' tp' d'
    ++ (if decide ((sp', sn', tp', d') = (sp, sn, tp, delay))
        then [mkSynapse tn w plastic] else []).
Proof.
  intros Hd. unfold addSynapse.
  destruct (Nat.ltb_spec MAX_DELAY delay); [lia |].
  destruct (Nat.eqb_spec delay 0); [lia |]. cbn [orb snd].
  unfold bundleOf. cbn [mh_fcm].
  destruct (decide ((sp', sn') = (sp, sn))) as [[= -> ->] | Hsrc].
  - rewrite lookup_insert_eq. cbn [default from_option id].
    destruct (decide ((tp', d') = (tp, delay))) as [[= -> ->] | Hkey].
    + rewrite lookup_insert_eq. cbn [default from_option id].
      now rewrite decide_True.
    + rewrite lookup_insert_ne by congruence.
      rewrite decide_False by congruence. now rewrite app_nil_r.
  - rewrite lookup_insert_ne by congruence.
    rewrite decide_False by congruence. now rewrite app_nil_r.
Qed.

Lemma addSynapse_maxDelay sp sn delay tp tn (w : F) plastic (cm : CMatrix) :
  (1 <= delay <= MAX_DELAY)%nat ->
  m_maxDelay (snd (addSynapse sp sn delay tp tn w plastic cm))
  = Nat.max (m_maxDelay cm) delay.
Proof.
  intros Hd. unfold addSynapse.
  destruct (Nat.ltb_spec MAX_DELAY delay); [lia |].
  destruct (Nat.eqb_spec delay 0); [lia |]. reflexivity.
Qed.

Lemma addSynapsesFrom_bundleOf sp sn syns (sp' sn' tp d : nat) :
  forall cm : CMatrix,
    Forall delayInRange syns ->
    bundleOf (snd (addSynapsesFrom sp sn syns cm)) sp' sn' tp d
    = bundleOf cm sp' sn' tp d
      ++ (if decide ((sp', sn') = (sp, sn))
          then addedTo (m_maxPartitionSize cm) tp d syns else []) /\
    m_maxDelay (snd (addSynapsesFrom sp sn syns cm))
    = foldl (fun m syn => Nat.max m (synDelay syn)) (m_maxDelay cm) syns.
Proof.
  induction syns as [| [[[tgt delay] w] plastic] syns IH]; intros cm Hall.
  - cbn. split; [| reflexivity]. destruct (decide _); now rewrite app_nil_r.
  - apply Forall_cons in Hall as [Hd Hall]. unfold delayInRange in Hd.
    cbn [synDelay fst snd] in Hd.
    cbn [addSynapsesFrom]. unfold andThen.
    pose proof (addSynapse_returns sp sn delay (partitionIdx cm tgt)
                  (neuronIdx cm tgt) w plastic cm Hd) as Hret.
    pose proof (addSynapse_bundleOf sp sn delay (partitionIdx cm tgt)
                  (neuronIdx cm tgt) w plastic cm sp' sn' tp d Hd) as Hb.
    pose proof (addSynapse_maxDelay sp sn delay (partitionIdx cm tgt)
                  (neuronIdx cm tgt) w plastic cm Hd) as Hm.
    pose proof (addSynapse_partitionSize sp sn delay (partitionIdx cm tgt)
                  (neuronIdx cm tgt) w plastic cm) as Hs.
    destruct (addSynapse _ _ _ _ _ _ _ cm) as [st cm1].
    cbn [fst snd] in *. subst st.
    destruct (IH cm1 Hall) as [IHb IHm]. rewrite IHb, IHm, Hb, Hm, Hs.
    split; [| reflexivity]. rewrite <- app_assoc. f_equal.
    unfold addedTo. cbn [List.filter synTarget synDelay fst snd].
    unfold partitionIdx, neuronIdx.
    destruct (decide ((sp', sn') = (sp, sn))) as [[= -> ->] | Hsrc].
    + destruct (Nat.eqb_spec (tgt / m_maxPartitionSize cm) tp) as [<- | Htp];
        destruct (Nat.eqb_spec delay d) as [<- | Hdd]; cbn [andb map];
        try (rewrite decide_False by congruence; reflexivity).
      rewrite decide_True by reflexivity. reflexivity.
    + rewrite decide_False by congruence. reflexivity.
Qed.

(** X16.  When every delay is in range, [addSynapses] appends each synapse
    of the call to the bundle of its source, target partition and delay,
    with the neuron index of the target within its partition: a bundle of
    the source grows by the synapses of the call that belong to it, in the
    order of the call; every bundle of another source is left as it was;
    and the largest delay of the matrix is raised to the largest delay of
    the call. *)
Theorem addSynapses_bundles (src : nat) (syns : list (nat * nat * F * bool))
    (cm : CMatrix) (sp sn tp d : nat) :
  (0 < m_maxPartitionSize cm)%nat -> Forall delayInRange syns ->
  let cm' := snd (addSynapses src syns cm) in
  bundleOf cm' sp sn tp d
    = bundleOf cm sp sn tp d
      ++ (if decide ((sp, sn) = (partitionIdx cm src, neuronIdx cm src))
          then addedTo (m_maxPartitionSize cm) tp d syns else []) /\
  m_maxDelay cm'
    = foldl (fun m syn => Nat.max m (synDelay syn)) (m_maxDelay cm) syns.
Proof.
  intros Hsize Hall cm'. unfold cm'.
  rewrite addSynapses_from by assumption.
  now apply addSynapsesFrom_bundleOf.
Qed.

(** ** The reverse matrices *)

(** One call of [addSynapse]. *)
Record AddSynapseCall := mkCall {
  call_sp : nat; call_sn : nat; call_delay : nat;
  call_tp : nat; call_tn : nat; call_w : F; call_plastic : bool
}.

Definition addSynapseCall (c : AddSynapseCall) : method CMatrix :=
  addSynapse (call_sp c) (call_sn c) (call_delay c) (call_tp c) (call_tn c)
             (call_w c) (call_plastic c).

(** Any sequence of calls of [addSynapse], the caller going on after a call
    that throws. *)
Definition addSynapseAll (calls : list AddSynapseCall) (cm : CMatrix)
  : CMatrix :=
  foldl (fun cm c => snd (addSynapseCall c cm)) cm calls.

(** Every entry that a reverse matrix was given names a plastic synapse of
    the forward matrix: the bundle of its source, of the partition of the
    reverse matrix and of its delay holds, at the recorded index, a plastic
    synapse onto the recorded target neuron. *)
Definition reverse_consistent (cm : CMatrix) : Prop :=
  forall (tp : nat) (rs : RSMatrix),
    m_rsynapses cm !! tp = Some rs ->
    rs_partitionSize rs = m_maxPartitionSize cm /\
    Forall (fun entry =>
              let '(sp, sn, sidx, tn, delay) := entry in
              exists w, bundleOf cm sp sn tp delay !! sidx
                        = Some (mkSynapse tn w true))
           (rs_incoming rs).

Lemma addSynapse_reverse_consistent (c : AddSynapseCall) (cm : CMatrix) :
  reverse_consistent cm -> reverse_consistent (snd (addSynapseCall c cm)).
Proof.
  intros Hinv. destruct c as [sp sn delay tp tn w plastic].
  unfold addSynapseCall. cbn [call_sp call_sn call_delay call_tp call_tn
                              call_w call_plastic].
  destruct (decide (1 <= delay <= MAX_DELAY)%nat) as [Hd | Hd];
    [| now rewrite addSynapse_throws].
  intros tp' rs' Hrs'.
  pose proof (addSynapse_partitionSize sp sn delay tp tn w plastic cm) as Hs.
  rewrite Hs.
  assert (Hold : forall rs, m_rsynapses cm !! tp' = Some rs ->
            Forall (fun entry =>
              let '(sp0, sn0, sidx, tn0, delay0) := entry in
              exists w0,
                bundleOf (snd (addSynapse sp sn delay tp tn w plastic cm))
                         sp0 sn0 tp' delay0 !! sidx
                = Some (mkSynapse tn0 w0 true)) (rs_incoming rs)).
  { intros rs Hrs. destruct (Hinv tp' rs Hrs) as [_ Hall].
    eapply Forall_impl; [exact Hall |].
    intros [[[[sp0 sn0] sidx] tn0] delay0] [w0 Hw0]. exists w0.
    rewrite addSynapse_bundleOf by assumption.
    now apply lookup_app_l_Some. }
  unfold addSynapse in Hrs'.
  destruct (Nat.ltb_spec MAX_DELAY delay); [lia |].
  destruct (Nat.eqb_spec delay 0); [lia |].
  cbn [orb snd m_rsynapses] in Hrs'.
  destruct (m_setReverse cm && plastic) eqn:Hrev.
  - destruct (decide (tp = tp')) as [<- | Hne].
    + rewrite lookup_insert_eq in Hrs'. injection Hrs' as <-.
      apply andb_true_iff in Hrev as [_ ->].
      cbn [RSMatrix_addSynapse rs_partitionSize rs_incoming].
      destruct (m_rsynapses cm !! tp) as [rs |] eqn:Hrs.
      * cbn [default from_option id]. split; [apply (Hinv tp rs Hrs) |].
        apply Forall_app. split; [now apply Hold |].
        constructor; [| constructor]. exists w.
        rewrite addSynapse_bundleOf by assumption.
        rewrite decide_True by reflexivity.
        unfold bundleOf. apply list_lookup_middle. reflexivity.
      * cbn [default from_option id RSMatrix_new rs_partitionSize
             rs_incoming app]. split; [reflexivity |].
        constructor; [| constructor]. exists w.
        rewrite addSynapse_bundleOf by assumption.
        rewrite decide_True by reflexivity.
        unfold bundleOf. apply list_lookup_middle. reflexivity.
    + rewrite lookup_insert_ne in Hrs' by assumption.
      split; [apply (Hinv tp' rs' Hrs') | now apply Hold].
  - split; [apply (Hinv tp' rs' Hrs') | now apply Hold].
Qed.

Lemma addSynapseAll_reverse_consistent (calls : list AddSynapseCall) :
  forall cm : CMatrix,
    reverse_consistent cm -> reverse_consistent (addSynapseAll calls cm).
Proof.
  induction calls as [| c calls IH]; intros cm Hinv; [exact Hinv |].
  cbn. apply IH. now apply addSynapse_reverse_consistent.
Qed.

Lemma addSynapseAll_static (calls : list AddSynapseCall) :
  forall cm : CMatrix,
    m_setReverse (addSynapseAll calls cm) = m_setReverse cm /\
    ((m_maxDelay cm <= MAX_DELAY)%nat ->
     (m_maxDelay (addSynapseAll calls cm) <= MAX_DELAY)%nat) /\
    (m_setReverse cm = false ->
     m_rsynapses (addSynapseAll calls cm) = m_rsynapses cm).
Proof.
  induction calls as [| c calls IH]; intros cm; [auto |].
  change (addSynapseAll (c :: calls) cm)
    with (addSynapseAll calls (snd (addSynapseCall c cm))).
  destruct (IH (snd (addSynapseCall c cm))) as (Hrev & Hmax & Hrs).
  assert (Hstep : m_setReverse (snd (addSynapseCall c cm)) = m_setReverse cm /\
            ((m_maxDelay cm <= MAX_DELAY)%nat ->
             (m_maxDelay (snd (addSynapseCall c cm)) <= MAX_DELAY)%nat) /\
            (m_setReverse cm = false ->
             m_rsynapses (snd (addSynapseCall c cm)) = m_rsynapses cm)).
  { unfold addSynapseCall, addSynapse.
    destruct (Nat.ltb_spec MAX_DELAY (call_delay c));
      [cbn; auto |].
    destruct (Nat.eqb_spec (call_delay c) 0); [cbn; auto |].
    cbn [orb snd m_setReverse m_maxDelay m_rsynapses].
    split; [reflexivity |]. split; [lia |].
    intros ->. reflexivity. }
  destruct Hstep as (Hrev1 & Hmax1 & Hrs1).
  split; [congruence |]. split; [auto |].
  intros Hoff. rewrite Hrs by congruence. now apply Hrs1.
Qed.

(** X17.  Whatever calls of [addSynapse] are made on a new matrix, and
    whether they return or throw: every entry handed to a reverse matrix
    names a plastic synapse that sits at the recorded index of the forward
    bundle of its source, target partition and delay, with the recorded
    target neuron; the largest delay never exceeds [MAX_DELAY]; and a matrix
    built without reverse connectivity has no reverse matrix at all. *)
Theorem reverse_matrix_consistent (calls : list AddSynapseCall)
    (maxPartitionSize : nat) (setReverse : bool) :
  let cm := addSynapseAll calls (emptyCM maxPartitionSize setReverse) in
  reverse_consistent cm /\
  (m_maxDelay cm <= MAX_DELAY)%nat /\
  (setReverse = false -> m_rsynapses cm = ∅).
Proof.
  intros cm. unfold cm. split; [| split].
  - apply addSynapseAll_reverse_consistent.
    intros tp rs Hrs. cbn in Hrs. now rewrite lookup_empty in Hrs.
  - apply addSynapseAll_static. cbn. lia.
  - intros ->.
    now rewrite (proj2 (proj2 (addSynapseAll_static calls (emptyCM _ false)))).
Qed.

(** ** The fixed-point format *)

(** X18.  [fractionalBits()] throws on a matrix whose format was never
    set.  After [setFractionalBits], with [k = ceil(log2(m_maxAbsWeight))]
    an unsigned 32-bit value, it returns [26 - k] (reduced to 32 bits),
    which lies in [0, 26] when [k <= 26]; but for [k = 27] the format
    computed is [~0U], the mark of a format not yet set, and
    [fractionalBits()] throws although the format has been set. *)
Theorem fractionalBits_after_set (cm : CMatrix)
    (maxPartitionSize : nat) (setReverse : bool) :
  let k := fceil_log2 (m_maxAbsWeight cm) in
  fractionalBits (emptyCM maxPartitionSize setReverse) = inl RUNTIME_ERROR /\
  (0 <= k < two32 ->
   fractionalBits (snd (setFractionalBits cm))
   = (if k =? 27 then inl RUNTIME_ERROR else inr (wrapu32 (26 - k))) /\
   (k <= 26 -> fractionalBits (snd (setFractionalBits cm)) = inr (26 - k))).
Proof.
  intros k. split; [reflexivity |]. intros Hk.
  unfold fractionalBits, setFractionalBits. cbn [snd m_fractionalBits].
  fold k. unfold HEADROOM_BITS.
  replace (31 - k - 5) with (26 - k) by lia.
  assert (Hsentinel : wrapu32 (26 - k) = UINT32_MAX <-> k = 27).
  { unfold wrapu32, UINT32_MAX, two32 in *. split.
    - intros Hw.
      destruct (Z_le_dec k 26) as [Hle | Hgt].
      + rewrite Z.mod_small in Hw by lia. lia.
      + assert (Hw' : (26 - k) mod 2 ^ 32 = 26 - k + 2 ^ 32).
        { symmetry. apply (Z.mod_unique _ _ (-1)); lia. }
        lia.
    - intros ->. reflexivity. }
  split.
  - destruct (Z.eqb_spec k 27) as [Hk27 | Hk27].
    + apply Hsentinel in Hk27. rewrite Hk27, Z.eqb_refl. reflexivity.
    + destruct (Z.eqb_spec (wrapu32 (26 - k)) UINT32_MAX) as [Hw | Hw];
        [now apply Hsentinel in Hw | reflexivity].
  - intros Hle.
    assert (Hw : wrapu32 (26 - k) = 26 - k)
      by (unfold wrapu32, two32; apply Z.mod_small; lia).
    rewrite Hw.
    destruct (Z.eqb_spec (26 - k) UINT32_MAX) as [Hbad | _];
      [unfold UINT32_MAX, two32 in Hbad; lia | reflexivity].
Qed.

End Matrix.

(** ** Device pointers of the reverse matrices *)

Section Pointers.
Context {S : Type}.

(** const uint64_t MAX_ADDRESS = 4294967296LL *)
Definition MAX_ADDRESS : Z := 4294967296.

(** [devicePointer]: a device pointer, taken as a 64-bit number, packed into
    32 bits. *)
Definition devicePointer (ptr64 : Z) : std_error + Z :=
  if MAX_ADDRESS <=? ptr64 then inl RANGE_ERROR else inr ptr64.

(** The entries of a [std::map] in the order of its iterators: by
    increasing key. *)
Definition keyLe (a b : nat * S) : Prop := (fst a <= fst b)%nat.

#[export] Instance keyLe_dec : RelDecision keyLe :=
  fun a b => decide (fst a <= fst b)%nat.

Definition entries (m : gmap nat S) : list (nat * S) :=
  merge_sort keyLe (map_to_list m).

(** [mapDevicePointer] over the map of reverse matrices:
<<
  std::vector<DEVICE_UINT_PTR_T> ret(vec.size(), 0);
  for(i = vec.begin(); i != vec.end(); ++i) {
      T ptr = fun(i->second);
      ret.at(i->first) = devicePointer(ptr);
  }
>>
    [None] stands for a call that throws: [std::out_of_range] from [at], or
    [std::range_error] from [devicePointer]. *)
Definition mapDevicePointer (vec : gmap nat S) (fun_ : S -> Z)
  : option (list Z) :=
  foldl (fun acc e =>
           match acc with
           | None => None
           | Some ret =>
               match devicePointer (fun_ (snd e)) with
               | inl _ => None
               | inr ptr =>
                   if (fst e <? length ret)%nat
                   then Some (<[fst e := ptr]> ret) else None
               end
           end)
        (Some (replicate (size vec) 0)) (entries vec).

Lemma entries_elem (m : gmap nat S) (p : nat) (x : S) :
  (p, x) ∈ entries m <-> m !! p = Some x.
Proof.
  unfold entries. rewrite merge_sort_Permutation.
  apply elem_of_map_to_list.
Qed.

Lemma entries_NoDup (m : gmap nat S) : NoDup (map fst (entries m)).
Proof.
  unfold entries.
  assert (Hperm : map fst (merge_sort keyLe (map_to_list m))
                  ≡ₚ map fst (map_to_list m))
    by (apply fmap_Permutation, merge_sort_Permutation).
  rewrite Hperm. apply NoDup_fst_map_to_list.
Qed.

Lemma assignPointers_spec (fun_ : S -> Z) (l : list (nat * S)) :
  forall ret0 : list Z,
    let run :=
      foldl (fun acc e =>
               match acc with
               | None => None
               | Some ret =>
                   match devicePointer (fun_ (snd e)) with
                   | inl _ => None
                   | inr ptr =>
                       if (fst e <? length ret)%nat
                       then Some (<[fst e := ptr]> ret) else None
                   end
               end) (Some ret0) l in
    (is_Some run <->
     forall p x, (p, x) ∈ l ->
       (p < length ret0)%nat /\ fun_ x < MAX_ADDRESS) /\
    (forall ret, run = Some ret ->
       length ret = length ret0 /\
       (NoDup (map fst l) ->
        forall p x, (p, x) ∈ l -> ret !! p = Some (fun_ x)) /\
       (forall p, p ∉ map fst l -> ret !! p = ret0 !! p)).
Proof.
  induction l as [| [p0 x0] l IH]; intros ret0 run.
  - unfold run. cbn. split.
    + split; [intros _ p x Hin; now apply elem_of_nil in Hin | eauto].
    + intros ret [= <-]. split; [reflexivity |]. split; [| reflexivity].
      intros _ p x Hin. now apply elem_of_nil in Hin.
  - unfold run. cbn [foldl fst snd]. unfold devicePointer.
    assert (Hnone : forall l0 : list (nat * S),
      foldl (fun acc e =>
               match acc with
               | None => None
               | Some ret =>
                   match (if MAX_ADDRESS <=? fun_ (snd e)
                          then inl RANGE_ERROR else inr (fun_ (snd e))) with
                   | inl _ => None
                   | inr ptr =>
                       if (fst e <? length ret)%nat
                       then Some (<[fst e := ptr]> ret) else None
                   end
               end) None l0 = None).
    { induction l0 as [| e l0 IHl0]; [reflexivity | exact IHl0]. }
    destruct (Z.leb_spec MAX_ADDRESS (fun_ x0)) as [Hbig | Hsmall].
    { rewrite Hnone. split.
      - split; [intros [? ?]; discriminate |].
        intros Hall. destruct (Hall p0 x0) as [_ Hlt];
          [apply elem_of_cons; now left | lia].
      - discriminate. }
    destruct (Nat.ltb_spec p0 (length ret0)) as [Hlt | Hge].
    2:{ rewrite Hnone. split.
        - split; [intros [? ?]; discriminate |].
          intros Hall. destruct (Hall p0 x0) as [Hlt _];
            [apply elem_of_cons; now left | lia].
        - discriminate. }
    specialize (IH (<[p0 := fun_ x0]> ret0)). cbv zeta in IH.
    unfold devicePointer in IH. rewrite length_insert in IH.
    destruct IH as [IHsome IHret]. split.
    + rewrite IHsome. split.
      * intros Hall p x Hin. apply elem_of_cons in Hin as [[= -> ->] | Hin];
          [split; assumption | now apply Hall].
      * intros Hall p x Hin. apply Hall. apply elem_of_cons. now right.
    + intros ret Hret. destruct (IHret ret Hret) as (Hlen & Hin & Hout).
      split; [exact Hlen |]. split.
      * intros Hnodup p x Hpx. cbn [map fst] in Hnodup.
        apply NoDup_cons in Hnodup as [Hfresh Hnodup].
        apply elem_of_cons in Hpx as [[= -> ->] | Hpx].
        -- rewrite Hout by assumption. now apply list_lookup_insert_eq.
        -- now apply Hin.
      * intros p Hp. cbn [map fst] in Hp.
        apply not_elem_of_cons in Hp as [Hne Hp].
        rewrite Hout by assumption. now apply list_lookup_insert_ne.
Qed.

(** X19.  [mapDevicePointer] returns only if every key of the map is below
    the number of its entries, so that the keys are exactly
    [0 .. size - 1], and every pointer is below [2^32]; it then holds, at
    the index of every key, the pointer of its entry.  A map of reverse
    matrices whose partitions are not [0 .. size - 1] makes it throw. *)
Theorem mapDevicePointer_returns_iff (vec : gmap nat S) (fun_ : S -> Z) :
  (is_Some (mapDevicePointer vec fun_) <->
   forall p x, vec !! p = Some x ->
     (p < size vec)%nat /\ fun_ x < MAX_ADDRESS) /\
  (forall ret, mapDevicePointer vec fun_ = Some ret ->
     length ret = size vec /\
     (forall p x, vec !! p = Some x -> ret !! p = Some (fun_ x)) /\
     (forall p, (p < size vec)%nat -> is_Some (vec !! p))).
Proof.
  pose proof (assignPointers_spec fun_ (entries vec)
                (replicate (size vec) 0)) as Hspec.
  cbv zeta in Hspec. fold (mapDevicePointer vec fun_) in Hspec.
  rewrite length_replicate in Hspec. destruct Hspec as [Hsome Hret].
  assert (Hiff : is_Some (mapDevicePointer vec fun_) <->
            forall p x, vec !! p = Some x ->
              (p < size vec)%nat /\ fun_ x < MAX_ADDRESS).
  { rewrite Hsome. split.
    - intros Hall p x Hpx. apply Hall. now apply entries_elem.
    - intros Hall p x Hpx. apply Hall. now apply entries_elem. }
  split; [exact Hiff |].
  intros ret Hrun. destruct (Hret ret Hrun) as (Hlen & Hin & _).
  split; [exact Hlen |]. split.
  - intros p x Hpx. apply Hin; [apply entries_NoDup | now apply entries_elem].
  - assert (Hkeys : forall p, p ∈ dom vec -> (p < size vec)%nat).
    { intros p Hp. apply elem_of_dom in Hp as [x Hx].
      apply (proj1 Hiff (ex_intro _ ret Hrun) p x Hx). }
    assert (Hsub : dom vec ⊆ (set_seq 0 (size vec) : gset nat)).
    { intros p Hp. apply elem_of_set_seq. specialize (Hkeys p Hp). lia. }
    assert (Heq : dom vec ≡ (set_seq 0 (size vec) : gset nat)).
    { apply set_subseteq_size_equiv; [exact Hsub |].
      rewrite size_set_seq, size_dom. reflexivity. }
    intros p Hp. apply elem_of_dom. apply Heq. apply elem_of_set_seq. lia.
Qed.

End Pointers.

End CudaMatrix.

(** ** The matrix on concrete inputs *)

Module CudaMatrixDemo.
Import Cuda CudaMatrix.

Definition emptyQ : ConnectivityMatrix Q := emptyCM 1024 false.

(** A synapse with delay 1 followed by one with delay 0. *)
Definition goodSynapse : nat * nat * Q * bool := (1%nat, 1%nat, 1%Q, false).
Definition badSynapse : nat * nat * Q * bool := (1%nat, 0%nat, 1%Q, false).

Lemma index_round_trip_witness :
  (0 < m_maxPartitionSize emptyQ)%nat /\
  globalIndex emptyQ (partitionIdx emptyQ 2050) (neuronIdx emptyQ 2050)
    = 2050%nat /\
  partitionIdx emptyQ (globalIndex emptyQ 2 2) = 2%nat.
Proof.
  assert (Hsize : (0 < m_maxPartitionSize emptyQ)%nat) by (cbn; lia).
  split; [exact Hsize |].
  destruct (index_round_trip emptyQ 2050 2 2 Hsize) as (_ & Hsplit & Hjoin).
  split.
  - apply Hsplit. vm_compute. reflexivity.
  - apply Hjoin; [cbn; lia | vm_compute; reflexivity].
Defined.

Lemma addSynapses_fails_iff_witness :
  (0 < m_maxPartitionSize emptyQ)%nat /\
  fst (addSynapses 0 [goodSynapse; badSynapse] emptyQ)
    = Thrown NEMO_INVALID_INPUT.
Proof.
  assert (Hsize : (0 < m_maxPartitionSize emptyQ)%nat) by (cbn; lia).
  split; [exact Hsize |].
  destruct (addSynapses_fails_iff 0 [goodSynapse; badSynapse] emptyQ Hsize)
    as [Hiff Hthrown].
  apply Hthrown. intros Hret. apply Hiff in Hret.
  apply Forall_cons in Hret as [_ Hret].
  apply Forall_cons in Hret as [Hbad _].
  unfold delayInRange in Hbad. cbn in Hbad. lia.
Defined.

Lemma addSynapses_keeps_prefix_witness :
  (0 < m_maxPartitionSize emptyQ)%nat /\ Forall delayInRange [goodSynapse] /\
  ~ delayInRange badSynapse /\
  addSynapses 0 [goodSynapse; badSynapse] emptyQ
    = (Thrown NEMO_INVALID_INPUT, snd (addSynapses 0 [goodSynapse] emptyQ)) /\
  bundleOf (snd (addSynapses 0 [goodSynapse] emptyQ)) 0 0 0 1
    = [mkSynapse 1%nat 1%Q false].
Proof.
  assert (Hsize : (0 < m_maxPartitionSize emptyQ)%nat) by (cbn; lia).
  assert (Hgood : Forall delayInRange [goodSynapse])
    by (repeat constructor; unfold MAX_DELAY; cbn; lia).
  assert (Hbad : ~ delayInRange badSynapse)
    by (unfold delayInRange; cbn; lia).
  split; [exact Hsize |]. split; [exact Hgood |]. split; [exact Hbad |].
  destruct (addSynapses_keeps_prefix 0 [goodSynapse] badSynapse [] emptyQ
              Hsize Hgood Hbad) as [_ Hrun].
  split; [exact Hrun | vm_compute; reflexivity].
Defined.

Lemma addSynapses_bundles_witness :
  (0 < m_maxPartitionSize emptyQ)%nat /\
  Forall delayInRange [goodSynapse; goodSynapse] /\
  bundleOf (snd (addSynapses 0 [goodSynapse; goodSynapse] emptyQ)) 0 0 0 1
    = [mkSynapse 1%nat 1%Q false; mkSynapse 1%nat 1%Q false] /\
  m_maxDelay (snd (addSynapses 0 [goodSynapse; goodSynapse] emptyQ)) = 1%nat.
Proof.
  assert (Hsize : (0 < m_maxPartitionSize emptyQ)%nat) by (cbn; lia).
  assert (Hgood : Forall delayInRange [goodSynapse; goodSynapse])
    by (repeat constructor; unfold MAX_DELAY; cbn; lia).
  split; [exact Hsize |]. split; [exact Hgood |].
  destruct (addSynapses_bundles 0 [goodSynapse; goodSynapse] emptyQ 0 0 0 1
              Hsize Hgood) as [Hbundle Hmax].
  split; [rewrite Hbundle | rewrite Hmax]; vm_compute; reflexivity.
Defined.

(** A matrix whose largest weight is [2^27]. *)
Definition heavy : ConnectivityMatrix Q :=
  snd (addSynapse 0 0 1 0 1 (inject_Z (2 ^ 27)) false emptyQ).

Lemma fractionalBits_after_set_witness :
  0 <= fceil_log2 (m_maxAbsWeight heavy) < two32 /\
  fst (setFractionalBits heavy) = UINT32_MAX /\
  fractionalBits (snd (setFractionalBits heavy)) = inl RUNTIME_ERROR.
Proof.
  assert (Hk : 0 <= fceil_log2 (m_maxAbsWeight heavy) < two32)
    by (vm_compute; split; [discriminate | reflexivity]).
  split; [exact Hk |]. split; [vm_compute; reflexivity |].
  destruct (fractionalBits_after_set heavy 1024 false) as [_ Hset].
  destruct (Hset Hk) as [Hrun _]. rewrite Hrun.
  vm_compute. reflexivity.
Defined.

(** A single reverse matrix, for partition 1. *)
Lemma mapDevicePointer_returns_iff_witness :
  mapDevicePointer ({[1%nat := 0]} : gmap nat Z) (fun x => x) = None.
Proof.
  destruct (mapDevicePointer_returns_iff ({[1%nat := 0]} : gmap nat Z)
              (fun x => x)) as [Hiff _].
  destruct (mapDevicePointer _ _) as [ret |] eqn:Hrun; [| reflexivity].
  exfalso.
  destruct (proj1 Hiff (ex_intro _ ret eq_refl) 1%nat 0) as [Hlt _].
  - apply lookup_singleton_eq.
  - rewrite map_size_singleton in Hlt. lia.
Defined.

End CudaMatrixDemo.

(* ===================================================================== *)
(** * CUDA backend: the firing stimulus as a bit vector *)
(* ===================================================================== *)

Module CudaStimulus.

(** What [setFiringStimulus] reads of the simulation: the partition size
    and count, and the pitch (words per partition) and size (words) of the
    firing-stimulus vector. *)
Record Layout := mkLayout {
  m_maxPartitionSize : nat;
  m_partitionCount : nat;
  wordPitch : nat;        (* m_firingStimulus->wordPitch() *)
  size : nat              (* m_firingStimulus->size() *)
}.

(** What the call hands to the kernel. *)
Inductive stimulus :=
| NoStimulus                       (* NULL: nothing is copied *)
| Copied (hostArray : list Z)      (* the host array the device copy is made from *)
| OutOfBounds.                     (* a write past the end of hostArray *)

Section Stimulus.
Variable L : Layout.

(** size_t nn = i % m_maxPartitionSize; size_t pn = i / m_maxPartitionSize;
    size_t word = pn * pitch + nn / 32; size_t bit = nn % 32; *)
Definition wordOf (i : nat) : nat :=
  (i / m_maxPartitionSize L * wordPitch L + i mod m_maxPartitionSize L / 32)%nat.

Definition bitOf (i : nat) : nat := (i mod m_maxPartitionSize L mod 32)%nat.

(** hostArray[word] |= 1 << bit: the shifted [int] is converted to
    [uint32_t], which for bit 31 gives 2^31. *)
Definition setBit (hostArray : list Z) (i : nat) : list Z :=
  <[wordOf i := Z.lor (hostArray !!! wordOf i)
                      (wrapu32 (Z.shiftl 1 (Z.of_nat (bitOf i))))]> hostArray.

(** The loop over the stimulus.  The index into [hostArray] is not checked
    by the code (its assertions are compiled out of release builds); the
    model stops with [None] at a write past the end. *)
Fixpoint fill (nidx : list nat) (hostArray : list Z) : option (list Z) :=
  match nidx with
  | [] => Some hostArray
  | i :: rest =>
      if (wordOf i <? length hostArray)%nat
      then fill rest (setBit hostArray i)
      else None
  end.

Definition setFiringStimulus (nidx : list nat) : stimulus :=
  match nidx with
  | [] => NoStimulus
  | _ =>
      match fill nidx (replicate (size L) 0) with
      | Some hostArray => Copied hostArray
      | None => OutOfBounds
      end
  end.

Lemma bit_word (b : nat) :
  (b < 32)%nat -> wrapu32 (Z.shiftl 1 (Z.of_nat b)) = 2 ^ Z.of_nat b.
Proof.
  intros Hb. rewrite Z.shiftl_1_l. unfold wrapu32, two32.
  apply Z.mod_small. split; [apply Z.pow_nonneg; lia |].
  apply Z.pow_lt_mono_r; lia.
Qed.

Lemma bitOf_lt (i : nat) : (bitOf i < 32)%nat.
Proof. unfold bitOf. apply Nat.mod_upper_bound. lia. Qed.

Lemma setBit_length hostArray i : length (setBit hostArray i) = length hostArray.
Proof. unfold setBit. apply length_insert. Qed.

Lemma setBit_testbit hostArray (i w b : nat) :
  (wordOf i < length hostArray)%nat ->
  Z.testbit (setBit hostArray i !!! w) (Z.of_nat b)
  = Z.testbit (hostArray !!! w) (Z.of_nat b)
    || ((wordOf i =? w)%nat && (bitOf i =? b)%nat).
Proof.
  intros Hlt. unfold setBit.
  destruct (Nat.eqb_spec (wordOf i) w) as [<- | Hne].
  - rewrite list_lookup_total_insert_eq by assumption.
    rewrite Z.lor_spec, bit_word by apply bitOf_lt.
    rewrite Z.pow2_bits_eqb by lia. cbn [andb]. f_equal.
    destruct (Nat.eqb_spec (bitOf i) b) as [-> | Hb].
    + apply Z.eqb_refl.
    + apply Z.eqb_neq. lia.
  - rewrite list_lookup_total_insert_ne by assumption.
    now rewrite orb_false_r.
Qed.

Lemma setBit_range hostArray i :
  Forall (fun w => 0 <= w < two32) hostArray ->
  Forall (fun w => 0 <= w < two32) (setBit hostArray i).
Proof.
  intros Hall. unfold setBit.
  destruct (decide (wordOf i < length hostArray)%nat) as [Hlt | Hge].
  - apply Forall_insert; [assumption |].
    assert (Hw : 0 <= hostArray !!! wordOf i < two32).
    { destruct (lookup_lt_is_Some_2 hostArray (wordOf i) Hlt) as [x Hx].
      rewrite (list_lookup_total_correct _ _ _ Hx).
      eapply Forall_lookup_1 in Hall; [exact Hall | exact Hx]. }
    rewrite bit_word by apply bitOf_lt.
    pose proof (bitOf_lt i) as Hb.
    assert (Hp : 0 <= 2 ^ Z.of_nat (bitOf i) < two32).
    { unfold two32. split; [apply Z.pow_nonneg; lia |].
      apply Z.pow_lt_mono_r; lia. }
    split.
    + apply Z.lor_nonneg. lia.
    + unfold two32 in *.
      destruct (Z.eq_dec (Z.lor (hostArray !!! wordOf i)
                                (2 ^ Z.of_nat (bitOf i))) 0) as [-> | Hnz];
        [lia |].
      apply Z.log2_lt_pow2; [| rewrite Z.log2_lor by lia].
      * assert (0 <= Z.lor (hostArray !!! wordOf i) (2 ^ Z.of_nat (bitOf i)))
          by (apply Z.lor_nonneg; lia).
        lia.
      * apply Z.max_lub_lt.
        -- destruct (Z.eq_dec (hostArray !!! wordOf i) 0) as [-> | Hw0];
             [cbn; lia |].
           apply Z.log2_lt_pow2; lia.
        -- rewrite Z.log2_pow2 by lia. lia.
  - rewrite list_insert_ge by lia. assumption.
Qed.

Lemma fill_spec (nidx : list nat) :
  forall hostArray,
    Forall (fun i => (wordOf i < length hostArray)%nat) nidx ->
    Forall (fun w => 0 <= w < two32) hostArray ->
    exists filled,
      fill nidx hostArray = Some filled /\
      length filled = length hostArray /\
      Forall (fun w => 0 <= w < two32) filled /\
      forall w b : nat,
        Z.testbit (filled !!! w) (Z.of_nat b)
        = Z.testbit (hostArray !!! w) (Z.of_nat b)
          || existsb (fun i => (wordOf i =? w)%nat && (bitOf i =? b)%nat) nidx.
Proof.
  induction nidx as [| i nidx IH]; intros hostArray Hin Hrange.
  - exists hostArray. cbn. repeat split; try assumption.
    intros w b. now rewrite orb_false_r.
  - apply Forall_cons in Hin as [Hi Hin]. cbn [fill].
    destruct (Nat.ltb_spec (wordOf i) (length hostArray)); [| lia].
    destruct (IH (setBit hostArray i)) as (filled & Hrun & Hlen & Hr & Hbits).
    + now rewrite setBit_length.
    + now apply setBit_range.
    + exists filled. split; [exact Hrun |].
      split; [now rewrite Hlen, setBit_length |]. split; [exact Hr |].
      intros w b. rewrite Hbits, setBit_testbit by assumption.
      cbn [existsb]. now rewrite orb_assoc.
Qed.

(** The word and the bit of a neuron determine the neuron. *)
Lemma position_inj (i p n : nat) :
  (0 < m_maxPartitionSize L)%nat ->
  (m_maxPartitionSize L <= 32 * wordPitch L)%nat ->
  (n < m_maxPartitionSize L)%nat ->
  wordOf i = (p * wordPitch L + n / 32)%nat /\ bitOf i = (n mod 32)%nat
  <-> i = (p * m_maxPartitionSize L + n)%nat.
Proof.
  intros Hsize Hpitch Hn. unfold wordOf, bitOf.
  set (mps := m_maxPartitionSize L) in *. set (pitch := wordPitch L) in *.
  split.
  - intros [Hword Hbit].
    assert (Hnn : (i mod mps < mps)%nat) by (apply Nat.mod_upper_bound; lia).
    assert (Hq1 : (i mod mps / 32 < pitch)%nat)
      by (apply Nat.Div0.div_lt_upper_bound; lia).
    assert (Hq2 : (n / 32 < pitch)%nat)
      by (apply Nat.Div0.div_lt_upper_bound; lia).
    assert (Hp : (i / mps = p)%nat) by nia.
    assert (Hq : (i mod mps / 32 = n / 32)%nat) by nia.
    assert (Hnn' : (i mod mps = n)%nat).
    { rewrite (Nat.div_mod_eq (i mod mps) 32), (Nat.div_mod_eq n 32).
      now rewrite Hq, Hbit. }
    rewrite (Nat.div_mod_eq i mps). nia.
  - intros ->.
    assert (Hmod : ((p * mps + n) mod mps = n)%nat).
    { rewrite Nat.add_comm, Nat.Div0.mod_add. apply Nat.mod_small. lia. }
    assert (Hdiv : ((p * mps + n) / mps = p)%nat).
    { rewrite Nat.div_add_l by lia. rewrite Nat.div_small by lia. lia. }
    now rewrite Hmod, Hdiv.
Qed.

(** X20.  For a non-empty stimulus whose neurons lie in existing
    partitions, on a stimulus vector with room for every neuron,
    [setFiringStimulus] builds, and copies from, a host array of 32-bit
    words in which the bit of neuron [n] of partition [p], bit [n mod 32]
    of word [p * pitch + n / 32], is set if and only if the stimulus names
    the neuron with global index [p * m_maxPartitionSize + n].  No write
    leaves the host array. *)
Theorem setFiringStimulus_encodes (nidx : list nat) :
  (0 < m_maxPartitionSize L)%nat ->
  (m_maxPartitionSize L <= 32 * wordPitch L)%nat ->
  (m_partitionCount L * wordPitch L <= size L)%nat ->
  Forall (fun i => (i / m_maxPartitionSize L < m_partitionCount L)%nat) nidx ->
  nidx <> [] ->
  exists hostArray,
    setFiringStimulus nidx = Copied hostArray /\
    length hostArray = size L /\
    Forall (fun w => 0 <= w < two32) hostArray /\
    forall p n : nat,
      (p < m_partitionCount L)%nat ->
      (n < m_maxPartitionSize L)%nat ->
      Z.testbit (hostArray !!! (p * wordPitch L + n / 32)%nat)
                (Z.of_nat (n mod 32))
      = bool_decide ((p * m_maxPartitionSize L + n)%nat ∈ nidx).
Proof.
  intros Hsize Hpitch Hroom Hparts Hne.
  destruct (fill_spec nidx (replicate (size L) 0))
    as (filled & Hrun & Hlen & Hrange & Hbits).
  - rewrite length_replicate. eapply Forall_impl; [exact Hparts |].
    cbn. intros i Hi. unfold wordOf.
    assert (Hq : (i mod m_maxPartitionSize L / 32 < wordPitch L)%nat).
    { apply Nat.Div0.div_lt_upper_bound.
      pose proof (Nat.mod_upper_bound i (m_maxPartitionSize L)). lia. }
    nia.
  - apply Forall_replicate. unfold two32. lia.
  - exists filled. rewrite length_replicate in Hlen.
    split; [| split; [exact Hlen | split; [exact Hrange |]]].
    + unfold setFiringStimulus. destruct nidx; [congruence |].
      now rewrite Hrun.
    + intros p n Hp Hn. rewrite Hbits.
      assert (Hzero : Z.testbit
                (replicate (size L) 0 !!! (p * wordPitch L + n / 32)%nat)
                (Z.of_nat (n mod 32)) = false).
      { assert (Hq : (n / 32 < wordPitch L)%nat)
          by (apply Nat.Div0.div_lt_upper_bound; lia).
        assert (Hlt : (p * wordPitch L + n / 32 < size L)%nat) by nia.
        rewrite list_lookup_total_alt, lookup_replicate_2 by assumption.
        apply Z.bits_0. }
      rewrite Hzero. cbn [orb].
      destruct (bool_decide_reflect
                  ((p * m_maxPartitionSize L + n)%nat ∈ nidx)) as [Hin | Hout].
      * apply existsb_exists. exists (p * m_maxPartitionSize L + n)%nat.
        split; [now apply list_elem_of_In |].
        destruct (proj2 (position_inj (p * m_maxPartitionSize L + n) p n
                           Hsize Hpitch Hn) eq_refl) as [-> ->].
        now rewrite !Nat.eqb_refl.
      * apply not_true_iff_false. intros Hex.
        apply existsb_exists in Hex as (i & Hi & Hpos).
        apply andb_true_iff in Hpos as [Hw Hb].
        apply Nat.eqb_eq in Hw, Hb.
        apply Hout. apply list_elem_of_In.
        now rewrite <- (proj1 (position_inj i p n Hsize Hpitch Hn)
                              (conj Hw Hb)).
Qed.

End Stimulus.

(** A stimulus vector of two partitions of 1024 neurons, 32 words each,
    and the stimulus of neurons 33 and 1024. *)
Definition demoLayout : Layout := mkLayout 1024 2 32 64.

Lemma setFiringStimulus_encodes_witness :
  (0 < m_maxPartitionSize demoLayout)%nat /\
  (m_maxPartitionSize demoLayout <= 32 * wordPitch demoLayout)%nat /\
  (m_partitionCount demoLayout * wordPitch demoLayout <= size demoLayout)%nat /\
  Forall (fun i => (i / m_maxPartitionSize demoLayout
                    < m_partitionCount demoLayout)%nat) [33%nat; 1024%nat] /\
  exists hostArray,
    setFiringStimulus demoLayout [33%nat; 1024%nat] = Copied hostArray /\
    hostArray !!! 1%nat = 2 /\
    Z.testbit (hostArray !!! 32%nat) 0 = true.
Proof.
  assert (Hsize : (0 < m_maxPartitionSize demoLayout)%nat) by (cbn; lia).
  assert (Hpitch : (m_maxPartitionSize demoLayout
                    <= 32 * wordPitch demoLayout)%nat) by (cbn; lia).
  assert (Hroom : (m_partitionCount demoLayout * wordPitch demoLayout
                   <= size demoLayout)%nat) by (cbn; lia).
  assert (Hparts : Forall (fun i => (i / m_maxPartitionSize demoLayout
                                     < m_partitionCount demoLayout)%nat)
                          [33%nat; 1024%nat]).
  { repeat constructor; cbn; lia. }
  split; [exact Hsize |]. split; [exact Hpitch |]. split; [exact Hroom |].
  split; [exact Hparts |].
  destruct (setFiringStimulus_encodes demoLayout [33%nat; 1024%nat]
              Hsize Hpitch Hroom Hparts) as (hostArray & Hrun & _ & _ & Hbits);
    [discriminate |].
  exists hostArray. split; [exact Hrun |]. split.
  - assert (Hcopy : Copied hostArray
                    = setFiringStimulus demoLayout [33%nat; 1024%nat])
      by (now rewrite Hrun).
    vm_compute in Hcopy. injection Hcopy as ->. reflexivity.
  - exact (Hbits 1%nat 0%nat ltac:(cbn; lia) ltac:(cbn; lia)).
Defined.

End CudaStimulus.

(* ===================================================================== *)
(** * CUDA backend: the dispatch table of the forward matrix *)
(* ===================================================================== *)

Module CudaDispatch.
Import Cuda.

(** fcm_key_t: source partition, target partition, delay *)
Notation fcm_key_t := (nat * nat * nat)%type (only parsing).

(** The order of [boost::tuple] keys in a [std::map]: lexicographic. *)
Definition fcm_key_leb (a b : fcm_key_t) : bool :=
  let '(s1, t1, d1) := a in
  let '(s2, t2, d2) := b in
  (s1 <? s2)%nat
  || ((s1 =? s2)%nat && ((t1 <? t2)%nat || ((t1 =? t2)%nat && (d1 <=? d2)%nat))).

Section Dispatch.
(** [SynapseGroup] and the packed references [fcm_ref_t] are declared
    outside the sources; the table is built from what the groups report. *)
Context {SG R : Type}.
Variable d_address : SG -> Z.
Variable wpitch : SG -> Z.
Variable fcm_packReference : Z -> Z -> R.

Definition fcmLe (a b : fcm_key_t * SG) : Prop :=
  Is_true (fcm_key_leb (fst a) (fst b)).

#[export] Instance fcmLe_dec : RelDecision fcmLe :=
  fun a b => decide (Is_true (fcm_key_leb (fst a) (fst b))).

(** The groups in the order of the iterators of [m_fsynapses]. *)
Definition fcm_entries (m_fsynapses : gmap fcm_key_t SG)
  : list (fcm_key_t * SG) :=
  merge_sort fcmLe (map_to_list m_fsynapses).

(** size_t addr = (source * m_partitionCount + target) * delayCount
                  + (delay-1);
    [delay - 1] is computed on [unsigned]; the products are on [size_t],
    which they do not overflow for a table that fits into memory. *)
Definition address (m_partitionCount : nat) (fidx : fcm_key_t) : Z :=
  let '(source, target, delay) := fidx in
  (Z.of_nat source * Z.of_nat m_partitionCount + Z.of_nat target)
  * Z.of_nat MAX_DELAY
  + wrapu32 (Z.of_nat delay - 1).

(** The loop over the groups; [table.at(addr)] throws [std::out_of_range]
    for an address outside the table. *)
Fixpoint fillTable (m_partitionCount : nat) (groups : list (fcm_key_t * SG))
    (table : list R) : std_error + list R :=
  match groups with
  | [] => inr table
  | (fidx, sg) :: rest =>
      let addr := Z.to_nat (address m_partitionCount fidx) in
      if (addr <? length table)%nat
      then fillTable m_partitionCount rest
             (<[addr := fcm_packReference (d_address sg) (wpitch sg)]> table)
      else inl OUT_OF_RANGE
  end.

(** [ConnectivityMatrixImpl::f_setDispatchTable]: the table handed to the
    device. *)
Definition f_setDispatchTable (m_partitionCount : nat)
    (m_fsynapses : gmap fcm_key_t SG) : std_error + list R :=
  fillTable m_partitionCount (fcm_entries m_fsynapses)
    (replicate (m_partitionCount * m_partitionCount * MAX_DELAY)
               (fcm_packReference 0 0)).

Definition inTable (m_partitionCount : nat) (fidx : fcm_key_t) : Prop :=
  let '(source, target, delay) := fidx in
  (source < m_partitionCount)%nat /\ (target < m_partitionCount)%nat /\
  (1 <= delay <= MAX_DELAY)%nat.

Lemma address_eq (pc : nat) (s t d : nat) :
  (1 <= d <= MAX_DELAY)%nat ->
  address pc (s, t, d)
  = (Z.of_nat s * Z.of_nat pc + Z.of_nat t) * 64 + (Z.of_nat d - 1).
Proof.
  intros Hd. unfold address, MAX_DELAY in *. unfold wrapu32, two32.
  rewrite Z.mod_small by lia. reflexivity.
Qed.

Lemma address_bound (pc : nat) (fidx : fcm_key_t) :
  inTable pc fidx ->
  0 <= address pc fidx < Z.of_nat (pc * pc * MAX_DELAY).
Proof.
  destruct fidx as [[s t] d]. intros (Hs & Ht & Hd).
  rewrite address_eq by assumption. unfold MAX_DELAY in *.
  rewrite !Nat2Z.inj_mul. change (Z.of_nat 64) with 64. nia.
Qed.

Lemma address_inj (pc : nat) (k1 k2 : fcm_key_t) :
  inTable pc k1 -> inTable pc k2 ->
  address pc k1 = address pc k2 -> k1 = k2.
Proof.
  destruct k1 as [[s1 t1] d1], k2 as [[s2 t2] d2].
  intros (Hs1 & Ht1 & Hd1) (Hs2 & Ht2 & Hd2).
  rewrite !address_eq by assumption. unfold MAX_DELAY in *. intros Heq.
  assert (Hrow : Z.of_nat s1 * Z.of_nat pc + Z.of_nat t1
                 = Z.of_nat s2 * Z.of_nat pc + Z.of_nat t2) by lia.
  assert (Hd : d1 = d2) by lia.
  assert (Hs : s1 = s2) by nia.
  assert (Ht : t1 = t2) by nia.
  congruence.
Qed.

Lemma fillTable_spec (pc : nat) (groups : list (fcm_key_t * SG)) :
  forall table,
    NoDup (map fst groups) ->
    Forall (fun e => inTable pc (fst e)) groups ->
    length table = (pc * pc * MAX_DELAY)%nat ->
    exists filled,
      fillTable pc groups table = inr filled /\
      length filled = length table /\
      forall fidx, inTable pc fidx ->
        filled !! Z.to_nat (address pc fidx)
        = match list_find (fun e => fst e = fidx) groups with
          | Some (_, (_, sg)) =>
              Some (fcm_packReference (d_address sg) (wpitch sg))
          | None => table !! Z.to_nat (address pc fidx)
          end.
Proof.
  induction groups as [| [k sg] groups IH]; intros table Hnd Hall Hlen.
  - exists table. cbn. auto.
  - cbn [map fst] in Hnd. apply NoDup_cons in Hnd as [Hfresh Hnd].
    apply Forall_cons in Hall as [Hk Hall]. cbn [fst] in Hk.
    pose proof (address_bound pc k Hk) as Hb.
    cbn [fillTable].
    destruct (Nat.ltb_spec (Z.to_nat (address pc k)) (length table)) as [_ | Hge];
      [| lia].
    destruct (IH (<[Z.to_nat (address pc k) :=
                    fcm_packReference (d_address sg) (wpitch sg)]> table)
                 Hnd Hall) as (filled & Hrun & Hlenf & Hget).
    { now rewrite length_insert. }
    exists filled. split; [exact Hrun |].
    split; [now rewrite Hlenf, length_insert |].
    intros fidx Hin. rewrite (Hget fidx Hin). cbn [list_find].
    destruct (decide (fst (k, sg) = fidx)) as [Heq | Hne]; cbn [fst] in *.
    + subst fidx.
      assert (Hnone : list_find (fun e : fcm_key_t * SG => fst e = k) groups
                      = None).
      { apply list_find_None. apply Forall_forall. intros e He Hek.
        apply Hfresh. rewrite <- Hek. now apply list_elem_of_fmap_2. }
      rewrite Hnone. cbn. apply list_lookup_insert_eq. lia.
    + destruct (list_find (fun e : fcm_key_t * SG => fst e = fidx) groups)
        as [[i [k' sg']] |]; cbn; [reflexivity |].
      apply list_lookup_insert_ne. intros Haddr.
      apply Hne. apply (address_inj pc); try assumption.
      pose proof (address_bound pc fidx Hin). lia.
Qed.

Lemma fcm_entries_elem (m : gmap fcm_key_t SG) (k : fcm_key_t) (sg : SG) :
  (k, sg) ∈ fcm_entries m <-> m !! k = Some sg.
Proof.
  unfold fcm_entries. rewrite merge_sort_Permutation.
  apply elem_of_map_to_list.
Qed.

Lemma fcm_entries_NoDup (m : gmap fcm_key_t SG) :
  NoDup (map fst (fcm_entries m)).
Proof.
  unfold fcm_entries.
  assert (Hperm : map fst (merge_sort fcmLe (map_to_list m))
                  ≡ₚ map fst (map_to_list m))
    by (apply fmap_Permutation, merge_sort_Permutation).
  rewrite Hperm. apply NoDup_fst_map_to_list.
Qed.

(** X21.  When every group of the forward matrix has its source and target
    partition below the partition count and a delay between 1 and
    [MAX_DELAY], [f_setDispatchTable] throws nothing and builds a table of
    [m_partitionCount * m_partitionCount * MAX_DELAY] references in which
    the slot [(source * m_partitionCount + target) * MAX_DELAY + delay - 1]
    holds the reference of the group with that key, and the null reference
    if there is no such group. *)
Theorem dispatch_table_round_trip (m_partitionCount : nat)
    (m_fsynapses : gmap fcm_key_t SG) :
  (forall fidx sg, m_fsynapses !! fidx = Some sg ->
                   inTable m_partitionCount fidx) ->
  exists table,
    f_setDispatchTable m_partitionCount m_fsynapses = inr table /\
    length table = (m_partitionCount * m_partitionCount * MAX_DELAY)%nat /\
    forall source target delay : nat,
      (source < m_partitionCount)%nat -> (target < m_partitionCount)%nat ->
      (1 <= delay <= MAX_DELAY)%nat ->
      table !! Z.to_nat (address m_partitionCount (source, target, delay))
      = Some match m_fsynapses !! (source, target, delay) with
             | Some sg => fcm_packReference (d_address sg) (wpitch sg)
             | None => fcm_packReference 0 0
             end.
Proof.
  intros Hin. unfold f_setDispatchTable.
  destruct (fillTable_spec m_partitionCount (fcm_entries m_fsynapses)
              (replicate (m_partitionCount * m_partitionCount * MAX_DELAY)
                         (fcm_packReference 0 0)))
    as (filled & Hrun & Hlen & Hget).
  - apply fcm_entries_NoDup.
  - apply Forall_forall. intros [k sg] He. cbn [fst].
    apply (Hin k sg). now apply fcm_entries_elem.
  - apply length_replicate.
  - exists filled. rewrite length_replicate in Hlen.
    split; [exact Hrun |]. split; [exact Hlen |].
    intros s t d Hs Ht Hd.
    assert (Hkey : inTable m_partitionCount (s, t, d)) by (cbn; auto).
    rewrite (Hget (s, t, d) Hkey).
    destruct (list_find (fun e : fcm_key_t * SG => fst e = (s, t, d))
                        (fcm_entries m_fsynapses))
      as [[i [k sg]] |] eqn:Hfind.
    + apply list_find_Some in Hfind as (Hi & Hk & _). cbn [fst] in Hk.
      subst k. apply list_elem_of_lookup_2 in Hi.
      apply fcm_entries_elem in Hi. now rewrite Hi.
    + destruct (m_fsynapses !! (s, t, d)) as [sg |] eqn:Hm.
      * exfalso. apply fcm_entries_elem in Hm.
        eapply list_find_None in Hfind.
        rewrite Forall_forall in Hfind. now apply (Hfind _ Hm).
      * rewrite lookup_replicate_2; [reflexivity |].
        pose proof (address_bound m_partitionCount (s, t, d) Hkey). lia.
Qed.

End Dispatch.

(** One group, from partition 0 to partition 1 with delay 2, in a matrix of
    two partitions: its reference is in slot (0*2 + 1)*64 + 1 = 65. *)
Lemma dispatch_table_round_trip_witness :
  (forall fidx sg, ({[ (0, 1, 2)%nat := 7 ]} : gmap fcm_key_t Z) !! fidx = Some sg ->
                   inTable 2 fidx) /\
  exists table,
    f_setDispatchTable (fun sg => sg) (fun _ => 32) (fun a p => (a, p)) 2
                       {[ (0, 1, 2)%nat := 7 ]} = inr table /\
    table !! 65%nat = Some (7, 32) /\
    table !! 64%nat = Some (0, 0).
Proof.
  assert (Hin : forall fidx sg,
             ({[ (0, 1, 2)%nat := 7 ]} : gmap fcm_key_t Z) !! fidx = Some sg ->
             inTable 2 fidx).
  { intros fidx sg Hsg. apply lookup_singleton_Some in Hsg as [<- _].
    cbn. unfold MAX_DELAY. lia. }
  split; [exact Hin |].
  destruct (dispatch_table_round_trip (fun sg => sg) (fun _ => 32)
              (fun a p => (a, p)) 2 {[ (0, 1, 2)%nat := 7 ]} Hin)
    as (table & Hrun & _ & Hget).
  exists table. split; [exact Hrun |]. split.
  - exact (Hget 0%nat 1%nat 2%nat ltac:(lia) ltac:(lia)
                ltac:(unfold MAX_DELAY; lia)).
  - exact (Hget 0%nat 1%nat 1%nat ltac:(lia) ltac:(lia)
                ltac:(unfold MAX_DELAY; lia)).
Defined.

End CudaDispatch.

(* ===================================================================== *)
(** * CUDA backend: the sizes of the partitions *)
(* ===================================================================== *)

Module CudaNeuronParameters.
Import CudaMatrix.

(** The loop of the constructor of [NeuronParameters] over the device
    indices (partition, neuron) that the mapper hands out:
<<
  maxPartitionNeuron[dev.partition] =
      std::max(maxPartitionNeuron[dev.partition], dev.neuron);
>>
    where [operator[]] gives 0 for a partition not seen before. *)
Definition recordNeuron (maxPartitionNeuron : gmap nat Z) (dev : nat * Z)
  : gmap nat Z :=
  <[fst dev := Z.max (default 0 (maxPartitionNeuron !! fst dev)) (snd dev)]>
    maxPartitionNeuron.

Definition maxPartitionNeuron (devs : list (nat * Z)) : gmap nat Z :=
  foldl recordNeuron ∅ devs.

(** partitionSizes.at(i->first) = i->second + 1, on [unsigned] *)
Fixpoint assignSizes (l : list (nat * Z)) (partitionSizes : list Z)
  : std_error + list Z :=
  match l with
  | [] => inr partitionSizes
  | (p, n) :: rest =>
      if (p <? length partitionSizes)%nat
      then assignSizes rest (<[p := wrapu32 (n + 1)]> partitionSizes)
      else inl OUT_OF_RANGE
  end.

(** [NeuronParameters::configurePartitionSizes]: the vector handed to the
    device, [None] when the function returns without configuring
    anything.  [rbegin()] is the last entry of the map, which exists unless
    the map is empty. *)
Definition configurePartitionSizes (maxPartitionNeuron : gmap nat Z)
  : std_error + option (list Z) :=
  match last (entries maxPartitionNeuron) with
  | None => inr None
  | Some (maxPidx, _) =>
      match assignSizes (entries maxPartitionNeuron)
                        (replicate (maxPidx + 1) 0) with
      | inr partitionSizes => inr (Some partitionSizes)
      | inl e => inl e
      end
  end.

#[local] Instance keyLe_total {S} : Total (@keyLe S).
Proof. intros a b. unfold keyLe. lia. Qed.

#[local] Instance keyLe_trans {S} : Transitive (@keyLe S).
Proof. intros a b c. unfold keyLe. lia. Qed.

Lemma sorted_last_max {S} (l : list (nat * S)) (q : nat) (x : S) :
  StronglySorted keyLe l -> last l = Some (q, x) ->
  forall e, e ∈ l -> (fst e <= q)%nat.
Proof.
  induction 1 as [| a l Hl IH Hall]; intros Hlast e He.
  - inversion He.
  - destruct l as [| b l'].
    + cbn in Hlast. injection Hlast as ->.
      apply list_elem_of_singleton in He. subst e. cbn. lia.
    + change (last (a :: b :: l')) with (last (b :: l')) in Hlast.
      apply elem_of_cons in He as [-> | He]; [| now apply IH].
      assert (Hq : (q, x) ∈ b :: l').
      { apply last_Some in Hlast as [l'' ->].
        apply elem_of_app. right. apply list_elem_of_singleton. reflexivity. }
      eapply Forall_forall in Hall; [| exact Hq]. exact Hall.
Qed.

Lemma entries_last_max {S} (m : gmap nat S) (q : nat) (x : S) :
  last (entries m) = Some (q, x) ->
  m !! q = Some x /\ forall p y, m !! p = Some y -> (p <= q)%nat.
Proof.
  intros Hlast. split.
  - apply entries_elem. apply last_Some in Hlast as [l ->].
    apply elem_of_app. right. apply list_elem_of_singleton. reflexivity.
  - intros p y Hp. apply entries_elem in Hp.
    apply (sorted_last_max (entries m) q x) in Hp; [exact Hp | | exact Hlast].
    apply StronglySorted_merge_sort; apply _.
Qed.

Lemma assignSizes_spec (l : list (nat * Z)) :
  forall sizes,
    NoDup (map fst l) ->
    Forall (fun e => (fst e < length sizes)%nat) l ->
    exists filled,
      assignSizes l sizes = inr filled /\
      length filled = length sizes /\
      forall p, filled !! p
                = match list_find (fun e => fst e = p) l with
                  | Some (_, (_, n)) =>
                      if decide (p < length sizes)%nat
                      then Some (wrapu32 (n + 1)) else None
                  | None => sizes !! p
                  end.
Proof.
  induction l as [| [q n] l IH]; intros sizes Hnd Hall.
  - exists sizes. cbn. auto.
  - cbn [map fst] in Hnd. apply NoDup_cons in Hnd as [Hfresh Hnd].
    apply Forall_cons in Hall as [Hq Hall]. cbn [fst] in Hq.
    cbn [assignSizes].
    destruct (Nat.ltb_spec q (length sizes)) as [_ | Hge]; [| lia].
    destruct (IH (<[q := wrapu32 (n + 1)]> sizes) Hnd) as
      (filled & Hrun & Hlen & Hget).
    { now rewrite length_insert. }
    exists filled. rewrite length_insert in Hlen, Hget.
    split; [exact Hrun |]. split; [exact Hlen |].
    intros p. rewrite Hget. cbn [list_find].
    destruct (decide (fst (q, n) = p)) as [Heq | Hne]; cbn [fst] in *.
    + subst p.
      assert (Hnone : list_find (fun e : nat * Z => fst e = q) l = None).
      { apply list_find_None. apply Forall_forall. intros e He Heq.
        apply Hfresh. rewrite <- Heq. now apply list_elem_of_fmap_2. }
      rewrite Hnone. cbn. rewrite decide_True by assumption.
      now apply list_lookup_insert_eq.
    + destruct (list_find (fun e : nat * Z => fst e = p) l)
        as [[i [k x]] |]; cbn; [reflexivity |].
      now apply list_lookup_insert_ne.
Qed.

(** What the constructor's loop leaves in the map: for every partition
    with a neuron, the largest neuron index seen in it. *)
Lemma maxPartitionNeuron_spec (devs : list (nat * Z)) :
  Forall (fun dev => 0 <= snd dev) devs ->
  forall p,
    match maxPartitionNeuron devs !! p with
    | None => forall n, (p, n) ∉ devs
    | Some x => (p, x) ∈ devs /\ forall n, (p, n) ∈ devs -> n <= x
    end.
Proof.
  unfold maxPartitionNeuron.
  induction devs as [| [q n] devs IH] using rev_ind; intros Hpos p.
  - cbn. rewrite lookup_empty. intros n Hn. inversion Hn.
  - apply Forall_app in Hpos as [Hpos Hn].
    apply Forall_cons in Hn as [Hn _]. cbn [snd] in Hn.
    rewrite foldl_app. cbn [foldl]. unfold recordNeuron at 1. cbn [fst snd].
    specialize (IH Hpos).
    destruct (decide (q = p)) as [-> | Hne].
    + rewrite lookup_insert_eq. specialize (IH p).
      destruct (foldl recordNeuron ∅ devs !! p) as [x |]; cbn [default from_option id].
      * destruct IH as [Hin Hmax]. split.
        -- destruct (Z.max_spec x n) as [[_ ->] | [_ ->]].
           ++ apply elem_of_app. right. apply list_elem_of_singleton.
              reflexivity.
           ++ apply elem_of_app. now left.
        -- intros k Hk. apply elem_of_app in Hk as [Hk | Hk].
           ++ specialize (Hmax k Hk). lia.
           ++ apply list_elem_of_singleton in Hk. injection Hk as ->. lia.
      * split.
        -- rewrite Z.max_r by lia.
           apply elem_of_app. right. apply list_elem_of_singleton.
           reflexivity.
        -- intros k Hk. apply elem_of_app in Hk as [Hk | Hk].
           ++ now apply IH in Hk.
           ++ apply list_elem_of_singleton in Hk. injection Hk as ->. lia.
    + rewrite lookup_insert_ne by assumption. specialize (IH p).
      destruct (foldl recordNeuron ∅ devs !! p) as [x |].
      * destruct IH as [Hin Hmax]. split.
        -- apply elem_of_app. now left.
        -- intros k Hk. apply elem_of_app in Hk as [Hk | Hk];
             [now apply Hmax |].
           apply list_elem_of_singleton in Hk. congruence.
      * intros k Hk. apply elem_of_app in Hk as [Hk | Hk];
          [now apply IH in Hk |].
        apply list_elem_of_singleton in Hk. congruence.
Qed.

(** X22.  For the device indices of a non-empty network, with neuron
    indices below 2^32 - 1, [configurePartitionSizes] throws nothing and
    configures one size for every partition up to the largest one in use:
    each neuron's index is below the size of its partition, the size of a
    partition with neurons is one more than the index of one of its
    neurons, the size of a partition without neurons is 0, and the last
    partition of the vector has a neuron.  For an empty network nothing is
    configured. *)
Theorem partition_sizes (devs : list (nat * Z)) :
  Forall (fun dev => 0 <= snd dev < UINT32_MAX) devs ->
  match devs with
  | [] => configurePartitionSizes (maxPartitionNeuron devs) = inr None
  | _ =>
      exists partitionSizes,
        configurePartitionSizes (maxPartitionNeuron devs)
        = inr (Some partitionSizes) /\
        (forall p n, (p, n) ∈ devs ->
           exists s, partitionSizes !! p = Some s /\ n < s) /\
        (forall p s, partitionSizes !! p = Some s ->
           (s = 0 /\ forall n, (p, n) ∉ devs) \/ (p, s - 1) ∈ devs) /\
        (exists n, (length partitionSizes - 1, n)%nat ∈ devs)
  end.
Proof.
  intros Hrange.
  assert (Hpos : Forall (fun dev : nat * Z => 0 <= snd dev) devs).
  { eapply Forall_impl; [exact Hrange |]. cbn. lia. }
  pose proof (maxPartitionNeuron_spec devs Hpos) as Hmap.
  destruct devs as [| dev0 devs0] eqn:Hdevs; [reflexivity |].
  rewrite <- Hdevs in *. unfold configurePartitionSizes.
  destruct (last (entries (maxPartitionNeuron devs))) as [[maxPidx x] |]
    eqn:Hlast.
  - destruct (entries_last_max _ _ _ Hlast) as [Hq Hmax].
    destruct (assignSizes_spec (entries (maxPartitionNeuron devs))
                (replicate (maxPidx + 1) 0)) as (sizes & Hrun & Hlen & Hget).
    + apply entries_NoDup.
    + apply Forall_forall. intros [p y] He. cbn [fst].
      rewrite length_replicate. apply entries_elem in He.
      specialize (Hmax p y He). lia.
    + rewrite Hrun. exists sizes. split; [reflexivity |].
      rewrite length_replicate in Hlen, Hget.
      assert (Hfind : forall p,
                 sizes !! p
                 = match maxPartitionNeuron devs !! p with
                   | Some n => Some (n + 1)
                   | None => if decide (p < maxPidx + 1)%nat
                             then Some 0 else None
                   end).
      { intros p. rewrite Hget.
        destruct (list_find (fun e : nat * Z => fst e = p)
                            (entries (maxPartitionNeuron devs)))
          as [[i [k n]] |] eqn:Hf.
        - apply list_find_Some in Hf as (Hi & Hk & _). cbn [fst] in Hk.
          subst k. apply list_elem_of_lookup_2, entries_elem in Hi.
          rewrite Hi. rewrite decide_True by (specialize (Hmax p n Hi); lia).
          specialize (Hmap p). rewrite Hi in Hmap. destruct Hmap as [Hin _].
          eapply Forall_forall in Hrange; [| exact Hin]. cbn [snd] in Hrange.
          unfold wrapu32. rewrite Z.mod_small; [reflexivity |].
          unfold UINT32_MAX in Hrange. lia.
        - destruct (maxPartitionNeuron devs !! p) as [n |] eqn:Hp.
          + exfalso. apply entries_elem in Hp.
            eapply list_find_None in Hf. rewrite Forall_forall in Hf.
            now apply (Hf _ Hp).
          + destruct (decide (p < maxPidx + 1)%nat) as [Hlt | Hge].
            * now apply lookup_replicate_2.
            * apply lookup_ge_None_2. rewrite length_replicate. lia. }
      split; [| split].
      * intros p n Hin. rewrite Hfind. specialize (Hmap p).
        destruct (maxPartitionNeuron devs !! p) as [y |].
        -- destruct Hmap as [_ Hle]. exists (y + 1). split; [reflexivity |].
           specialize (Hle n Hin). lia.
        -- now apply Hmap in Hin.
      * intros p s Hs. rewrite Hfind in Hs. specialize (Hmap p).
        destruct (maxPartitionNeuron devs !! p) as [y |].
        -- injection Hs as <-. right. destruct Hmap as [Hin _].
           now replace (y + 1 - 1) with y by lia.
        -- left. destruct (decide (p < maxPidx + 1)%nat); [| discriminate].
           injection Hs as <-. split; [reflexivity | exact Hmap].
      * exists x. rewrite Hlen.
        replace (maxPidx + 1 - 1)%nat with maxPidx by lia.
        specialize (Hmap maxPidx). rewrite Hq in Hmap. apply Hmap.
  - exfalso. apply last_None in Hlast.
    destruct dev0 as [p n]. specialize (Hmap p).
    destruct (maxPartitionNeuron devs !! p) as [y |] eqn:Hp.
    + apply entries_elem in Hp. rewrite Hlast in Hp. inversion Hp.
    + apply (Hmap n). rewrite Hdevs. apply elem_of_cons. now left.
Qed.

(** Neurons 0 and 2 of partition 0 and neuron 1 of partition 2. *)
Lemma partition_sizes_witness :
  Forall (fun dev => 0 <= snd dev < UINT32_MAX)
         [(0%nat, 2); (2%nat, 1); (0%nat, 0)] /\
  configurePartitionSizes
    (maxPartitionNeuron [(0%nat, 2); (2%nat, 1); (0%nat, 0)])
  = inr (Some [3; 0; 2]).
Proof.
  assert (Hrange : Forall (fun dev : nat * Z => 0 <= snd dev < UINT32_MAX)
                          [(0%nat, 2); (2%nat, 1); (0%nat, 0)]).
  { repeat constructor; cbn; unfold UINT32_MAX, two32; lia. }
  split; [exact Hrange |].
  destruct (partition_sizes _ Hrange) as (sizes & Hrun & _).
  rewrite Hrun. vm_compute in Hrun. now rewrite <- Hrun.
Defined.

End CudaNeuronParameters.

(* ===================================================================== *)
(** * CUDA backend: the addresses of synapses in warps *)
(* ===================================================================== *)

Module CudaWarpAddressTable.

(** row_key: source partition, source neuron, target partition, delay;
    key: source partition, source neuron, delay *)
Notation row_key := (nat * nat * nat * nat)%type (only parsing).
Notation key := (nat * nat * nat)%type (only parsing).

Record WarpAddressTable := mkTable {
  m_rowSynapses : gmap row_key Z;                  (* unsigned *)
  m_warps : gmap key (gmap nat (list nat));
  m_warpsPerNeuronDelay : gmap key Z               (* unsigned *)
}.

Definition emptyTable : WarpAddressTable := mkTable ∅ ∅ ∅.

(** One call of [addSynapse]: the source as (partition, neuron), the target
    partition, the delay and the next free warp. *)
Record AddressCall := mkAddressCall {
  a_source : nat * nat;
  a_target : nat;
  a_delay : nat;
  a_warp : nat
}.

Definition rowKey (c : AddressCall) : row_key :=
  (fst (a_source c), snd (a_source c), a_target c, a_delay c).

Section Table.
(** [WARP_SIZE] of [kernel.cu_h], which is not among the sources. *)
Variable WARP_SIZE : Z.

Definition rowSynapsesOf (t : WarpAddressTable) (rk : row_key) : Z :=
  default 0 (m_rowSynapses t !! rk).

Definition warpsOf (t : WarpAddressTable) (k : key) (targetPartition : nat)
  : list nat :=
  default [] (default ∅ (m_warps t !! k) !! targetPartition).

(** [WarpAddressTable::addSynapse].  The address is (row, column); [None]
    stands for reading the last element of an empty vector of warps.  The
    [operator[]] of the maps inserts the entries it does not find. *)
Definition addSynapse (source : nat * nat)
    (targetPartition delay1 nextFreeWarp : nat) (t : WarpAddressTable)
  : option (nat * Z) * WarpAddressTable :=
  let rk := (fst source, snd source, targetPartition, delay1) in
  let rowSynapses := rowSynapsesOf t rk in
  let column := rowSynapses mod WARP_SIZE in
  let rows := <[rk := wrapu32 (rowSynapses + 1)]> (m_rowSynapses t) in
  let k := (fst source, snd source, delay1) in
  let targets := default ∅ (m_warps t !! k) in
  let warps := default [] (targets !! targetPartition) in
  if column =? 0
  then (Some (nextFreeWarp, column),
        mkTable rows
          (<[k := <[targetPartition := warps ++ [nextFreeWarp]]> targets]>
             (m_warps t))
          (<[k := wrapu32 (default 0 (m_warpsPerNeuronDelay t !! k) + 1)]>
             (m_warpsPerNeuronDelay t)))
  else (match last warps with
        | Some row => Some (row, column)
        | None => None
        end,
        mkTable rows
          (<[k := <[targetPartition := warps]> targets]> (m_warps t))
          (m_warpsPerNeuronDelay t)).

(** [WarpAddressTable::warpsPerNeuronDelay]: 0 for a key that is not
    found. *)
Definition warpsPerNeuronDelay (t : WarpAddressTable) (p n delay1 : nat) : Z :=
  match m_warpsPerNeuronDelay t !! (p, n, delay1) with
  | Some count => count
  | None => 0
  end.

Definition addSynapseCall (t : WarpAddressTable) (c : AddressCall)
  : WarpAddressTable :=
  snd (addSynapse (a_source c) (a_target c) (a_delay c) (a_warp c) t).

(** The table after a sequence of calls on the empty table. *)
Definition addAll (calls : list AddressCall) : WarpAddressTable :=
  foldl addSynapseCall emptyTable calls.

(** The calls made for one row, in their order. *)
Definition rowCalls (rk : row_key) (calls : list AddressCall)
  : list AddressCall :=
  filter (fun c => rowKey c = rk) calls.

(** The number of warps listed for a neuron and delay, over all target
    partitions. *)
Definition warpsListed (t : WarpAddressTable) (k : key) : nat :=
  map_fold (fun _ (warps : list nat) acc => (length warps + acc)%nat) 0%nat
           (default ∅ (m_warps t !! k)).

(** The warps opened by the calls of one row: the next free warp of every
    call whose position in the row is a multiple of the warp size. *)
Fixpoint openersFrom (j : Z) (row : list AddressCall) : list nat :=
  match row with
  | [] => []
  | c :: rest =>
      (if j mod WARP_SIZE =? 0 then [a_warp c] else [])
      ++ openersFrom (j + 1) rest
  end.

Lemma openersFrom_app (row : list AddressCall) (c : AddressCall) :
  forall j,
    openersFrom j (row ++ [c])
    = openersFrom j row
      ++ (if (j + Z.of_nat (length row)) mod WARP_SIZE =? 0
          then [a_warp c] else []).
Proof.
  induction row as [| a row IH]; intros j.
  - cbn. rewrite Z.add_0_r. now rewrite !app_nil_r.
  - cbn [app openersFrom length]. rewrite IH, <- !app_assoc.
    now replace (j + 1 + Z.of_nat (length row))
      with (j + Z.of_nat (S (length row))) by lia.
Qed.

Hypothesis WARP_SIZE_pos : 0 < WARP_SIZE.

Lemma ceil_step (n : Z) :
  0 <= n ->
  (n + 1 + WARP_SIZE - 1) / WARP_SIZE
  = (n + WARP_SIZE - 1) / WARP_SIZE + (if n mod WARP_SIZE =? 0 then 1 else 0).
Proof.
  intros Hn.
  pose proof (Z.div_mod n WARP_SIZE ltac:(lia)) as Hdm.
  pose proof (Z.mod_pos_bound n WARP_SIZE WARP_SIZE_pos) as Hr.
  set (q := n / WARP_SIZE) in *. set (r := n mod WARP_SIZE) in *.
  destruct (Z.eqb_spec r 0) as [Hz | Hnz].
  - replace (n + 1 + WARP_SIZE - 1) with ((q + 1) * WARP_SIZE + 0) by lia.
    replace (n + WARP_SIZE - 1) with (q * WARP_SIZE + (WARP_SIZE - 1)) by lia.
    rewrite !Z.div_add_l by lia.
    rewrite Z.div_0_l by lia. rewrite Z.div_small by lia. lia.
  - replace (n + 1 + WARP_SIZE - 1) with ((q + 1) * WARP_SIZE + r) by lia.
    replace (n + WARP_SIZE - 1) with ((q + 1) * WARP_SIZE + (r - 1)) by lia.
    rewrite !Z.div_add_l by lia.
    rewrite !Z.div_small by lia. lia.
Qed.

Lemma openers_length (row : list AddressCall) :
  Z.of_nat (length (openersFrom 0 row))
  = (Z.of_nat (length row) + WARP_SIZE - 1) / WARP_SIZE.
Proof.
  induction row as [| c row IH] using rev_ind.
  - cbn. symmetry. apply Z.div_small. lia.
  - rewrite openersFrom_app, !length_app, !Nat2Z.inj_add, IH.
    cbn [length]. change (Z.of_nat 1) with 1.
    rewrite Z.add_0_l.
    replace (Z.of_nat (length row) + 1 + WARP_SIZE - 1)
      with (Z.of_nat (length row) + 1 + WARP_SIZE - 1) by lia.
    rewrite ceil_step by lia.
    now destruct (Z.of_nat (length row) mod WARP_SIZE =? 0).
Qed.

Lemma openers_le (row : list AddressCall) :
  forall j, (length (openersFrom j row) <= length row)%nat.
Proof.
  induction row as [| c row IH]; intros j; cbn [openersFrom length].
  - lia.
  - rewrite length_app. specialize (IH (j + 1)).
    destruct (j mod WARP_SIZE =? 0); cbn [length]; lia.
Qed.

(** The last warp opened for a row is the one of the call at the largest
    multiple of the warp size below the length of the row. *)
Lemma openers_last (row : list AddressCall) :
  row <> [] ->
  exists opener,
    row !! Z.to_nat (WARP_SIZE * ((Z.of_nat (length row) - 1) / WARP_SIZE))
    = Some opener /\
    last (openersFrom 0 row) = Some (a_warp opener).
Proof.
  induction row as [| c row IH] using rev_ind; [congruence |]. intros _.
  rewrite openersFrom_app, length_app, Nat2Z.inj_add, Z.add_0_l.
  cbn [length]. change (Z.of_nat 1) with 1.
  replace (Z.of_nat (length row) + 1 - 1) with (Z.of_nat (length row)) by lia.
  pose proof (Z.div_mod (Z.of_nat (length row)) WARP_SIZE ltac:(lia)) as Hdm.
  pose proof (Z.mod_pos_bound (Z.of_nat (length row)) WARP_SIZE WARP_SIZE_pos)
    as Hr.
  destruct (Z.eqb_spec (Z.of_nat (length row) mod WARP_SIZE) 0) as [Hz | Hnz].
  - exists c. split.
    + replace (Z.to_nat (WARP_SIZE * (Z.of_nat (length row) / WARP_SIZE)))
        with (length row) by lia.
      apply list_lookup_middle. reflexivity.
    + apply last_snoc.
  - rewrite app_nil_r.
    destruct row as [| a row'] eqn:Hrow; [cbn in Hnz; rewrite Z.mod_0_l in Hnz; lia |].
    rewrite <- Hrow in *. destruct IH as (opener & Hget & Hlast);
      [rewrite Hrow; congruence |].
    exists opener. split; [| exact Hlast].
    assert (Hsame : (Z.of_nat (length row) - 1) / WARP_SIZE
                    = Z.of_nat (length row) / WARP_SIZE).
    { set (q := Z.of_nat (length row) / WARP_SIZE) in *.
      set (r := Z.of_nat (length row) mod WARP_SIZE) in *.
      replace (Z.of_nat (length row) - 1) with (q * WARP_SIZE + (r - 1)) by lia.
      rewrite Z.div_add_l by lia. rewrite Z.div_small by lia. lia. }
    rewrite Hsame in Hget. now apply lookup_app_l_Some.
Qed.

Lemma rowCalls_app (rk : row_key) (calls : list AddressCall) (c : AddressCall) :
  rowCalls rk (calls ++ [c])
  = rowCalls rk calls ++ (if decide (rowKey c = rk) then [c] else []).
Proof.
  unfold rowCalls. now rewrite filter_app.
Qed.

Lemma rowCalls_none (rk : row_key) (calls : list AddressCall) :
  (forall c, c ∈ calls -> rowKey c <> rk) -> rowCalls rk calls = [].
Proof.
  unfold rowCalls. induction calls as [| c calls IH]; intros Hnone.
  - reflexivity.
  - rewrite filter_cons.
    rewrite decide_False by (apply Hnone, elem_of_cons; now left).
    apply IH. intros c' Hc'. apply Hnone, elem_of_cons. now right.
Qed.

Lemma rowCalls_le (rk : row_key) (calls : list AddressCall) :
  (length (rowCalls rk calls) <= length calls)%nat.
Proof. apply length_filter. Qed.

Lemma warps_fold_insert (targets : gmap nat (list nat)) (tp : nat)
    (warps : list nat) :
  map_fold (fun _ (ws : list nat) acc => (length ws + acc)%nat) 0%nat
           (<[tp := warps]> targets)
  = (length warps
     + map_fold (fun _ (ws : list nat) acc => (length ws + acc)%nat) 0%nat
                targets
     - length (default [] (targets !! tp)))%nat.
Proof.
  assert (Hcomm : forall (j1 j2 : nat) (z1 z2 : list nat) (y : nat),
             (length z1 + (length z2 + y) = length z2 + (length z1 + y))%nat)
    by (intros; lia).
  destruct (targets !! tp) as [old |] eqn:Hold; cbn [default from_option id].
  - rewrite <- (insert_delete_id targets tp old Hold) at 2.
    rewrite <- (insert_delete_eq targets tp warps).
    rewrite !map_fold_insert_L
      by (try apply lookup_delete_eq; intros; lia).
    lia.
  - rewrite map_fold_insert_L by (try assumption; intros; lia).
    cbn [length]. lia.
Qed.

Lemma warps_fold_ge (targets : gmap nat (list nat)) (tp : nat) :
  (length (default [] (targets !! tp))
   <= map_fold (fun _ (ws : list nat) acc => (length ws + acc)%nat) 0%nat
               targets)%nat.
Proof.
  destruct (targets !! tp) as [old |] eqn:Hold; cbn [default from_option id].
  - rewrite <- (insert_delete_id targets tp old Hold).
    rewrite map_fold_insert_L
      by (try apply lookup_delete_eq; intros; lia).
    lia.
  - cbn. lia.
Qed.

(** What holds of the table after any sequence of calls. *)
Record reached (calls : list AddressCall) (t : WarpAddressTable) : Prop := {
  r_rows : forall rk,
    rowSynapsesOf t rk = Z.of_nat (length (rowCalls rk calls));
  r_warps : forall sp sn tp d,
    warpsOf t (sp, sn, d) tp = openersFrom 0 (rowCalls (sp, sn, tp, d) calls);
  r_count : forall k,
    default 0 (m_warpsPerNeuronDelay t !! k) = Z.of_nat (warpsListed t k);
  r_bound : forall k, (warpsListed t k <= length calls)%nat
}.

Lemma reached_empty : reached [] emptyTable.
Proof.
  split; intros; cbn; reflexivity.
Qed.

Lemma reached_step (calls : list AddressCall) (t : WarpAddressTable)
    (c : AddressCall) :
  Z.of_nat (length calls) < UINT32_MAX ->
  reached calls t ->
  reached (calls ++ [c]) (addSynapseCall t c).
Proof.
  intros Hlen Hinv. destruct c as [[sp sn] tp d w].
  unfold addSynapseCall, addSynapse. cbn [a_source a_target a_delay a_warp fst snd].
  pose proof (r_rows _ _ Hinv (sp, sn, tp, d)) as Hrow.
  pose proof (r_warps _ _ Hinv sp sn tp d) as Hw.
  pose proof (rowCalls_le (sp, sn, tp, d) calls) as Hle.
  pose proof (r_count _ _ Hinv (sp, sn, d)) as Hcount.
  pose proof (r_bound _ _ Hinv (sp, sn, d)) as Hbound.
  unfold warpsOf in Hw. unfold warpsListed in Hcount, Hbound.
  set (targets := default ∅ (m_warps t !! (sp, sn, d))) in *.
  set (warps := default [] (targets !! tp)) in *.
  assert (Hwrap : wrapu32 (rowSynapsesOf t (sp, sn, tp, d) + 1)
                  = Z.of_nat (length (rowCalls (sp, sn, tp, d) calls)) + 1).
  { rewrite Hrow. unfold wrapu32. apply Z.mod_small.
    unfold UINT32_MAX in Hlen. lia. }
  assert (Hrows' : forall rows' rk,
             rows' = <[(sp, sn, tp, d) :=
                         wrapu32 (rowSynapsesOf t (sp, sn, tp, d) + 1)]>
                       (m_rowSynapses t) ->
             default 0 (rows' !! rk)
             = Z.of_nat (length (rowCalls rk (calls ++ [mkAddressCall (sp, sn) tp d w])))).
  { intros rows' rk ->. rewrite rowCalls_app. unfold rowKey.
    cbn [a_source a_target a_delay fst snd].
    destruct (decide ((sp, sn, tp, d) = rk)) as [<- | Hne].
    - rewrite lookup_insert_eq. cbn [default from_option id].
      rewrite Hwrap, length_app. cbn [length]. lia.
    - rewrite lookup_insert_ne by assumption.
      rewrite app_nil_r. apply (r_rows _ _ Hinv rk). }
  assert (Hwarps' : forall warpsMap' new,
             warpsMap' = <[(sp, sn, d) := <[tp := new]> targets]> (m_warps t) ->
             new = openersFrom 0 (rowCalls (sp, sn, tp, d)
                                    (calls ++ [mkAddressCall (sp, sn) tp d w])) ->
             forall sp' sn' tp' d',
               default [] (default ∅ (warpsMap' !! (sp', sn', d')) !! tp')
               = openersFrom 0 (rowCalls (sp', sn', tp', d')
                                  (calls ++ [mkAddressCall (sp, sn) tp d w]))).
  { intros warpsMap' new -> Hnew sp' sn' tp' d'.
    destruct (decide ((sp, sn, d) = (sp', sn', d'))) as [Hk | Hk].
    - injection Hk as <- <- <-. rewrite lookup_insert_eq.
      cbn [default from_option id].
      destruct (decide (tp = tp')) as [<- | Htp].
      + rewrite lookup_insert_eq. exact Hnew.
      + rewrite lookup_insert_ne by assumption.
        rewrite rowCalls_app. unfold rowKey.
        cbn [a_source a_target a_delay fst snd].
        rewrite decide_False by congruence. rewrite app_nil_r.
        apply (r_warps _ _ Hinv sp sn tp' d).
    - rewrite lookup_insert_ne by assumption.
      rewrite rowCalls_app. unfold rowKey.
      cbn [a_source a_target a_delay fst snd].
      rewrite decide_False by congruence. rewrite app_nil_r.
      apply (r_warps _ _ Hinv sp' sn' tp' d'). }
  assert (Hnew : forall extra,
             extra = (if rowSynapsesOf t (sp, sn, tp, d) mod WARP_SIZE =? 0
                      then [w] else []) ->
             warps ++ extra
             = openersFrom 0 (rowCalls (sp, sn, tp, d)
                                (calls ++ [mkAddressCall (sp, sn) tp d w]))).
  { intros extra ->. rewrite rowCalls_app. unfold rowKey.
    cbn [a_source a_target a_delay fst snd].
    rewrite decide_True by reflexivity.
    rewrite openersFrom_app, Z.add_0_l, <- Hrow, <- Hw. reflexivity. }
  assert (Hlisted' : forall warpsMap' new k,
             warpsMap' = <[(sp, sn, d) := <[tp := new]> targets]> (m_warps t) ->
             map_fold (fun _ (ws : list nat) acc => (length ws + acc)%nat) 0%nat
                      (default ∅ (warpsMap' !! k))
             = if decide ((sp, sn, d) = k)
               then (length new
                     + map_fold (fun _ (ws : list nat) acc =>
                                   (length ws + acc)%nat) 0%nat targets
                     - length warps)%nat
               else warpsListed t k).
  { intros warpsMap' new k ->.
    destruct (decide ((sp, sn, d) = k)) as [<- | Hne].
    - rewrite lookup_insert_eq. cbn [default from_option id].
      apply warps_fold_insert.
    - rewrite lookup_insert_ne by assumption. reflexivity. }
  assert (Hpart : (length warps
                   <= map_fold (fun _ (ws : list nat) acc =>
                                  (length ws + acc)%nat) 0%nat targets)%nat).
  { exact (warps_fold_ge targets tp). }
  destruct (rowSynapsesOf t (sp, sn, tp, d) mod WARP_SIZE =? 0) eqn:Hcol;
    cbn [snd].
  - split; cbn [m_rowSynapses m_warps m_warpsPerNeuronDelay].
    + intros rk. unfold rowSynapsesOf. cbn [m_rowSynapses].
      now apply Hrows'.
    + intros sp' sn' tp' d'. unfold warpsOf. cbn [m_warps].
      eapply Hwarps'; [reflexivity |]. now apply Hnew.
    + intros k. unfold warpsListed. cbn [m_warps m_warpsPerNeuronDelay].
      rewrite (Hlisted' _ (warps ++ [w]) k eq_refl).
      destruct (decide ((sp, sn, d) = k)) as [<- | Hne].
      * rewrite lookup_insert_eq. cbn [default from_option id].
        rewrite Hcount, length_app. cbn [length].
        unfold wrapu32. rewrite Z.mod_small
          by (unfold UINT32_MAX in Hlen; lia). lia.
      * rewrite lookup_insert_ne by assumption. apply (r_count _ _ Hinv k).
    + intros k. unfold warpsListed. cbn [m_warps].
      rewrite (Hlisted' _ (warps ++ [w]) k eq_refl).
      rewrite !length_app. cbn [length].
      destruct (decide ((sp, sn, d) = k)) as [<- | Hne]; [lia |].
      pose proof (r_bound _ _ Hinv k). lia.
  - assert (Hsame : warps = openersFrom 0 (rowCalls (sp, sn, tp, d)
                               (calls ++ [mkAddressCall (sp, sn) tp d w]))).
    { rewrite <- (Hnew [] eq_refl). now rewrite app_nil_r. }
    split; cbn [m_rowSynapses m_warps m_warpsPerNeuronDelay].
    + intros rk. unfold rowSynapsesOf. cbn [m_rowSynapses].
      now apply Hrows'.
    + intros sp' sn' tp' d'. unfold warpsOf. cbn [m_warps].
      eapply Hwarps'; [reflexivity | exact Hsame].
    + intros k. unfold warpsListed. cbn [m_warps m_warpsPerNeuronDelay].
      rewrite (Hlisted' _ warps k eq_refl).
      destruct (decide ((sp, sn, d) = k)) as [<- | Hne].
      * rewrite Hcount. f_equal. lia.
      * apply (r_count _ _ Hinv k).
    + intros k. unfold warpsListed. cbn [m_warps].
      rewrite (Hlisted' _ warps k eq_refl). rewrite !length_app. cbn [length].
      destruct (decide ((sp, sn, d) = k)) as [<- | Hne]; [lia |].
      pose proof (r_bound _ _ Hinv k). lia.
Qed.

Lemma addAll_reached (calls : list AddressCall) :
  Z.of_nat (length calls) <= UINT32_MAX ->
  reached calls (addAll calls).
Proof.
  unfold addAll.
  induction calls as [| c calls IH] using rev_ind; intros Hlen.
  - apply reached_empty.
  - rewrite length_app, Nat2Z.inj_add in Hlen. cbn [length] in Hlen.
    rewrite foldl_app. cbn [foldl].
    apply reached_step; [lia |]. apply IH. lia.
Qed.

(** X23.  After any sequence of fewer than 2^32 calls on an empty table,
    the next call of [addSynapse] returns an address: its column is the
    number of synapses already in the row modulo the warp size; its row is
    the next free warp when the column is 0, and otherwise the warp opened
    by the row's latest call that got column 0.  The last element of an
    empty vector of warps is never read. *)
Theorem addSynapse_address (calls : list AddressCall) (source : nat * nat)
    (targetPartition delay1 nextFreeWarp : nat) :
  Z.of_nat (length calls) <= UINT32_MAX ->
  let row :=
    rowCalls (fst source, snd source, targetPartition, delay1) calls in
  let column := Z.of_nat (length row) mod WARP_SIZE in
  exists warp,
    fst (addSynapse source targetPartition delay1 nextFreeWarp (addAll calls))
    = Some (warp, column) /\
    (column = 0 -> warp = nextFreeWarp) /\
    (column <> 0 ->
     exists opener,
       row !! Z.to_nat (Z.of_nat (length row) - column) = Some opener /\
       warp = a_warp opener).
Proof.
  intros Hlen row column.
  pose proof (addAll_reached calls Hlen) as Hinv.
  pose proof (r_rows _ _ Hinv (fst source, snd source, targetPartition, delay1))
    as Hrow.
  pose proof (r_warps _ _ Hinv (fst source) (snd source) targetPartition delay1)
    as Hw.
  unfold addSynapse. unfold warpsOf in Hw. rewrite Hrow, Hw.
  fold row. fold column.
  destruct (Z.eqb_spec column 0) as [Hz | Hnz]; cbn [fst].
  - exists nextFreeWarp. split; [reflexivity |]. split; [reflexivity |].
    congruence.
  - assert (Hne : row <> []).
    { intros Hnil. apply Hnz. subst column. rewrite Hnil. cbn.
      apply Z.mod_0_l. lia. }
    destruct (openers_last row Hne) as (opener & Hget & Hlast).
    rewrite Hlast. exists (a_warp opener). split; [reflexivity |].
    split; [congruence |]. intros _. exists opener. split; [| reflexivity].
    rewrite <- Hget. f_equal.
    pose proof (Z.div_mod (Z.of_nat (length row)) WARP_SIZE ltac:(lia)) as Hdm.
    pose proof (Z.mod_pos_bound (Z.of_nat (length row)) WARP_SIZE
                  WARP_SIZE_pos) as Hr.
    fold column in Hdm, Hr.
    assert (Hsame : (Z.of_nat (length row) - 1) / WARP_SIZE
                    = Z.of_nat (length row) / WARP_SIZE).
    { set (q := Z.of_nat (length row) / WARP_SIZE) in *.
      replace (Z.of_nat (length row) - 1)
        with (q * WARP_SIZE + (column - 1)) by lia.
      rewrite Z.div_add_l by lia. rewrite Z.div_small by lia. lia. }
    rewrite Hsame. lia.
Qed.

(** X24.  After any sequence of at most 2^32 - 1 calls on an empty table,
    a row with [n] synapses lists the number of warps that [n] synapses
    need, [n] divided by the warp size and rounded up, and
    [warpsPerNeuronDelay] is the number of warps listed for the neuron and
    delay over all target partitions; it is 0 for a neuron and delay
    without synapses. *)
Theorem warp_counts (calls : list AddressCall) :
  Z.of_nat (length calls) <= UINT32_MAX ->
  let t := addAll calls in
  (forall sp sn tp d,
     Z.of_nat (length (warpsOf t (sp, sn, d) tp))
     = (Z.of_nat (length (rowCalls (sp, sn, tp, d) calls)) + WARP_SIZE - 1)
       / WARP_SIZE) /\
  (forall p n d,
     warpsPerNeuronDelay t p n d = Z.of_nat (warpsListed t (p, n, d))) /\
  (forall p n d,
     (forall c, c ∈ calls ->
                (fst (a_source c), snd (a_source c), a_delay c) <> (p, n, d)) ->
     warpsPerNeuronDelay t p n d = 0).
Proof.
  intros Hlen t.
  pose proof (addAll_reached calls Hlen) as Hinv. fold t in Hinv.
  assert (Hcount : forall p n d,
             warpsPerNeuronDelay t p n d = Z.of_nat (warpsListed t (p, n, d))).
  { intros p n d. rewrite <- (r_count _ _ Hinv (p, n, d)).
    unfold warpsPerNeuronDelay.
    now destruct (m_warpsPerNeuronDelay t !! (p, n, d)). }
  split; [| split; [exact Hcount |]].
  - intros sp sn tp d. rewrite (r_warps _ _ Hinv sp sn tp d).
    apply openers_length.
  - intros p n d Hnone. rewrite Hcount.
    assert (Hempty : forall tp, warpsOf t (p, n, d) tp = []).
    { intros tp. rewrite (r_warps _ _ Hinv p n tp d).
      assert (Hrow : rowCalls (p, n, tp, d) calls = []).
      { apply rowCalls_none. intros c Hc Hkey. apply (Hnone c Hc).
        unfold rowKey in Hkey. congruence. }
      now rewrite Hrow. }
    assert (Hzero : forall targets : gmap nat (list nat),
               (forall tp, default [] (targets !! tp) = []) ->
               map_fold (fun _ (ws : list nat) acc => (length ws + acc)%nat)
                        0%nat targets = 0%nat).
    { intros targets.
      induction targets as [| tp ws targets Hfresh _ IH]
        using map_first_key_ind; intros Hall.
      - apply map_fold_empty.
      - rewrite map_fold_insert_L by (try assumption; intros; lia).
        assert (Hws : ws = []).
        { specialize (Hall tp). now rewrite lookup_insert_eq in Hall. }
        rewrite Hws. cbn [length]. rewrite Nat.add_0_l. apply IH.
        intros tp'. specialize (Hall tp').
        destruct (decide (tp = tp')) as [<- | Hne].
        + now rewrite Hfresh.
        + now rewrite lookup_insert_ne in Hall by assumption. }
    unfold warpsListed. rewrite Hzero; [reflexivity | exact Hempty].
Qed.

End Table.

(** Warps of two synapses: three synapses of one row and one of another. *)
Definition demoCalls : list AddressCall :=
  [ mkAddressCall (0, 0)%nat 0 1 1;
    mkAddressCall (0, 0)%nat 0 1 2;
    mkAddressCall (0, 0)%nat 1 1 2;
    mkAddressCall (0, 0)%nat 0 1 3 ].

Lemma addSynapse_address_witness :
  0 < 2 /\ Z.of_nat (length demoCalls) <= UINT32_MAX /\
  fst (addSynapse 2 (0, 0)%nat 0 1 4 (addAll 2 demoCalls)) = Some (3%nat, 1).
Proof.
  assert (Hw : 0 < 2) by lia.
  assert (Hlen : Z.of_nat (length demoCalls) <= UINT32_MAX)
    by (cbn; unfold UINT32_MAX, two32; lia).
  split; [exact Hw |]. split; [exact Hlen |].
  destruct (addSynapse_address 2 Hw demoCalls (0, 0)%nat 0 1 4 Hlen)
    as (warp & Hrun & _ & Hrow).
  rewrite Hrun. vm_compute in Hrun. injection Hrun as <-. reflexivity.
Defined.

Lemma warp_counts_witness :
  0 < 2 /\ Z.of_nat (length demoCalls) <= UINT32_MAX /\
  warpsPerNeuronDelay (addAll 2 demoCalls) 0 0 1 = 3 /\
  warpsPerNeuronDelay (addAll 2 demoCalls) 0 0 2 = 0.
Proof.
  assert (Hw : 0 < 2) by lia.
  assert (Hlen : Z.of_nat (length demoCalls) <= UINT32_MAX)
    by (cbn; unfold UINT32_MAX, two32; lia).
  split; [exact Hw |]. split; [exact Hlen |].
  destruct (warp_counts 2 Hw demoCalls Hlen) as (_ & Hcount & Hnone).
  split.
  - rewrite (Hcount 0%nat 0%nat 1%nat). vm_compute. reflexivity.
  - apply Hnone. intros c Hc.
    repeat (apply elem_of_cons in Hc as [-> | Hc]; [cbn; congruence |]).
    inversion Hc.
Defined.

End CudaWarpAddressTable.

(* ===================================================================== *)
(** * Python bindings: scalar and vector arguments, printing of vectors *)
(* ===================================================================== *)

Module PythonApi.

(** A Python object as the argument checks see it: a list, with its
    items, or any other object. *)
Inductive PyObject (V : Type) :=
| PyList (items : list V)
| PyOther (v : V).
Arguments PyList {V} items.
Arguments PyOther {V} v.

(** PyList_Check(obj) ? PyList_Size(obj) : 0 *)
Definition listLength {V} (obj : PyObject V) : Z :=
  match obj with
  | PyList items => Z.of_nat (length items)
  | PyOther _ => 0
  end.

(** [checkInputVector]: whether the object counts as a vector, and the
    vector length after the check.  The length is held in an [unsigned]. *)
Definition checkInputVector {V} (obj : PyObject V) (vectorLength : Z)
  : std_error + (bool * Z) :=
  let length := wrapu32 (listLength obj) in
  if 0 <? length
  then if (0 <? vectorLength) && negb (length =? vectorLength)
       then inl INVALID_ARGUMENT
       else inr (true, length)
  else inr (false, vectorLength).

(** [set_neuron_x_length] *)
Definition set_neuron_x_length {V} (a b : PyObject V) : std_error + Z :=
  match checkInputVector a 0 with
  | inl e => inl e
  | inr (vectorA, len) =>
      match checkInputVector b len with
      | inl e => inl e
      | inr (vectorB, len) =>
          if negb (eqb vectorA vectorB) then inl INVALID_ARGUMENT
          else inr len
      end
  end.

(** The checks that [add_synapse] makes of its arguments, one after the
    other, each with the length the earlier ones left. *)
Fixpoint checkInputVectors {V} (objs : list (PyObject V)) (len : Z)
  : std_error + (list bool * Z) :=
  match objs with
  | [] => inr ([], len)
  | obj :: rest =>
      match checkInputVector obj len with
      | inl e => inl e
      | inr (vector, len) =>
          match checkInputVectors rest len with
          | inl e => inl e
          | inr (vectors, len) => inr (vector :: vectors, len)
          end
      end
  end.

(** The flags (sources, targets, delays, weights, plastics) and the length
    with which [add_synapse] goes on. *)
Definition add_synapse_lengths {V}
    (sources targets delays weights plastics : PyObject V)
  : std_error + (list bool * Z) :=
  checkInputVectors [sources; targets; delays; weights; plastics] 0.

Lemma wrap_listLength {V} (obj : PyObject V) :
  listLength obj < two32 -> wrapu32 (listLength obj) = listLength obj.
Proof.
  intros Hlt. unfold wrapu32. apply Z.mod_small.
  split; [| exact Hlt]. destruct obj; cbn; lia.
Qed.

Lemma checkInputVectors_spec {V} (objs : list (PyObject V)) :
  forall len,
    0 <= len ->
    Forall (fun obj => listLength obj < two32) objs ->
    match checkInputVectors objs len with
    | inr (vectors, len') =>
        vectors = map (fun obj => 0 <? listLength obj) objs /\
        (forall obj, obj ∈ objs -> listLength obj = 0 \/ listLength obj = len') /\
        (len = 0 \/ len' = len) /\
        (len' = len \/ exists obj, obj ∈ objs /\ listLength obj = len') /\
        (len' = 0 -> forall obj, obj ∈ objs -> listLength obj = 0)
    | inl e =>
        e = INVALID_ARGUMENT /\
        ((0 < len /\ exists obj, obj ∈ objs /\ 0 < listLength obj
                                 /\ listLength obj <> len) \/
         exists a b, a ∈ objs /\ b ∈ objs /\ 0 < listLength a /\
                     0 < listLength b /\ listLength a <> listLength b)
    end.
Proof.
  induction objs as [| obj objs IH]; intros len Hlen Hall.
  - cbn. repeat split; try tauto.
    + intros obj Hobj. inversion Hobj.
    + intros _ obj Hobj. inversion Hobj.
  - apply Forall_cons in Hall as [Hobj Hall].
    cbn [checkInputVectors]. unfold checkInputVector.
    rewrite (wrap_listLength obj Hobj).
    assert (Hnn : 0 <= listLength obj) by (destruct obj; cbn; lia).
    destruct (Z.ltb_spec 0 (listLength obj)) as [Hpos | Hzero].
    + destruct (Z.ltb_spec 0 len) as [Hlpos | Hlzero]; cbn [andb].
      * destruct (Z.eqb_spec (listLength obj) len) as [Heq | Hne]; cbn [negb].
        -- specialize (IH (listLength obj) Hnn Hall).
           destruct (checkInputVectors objs (listLength obj))
             as [e | [vectors len']].
           ++ destruct IH as [-> Hwhy]. split; [reflexivity |].
              destruct Hwhy as [(_ & o & Ho & Hop & Hone) | (a & b & Ha & Hb & Hrest)].
              ** left. split; [assumption |]. exists o.
                 split; [apply elem_of_cons; now right |]. split; [assumption |].
                 congruence.
              ** right. exists a, b.
                 split; [apply elem_of_cons; now right |].
                 split; [apply elem_of_cons; now right |]. exact Hrest.
           ++ destruct IH as (-> & Hall' & Hkeep & Hfrom & Hz).
              assert (Hl : len' = listLength obj) by lia.
              split; [cbn [map]; destruct (Z.ltb_spec 0 (listLength obj));
                      [reflexivity | lia] |].
              split; [| split; [right; lia | split; [left; lia |]]].
              ** intros o Ho. apply elem_of_cons in Ho as [-> | Ho];
                   [right; lia | now apply Hall'].
              ** intros Hz'. lia.
        -- split; [reflexivity |]. left. split; [assumption |].
           exists obj. split; [apply elem_of_cons; now left |]. lia.
      * assert (len = 0) by lia. subst len.
        specialize (IH (listLength obj) Hnn Hall).
        destruct (checkInputVectors objs (listLength obj))
          as [e | [vectors len']].
        -- destruct IH as [-> Hwhy]. split; [reflexivity |]. right.
           destruct Hwhy as [(_ & o & Ho & Hop & Hone) | (a & b & Ha & Hb & Hrest)].
           ++ exists o, obj.
              split; [apply elem_of_cons; now right |].
              split; [apply elem_of_cons; now left |]. lia.
           ++ exists a, b.
              split; [apply elem_of_cons; now right |].
              split; [apply elem_of_cons; now right |]. exact Hrest.
        -- destruct IH as (-> & Hall' & Hkeep & Hfrom & Hz).
           assert (Hl : len' = listLength obj) by lia.
           split; [cbn [map]; destruct (Z.ltb_spec 0 (listLength obj));
                   [reflexivity | lia] |].
           split; [| split; [now left | split]].
           ++ intros o Ho. apply elem_of_cons in Ho as [-> | Ho];
                [right; lia | now apply Hall'].
           ++ right. exists obj. split; [apply elem_of_cons; now left | lia].
           ++ intros Hz'. lia.
    + assert (Hl : listLength obj = 0) by lia.
      specialize (IH len Hlen Hall).
      destruct (checkInputVectors objs len) as [e | [vectors len']].
      * destruct IH as [-> Hwhy]. split; [reflexivity |].
        destruct Hwhy as [(Hlp & o & Ho & Hrest) | (a & b & Ha & Hb & Hrest)].
        -- left. split; [assumption |]. exists o.
           split; [apply elem_of_cons; now right | exact Hrest].
        -- right. exists a, b.
           split; [apply elem_of_cons; now right |].
           split; [apply elem_of_cons; now right |]. exact Hrest.
      * destruct IH as (-> & Hall' & Hkeep & Hfrom & Hz).
        split; [cbn [map]; destruct (Z.ltb_spec 0 (listLength obj));
                [lia | reflexivity] |].
        split; [| split; [exact Hkeep | split]].
        -- intros o Ho. apply elem_of_cons in Ho as [-> | Ho];
             [now left | now apply Hall'].
        -- destruct Hfrom as [Hsame | (o & Ho & Hlo)]; [now left |].
           right. exists o. split; [apply elem_of_cons; now right | exact Hlo].
        -- intros Hz' o Ho. apply elem_of_cons in Ho as [-> | Ho];
             [exact Hl | now apply Hz].
Qed.

(** X25.  For lists of fewer than 2^32 items, [set_neuron_x_length]
    returns the common length of its two arguments, where an object that is
    not a list counts like the empty list as length 0, and throws
    [std::invalid_argument] when the two lengths differ. *)
Theorem set_neuron_x_length_spec {V} (a b : PyObject V) :
  listLength a < two32 -> listLength b < two32 ->
  set_neuron_x_length a b
  = if listLength a =? listLength b then inr (listLength a)
    else inl INVALID_ARGUMENT.
Proof.
  intros Ha Hb. unfold set_neuron_x_length, checkInputVector.
  rewrite (wrap_listLength a Ha), (wrap_listLength b Hb).
  assert (Hna : 0 <= listLength a) by (destruct a; cbn; lia).
  assert (Hnb : 0 <= listLength b) by (destruct b; cbn; lia).
  repeat first
    [ match goal with
      | |- context [?x <? ?y] => destruct (Z.ltb_spec x y)
      | |- context [?x =? ?y] => destruct (Z.eqb_spec x y)
      end
    | progress cbn [andb negb eqb] ];
    try reflexivity; try lia; f_equal; lia.
Qed.

(** X26.  For lists of fewer than 2^32 items, the checks of [add_synapse]
    either throw [std::invalid_argument], which they do exactly when two of
    the arguments are non-empty lists of different lengths, or they mark as
    vectors the non-empty lists and leave a length that every non-empty
    list has; the length is 0 only if no argument is a non-empty list. *)
Theorem add_synapse_lengths_spec {V}
    (sources targets delays weights plastics : PyObject V) :
  let objs := [sources; targets; delays; weights; plastics] in
  Forall (fun obj => listLength obj < two32) objs ->
  match add_synapse_lengths sources targets delays weights plastics with
  | inr (vectors, len) =>
      vectors = map (fun obj => 0 <? listLength obj) objs /\
      (forall obj, obj ∈ objs -> listLength obj = 0 \/ listLength obj = len) /\
      (len = 0 <-> forall obj, obj ∈ objs -> listLength obj = 0)
  | inl e =>
      e = INVALID_ARGUMENT /\
      exists a b, a ∈ objs /\ b ∈ objs /\ 0 < listLength a /\
                  0 < listLength b /\ listLength a <> listLength b
  end.
Proof.
  intros objs Hall. unfold add_synapse_lengths. fold objs.
  pose proof (checkInputVectors_spec objs 0 ltac:(lia) Hall) as Hspec.
  destruct (checkInputVectors objs 0) as [e | [vectors len]].
  - destruct Hspec as [-> [(Hpos & _) | Hdiff]]; [lia |].
    split; [reflexivity | exact Hdiff].
  - destruct Hspec as (-> & Hsame & _ & Hfrom & Hzero).
    split; [reflexivity |]. split; [exact Hsame |]. split; [exact Hzero |].
    intros Hnone. destruct Hfrom as [-> | (o & Ho & <-)]; [reflexivity |].
    now apply Hnone.
Qed.

Lemma set_neuron_x_length_spec_witness :
  listLength (PyList [1; 2]) < two32 /\ listLength (PyOther 7) < two32 /\
  set_neuron_x_length (PyList [1; 2]) (PyOther 7) = inl INVALID_ARGUMENT.
Proof.
  assert (Ha : listLength (PyList [1; 2]) < two32) by (cbn; unfold two32; lia).
  assert (Hb : listLength (PyOther 7) < two32) by (cbn; unfold two32; lia).
  split; [exact Ha |]. split; [exact Hb |].
  rewrite (set_neuron_x_length_spec (PyList [1; 2]) (PyOther 7) Ha Hb).
  reflexivity.
Defined.

Lemma add_synapse_lengths_spec_witness :
  Forall (fun obj => listLength obj < two32)
         [PyList [1; 2]; PyOther 3; PyList []; PyList [5; 6]; PyOther 0] /\
  add_synapse_lengths (PyList [1; 2]) (PyOther 3) (PyList []) (PyList [5; 6])
                      (PyOther 0)
  = inr ([true; false; false; true; false], 2).
Proof.
  assert (Hall : Forall (fun obj : PyObject Z => listLength obj < two32)
                   [PyList [1; 2]; PyOther 3; PyList []; PyList [5; 6];
                    PyOther 0]).
  { repeat constructor; cbn; unfold two32; lia. }
  split; [exact Hall |].
  pose proof (add_synapse_lengths_spec (PyList [1; 2]) (PyOther 3) (PyList [])
                (PyList [5; 6]) (PyOther 0) Hall) as Hspec.
  destruct (add_synapse_lengths (PyList [1; 2]) (PyOther 3) (PyList [])
              (PyList [5; 6]) (PyOther 0)) as [e | [vectors len]] eqn:Hrun.
  - vm_compute in Hrun. discriminate.
  - vm_compute in Hrun. now rewrite <- Hrun.
Defined.

End PythonApi.

(* ===================================================================== *)
(** * Python bindings: printing of vectors *)
(* ===================================================================== *)

Module PythonStr.
Import Stdlib.Strings.String.

Section Print.
(** [operator<<] of the element type *)
Context {T : Type}.
Variable show : T -> string.

(** std::copy(first, last, std::ostream_iterator<T>(out, ", ")): every
    element is followed by the delimiter. *)
Fixpoint copy_delimited (l : list T) : string :=
  match l with
  | [] => EmptyString
  | x :: rest => append (show x) (append ", " (copy_delimited rest))
  end.

(** [std_vector_str] *)
Definition std_vector_str (self : list T) : string :=
  if (0 <? List.length self)%nat
  then append "["
         (append (if (1 <? List.length self)%nat
                  then copy_delimited (removelast self) else EmptyString)
                 (append (from_option show EmptyString (last self)) "]"))
  else EmptyString.

End Print.

(** *i ? "True" : "False" *)
Definition bool_str (b : bool) : string := if b then "True" else "False".

(** [std_bool_vector_str]: the loop over all elements but the last, then
    the last element. *)
Definition std_bool_vector_str (self : list bool) : string :=
  if (0 <? List.length self)%nat
  then append "["
         (append (copy_delimited bool_str (removelast self))
                 (append (from_option bool_str EmptyString (last self)) ", "))
  else EmptyString.

Lemma append_assoc (a b c : string) :
  append (append a b) c = append a (append b c).
Proof.
  induction a as [| ch a IH]; [reflexivity |].
  change (String ch (append (append a b) c) = String ch (append a (append b c))).
  now rewrite IH.
Qed.

Lemma copy_delimited_last {T} (show : T -> string) (l : list T) (x : T) :
  append (copy_delimited show (removelast (l ++ [x])))
         (from_option show EmptyString (last (l ++ [x])))
  = concat ", " (map show (l ++ [x])).
Proof.
  rewrite removelast_last, last_snoc. cbn [from_option].
  induction l as [| y l IH]; cbn [copy_delimited app map].
  - cbn. reflexivity.
  - rewrite !append_assoc, IH.
    destruct (l ++ [x]) as [| z l'] eqn:Hl;
      [destruct l; discriminate |].
    cbn [map concat]. reflexivity.
Qed.

(** X27.  [std_vector_str] prints a non-empty vector as its elements
    separated by a comma and a space, between square brackets, and the
    empty vector as the empty string.  [std_bool_vector_str] prints the
    flags in the same way but ends with a comma and a space where the
    closing bracket should be. *)
Theorem vector_str {T} (show : T -> string) (self : list T)
    (flags : list bool) :
  std_vector_str show self
  = match self with
    | [] => EmptyString
    | _ => append "[" (append (concat ", " (map show self)) "]")
    end /\
  std_bool_vector_str flags
  = match flags with
    | [] => EmptyString
    | _ => append "[" (append (concat ", " (map bool_str flags)) ", ")
    end.
Proof.
  split.
  - destruct self as [| x l] using rev_ind; [reflexivity |].
    unfold std_vector_str. rewrite length_app. cbn [List.length].
    destruct (Nat.ltb_spec 0 (List.length l + 1)) as [_ | Hlt]; [| lia].
    destruct (l ++ [x]) as [| y l'] eqn:Hl; [destruct l; discriminate |].
    rewrite <- Hl. f_equal.
    rewrite <- (copy_delimited_last show l x), append_assoc.
    destruct (Nat.ltb_spec 1 (List.length l + 1)) as [_ | Hone];
      [reflexivity |].
    assert (l = []) by (destruct l; [reflexivity | cbn in Hone; lia]).
    subst l. reflexivity.
  - destruct flags as [| x l] using rev_ind; [reflexivity |].
    unfold std_bool_vector_str. rewrite length_app. cbn [List.length].
    destruct (Nat.ltb_spec 0 (List.length l + 1)) as [_ | Hlt]; [| lia].
    destruct (l ++ [x]) as [| y l'] eqn:Hl; [destruct l; discriminate |].
    rewrite <- Hl. f_equal.
    now rewrite <- (copy_delimited_last bool_str l x), append_assoc.
Qed.

End PythonStr.

(* ===================================================================== *)
(** * CUDA backend: the order of device indices *)
(* ===================================================================== *)

Module CudaMapper.

(** Neuron indices as used on the device: partition and neuron. *)
Record DeviceIdx := mkDeviceIdx {
  partition : Z;        (* pidx_t *)
  neuron : Z            (* nidx_t *)
}.

(** operator<(const DeviceIdx& lhs, const DeviceIdx& rhs) *)
Definition DeviceIdx_lt (lhs rhs : DeviceIdx) : bool :=
  (partition lhs <? partition rhs)
  || ((partition lhs =? partition rhs) && (neuron lhs <? neuron rhs)).

(** X28.  The comparison of device indices is a strict total order, as the
    ordered containers keyed by device indices need: no index is below
    itself, the comparison is transitive, and two indices neither of which
    is below the other are the same index. *)
Theorem DeviceIdx_lt_strict_total :
  (forall a, DeviceIdx_lt a a = false) /\
  (forall a b c, DeviceIdx_lt a b = true -> DeviceIdx_lt b c = true ->
                 DeviceIdx_lt a c = true) /\
  (forall a b, DeviceIdx_lt a b = false -> DeviceIdx_lt b a = false -> a = b).
Proof.
  unfold DeviceIdx_lt. split; [| split].
  - intros [p n]. cbn. rewrite !Z.ltb_irrefl, Z.eqb_refl. reflexivity.
  - intros [p1 n1] [p2 n2] [p3 n3]. cbn. intros H12 H23.
    apply orb_true_iff in H12, H23. apply orb_true_iff.
    rewrite !andb_true_iff, !Z.ltb_lt, !Z.eqb_eq in *. lia.
  - intros [p1 n1] [p2 n2]. cbn. intros H12 H21.
    apply orb_false_iff in H12 as [Hp12 Hn12].
    apply orb_false_iff in H21 as [Hp21 Hn21].
    apply Z.ltb_ge in Hp12, Hp21.
    assert (p1 = p2) by lia. subst p2.
    rewrite Z.eqb_refl in Hn12, Hn21. cbn in Hn12, Hn21.
    apply Z.ltb_ge in Hn12, Hn21. f_equal. lia.
Qed.

End CudaMapper.

(* ===================================================================== *)
(** * C API: status and error message of the last call *)
(* ===================================================================== *)

Module CApi.
Import Stdlib.Strings.String.

(** What a wrapped call can throw: a [nemo::exception] with its error
    number and message, another [std::exception] with its message, or
    anything else. *)
Inductive thrown :=
| NemoException (errorNumber : Z) (what : string)
| StdException (what : string)
| OtherException.

(** The two variables of the process: [g_lastError] and
    [g_lastCallStatus]. *)
Record ErrorState := mkErrorState {
  g_lastError : string;
  g_lastCallStatus : Z
}.

Definition NEMO_OK : Z := 0.

(** The variables as they are initialised. *)
Definition initialState : ErrorState := mkErrorState EmptyString NEMO_OK.

Section Calls.
(** The error numbers are those of the public header, which differ between
    the versions of the sources; only [NEMO_OK] is used by its value. *)
Variable NEMO_UNKNOWN_ERROR : Z.

Definition setResult (msg : string) (status : Z) (_ : ErrorState)
  : ErrorState :=
  mkErrorState msg status.

(** The macro [CALL] around a call that returned ([None]) or threw. *)
Definition CALL (call : option thrown) (g : ErrorState) : ErrorState :=
  let g := mkErrorState (g_lastError g) NEMO_OK in
  match call with
  | None => g
  | Some (NemoException errorNumber what) => setResult what errorNumber g
  | Some (StdException what) => setResult what NEMO_UNKNOWN_ERROR g
  | Some OtherException => setResult "unknown exception" NEMO_UNKNOWN_ERROR g
  end.

(** [nemo_strerror] *)
Definition nemo_strerror (g : ErrorState) : string := g_lastError g.

(** The status and the message that [CALL] records for an exception. *)
Definition statusOf (e : thrown) : Z :=
  match e with
  | NemoException errorNumber _ => errorNumber
  | _ => NEMO_UNKNOWN_ERROR
  end.

Definition messageOf (e : thrown) : string :=
  match e with
  | NemoException _ what => what
  | StdException what => what
  | OtherException => "unknown exception"
  end.

(** The variables after a sequence of wrapped calls. *)
Definition afterCalls (calls : list (option thrown)) : ErrorState :=
  foldl (fun g call => CALL call g) initialState calls.

Lemma CALL_status (call : option thrown) (g : ErrorState) :
  g_lastCallStatus (CALL call g) = from_option statusOf NEMO_OK call.
Proof. destruct call as [[n w | w |] |]; reflexivity. Qed.

Lemma CALL_message (call : option thrown) (g : ErrorState) :
  g_lastError (CALL call g) = from_option messageOf (g_lastError g) call.
Proof. destruct call as [[n w | w |] |]; reflexivity. Qed.

(** X29.  After any sequence of calls wrapped in [CALL], the status of the
    last call is [NEMO_OK] if it returned and the error number of its
    exception if it threw ([NEMO_UNKNOWN_ERROR] for an exception that is
    not a [nemo::exception]); but [nemo_strerror] gives the message of the
    latest call that threw, however many calls have returned since, and
    the empty string of its initialisation if no call has thrown yet. *)
Theorem strerror_last_failure (calls : list (option thrown)) :
  let g := afterCalls calls in
  g_lastCallStatus g
  = from_option (from_option statusOf NEMO_OK) NEMO_OK (last calls) /\
  nemo_strerror g
  = from_option messageOf EmptyString (last (omap id calls)).
Proof.
  unfold afterCalls, nemo_strerror.
  induction calls as [| call calls IH] using rev_ind.
  - split; reflexivity.
  - cbn zeta in *. rewrite foldl_app. cbn [foldl].
    rewrite CALL_status, CALL_message, last_snoc. cbn [from_option].
    split; [reflexivity |].
    rewrite omap_app. destruct IH as [_ ->].
    destruct call as [e |]; cbn [from_option].
    + change (omap id [Some e]) with [e]. now rewrite last_snoc.
    + change (omap id [@None thrown]) with (@nil thrown).
      now rewrite app_nil_r.
Qed.

End Calls.

End CApi.

(* ===================================================================== *)
(** * CPU backend: the neuron parameters of the simulation *)
(* ===================================================================== *)

Module CpuNeurons.
Import Cpu.

Section Neurons.
Context {F : Type} `{FloatOps F} `{Collaborators F}.

(** NetworkImpl::neuron_t *)
Record neuron_t := mkNeuron {
  n_a : F;
  n_b : F;
  n_c : F;
  n_d : F;
  n_u : F;
  n_v : F;
  n_sigma : F
}.

Definition set_a (x : list F) (s : Simulation) : Simulation :=
  mkSimulation (m_neuronCount s) x (m_b s) (m_c s) (m_d s) (m_u s) (m_v s)
    (m_sigma s) (m_valid s) (m_fired s) (m_recentFiring s) (m_cm s)
    (m_current s) (m_fstim s) (m_rng s) (m_lastFlush s) (m_stdp s)
    (m_timer s) (m_firedCycle s) (m_firedNeuron s).
Definition set_b (x : list F) (s : Simulation) : Simulation :=
  mkSimulation (m_neuronCount s) (m_a s) x (m_c s) (m_d s) (m_u s) (m_v s)
    (m_sigma s) (m_valid s) (m_fired s) (m_recentFiring s) (m_cm s)
    (m_current s) (m_fstim s) (m_rng s) (m_lastFlush s) (m_stdp s)
    (m_timer s) (m_firedCycle s) (m_firedNeuron s).
Definition set_c (x : list F) (s : Simulation) : Simulation :=
  mkSimulation (m_neuronCount s) (m_a s) (m_b s) x (m_d s) (m_u s) (m_v s)
    (m_sigma s) (m_valid s) (m_fired s) (m_recentFiring s) (m_cm s)
    (m_current s) (m_fstim s) (m_rng s) (m_lastFlush s) (m_stdp s)
    (m_timer s) (m_firedCycle s) (m_firedNeuron s).
Definition set_d (x : list F) (s : Simulation) : Simulation :=
  mkSimulation (m_neuronCount s) (m_a s) (m_b s) (m_c s) x (m_u s) (m_v s)
    (m_sigma s) (m_valid s) (m_fired s) (m_recentFiring s) (m_cm s)
    (m_current s) (m_fstim s) (m_rng s) (m_lastFlush s) (m_stdp s)
    (m_timer s) (m_firedCycle s) (m_firedNeuron s).
Definition set_sigma (x : list F) (s : Simulation) : Simulation :=
  mkSimulation (m_neuronCount s) (m_a s) (m_b s) (m_c s) (m_d s) (m_u s)
    (m_v s) x (m_valid s) (m_fired s) (m_recentFiring s) (m_cm s)
    (m_current s) (m_fstim s) (m_rng s) (m_lastFlush s) (m_stdp s)
    (m_timer s) (m_firedCycle s) (m_firedNeuron s).
Definition set_valid (x : list bool) (s : Simulation) : Simulation :=
  mkSimulation (m_neuronCount s) (m_a s) (m_b s) (m_c s) (m_d s) (m_u s)
    (m_v s) (m_sigma s) x (m_fired s) (m_recentFiring s) (m_cm s)
    (m_current s) (m_fstim s) (m_rng s) (m_lastFlush s) (m_stdp s)
    (m_timer s) (m_firedCycle s) (m_firedNeuron s).

(** vec.at(nidx) = x: [std::out_of_range] for an index outside the
    vector. *)
Definition atPut {X} (get : Simulation -> list X)
    (set : list X -> Simulation -> Simulation) (nidx : nat) (x : X)
  : method Simulation :=
  fun s =>
    if (nidx <? length (get s))%nat
    then (Returned, set (<[nidx := x]> (get s)) s)
    else (Thrown STD_OUT_OF_RANGE, s).

(** The body of the loop of [setNeuronParameters] for the neuron with
    global index [i]. *)
Definition setNeuron (i : nat) (n : neuron_t) : method Simulation :=
  let nidx := localIdx i in
  andThen (atPut m_a set_a nidx (n_a n))
 (andThen (atPut m_b set_b nidx (n_b n))
 (andThen (atPut m_c set_c nidx (n_c n))
 (andThen (atPut m_d set_d nidx (n_d n))
 (andThen (atPut m_u set_u nidx (n_u n))
 (andThen (atPut m_v set_v nidx (n_v n))
 (andThen (atPut m_sigma set_sigma nidx (n_sigma n))
          (atPut m_valid set_valid nidx true))))))).

(** [Simulation::setNeuronParameters], over the neurons of the network in
    the order of its map. *)
Definition setNeuronParameters (m_neurons : list (nat * neuron_t))
  : method Simulation :=
  forEach m_neurons (fun i => setNeuron (fst i) (snd i)).

(** The vectors of parameters and state have the length that the
    constructor gives them. *)
Record allocated (s : Simulation) : Prop := {
  al_a : length (m_a s) = m_neuronCount s;
  al_b : length (m_b s) = m_neuronCount s;
  al_c : length (m_c s) = m_neuronCount s;
  al_d : length (m_d s) = m_neuronCount s;
  al_u : length (m_u s) = m_neuronCount s;
  al_v : length (m_v s) = m_neuronCount s;
  al_sigma : length (m_sigma s) = m_neuronCount s;
  al_valid : length (m_valid s) = m_neuronCount s
}.

(** The parameters and the state of the neuron at a local index. *)
Definition neuronAt (s : Simulation) (l : nat) : neuron_t :=
  mkNeuron (m_a s !!! l) (m_b s !!! l) (m_c s !!! l) (m_d s !!! l)
           (m_u s !!! l) (m_v s !!! l) (m_sigma s !!! l).

(** What one iteration does when the index is in range. *)
Definition assigned (l : nat) (n : neuron_t) (s : Simulation) : Simulation :=
  mkSimulation (m_neuronCount s)
    (<[l := n_a n]> (m_a s)) (<[l := n_b n]> (m_b s))
    (<[l := n_c n]> (m_c s)) (<[l := n_d n]> (m_d s))
    (<[l := n_u n]> (m_u s)) (<[l := n_v n]> (m_v s))
    (<[l := n_sigma n]> (m_sigma s)) (<[l := true]> (m_valid s))
    (m_fired s) (m_recentFiring s) (m_cm s) (m_current s) (m_fstim s)
    (m_rng s) (m_lastFlush s) (m_stdp s) (m_timer s) (m_firedCycle s)
    (m_firedNeuron s).

Lemma atPut_in_range {X} (get : Simulation -> list X)
    (set : list X -> Simulation -> Simulation) (nidx : nat) (x : X)
    (s : Simulation) :
  (nidx < length (get s))%nat ->
  atPut get set nidx x s = (Returned, set (<[nidx := x]> (get s)) s).
Proof.
  intros Hlt. unfold atPut.
  destruct (Nat.ltb_spec nidx (length (get s))); [reflexivity | lia].
Qed.

Lemma setNeuron_in_range (i : nat) (n : neuron_t) (s : Simulation) :
  allocated s -> (localIdx i < m_neuronCount s)%nat ->
  setNeuron i n s = (Returned, assigned (localIdx i) n s).
Proof.
  intros [Ha Hb Hc Hd Hu Hv Hs Hval] Hlt. unfold setNeuron.
  do 7 (erewrite andThen_returned; [| apply atPut_in_range; cbn; lia]).
  rewrite atPut_in_range by (cbn; lia). reflexivity.
Qed.

Lemma setNeuron_out_of_range (i : nat) (n : neuron_t) (s : Simulation) :
  allocated s -> ~ (localIdx i < m_neuronCount s)%nat ->
  setNeuron i n s = (Thrown STD_OUT_OF_RANGE, s).
Proof.
  intros [Ha Hb Hc Hd Hu Hv Hs Hval] Hge.
  unfold setNeuron. unfold andThen at 1. unfold atPut at 1.
  destruct (Nat.ltb_spec (localIdx i) (length (m_a s))); [lia |].
  reflexivity.
Qed.

Lemma assigned_allocated (l : nat) (n : neuron_t) (s : Simulation) :
  allocated s -> allocated (assigned l n s).
Proof.
  intros [Ha Hb Hc Hd Hu Hv Hs Hval].
  split; cbn; rewrite length_insert; assumption.
Qed.

Lemma neuronAt_assigned (l k : nat) (n : neuron_t) (s : Simulation) :
  allocated s -> (l < m_neuronCount s)%nat ->
  neuronAt (assigned l n s) k = (if decide (l = k) then n else neuronAt s k) /\
  m_valid (assigned l n s) !!! k
  = (if decide (l = k) then true else m_valid s !!! k).
Proof.
  intros [Ha Hb Hc Hd Hu Hv Hs Hval] Hlt. unfold neuronAt. cbn.
  destruct (decide (l = k)) as [<- | Hne].
  - rewrite !list_lookup_total_insert_eq by lia. now destruct n.
  - now rewrite !list_lookup_total_insert_ne by assumption.
Qed.

(** X30.  On a simulation whose vectors have the length that the
    constructor gives them, [setNeuronParameters] returns if and only if
    the local index of every neuron of the network is below the neuron
    count, and throws [std::out_of_range] otherwise.  When it returns and
    the local indices are pairwise different, every neuron of the network
    has its parameters and state at its local index and is marked valid;
    every other index keeps its parameters and its valid flag, so that it
    stays invalid in a new simulation; and nothing else changes. *)
Theorem setNeuronParameters_spec (m_neurons : list (nat * neuron_t))
    (s : Simulation) :
  allocated s ->
  let in_range :=
    Forall (fun i => (localIdx (fst i) < m_neuronCount s)%nat) m_neurons in
  (~ in_range ->
   fst (setNeuronParameters m_neurons s) = Thrown STD_OUT_OF_RANGE) /\
  (in_range ->
   exists s',
     setNeuronParameters m_neurons s = (Returned, s') /\
     allocated s' /\ m_neuronCount s' = m_neuronCount s /\
     (NoDup (map (fun i => localIdx (fst i)) m_neurons) ->
      forall i n, (i, n) ∈ m_neurons ->
        neuronAt s' (localIdx i) = n /\ m_valid s' !!! localIdx i = true) /\
     (forall l, (forall i, i ∈ m_neurons -> localIdx (fst i) <> l) ->
        neuronAt s' l = neuronAt s l /\ m_valid s' !!! l = m_valid s !!! l) /\
     m_fired s' = m_fired s /\ m_recentFiring s' = m_recentFiring s /\
     m_cm s' = m_cm s /\ m_current s' = m_current s /\
     m_fstim s' = m_fstim s /\ m_rng s' = m_rng s /\
     m_timer s' = m_timer s /\ m_lastFlush s' = m_lastFlush s).
Proof.
  intros Halloc in_range. subst in_range. unfold setNeuronParameters.
  revert s Halloc.
  induction m_neurons as [| [i n] neurons IH]; intros s Halloc.
  - split; [intros Hn; exfalso; apply Hn; constructor |].
    intros _. exists s. split; [reflexivity |]. split; [assumption |].
    split; [reflexivity |].
    split; [intros _ i n Hin; inversion Hin |].
    split; [intros l _; split; reflexivity |].
    repeat split; reflexivity.
  - cbn [forEach fst snd].
    destruct (decide (localIdx i < m_neuronCount s)%nat) as [Hlt | Hge].
    + rewrite (andThen_returned _ _ _ _ (setNeuron_in_range i n s Halloc Hlt)).
      pose proof (assigned_allocated (localIdx i) n s Halloc) as Halloc1.
      destruct (IH (assigned (localIdx i) n s) Halloc1) as [IHfail IHok].
      change (m_neuronCount (assigned (localIdx i) n s))
        with (m_neuronCount s) in IHfail, IHok.
      split.
      * intros Hn. apply IHfail. intros Hall. apply Hn.
        constructor; [exact Hlt | exact Hall].
      * intros Hall. apply Forall_cons in Hall as [_ Hall].
        destruct (IHok Hall) as
          (s' & Hrun & Hal' & Hcount & Hset & Hkeep & Hrest).
        exists s'. split; [exact Hrun |]. split; [exact Hal' |].
        split; [exact Hcount |]. split; [| split; [| exact Hrest]].
        -- intros Hnd j m Hin. cbn [map fst] in Hnd.
           apply NoDup_cons in Hnd as [Hfresh Hnd].
           apply elem_of_cons in Hin as [Heq | Hin].
           ++ injection Heq as -> ->.
              destruct (Hkeep (localIdx i)) as [Hn' Hv'].
              { intros k Hk Heq. apply Hfresh. rewrite <- Heq.
                apply (list_elem_of_fmap_2 (fun i => localIdx (fst i)) _ _ Hk). }
              rewrite Hn', Hv'.
              destruct (neuronAt_assigned (localIdx i) (localIdx i) n s
                          Halloc Hlt) as [-> ->].
              now rewrite !decide_True by reflexivity.
           ++ now apply Hset.
        -- intros l Hl. destruct (Hkeep l) as [Hn' Hv'].
           { intros k Hk. apply Hl. apply elem_of_cons. now right. }
           rewrite Hn', Hv'.
           destruct (neuronAt_assigned (localIdx i) l n s Halloc Hlt)
             as [-> ->].
           assert (Hne : localIdx i <> l).
           { apply (Hl (i, n)). apply elem_of_cons. now left. }
           now rewrite !decide_False by assumption.
    + assert (Hstep : andThen (setNeuron i n)
                        (forEach neurons (fun i => setNeuron (fst i) (snd i))) s
                      = (Thrown STD_OUT_OF_RANGE, s)).
      { unfold andThen.
        now rewrite (setNeuron_out_of_range i n s Halloc Hge). }
      rewrite Hstep. cbn [fst].
      split; [reflexivity |].
      intros Hall. apply Forall_cons in Hall as [Hlt _]. cbn in Hlt. lia.
Qed.

End Neurons.

End CpuNeurons.

Module NeuronsDemo.
Import Cpu CpuNeurons Demo.

(** The two-neuron network of the demonstration with its vectors cleared,
    as the constructor allocates them, and two regular-spiking neurons. *)
Definition blank : Simulation :=
  mkSimulation 2 [0%Q; 0%Q] [0%Q; 0%Q] [0%Q; 0%Q] [0%Q; 0%Q] [0%Q; 0%Q]
    [0%Q; 0%Q] [0%Q; 0%Q] [false; false] [false; false] [0; 0]
    (CM.mkCM 0 ∅ [] ∅ 0) [0; 0] [false; false] [tt; tt] 0
    (mkSTDP false 0%Q 0%Q) 0 [] [].

Definition regular : neuron_t :=
  mkNeuron (2 # 100) (2 # 10) (-65 # 1) (8 # 1) (-13 # 1) (-65 # 1) 0%Q.

Lemma setNeuronParameters_spec_witness :
  allocated blank /\
  setNeuronParameters [(1%nat, regular)] blank
  = (Returned, assigned 1 regular blank) /\
  fst (setNeuronParameters [(2%nat, regular)] blank) = Thrown STD_OUT_OF_RANGE.
Proof.
  assert (Halloc : allocated blank) by (split; reflexivity).
  split; [exact Halloc |].
  destruct (setNeuronParameters_spec [(1%nat, regular)] blank Halloc)
    as [_ Hok].
  destruct (setNeuronParameters_spec [(2%nat, regular)] blank Halloc)
    as [Hfail _].
  split.
  - destruct Hok as (s' & Hrun & _); [repeat constructor |].
    rewrite Hrun. vm_compute in Hrun. injection Hrun as <-.
    vm_compute. reflexivity.
  - apply Hfail. intros Hall. apply Forall_cons in Hall as [Hlt _].
    vm_compute in Hlt. lia.
Defined.

End NeuronsDemo.
